(** * cerver: the primary index (B+ tree) and the row store

    A shallow embedding of [database/physical/b_plus_tree.c] and of the row
    operations of [database/logical/database.c], with the properties of the
    design document stated over it.

    The nodes of a tree live in a pool addressed by natural numbers; a C
    pointer is an [option nat] ([None] is [NULL]).  The arrays of a node are
    lists of the declared length, read with a default and written in place
    ([<[i:=v]>] does nothing out of range, where C would have undefined
    behaviour).  [malloc] always succeeds and returns the next unused
    address; [free] removes the cell from the pool. *)

From stdpp Require Import gmap list sorting strings.
From Stdlib Require Import ZArith Lia Ascii.

Local Open Scope Z_scope.
Local Open Scope nat_scope.

(** ** Configuration ([b_plus_tree.h]) *)

Definition MAX_KEYS : nat := 4.
Definition MIN_KEYS : nat := MAX_KEYS / 2.

Abbreviation ptr := (option nat).

(** ** Structures *)

Record BPlusTreeNode := mkNode {
  keys : list Z;            (* int keys[MAX_KEYS] *)
  file_offsets : list Z;    (* long file_offsets[MAX_KEYS] *)
  children : list ptr;      (* struct BPlusTreeNode *children[MAX_KEYS + 1] *)
  num_keys : nat;
  is_leaf : bool;
  parent : ptr;
  next : ptr
}.

(** The tree together with the pool of its nodes: [nodes] is the memory the
    node pointers point into, [brk] the next address [malloc] hands out. *)
Record BPlusTree := mkTree {
  root : ptr;
  order : nat;
  nodes : gmap nat BPlusTreeNode;
  brk : nat
}.

(** *** Field assignments *)

Definition set_key (i : nat) (v : Z) (nd : BPlusTreeNode) : BPlusTreeNode :=
  mkNode (<[i:=v]> (keys nd)) (file_offsets nd) (children nd)
         (num_keys nd) (is_leaf nd) (parent nd) (next nd).
Definition set_offset (i : nat) (v : Z) (nd : BPlusTreeNode) : BPlusTreeNode :=
  mkNode (keys nd) (<[i:=v]> (file_offsets nd)) (children nd)
         (num_keys nd) (is_leaf nd) (parent nd) (next nd).
Definition set_child (i : nat) (v : ptr) (nd : BPlusTreeNode) : BPlusTreeNode :=
  mkNode (keys nd) (file_offsets nd) (<[i:=v]> (children nd))
         (num_keys nd) (is_leaf nd) (parent nd) (next nd).
Definition set_num_keys (n : nat) (nd : BPlusTreeNode) : BPlusTreeNode :=
  mkNode (keys nd) (file_offsets nd) (children nd)
         n (is_leaf nd) (parent nd) (next nd).
Definition set_parent (p : ptr) (nd : BPlusTreeNode) : BPlusTreeNode :=
  mkNode (keys nd) (file_offsets nd) (children nd)
         (num_keys nd) (is_leaf nd) p (next nd).
Definition set_next (p : ptr) (nd : BPlusTreeNode) : BPlusTreeNode :=
  mkNode (keys nd) (file_offsets nd) (children nd)
         (num_keys nd) (is_leaf nd) (parent nd) p.

Definition key_at (nd : BPlusTreeNode) (i : nat) : Z := keys nd !!! i.
Definition offset_at (nd : BPlusTreeNode) (i : nat) : Z := file_offsets nd !!! i.
Definition child_at (nd : BPlusTreeNode) (i : nat) : ptr := children nd !!! i.

(** *** Memory *)

(** What a read through a dangling pointer yields in the model. *)
Definition null_node : BPlusTreeNode :=
  mkNode (replicate MAX_KEYS 0%Z) (replicate MAX_KEYS 0%Z)
         (replicate (MAX_KEYS + 1) None) 0 true None None.

Definition node_at (t : BPlusTree) (a : nat) : BPlusTreeNode :=
  default null_node (nodes t !! a).

(** [a->field = ...] *)
Definition store (a : nat) (f : BPlusTreeNode → BPlusTreeNode) (t : BPlusTree)
  : BPlusTree :=
  mkTree (root t) (order t) (alter f a (nodes t)) (brk t).

(** [if (p) p->field = ...] *)
Definition store_opt (p : ptr) (f : BPlusTreeNode → BPlusTreeNode)
  (t : BPlusTree) : BPlusTree :=
  match p with Some a => store a f t | None => t end.

Definition set_root (r : ptr) (t : BPlusTree) : BPlusTree :=
  mkTree r (order t) (nodes t) (brk t).

Definition free (a : nat) (t : BPlusTree) : BPlusTree :=
  mkTree (root t) (order t) (delete a (nodes t)) (brk t).

(** ** Initialization *)

(** [create_new_node]: the keys and offsets are left as [malloc] gave them
    (zeroes here), the children are set to [NULL]. *)
Definition fresh_node (leaf : bool) : BPlusTreeNode :=
  mkNode (replicate MAX_KEYS 0%Z) (replicate MAX_KEYS 0%Z)
         (replicate (MAX_KEYS + 1) None) 0 leaf None None.

Definition create_new_node (leaf : bool) (t : BPlusTree) : nat * BPlusTree :=
  (brk t,
   mkTree (root t) (order t) (<[brk t := fresh_node leaf]> (nodes t))
          (S (brk t))).

Definition initialize_tree : BPlusTree :=
  mkTree (Some 0) (MAX_KEYS + 1) {[ 0 := fresh_node true ]} 1.

(** ** Search *)

(** [while (i < current->num_keys && key >= current->keys[i]) i++;] *)
Fixpoint child_index (nd : BPlusTreeNode) (key : Z) (i fuel : nat) : nat :=
  match fuel with
  | 0 => i
  | S fuel' =>
      if bool_decide (i < num_keys nd) && bool_decide (key_at nd i ≤ key)%Z
      then child_index nd key (S i) fuel'
      else i
  end.

(** The descent is a [while] loop in the source; [fuel] bounds its length
    (a tree never is deeper than the number of addresses handed out). *)
Fixpoint find_leaf_from (fuel : nat) (t : BPlusTree) (current : nat) (key : Z)
  : ptr :=
  match fuel with
  | 0 => None
  | S fuel' =>
      let cur := node_at t current in
      if is_leaf cur then Some current
      else
        let i := child_index cur key 0 (num_keys cur) in
        match child_at cur i with
        | None => None
        | Some c => find_leaf_from fuel' t c key
        end
  end.

Definition find_leaf_node (t : BPlusTree) (node : ptr) (key : Z) : ptr :=
  match node with
  | None => None
  | Some a => find_leaf_from (S (brk t)) t a key
  end.

(** [for (i = 0; i < leaf->num_keys; i++) if (leaf->keys[i] == key) ...] *)
Fixpoint key_position (nd : BPlusTreeNode) (key : Z) (i fuel : nat)
  : option nat :=
  match fuel with
  | 0 => None
  | S fuel' =>
      if bool_decide (key_at nd i = key) then Some i
      else key_position nd key (S i) fuel'
  end.

Definition search_key (t : BPlusTree) (key : Z) : Z :=
  match root t with
  | None => (-1)%Z
  | Some _ =>
      match find_leaf_node t (root t) key with
      | None => (-1)%Z
      | Some leaf =>
          let nd := node_at t leaf in
          match key_position nd key 0 (num_keys nd) with
          | Some i => offset_at nd i
          | None => (-1)%Z
          end
      end
  end.

(** ** Insertion *)

(** The shifting loop of [insert_into_leaf].  The source counts [i] from
    [num_keys - 1] down to [-1]; [j] here is [i + 1]. *)
Fixpoint insert_into_leaf_shift (key : Z) (j : nat) (nd : BPlusTreeNode)
  : nat * BPlusTreeNode :=
  match j with
  | 0 => (0, nd)
  | S j' =>
      if bool_decide (key < key_at nd j')%Z
      then insert_into_leaf_shift key j'
             (set_offset j (offset_at nd j') (set_key j (key_at nd j') nd))
      else (j, nd)
  end.

Definition insert_into_leaf_node (key file_offset : Z) (nd : BPlusTreeNode)
  : BPlusTreeNode :=
  let '(j, nd1) := insert_into_leaf_shift key (num_keys nd) nd in
  let nd2 := set_offset j file_offset (set_key j key nd1) in
  set_num_keys (S (num_keys nd2)) nd2.

Definition insert_into_leaf (leaf : nat) (key file_offset : Z) (t : BPlusTree)
  : BPlusTree :=
  store leaf (insert_into_leaf_node key file_offset) t.

(** [for (i = node->num_keys; i > index; i--)] of [insert_into_node]. *)
Fixpoint insert_into_node_shift (i index : nat) (nd : BPlusTreeNode)
  : BPlusTreeNode :=
  match i with
  | 0 => nd
  | S i' =>
      if bool_decide (index < i)
      then insert_into_node_shift i' index
             (set_child (i + 1) (child_at nd i) (set_key i (key_at nd i') nd))
      else nd
  end.

Definition insert_into_node (node index : nat) (key : Z) (right_child : ptr)
  (t : BPlusTree) : BPlusTree :=
  let t1 := store node (λ nd, insert_into_node_shift (num_keys nd) index nd) t in
  let t2 := store node (set_key index key) t1 in
  let t3 := store node (set_child (index + 1) right_child) t2 in
  let t4 := store_opt right_child (set_parent (Some node)) t3 in
  store node (λ nd, set_num_keys (S (num_keys nd)) nd) t4.

(** [while (index < parent->num_keys && parent->children[index] != left)] *)
Fixpoint child_slot (nd : BPlusTreeNode) (child : nat) (index fuel : nat)
  : nat :=
  match fuel with
  | 0 => index
  | S fuel' =>
      if bool_decide (index < num_keys nd)
         && negb (bool_decide (child_at nd index = Some child))
      then child_slot nd child (S index) fuel'
      else index
  end.

(** The temporary arrays of a split: [(keys, offsets)] for a leaf,
    [(keys, children)] for an internal node. *)
Fixpoint split_leaf_low (nd : BPlusTreeNode) (key : Z) (i fuel : nat)
  (tk tofs : list Z) : nat * list Z * list Z :=
  match fuel with
  | 0 => (i, tk, tofs)
  | S fuel' =>
      if bool_decide (i < MAX_KEYS) && bool_decide (key_at nd i < key)%Z
      then split_leaf_low nd key (S i) fuel'
             (<[i := key_at nd i]> tk) (<[i := offset_at nd i]> tofs)
      else (i, tk, tofs)
  end.

Fixpoint split_leaf_high (nd : BPlusTreeNode) (i fuel : nat)
  (tk tofs : list Z) : list Z * list Z :=
  match fuel with
  | 0 => (tk, tofs)
  | S fuel' =>
      if bool_decide (i < MAX_KEYS)
      then split_leaf_high nd (S i) fuel'
             (<[i + 1 := key_at nd i]> tk) (<[i + 1 := offset_at nd i]> tofs)
      else (tk, tofs)
  end.

(** [temp_keys] and [temp_offsets] of a leaf split: the entries of the full
    leaf with the new one at its place. *)
Definition split_leaf_temp (nd : BPlusTreeNode) (key file_offset : Z)
  : list Z * list Z :=
  let tk0 := replicate (MAX_KEYS + 1) 0%Z in
  let '(i, tk1, to1) := split_leaf_low nd key 0 MAX_KEYS tk0 tk0 in
  let tk2 := <[i := key]> tk1 in
  let to2 := <[i := file_offset]> to1 in
  split_leaf_high nd i (MAX_KEYS - i) tk2 to2.

(** [for (i = 0; i < n; i++) { nd->keys[i] = temp_keys[base + i]; ... }] *)
Fixpoint fill_leaf (tk tofs : list Z) (base i fuel : nat) (nd : BPlusTreeNode)
  : BPlusTreeNode :=
  match fuel with
  | 0 => nd
  | S fuel' =>
      fill_leaf tk tofs base (S i) fuel'
        (set_offset i (tofs !!! (base + i)) (set_key i (tk !!! (base + i)) nd))
  end.

Fixpoint split_internal_low (nd : BPlusTreeNode) (i fuel : nat)
  (tk : list Z) (tc : list ptr) : list Z * list ptr :=
  match fuel with
  | 0 => (tk, tc)
  | S fuel' =>
      split_internal_low nd (S i) fuel'
        (<[i := key_at nd i]> tk) (<[i := child_at nd i]> tc)
  end.

Fixpoint split_internal_high (nd : BPlusTreeNode) (i fuel : nat)
  (tk : list Z) (tc : list ptr) : list Z * list ptr :=
  match fuel with
  | 0 => (tk, tc)
  | S fuel' =>
      split_internal_high nd (S i) fuel'
        (<[i + 1 := key_at nd i]> tk) (<[i + 2 := child_at nd (i + 1)]> tc)
  end.

(** [temp_keys] and [temp_children] of an internal split. *)
Definition split_internal_temp (pn : BPlusTreeNode) (index : nat) (key : Z)
  (right : nat) : list Z * list ptr :=
  let tk0 := replicate (MAX_KEYS + 1) 0%Z in
  let tc0 := replicate (MAX_KEYS + 2) (None : ptr) in
  let '(tk1, tc1) := split_internal_low pn 0 index tk0 tc0 in
  let tc2 := <[index := child_at pn index]> tc1 in
  let tk2 := <[index := key]> tk1 in
  let tc3 := <[index + 1 := Some right]> tc2 in
  split_internal_high pn index (num_keys pn - index) tk2 tc3.

Fixpoint fill_internal (tk : list Z) (tc : list ptr) (i fuel : nat)
  (nd : BPlusTreeNode) : BPlusTreeNode :=
  match fuel with
  | 0 => nd
  | S fuel' =>
      fill_internal tk tc (S i) fuel'
        (set_child i (tc !!! i) (set_key i (tk !!! i) nd))
  end.

(** The loop that fills the new right sibling of an internal split and
    re-parents the children it receives. *)
Fixpoint fill_new_internal (tk : list Z) (tc : list ptr) (base new_internal : nat)
  (i fuel : nat) (t : BPlusTree) : BPlusTree :=
  match fuel with
  | 0 => t
  | S fuel' =>
      let t1 := store new_internal (set_key i (tk !!! (base + i))) t in
      let t2 := store new_internal (set_child i (tc !!! (base + i))) t1 in
      let t3 := store_opt (child_at (node_at t2 new_internal) i)
                          (set_parent (Some new_internal)) t2 in
      fill_new_internal tk tc base new_internal (S i) fuel' t3
  end.

(** The split of a full internal node [p] that is to receive [key] and
    [right] at [index] (integrated into [insert_into_parent] in the source):
    the key to promote, the new right sibling, and the memory after it. *)
Definition split_internal_node (t : BPlusTree) (p index : nat) (key : Z)
  (right : nat) : Z * nat * BPlusTree :=
  let pn := node_at t p in
  let '(tk, tc) := split_internal_temp pn index key right in
  let '(new_internal, t1) := create_new_node false t in
  let t2 := store new_internal (set_parent (parent (node_at t1 p))) t1 in
  let split_point_key_index := MAX_KEYS / 2 in
  let k_prime := tk !!! split_point_key_index in
  let t3 := store p (set_num_keys split_point_key_index) t2 in
  let t4 := store p (λ nd, fill_internal tk tc 0 (num_keys nd) nd) t3 in
  let t5 := store p (λ nd, set_child (num_keys nd) (tc !!! num_keys nd) nd) t4 in
  let t6 := store new_internal
              (set_num_keys (MAX_KEYS - num_keys (node_at t5 p))) t5 in
  let t7 := fill_new_internal tk tc (split_point_key_index + 1)
              new_internal 0 (num_keys (node_at t6 new_internal)) t6 in
  let t8 := store new_internal
              (λ nd, set_child (num_keys nd) (tc !!! (MAX_KEYS + 1)) nd) t7 in
  let last := node_at t8 new_internal in
  let t9 := store_opt (child_at last (num_keys last))
              (set_parent (Some new_internal)) t8 in
  (k_prime, new_internal, t9).

(** [insert_into_parent] recurses towards the root; [fuel] bounds the
    recursion. *)
Fixpoint insert_into_parent_from (fuel : nat) (t : BPlusTree)
  (left : nat) (key : Z) (right : nat) : BPlusTree :=
  match parent (node_at t left) with
  | None =>
      (* Case 1: the left node was the root *)
      let '(new_root, t1) := create_new_node false t in
      let t2 := store new_root (set_key 0 key) t1 in
      let t3 := store new_root (set_child 0 (Some left)) t2 in
      let t4 := store new_root (set_child 1 (Some right)) t3 in
      let t5 := store new_root (set_num_keys 1) t4 in
      let t6 := store left (set_parent (Some new_root)) t5 in
      let t7 := store right (set_parent (Some new_root)) t6 in
      set_root (Some new_root) t7
  | Some p =>
      let pn := node_at t p in
      let index := child_slot pn left 0 (num_keys pn) in
      if bool_decide (num_keys pn < MAX_KEYS)
      then insert_into_node p index key (Some right) t
      else
        match fuel with
        | 0 => t
        | S fuel' =>
            let '(k_prime, new_internal, t9) :=
              split_internal_node t p index key right in
            insert_into_parent_from fuel' t9 p k_prime new_internal
        end
  end.

Definition insert_into_parent (t : BPlusTree) (left : nat) (key : Z)
  (right : nat) : BPlusTree :=
  insert_into_parent_from (S (brk t)) t left key right.

(** The split of the full leaf [leaf] that is to receive the new entry
    (integrated into [insert_key] in the source): the new right leaf and the
    memory after it. *)
Definition split_leaf_node (t : BPlusTree) (leaf : nat) (key file_offset : Z)
  : nat * BPlusTree :=
  let ln := node_at t leaf in
  let '(tk, tofs) := split_leaf_temp ln key file_offset in
  let '(new_leaf, t1) := create_new_node true t in
  let t2 := store new_leaf (set_parent (parent (node_at t1 leaf))) t1 in
  let split_point := (MAX_KEYS + 1) / 2 in
  let t3 := store leaf (set_num_keys split_point) t2 in
  let t4 := store leaf (fill_leaf tk tofs 0 0 split_point) t3 in
  let t5 := store new_leaf (set_num_keys (MAX_KEYS + 1 - split_point)) t4 in
  let t6 := store new_leaf
              (λ nd, fill_leaf tk tofs split_point 0 (num_keys nd) nd) t5 in
  let t7 := store new_leaf (set_next (next (node_at t6 leaf))) t6 in
  let t8 := store leaf (set_next (Some new_leaf)) t7 in
  (new_leaf, t8).

Definition insert_key (t : BPlusTree) (key file_offset : Z) : BPlusTree :=
  match root t with
  | None => t
  | Some r =>
      if is_leaf (node_at t r) && bool_decide (num_keys (node_at t r) = 0)
      then insert_into_leaf r key file_offset t
      else
        match find_leaf_node t (root t) key with
        | None => t
        | Some leaf =>
            if bool_decide (num_keys (node_at t leaf) < MAX_KEYS)
            then insert_into_leaf leaf key file_offset t
            else
              let '(new_leaf, t8) := split_leaf_node t leaf key file_offset in
              insert_into_parent t8 leaf (key_at (node_at t8 new_leaf) 0) new_leaf
        end
  end.

(** ** Deletion *)

(** [p->field] for a pointer the source dereferences without a test. *)
Definition deref (t : BPlusTree) (p : ptr) : BPlusTreeNode :=
  match p with Some a => node_at t a | None => null_node end.

(** [while (index < node->num_keys && node->keys[index] < key) index++;] *)
Fixpoint lower_bound (nd : BPlusTreeNode) (key : Z) (index fuel : nat) : nat :=
  match fuel with
  | 0 => index
  | S fuel' =>
      if bool_decide (index < num_keys nd) && bool_decide (key_at nd index < key)%Z
      then lower_bound nd key (S index) fuel'
      else index
  end.

(** [for (i = index; i < node->num_keys - 1; i++)] of [delete_entry]. *)
Fixpoint delete_entry_shift (i fuel : nat) (nd : BPlusTreeNode)
  : BPlusTreeNode :=
  match fuel with
  | 0 => nd
  | S fuel' =>
      let nd1 := set_key i (key_at nd (i + 1)) nd in
      let nd2 := if is_leaf nd1
                 then set_offset i (offset_at nd1 (i + 1)) nd1 else nd1 in
      delete_entry_shift (S i) fuel' nd2
  end.

(** [for (i = node->num_keys; i > 0; i--)] of the borrow from the left. *)
Fixpoint borrow_left_shift (i : nat) (nd : BPlusTreeNode) : BPlusTreeNode :=
  match i with
  | 0 => nd
  | S i' =>
      let nd1 := set_key i (key_at nd i') nd in
      let nd2 := if is_leaf nd1
                 then set_offset i (offset_at nd1 i') nd1
                 else set_child (i + 1) (child_at nd1 i) nd1 in
      borrow_left_shift i' nd2
  end.

(** The left shifts of the right sibling after a borrow from the right. *)
Fixpoint borrow_right_shift_leaf (i fuel : nat) (nd : BPlusTreeNode)
  : BPlusTreeNode :=
  match fuel with
  | 0 => nd
  | S fuel' =>
      borrow_right_shift_leaf (S i) fuel'
        (set_offset i (offset_at nd (i + 1)) (set_key i (key_at nd (i + 1)) nd))
  end.

Fixpoint borrow_right_shift_internal (i fuel : nat) (nd : BPlusTreeNode)
  : BPlusTreeNode :=
  match fuel with
  | 0 => nd
  | S fuel' =>
      borrow_right_shift_internal (S i) fuel'
        (set_child (i + 1) (child_at nd (i + 2))
           (set_key i (key_at nd (i + 1)) nd))
  end.

(** The copying loop of [merge_nodes]. *)
Fixpoint merge_copy (left_node right_node : nat) (i fuel : nat) (t : BPlusTree)
  : BPlusTree :=
  match fuel with
  | 0 => t
  | S fuel' =>
      let t1 := store left_node
                  (λ nd, set_key (num_keys nd)
                           (key_at (node_at t right_node) i) nd) t in
      let t2 :=
        if is_leaf (node_at t1 left_node)
        then store left_node
               (λ nd, set_offset (num_keys nd)
                        (offset_at (node_at t1 right_node) i) nd) t1
        else
          let t1' := store left_node
                       (λ nd, set_child (num_keys nd)
                                (child_at (node_at t1 right_node) i) nd) t1 in
          let ln := node_at t1' left_node in
          store_opt (child_at ln (num_keys ln)) (set_parent (Some left_node)) t1'
      in
      let t3 := store left_node (λ nd, set_num_keys (S (num_keys nd)) nd) t2 in
      merge_copy left_node right_node (S i) fuel' t3
  end.

(** [for (i = k_prime_index; i < parent->num_keys - 1; i++)] of
    [merge_nodes]. *)
Fixpoint merge_parent_shift (i fuel : nat) (nd : BPlusTreeNode)
  : BPlusTreeNode :=
  match fuel with
  | 0 => nd
  | S fuel' =>
      merge_parent_shift (S i) fuel'
        (set_child (i + 1) (child_at nd (i + 2))
           (set_key i (key_at nd (i + 1)) nd))
  end.

(** The part of [merge_nodes] before the check of the parent: the entries of
    [right_node] are moved into [left_node], the separator and the pointer
    to [right_node] leave [p], the parent, and [right_node] is freed. *)
Definition merge_nodes_body (t : BPlusTree) (left_node right_node p : nat)
  (k_prime_index : nat) (k_prime : Z) : BPlusTree :=
  let t1 :=
    if negb (is_leaf (node_at t left_node))
    then store left_node (λ nd, set_num_keys (S (num_keys nd)) nd)
           (store left_node (λ nd, set_key (num_keys nd) k_prime nd) t)
    else t in
  let t2 := merge_copy left_node right_node 0
              (num_keys (node_at t1 right_node)) t1 in
  let t3 :=
    if negb (is_leaf (node_at t2 left_node))
    then
      let rn := node_at t2 right_node in
      let t2' := store left_node
                   (λ nd, set_child (num_keys nd)
                            (child_at rn (num_keys rn)) nd) t2 in
      let ln := node_at t2' left_node in
      store_opt (child_at ln (num_keys ln)) (set_parent (Some left_node)) t2'
    else t2 in
  let t4 :=
    if is_leaf (node_at t3 left_node)
    then store left_node (set_next (next (node_at t3 right_node))) t3
    else t3 in
  let t5 := store p (λ nd, merge_parent_shift k_prime_index
                             (num_keys nd - 1 - k_prime_index) nd) t4 in
  let t6 := store p (λ nd, set_child (num_keys nd) None nd) t5 in
  let t7 := store p (λ nd, set_num_keys (num_keys nd - 1) nd) t6 in
  free right_node t7.

(** [merge_nodes], with the recursive call to [handle_underflow] passed in
    (the two functions are mutually recursive in the source). *)
Definition merge_nodes_with (underflow : BPlusTree → ptr → BPlusTree)
  (t : BPlusTree) (left_node right_node : nat) (k_prime_index : nat)
  (k_prime : Z) : BPlusTree :=
  match parent (node_at t left_node) with
  | None => t (* the source dereferences [parent] *)
  | Some p =>
      let t8 := merge_nodes_body t left_node right_node p k_prime_index
                  k_prime in
      if negb (bool_decide (Some p = root t8))
         && bool_decide (num_keys (node_at t8 p) < MIN_KEYS)
      then underflow t8 (Some p)
      else if bool_decide (num_keys (deref t8 (root t8)) = 0)
              && negb (is_leaf (deref t8 (root t8)))
      then
        match root t8 with
        | None => t8
        | Some old_root =>
            let t9 := set_root (Some left_node) t8 in
            let t10 := store left_node (set_parent None) t9 in
            free old_root t10
        end
      else t8
  end.

(** [while (i <= parent->num_keys && parent->children[i] != node) i++;] *)
Fixpoint node_index (nd : BPlusTreeNode) (child : nat) (index fuel : nat)
  : nat :=
  match fuel with
  | 0 => index
  | S fuel' =>
      if bool_decide (index ≤ num_keys nd)
         && negb (bool_decide (child_at nd index = Some child))
      then node_index nd child (S index) fuel'
      else index
  end.

Definition borrow_from_left (t : BPlusTree) (node p left_sibling : nat)
  (node_index_in_parent : nat) : BPlusTree :=
  let k_prime_index := node_index_in_parent - 1 in
  let t1 := store node (λ nd, borrow_left_shift (num_keys nd) nd) t in
  let t2 := if negb (is_leaf (node_at t1 node))
            then store node (λ nd, set_child 1 (child_at nd 0) nd) t1
            else t1 in
  let t3 :=
    if is_leaf (node_at t2 node)
    then
      let ls := node_at t2 left_sibling in
      let a1 := store node (set_key 0 (key_at ls (num_keys ls - 1))) t2 in
      let ls := node_at a1 left_sibling in
      let a2 := store node (set_offset 0 (offset_at ls (num_keys ls - 1))) a1 in
      store p (set_key k_prime_index (key_at (node_at a2 node) 0)) a2
    else
      let a1 := store node (set_key 0 (key_at (node_at t2 p) k_prime_index)) t2 in
      let ls := node_at a1 left_sibling in
      let a2 := store node (set_child 0 (child_at ls (num_keys ls))) a1 in
      let a3 := store_opt (child_at (node_at a2 node) 0)
                  (set_parent (Some node)) a2 in
      let ls := node_at a3 left_sibling in
      store p (set_key k_prime_index (key_at ls (num_keys ls - 1))) a3 in
  let t4 := store left_sibling (λ nd, set_num_keys (num_keys nd - 1) nd) t3 in
  store node (λ nd, set_num_keys (S (num_keys nd)) nd) t4.

Definition borrow_from_right (t : BPlusTree) (node p right_sibling : nat)
  (node_index_in_parent : nat) : BPlusTree :=
  let k_prime_index := node_index_in_parent in
  let t3 :=
    if is_leaf (node_at t node)
    then
      let a1 := store node
                  (λ nd, set_key (num_keys nd)
                           (key_at (node_at t right_sibling) 0) nd) t in
      let a2 := store node
                  (λ nd, set_offset (num_keys nd)
                           (offset_at (node_at a1 right_sibling) 0) nd) a1 in
      let a3 := store p (set_key k_prime_index
                           (key_at (node_at a2 right_sibling) 1)) a2 in
      store right_sibling
        (λ nd, borrow_right_shift_leaf 0 (num_keys nd - 1) nd) a3
    else
      let a1 := store node
                  (λ nd, set_key (num_keys nd)
                           (key_at (node_at t p) k_prime_index) nd) t in
      let a2 := store node
                  (λ nd, set_child (num_keys nd + 1)
                           (child_at (node_at a1 right_sibling) 0) nd) a1 in
      let nn := node_at a2 node in
      let a3 := store_opt (child_at nn (num_keys nn + 1))
                  (set_parent (Some node)) a2 in
      let a4 := store p (set_key k_prime_index
                           (key_at (node_at a3 right_sibling) 0)) a3 in
      let a5 := store right_sibling (λ nd, set_child 0 (child_at nd 1) nd) a4 in
      let a6 := store right_sibling
                  (λ nd, borrow_right_shift_internal 0 (num_keys nd - 1) nd) a5 in
      store right_sibling (λ nd, set_child (num_keys nd) None nd) a6 in
  let t4 := store right_sibling (λ nd, set_num_keys (num_keys nd - 1) nd) t3 in
  store node (λ nd, set_num_keys (S (num_keys nd)) nd) t4.

(** [handle_underflow] and [merge_nodes] climb towards the root; [fuel]
    bounds the recursion. *)
Fixpoint handle_underflow_from (fuel : nat) (t : BPlusTree) (node : ptr)
  : BPlusTree :=
  match node with
  | None => t
  | Some n =>
      if bool_decide (node = root t)
         || bool_decide (MIN_KEYS ≤ num_keys (node_at t n))
      then t
      else
        match parent (node_at t n) with
        | None => t
        | Some p =>
            let pn := node_at t p in
            let node_index_in_parent := node_index pn n 0 (S (num_keys pn)) in
            if bool_decide (num_keys pn < node_index_in_parent) then t
            else
              let left_sibling := child_at pn (node_index_in_parent - 1) in
              let right_sibling := child_at pn (node_index_in_parent + 1) in
              if bool_decide (0 < node_index_in_parent)
                 && bool_decide (MIN_KEYS < num_keys (deref t left_sibling))
              then
                match left_sibling with
                | Some ls => borrow_from_left t n p ls node_index_in_parent
                | None => t
                end
              else if bool_decide (node_index_in_parent < num_keys pn)
                      && bool_decide (MIN_KEYS < num_keys (deref t right_sibling))
              then
                match right_sibling with
                | Some rs => borrow_from_right t n p rs node_index_in_parent
                | None => t
                end
              else
                match fuel with
                | 0 => t
                | S fuel' =>
                    if bool_decide (0 < node_index_in_parent)
                    then
                      match left_sibling with
                      | Some ls =>
                          merge_nodes_with (handle_underflow_from fuel') t ls n
                            (node_index_in_parent - 1)
                            (key_at pn (node_index_in_parent - 1))
                      | None => t
                      end
                    else
                      match right_sibling with
                      | Some rs =>
                          merge_nodes_with (handle_underflow_from fuel') t n rs
                            node_index_in_parent
                            (key_at pn node_index_in_parent)
                      | None => t
                      end
                end
        end
  end.

Definition handle_underflow (t : BPlusTree) (node : ptr) : BPlusTree :=
  handle_underflow_from (S (brk t)) t node.

Definition merge_nodes (t : BPlusTree) (left_node right_node : nat)
  (k_prime_index : nat) (k_prime : Z) : BPlusTree :=
  merge_nodes_with (handle_underflow_from (S (brk t))) t left_node right_node
    k_prime_index k_prime.

Definition delete_entry (t : BPlusTree) (node : nat) (key : Z) : BPlusTree :=
  let nd := node_at t node in
  let index := lower_bound nd key 0 (num_keys nd) in
  if bool_decide (index = num_keys nd) || negb (bool_decide (key_at nd index = key))
  then t
  else
    let t1 := store node
                (λ nd, delete_entry_shift index (num_keys nd - 1 - index) nd) t in
    let t2 := store node (λ nd, set_num_keys (num_keys nd - 1) nd) t1 in
    if negb (bool_decide (Some node = root t2))
       && bool_decide (num_keys (node_at t2 node) < MIN_KEYS)
    then handle_underflow t2 (Some node)
    else if bool_decide (num_keys (deref t2 (root t2)) = 0)
            && negb (is_leaf (deref t2 (root t2)))
    then
      match root t2 with
      | None => t2
      | Some old_root =>
          let t3 := set_root (child_at (node_at t2 old_root) 0) t2 in
          let t4 := store_opt (root t3) (set_parent None) t3 in
          free old_root t4
      end
    else t2.

Definition delete_key (t : BPlusTree) (key : Z) : BPlusTree :=
  match root t with
  | None => t
  | Some _ =>
      match find_leaf_node t (root t) key with
      | None => t
      | Some leaf =>
          let nd := node_at t leaf in
          match key_position nd key 0 (num_keys nd) with
          | None => t
          | Some _ => delete_entry t leaf key
          end
      end
  end.

(** ** Traversals (the ones [print_tree] performs) *)

(** The keys of the subtree at [a], children first to last. *)
Fixpoint inorder_from (fuel : nat) (t : BPlusTree) (a : nat) : list Z :=
  match fuel with
  | 0 => []
  | S fuel' =>
      let nd := node_at t a in
      if is_leaf nd then take (num_keys nd) (keys nd)
      else
        concat (map (λ c : ptr, match c with
                                | Some c => inorder_from fuel' t c
                                | None => []
                                end)
                    (take (S (num_keys nd)) (children nd)))
  end.

(** [while (current && !current->is_leaf) current = current->children[0];] *)
Fixpoint leftmost_from (fuel : nat) (t : BPlusTree) (current : ptr) : ptr :=
  match fuel, current with
  | S fuel', Some a =>
      if is_leaf (node_at t a) then current
      else leftmost_from fuel' t (child_at (node_at t a) 0)
  | _, _ => None
  end.

(** [while (current) { ...keys...; current = current->next; }] *)
Fixpoint chain_from (fuel : nat) (t : BPlusTree) (current : ptr) : list Z :=
  match fuel, current with
  | S fuel', Some a =>
      let nd := node_at t a in
      take (num_keys nd) (keys nd) ++ chain_from fuel' t (next nd)
  | _, _ => []
  end.

Definition inorder_keys (t : BPlusTree) : list Z :=
  match root t with
  | Some r => inorder_from (S (brk t)) t r
  | None => []
  end.

Definition leaf_chain_keys (t : BPlusTree) : list Z :=
  chain_from (S (brk t)) t (leftmost_from (S (brk t)) t (root t)).

(** The nodes below (and including) [a]. *)
Fixpoint subtree_nodes (fuel : nat) (t : BPlusTree) (a : nat) : list nat :=
  match fuel with
  | 0 => []
  | S fuel' =>
      let nd := node_at t a in
      a :: (if is_leaf nd then []
            else concat (map (λ c : ptr, match c with
                                         | Some c => subtree_nodes fuel' t c
                                         | None => []
                                         end)
                             (take (S (num_keys nd)) (children nd))))
  end.

Definition tree_nodes (t : BPlusTree) : list nat :=
  match root t with
  | Some r => subtree_nodes (S (brk t)) t r
  | None => []
  end.

(** * The row store ([database.h], [database.c]) *)

(** ** Configuration *)

Definition MAX_TABLES : nat := 100.
Definition MAX_COLUMNS : nat := 100.
Definition MAX_ROW_LEN : nat := 4096.
Definition FILENAME_BUF_SIZE : nat := 256.
Definition DELETED_MARKER : ascii := "#"%char.

(** ** C strings and streams *)

(** A C string is the list of its characters; the terminating NUL is not
    part of it, and a NUL inside a buffer ends the string held there. *)
Abbreviation cstring := (list ascii).

Definition NUL : ascii := Ascii.zero.
Definition LF : ascii := "010"%char.

Fixpoint c_str (buffer : list ascii) : cstring :=
  match buffer with
  | [] => []
  | c :: r => if bool_decide (c = NUL) then [] else c :: c_str r
  end.

(** [strncpy(dst, src, n); dst[n] = '\0';] as far as the string left in
    [dst] goes. *)
Definition strncpy (src : cstring) (n : nat) : cstring := take n (c_str src).

(** An open stream.  [contents] are the bytes of the file, [position] the
    file position indicator, and [script] the outcomes of the coming
    library calls on the stream ([false]: the call fails; calls beyond the
    script succeed). *)
Record FILE := mkFile {
  path : string;
  contents : list ascii;
  position : nat;
  script : list bool
}.

Definition io_call (f : FILE) : bool * FILE :=
  match script f with
  | [] => (true, f)
  | ok :: rest => (ok, mkFile (path f) (contents f) (position f) rest)
  end.

Definition fseek_end (f : FILE) : bool * FILE :=
  let '(ok, f1) := io_call f in
  if ok then (true, mkFile (path f1) (contents f1) (length (contents f1)) (script f1))
  else (false, f1).

Definition fseek_set (f : FILE) (offset : Z) : bool * FILE :=
  let '(ok, f1) := io_call f in
  if ok && bool_decide (0 ≤ offset)%Z
  then (true, mkFile (path f1) (contents f1) (Z.to_nat offset) (script f1))
  else (false, f1).

Definition ftell (f : FILE) : Z * FILE :=
  let '(ok, f1) := io_call f in
  if ok then (Z.of_nat (position f1), f1) else ((-1)%Z, f1).

(** Writing at the position indicator overwrites what is there and extends
    the file; a gap left by a seek past the end reads as NULs.  A failed
    write leaves the file as it was. *)
Definition write_at (pos : nat) (bytes data : list ascii) : list ascii :=
  take pos (data ++ replicate (pos - length data) NUL)
  ++ bytes ++ drop (pos + length bytes) data.

Definition fwrite (f : FILE) (bytes : list ascii) : bool * FILE :=
  let '(ok, f1) := io_call f in
  if ok
  then (true, mkFile (path f1) (write_at (position f1) bytes (contents f1))
                (position f1 + length bytes) (script f1))
  else (false, f1).

Definition fflush (f : FILE) : bool * FILE := io_call f.

(** The characters [fgets] stores: up to [n] of them, ending after the first
    newline. *)
Fixpoint read_line (n : nat) (data : list ascii) : list ascii :=
  match n, data with
  | S n', c :: r => c :: (if bool_decide (c = LF) then [] else read_line n' r)
  | _, _ => []
  end.

(** [fgets(buffer, size, f)]: [None] at end of file or on a read error. *)
Definition fgets (size : nat) (f : FILE) : option (list ascii) * FILE :=
  let '(ok, f1) := io_call f in
  if ok
  then
    let line := read_line (size - 1) (drop (position f1) (contents f1)) in
    match line with
    | [] => (None, f1)
    | _ => (Some line, mkFile (path f1) (contents f1)
                         (position f1 + length line) (script f1))
    end
  else (None, f1).

(** ** Structures *)

(** The lock of a table is not modelled: the operations below are the
    bodies that run with the lock held. *)
Record Table := mkTable {
  name : string;
  columns : list string;
  column_count : nat;
  primary_index : BPlusTree;
  data_file : option FILE
}.

Definition with_file (tb : Table) (f : option FILE) : Table :=
  mkTable (name tb) (columns tb) (column_count tb) (primary_index tb) f.
Definition with_index (tb : Table) (ix : BPlusTree) : Table :=
  mkTable (name tb) (columns tb) (column_count tb) ix (data_file tb).

(** ** Row operations *)

(** The sanitizing loop: a delimiter, a newline or the delete marker inside
    a value is replaced by an underscore. *)
Definition sanitize_char (c : ascii) : ascii :=
  if bool_decide (c = "|"%char) || bool_decide (c = LF)
     || bool_decide (c = DELETED_MARKER)
  then "_"%char else c.

Definition sanitize (s : cstring) : cstring := map sanitize_char s.

(** [values[i]], the empty string when it is NULL; an index past the array
    reads as NULL. *)
Definition value_at (values : list (option cstring)) (i : nat) : cstring :=
  default [] (mjoin (values !! i)).

(** The column loop shared by [insert_row] and [update_row]. *)
Fixpoint write_columns (column_count : nat) (values : list (option cstring))
  (i fuel : nat) (f : FILE) : bool * FILE :=
  match fuel with
  | 0 => (true, f)
  | S fuel' =>
      let sanitized_value :=
        sanitize (strncpy (value_at values i) (MAX_ROW_LEN - 1)) in
      let '(ok, f1) :=
        fwrite f (sanitized_value
                  ++ [if bool_decide (i = column_count - 1) then LF else "|"%char]) in
      if ok then write_columns column_count values (S i) fuel' f1
      else (false, f1)
  end.

(** Steps 2 to 5 of [insert_row], also steps 2a to 2d of [update_row]:
    seek to the end, take the offset, write the marker and the columns,
    flush.  [None] when one of the calls failed. *)
Definition append_row (column_count : nat) (values : list (option cstring))
  (f : FILE) : option Z * FILE :=
  let '(ok, f1) := fseek_end f in
  if negb ok then (None, f1) else
  let '(current_offset, f2) := ftell f1 in
  if bool_decide (current_offset = (-1)%Z) then (None, f2) else
  let '(ok, f3) := fwrite f2 [" "%char] in
  if negb ok then (None, f3) else
  let '(ok, f4) := write_columns column_count values 0 column_count f3 in
  if negb ok then (None, f4) else
  let '(ok, f5) := fflush f4 in
  if negb ok then (None, f5) else
  (Some current_offset, f5).

Definition insert_row (tb : Table) (primary_key : Z)
  (values : list (option cstring)) : Z * Table :=
  match data_file tb with
  | None => ((-1)%Z, tb)
  | Some f =>
      if negb (bool_decide (search_key (primary_index tb) primary_key = (-1)%Z))
      then ((-1)%Z, tb)
      else
        match append_row (column_count tb) values f with
        | (None, f') => ((-1)%Z, with_file tb (Some f'))
        | (Some current_offset, f') =>
            (current_offset,
             with_index (with_file tb (Some f'))
               (insert_key (primary_index tb) primary_key current_offset))
        end
  end.

(** [strtok_r(s, delims, &saveptr)]: the next token and what is left after
    the delimiter that ended it. *)
Definition is_delim (delims : list ascii) (c : ascii) : bool :=
  bool_decide (c ∈ delims).

Fixpoint skip_delims (delims : list ascii) (s : cstring) : cstring :=
  match s with
  | c :: r => if is_delim delims c then skip_delims delims r else s
  | [] => []
  end.

Fixpoint token_of (delims : list ascii) (s : cstring) : cstring * cstring :=
  match s with
  | c :: r =>
      if is_delim delims c then ([], r)
      else let '(tok, rest) := token_of delims r in (c :: tok, rest)
  | [] => ([], [])
  end.

Definition strtok_r (delims : list ascii) (s : cstring)
  : option (cstring * cstring) :=
  match skip_delims delims s with
  | [] => None
  | s' => Some (token_of delims s')
  end.

(** The delimiters [read_row] parses with. *)
Definition row_delims : list ascii := ["|"%char; LF].

(** [while (token != NULL && col_idx < table->column_count)] of [read_row]:
    the tokens taken and their number [col_idx]. *)
Fixpoint parse_columns (fuel : nat) (token : option (cstring * cstring))
  : list cstring :=
  match fuel, token with
  | S fuel', Some (tok, rest) =>
      tok :: parse_columns fuel' (strtok_r row_delims rest)
  | _, _ => []
  end.

Definition read_row (tb : Table) (primary_key : Z)
  : option (list cstring) * Table :=
  match data_file tb with
  | None => (None, tb)
  | Some f =>
      let file_offset := search_key (primary_index tb) primary_key in
      if bool_decide (file_offset = (-1)%Z) then (None, tb) else
      let '(ok, f1) := fseek_set f file_offset in
      if negb ok then (None, with_file tb (Some f1)) else
      match fgets MAX_ROW_LEN f1 with
      | (None, f2) => (None, with_file tb (Some f2))
      | (Some buffer, f2) =>
          let tb2 := with_file tb (Some f2) in
          let marker := hd NUL buffer in
          if bool_decide (marker = DELETED_MARKER) then (None, tb2) else
          if negb (bool_decide (marker = " "%char)) then (None, tb2) else
          let row_data :=
            parse_columns (column_count tb)
              (strtok_r row_delims (c_str (tl buffer))) in
          if negb (bool_decide (length row_data = column_count tb))
          then (None, tb2)
          else (Some row_data, tb2)
      end
  end.

Definition delete_row (tb : Table) (primary_key : Z) : Z * Table :=
  match data_file tb with
  | None => ((-1)%Z, tb)
  | Some f =>
      let file_offset := search_key (primary_index tb) primary_key in
      if bool_decide (file_offset = (-1)%Z) then ((-1)%Z, tb) else
      let '(ok, f1) := fseek_set f file_offset in
      if negb ok then ((-1)%Z, with_file tb (Some f1)) else
      let '(ok, f2) := fwrite f1 [DELETED_MARKER] in
      if negb ok then ((-1)%Z, with_file tb (Some f2)) else
      let '(ok, f3) := fflush f2 in
      if negb ok then ((-1)%Z, with_file tb (Some f3)) else
      (0%Z, with_index (with_file tb (Some f3))
              (delete_key (primary_index tb) primary_key))
  end.

Definition update_row (tb : Table) (primary_key : Z)
  (new_values : list (option cstring)) : Z * Table :=
  match data_file tb with
  | None => ((-1)%Z, tb)
  | Some f =>
      let old_offset := search_key (primary_index tb) primary_key in
      if bool_decide (old_offset = (-1)%Z) then ((-1)%Z, tb) else
      let '(ok, f1) := fseek_set f old_offset in
      if negb ok then ((-1)%Z, with_file tb (Some f1)) else
      let '(ok, f2) := fwrite f1 [DELETED_MARKER] in
      if negb ok then ((-1)%Z, with_file tb (Some f2)) else
      let '(ok, f3) := fflush f2 in
      if negb ok then ((-1)%Z, with_file tb (Some f3)) else
      match append_row (column_count tb) new_values f3 with
      | (None, f') => ((-1)%Z, with_file tb (Some f'))
      | (Some new_offset, f') =>
          (new_offset,
           with_index (with_file tb (Some f'))
             (insert_key (delete_key (primary_index tb) primary_key)
                primary_key new_offset))
      end
  end.

(** ** Files on disk, table creation and compaction *)

(** The files of the machine by path.  A stream holds the bytes of its file
    while it is open; [fclose] writes them back. *)
Abbreviation disk := (gmap string (list ascii)).

Record Database := mkDatabase {
  db_name : string;
  tables : list Table
}.

(** [snprintf(buffer, size, ...)] keeps [size - 1] characters. *)
Definition snprintf (size : nat) (s : string) : string :=
  String.substring 0 (size - 1) s.

Definition tolower (c : ascii) : ascii :=
  let n := nat_of_ascii c in
  if bool_decide (65 ≤ n) && bool_decide (n ≤ 90) then ascii_of_nat (n + 32)
  else c.

Fixpoint lowercase (s : string) : string :=
  match s with
  | EmptyString => EmptyString
  | String c r => String (tolower c) (lowercase r)
  end.

(** A relative file name is looked up in the working directory. *)
Definition in_cwd (cwd file : string) : string := cwd +:+ "/" +:+ file.

(** [join_project_path(buffer, size, path)] *)
Definition join_project_path (cwd : string) (size : nat) (p : string) : string :=
  snprintf size (cwd +:+ "/" +:+ p).

Definition fopen_update (d : disk) (file : string) : option FILE :=
  match d !! file with
  | Some data => Some (mkFile file data 0 [])
  | None => None
  end.

Definition fclose (d : disk) (f : FILE) : disk := <[path f := contents f]> d.

(** The file [create_table] opens for a table called [table_name]. *)
Definition data_file_name (cwd table_name : string) : string :=
  let lowercase_name := lowercase (snprintf FILENAME_BUF_SIZE table_name) in
  let scaffolded_path :=
    join_project_path cwd FILENAME_BUF_SIZE "scaffolded_resources" in
  let resource_dir :=
    snprintf FILENAME_BUF_SIZE (scaffolded_path +:+ "/" +:+ lowercase_name) in
  snprintf FILENAME_BUF_SIZE
    (resource_dir +:+ "/" +:+ lowercase_name +:+ ".dat").

(** [create_table], for the run in which [mkdir -p] makes the directory of
    the table and both calls of [fopen] open the data file: the checks of
    the arguments and of the database are those of the source, and a file
    system that refuses the directory or the file is not part of this
    definition. *)
Definition create_table (cwd : string) (d : disk) (db : Database)
  (table_name : string) (cols : list string) (count : nat)
  : option Table * Database * disk :=
  if bool_decide (MAX_TABLES ≤ length (tables db)) then (None, db, d) else
  if bool_decide (table_name = "") then (None, db, d) else
  if bool_decide (count = 0) || bool_decide (MAX_COLUMNS < count)
  then (None, db, d) else
  if bool_decide (Exists (λ tb, name tb = table_name) (tables db))
  then (None, db, d) else
  if bool_decide (Exists (λ c, c = "") (take count cols)) then (None, db, d) else
  let filename := data_file_name cwd table_name in
  (* fopen(filename, "a+b") creates the file when it is absent *)
  let d1 := match d !! filename with Some _ => d | None => <[filename := []]> d end in
  match fopen_update d1 filename with
  | None => (None, db, d1)
  | Some f =>
      let tb := mkTable table_name (take count cols) count initialize_tree (Some f) in
      (Some tb, mkDatabase (db_name db) (tables db ++ [tb]), d1)
  end.

(** [atoi(s)] is [(int) strtol(s, NULL, 10)]: white space, a sign and the
    decimal digits that follow; [strtol] keeps the number within the range
    of [long] (64 bits), and the conversion to [int] keeps its low 32 bits. *)
Definition is_space (c : ascii) : bool :=
  let n := nat_of_ascii c in
  bool_decide (n = 32) || (bool_decide (9 ≤ n) && bool_decide (n ≤ 13)).

Definition digit_of (c : ascii) : option Z :=
  let n := nat_of_ascii c in
  if bool_decide (48 ≤ n) && bool_decide (n ≤ 57)
  then Some (Z.of_nat (n - 48)) else None.

Fixpoint atoi_digits (acc : Z) (s : cstring) : Z :=
  match s with
  | c :: r =>
      match digit_of c with
      | Some v => atoi_digits (acc * 10 + v) r
      | None => acc
      end
  | [] => acc
  end.

(** The number that the text begins with, before any range applies. *)
Fixpoint number_of (s : cstring) : Z :=
  match s with
  | c :: r =>
      if is_space c then number_of r
      else if bool_decide (c = "-"%char) then (- atoi_digits 0 r)%Z
      else if bool_decide (c = "+"%char) then atoi_digits 0 r
      else atoi_digits 0 s
  | [] => 0%Z
  end.

Definition LONG_MAX : Z := 9223372036854775807%Z.
Definition LONG_MIN : Z := (-9223372036854775808)%Z.

Definition strtol (s : cstring) : Z :=
  Z.max LONG_MIN (Z.min LONG_MAX (number_of s)).

(** The conversion of a [long] to [int]. *)
Definition to_int (z : Z) : Z :=
  ((z + 2147483648) mod 4294967296 - 2147483648)%Z.

Definition atoi (s : cstring) : Z := to_int (strtol s).

(** The reading loop of [compact_table]: [f] is the table's stream, [temp]
    the temporary file.  [None] when a write to the temporary file failed
    and the compaction is abandoned. *)
Fixpoint compact_rows (fuel : nat) (f temp : FILE) (new_index : BPlusTree)
  (current_write_offset : Z) : FILE * option (FILE * BPlusTree) :=
  match fuel with
  | 0 => (f, Some (temp, new_index))
  | S fuel' =>
      match fgets MAX_ROW_LEN f with
      | (None, f1) => (f1, Some (temp, new_index))
      | (Some buffer, f1) =>
          if bool_decide (hd NUL buffer = " "%char)
          then
            let temp_buffer_for_parse :=
              strncpy (tl buffer) (MAX_ROW_LEN - 1) in
            match strtok_r ["|"%char] temp_buffer_for_parse with
            | Some (first_col, _) =>
                let primary_key := atoi first_col in
                let '(ok, temp1) := fwrite temp (c_str buffer) in
                if negb ok then (f1, None) else
                let new_index1 :=
                  insert_key new_index primary_key current_write_offset in
                let '(offset, temp2) := ftell temp1 in
                if bool_decide (offset = (-1)%Z) then (f1, None)
                else compact_rows fuel' f1 temp2 new_index1 offset
            | None => compact_rows fuel' f1 temp new_index current_write_offset
            end
          else compact_rows fuel' f1 temp new_index current_write_offset
      end
  end.

Definition compact_table (cwd : string) (d : disk) (tb : Table)
  : disk * Table :=
  match data_file tb with
  | None => (d, tb)
  | Some f =>
      let temp_filename :=
        in_cwd cwd (snprintf FILENAME_BUF_SIZE (name tb +:+ ".tmp")) in
      let temp_file := mkFile temp_filename [] 0 [] in
      let d0 := <[temp_filename := []]> d in
      let new_index := initialize_tree in
      let f0 := mkFile (path f) (contents f) 0 (script f) in (* rewind *)
      match compact_rows (S (length (contents f0))) f0 temp_file new_index 0 with
      | (f1, None) =>
          (delete temp_filename d0, with_file tb (Some f1))
      | (f1, Some (temp1, new_index1)) =>
          let '(ok, temp2) := fflush temp1 in
          if negb ok then (delete temp_filename d0, with_file tb (Some f1)) else
          let d1 := fclose d0 temp2 in
          let d2 := fclose d1 f1 in
          let tb1 := with_file tb None in
          let old_filename :=
            in_cwd cwd (snprintf FILENAME_BUF_SIZE (name tb +:+ ".dat")) in
          match d2 !! old_filename with
          | None =>
              (* remove(old_filename) fails *)
              (delete temp_filename d2, tb1)
          | Some _ =>
              let d3 := delete old_filename d2 in
              match d3 !! temp_filename with
              | None => (d3, tb1) (* rename fails *)
              | Some data =>
                  let d4 := <[old_filename := data]> (delete temp_filename d3) in
                  match fopen_update d4 old_filename with
                  | None => (d4, tb1)
                  | Some f' => (d4, with_index (with_file tb1 (Some f')) new_index1)
                  end
              end
          end
      end
  end.

(** * The abstract view of an index *)

(** ** Trees *)

(** The tree a pool of nodes holds, with the address of every node. *)
Inductive bt : Type :=
| BLeaf (a : nat) (ks os : list Z)
| BNode (a : nat) (ks : list Z) (cs : list bt).

Definition addr (T : bt) : nat :=
  match T with BLeaf a _ _ | BNode a _ _ => a end.
Definition bkeys (T : bt) : list Z :=
  match T with BLeaf _ ks _ | BNode _ ks _ => ks end.

(** What an in-order walk meets: a leaf or a separator of an internal
    node. *)
Inductive item :=
| ILeaf (a : nat) (ks os : list Z)
| ISep (k : Z).

Fixpoint interleave {A} (ls : list (list A)) (ss : list A) : list A :=
  match ls with
  | [] => []
  | l :: ls' =>
      l ++ match ss with
           | [] => concat ls'
           | s :: ss' => s :: interleave ls' ss'
           end
  end.

Fixpoint trav (T : bt) : list item :=
  match T with
  | BLeaf a ks os => [ILeaf a ks os]
  | BNode a ks cs => interleave (map trav cs) (map ISep ks)
  end.

(** Keys are doubled so that a separator [k] sorts between the keys below
    [k] and the keys from [k] on. *)
Definition item_io (it : item) : list Z :=
  match it with
  | ILeaf _ ks _ => map (λ k, 2 * k + 1)%Z ks
  | ISep k => [(2 * k)%Z]
  end.
Definition item_conts (it : item) : list (Z * Z) :=
  match it with ILeaf _ ks os => zip ks os | _ => [] end.
Definition item_leaf (it : item) : list nat :=
  match it with ILeaf a _ _ => [a] | _ => [] end.

Definition io (T : bt) : list Z := trav T ≫= item_io.
Definition conts (T : bt) : list (Z * Z) := trav T ≫= item_conts.

(** The addresses of the nodes, parents first. *)
Fixpoint addrs (T : bt) : list nat :=
  match T with
  | BLeaf a _ _ => [a]
  | BNode a _ cs => a :: (cs ≫= addrs)
  end.
Definition laddrs (T : bt) : list nat := trav T ≫= item_leaf.

Fixpoint ssorted (l : list Z) : Prop :=
  match l with
  | [] => True
  | x :: r => Forall (Z.lt x) r ∧ ssorted r
  end.

(** ** One-hole contexts *)

(** A node with one child taken out: [cl] and [cr] are the children to the
    left and right of the hole, [kl] and [kr] the separators. *)
Record frame := mkFrame {
  fa : nat; kl : list Z; cl : list bt; kr : list Z; cr : list bt }.

Definition fill (f : frame) (t : bt) : bt :=
  BNode (fa f) (kl f ++ kr f) (cl f ++ t :: cr f).

(** The innermost frame comes first. *)
Fixpoint plug (t : bt) (c : list frame) : bt :=
  match c with
  | [] => t
  | f :: c' => plug (fill f t) c'
  end.

Definition tL (f : frame) : list item :=
  concat (zip_with (λ l s, l ++ [s]) (map trav (cl f)) (map ISep (kl f))).
Definition tR (f : frame) : list item :=
  concat (zip_with (λ s l, s :: l) (map ISep (kr f)) (map trav (cr f))).

Fixpoint tpre (c : list frame) : list item :=
  match c with
  | [] => []
  | f :: c' => tpre c' ++ tL f
  end.
Fixpoint tpost (c : list frame) : list item :=
  match c with
  | [] => []
  | f :: c' => tR f ++ tpost c'
  end.

(** The address of the root of [plug t c] when [t] is at [a]. *)
Fixpoint raddr (c : list frame) (a : nat) : nat :=
  match c with
  | [] => a
  | f :: c' => raddr c' (fa f)
  end.

(** The addresses of the nodes of a context. *)
Definition actx (c : list frame) : list nat :=
  c ≫= λ f, fa f :: ((cl f ++ cr f) ≫= addrs).

Definition par (c : list frame) : ptr :=
  match c with [] => None | f :: _ => Some (fa f) end.

(** ** The operations on abstract trees *)

(** First index whose key exceeds [key] ([child_index]). *)
Fixpoint upper (key : Z) (ks : list Z) : nat :=
  match ks with
  | k :: r => if bool_decide (k ≤ key)%Z then S (upper key r) else 0
  | [] => 0
  end.

(** First index whose key is not below [key] ([lower_bound]). *)
Fixpoint lower (key : Z) (ks : list Z) : nat :=
  match ks with
  | k :: r => if bool_decide (k < key)%Z then S (lower key r) else 0
  | [] => 0
  end.

(** The position [insert_into_leaf] stops at, scanning the reversed keys. *)
Fixpoint ins_pos (key : Z) (rks : list Z) : nat :=
  match rks with
  | k :: r => if bool_decide (key < k)%Z then ins_pos key r else length rks
  | [] => 0
  end.

Definition ins_at {A} (i : nat) (x : A) (l : list A) : list A :=
  take i l ++ x :: drop i l.
Definition del_at {A} (i : nat) (l : list A) : list A :=
  take i l ++ drop (S i) l.

Fixpoint descend (d : nat) (key : Z) (T : bt) (c : list frame)
  : list frame * bt :=
  match d, T with
  | S d', BNode a ks cs =>
      let i := upper key ks in
      match cs !! i with
      | Some ch =>
          descend d' key ch
            (mkFrame a (take i ks) (take i cs) (drop i ks) (drop (S i) cs) :: c)
      | None => (c, T)
      end
  | _, _ => (c, T)
  end.

Fixpoint ins_up (c : list frame) (tl : bt) (key : Z) (tr : bt) (b : nat) : bt :=
  match c with
  | [] => BNode b [key] [tl; tr]
  | f :: c' =>
      let ks := kl f ++ key :: kr f in
      let cs := cl f ++ tl :: tr :: cr f in
      if bool_decide (length (kl f ++ kr f) < MAX_KEYS)
      then plug (BNode (fa f) ks cs) c'
      else
        let s := MAX_KEYS / 2 in
        ins_up c' (BNode (fa f) (take s ks) (take (S s) cs)) (ks !!! s)
               (BNode b (drop (S s) ks) (drop (S s) cs)) (S b)
  end.

(** First index holding [key] ([key_position]). *)
Fixpoint find_key (key : Z) (ks : list Z) : option nat :=
  match ks with
  | [] => None
  | k :: r => if bool_decide (k = key) then Some 0 else S <$> find_key key r
  end.

Definition search_abs (d : nat) (key : Z) (T : bt) : Z :=
  match descend d key T [] with
  | (_, BLeaf _ ks os) =>
      match find_key key ks with
      | Some i => os !!! i
      | None => (-1)%Z
      end
  | _ => (-1)%Z
  end.

Definition insert_abs (d : nat) (key off : Z) (b : nat) (T : bt) : bt :=
  match descend d key T [] with
  | (c, BLeaf a ks os) =>
      if bool_decide (length ks < MAX_KEYS)
      then
        let j := ins_pos key (rev ks) in
        plug (BLeaf a (ins_at j key ks) (ins_at j off os)) c
      else
        let i := lower key ks in
        let mk := ins_at i key ks in
        let mo := ins_at i off os in
        let s := (MAX_KEYS + 1) / 2 in
        ins_up c (BLeaf a (take s mk) (take s mo)) (mk !!! s)
               (BLeaf b (drop s mk) (drop s mo)) (S b)
  | _ => T
  end.

Definition merge_bt (l : bt) (s : Z) (r : bt) : bt :=
  match l, r with
  | BLeaf a ks os, BLeaf _ ks' os' => BLeaf a (ks ++ ks') (os ++ os')
  | BNode a ks cs, BNode _ ks' cs' => BNode a (ks ++ s :: ks') (cs ++ cs')
  | _, _ => l
  end.

Definition borrow_left_bt (L : bt) (s : Z) (t : bt) : bt * Z * bt :=
  match L, t with
  | BLeaf la lks los, BLeaf a ks os =>
      let k := default 0%Z (last lks) in
      let o := default 0%Z (last los) in
      (BLeaf la (removelast lks) (removelast los), k, BLeaf a (k :: ks) (o :: os))
  | BNode la lks lcs, BNode a ks cs =>
      (BNode la (removelast lks) (removelast lcs),
       default 0%Z (last lks),
       BNode a (s :: ks) (option_list (last lcs) ++ cs))
  | _, _ => (L, s, t)
  end.

Definition borrow_right_bt (t : bt) (s : Z) (R : bt) : bt * Z * bt :=
  match t, R with
  | BLeaf a ks os, BLeaf ra rks ros =>
      (BLeaf a (ks ++ take 1 rks) (os ++ take 1 ros),
       default 0%Z (rks !! 1),
       BLeaf ra (drop 1 rks) (drop 1 ros))
  | BNode a ks cs, BNode ra rks rcs =>
      (BNode a (ks ++ [s]) (cs ++ take 1 rcs),
       default 0%Z (rks !! 0),
       BNode ra (drop 1 rks) (drop 1 rcs))
  | _, _ => (t, s, R)
  end.

Definition merge_up (c' : list frame) (rec : bt → bt) (a : nat)
  (kl' : list Z) (cl' : list bt) (m : bt) (kr' : list Z) (cr' : list bt) : bt :=
  match c' with
  | [] => if bool_decide (length (kl' ++ kr') = 0) then m
          else BNode a (kl' ++ kr') (cl' ++ m :: cr')
  | _ => rec (BNode a (kl' ++ kr') (cl' ++ m :: cr'))
  end.

Fixpoint fix_up (c : list frame) (t : bt) : bt :=
  match c with
  | [] => t
  | f :: c' =>
      if bool_decide (MIN_KEYS ≤ length (bkeys t)) then plug t c else
      match last (cl f), last (kl f), cr f, kr f with
      | Some L, Some s, _, _ =>
          if bool_decide (MIN_KEYS < length (bkeys L))
          then
            let '(L', s', t') := borrow_left_bt L s t in
            plug (BNode (fa f) (removelast (kl f) ++ s' :: kr f)
                        (removelast (cl f) ++ L' :: t' :: cr f)) c'
          else
            match cr f, kr f with
            | R :: cr', s2 :: kr' =>
                if bool_decide (MIN_KEYS < length (bkeys R))
                then
                  let '(t', s', R') := borrow_right_bt t s2 R in
                  plug (BNode (fa f) (kl f ++ s' :: kr')
                              (cl f ++ t' :: R' :: cr')) c'
                else merge_up c' (fix_up c') (fa f) (removelast (kl f))
                       (removelast (cl f)) (merge_bt L s t) (kr f) (cr f)
            | _, _ => merge_up c' (fix_up c') (fa f) (removelast (kl f))
                        (removelast (cl f)) (merge_bt L s t) (kr f) (cr f)
            end
      | _, _, R :: cr', s2 :: kr' =>
          if bool_decide (MIN_KEYS < length (bkeys R))
          then
            let '(t', s', R') := borrow_right_bt t s2 R in
            plug (BNode (fa f) (kl f ++ s' :: kr') (cl f ++ t' :: R' :: cr')) c'
          else merge_up c' (fix_up c') (fa f) (kl f) (cl f)
                 (merge_bt t s2 R) kr' cr'
      | _, _, _, _ => plug t c
      end
  end.

Definition delete_abs (d : nat) (key : Z) (T : bt) : bt :=
  match descend d key T [] with
  | (c, BLeaf a ks os) =>
      if bool_decide (key ∈ ks)
      then
        let i := lower key ks in
        if bool_decide (ks !! i = Some key)
        then
          let l' := BLeaf a (del_at i ks) (del_at i os) in
          match c with
          | [] => l'
          | _ => fix_up c l'
          end
        else T
      else T
  | _ => T
  end.

(** ** Representation in memory *)

Definition arrays_ok (nd : BPlusTreeNode) : Prop :=
  length (keys nd) = MAX_KEYS ∧ length (file_offsets nd) = MAX_KEYS
  ∧ length (children nd) = MAX_KEYS + 1.

(** [nd] is a node with keys [ks], and offsets [os] (a leaf) or children
    [cs] (an internal node); what the arrays hold past these is arbitrary. *)
Definition node_is (nd : BPlusTreeNode) (leaf : bool) (p : ptr)
  (ks os : list Z) (cs : list ptr) : Prop :=
  arrays_ok nd ∧ is_leaf nd = leaf ∧ parent nd = p
  ∧ num_keys nd = length ks ∧ length ks ≤ MAX_KEYS
  ∧ take (length ks) (keys nd) = ks
  ∧ (if leaf then take (length ks) (file_offsets nd) = os
     else take (S (length ks)) (children nd) = cs).

Definition caddrs (cs : list bt) : list ptr := (λ c, Some (addr c)) <$> cs.

(** The pool [h] holds the tree [T] of depth [d] below a parent [p]; every
    node has at least [m] (the root) resp. [MIN_KEYS] keys. *)
Fixpoint rep (d : nat) (h : gmap nat BPlusTreeNode) (m : nat) (p : ptr)
  (T : bt) : Prop :=
  match d, T with
  | 0, BLeaf a ks os =>
      m ≤ length ks ≤ MAX_KEYS
      ∧ ∃ nd, h !! a = Some nd ∧ node_is nd true p ks os []
  | S d', BNode a ks cs =>
      m ≤ length ks ≤ MAX_KEYS ∧ 1 ≤ length ks
      ∧ (∃ nd, h !! a = Some nd ∧ node_is nd false p ks [] (caddrs cs))
      ∧ Forall (rep d' h MIN_KEYS (Some a)) cs
  | _, _ => False
  end.

(** The context [c] around a hole of depth [d] that holds the node [a]. *)
Fixpoint rep_ctx (d : nat) (h : gmap nat BPlusTreeNode) (c : list frame)
  (a : nat) : Prop :=
  match c with
  | [] => True
  | f :: c' =>
      length (kl f) = length (cl f) ∧ length (kr f) = length (cr f)
      ∧ match c' with [] => 1 | _ => MIN_KEYS end ≤ length (kl f ++ kr f)
      ∧ length (kl f ++ kr f) ≤ MAX_KEYS
      ∧ (∃ nd, h !! fa f = Some nd
               ∧ node_is nd false (par c') (kl f ++ kr f) []
                   (caddrs (cl f) ++ Some a :: caddrs (cr f)))
      ∧ Forall (rep d h MIN_KEYS (Some (fa f))) (cl f ++ cr f)
      ∧ rep_ctx (S d) h c' (fa f)
  end.

(** The [next] pointers link the leaves [ls] in this order, the last one to
    [last]. *)
Fixpoint chain (h : gmap nat BPlusTreeNode) (ls : list nat) (last : ptr)
  : Prop :=
  match ls with
  | [] => True
  | a :: r =>
      (∃ nd, h !! a = Some nd
             ∧ next nd = match r with [] => last | b :: _ => Some b end)
      ∧ chain h r last
  end.

Definition heap_ok (t : BPlusTree) : Prop :=
  ∀ a nd, nodes t !! a = Some nd → a < brk t.

Definition hrep (t : BPlusTree) (d : nat) (T : bt) : Prop :=
  root t = Some (addr T)
  ∧ rep d (nodes t) (min 1 d) None T
  ∧ NoDup (addrs T)
  ∧ heap_ok t
  ∧ chain (nodes t) (laddrs T) None.

(** The least number of keys of the node in the hole of [c]. *)
Definition mhole (c : list frame) (d : nat) : nat :=
  match c with [] => min 1 d | _ => MIN_KEYS end.

(** [a := nd] in the pool. *)
Definition upd (a : nat) (nd : BPlusTreeNode) (t : BPlusTree) : BPlusTree :=
  mkTree (root t) (order t) (<[a := nd]> (nodes t)) (brk t).

(** [malloc]: the pool with the address counter advanced. *)
Definition bump (t : BPlusTree) : BPlusTree :=
  mkTree (root t) (order t) (nodes t) (S (brk t)).

(** What [merge_nodes] does to the parent: the separator at
    [k_prime_index] and the child after it leave the node. *)
Definition parent_remove (k_prime_index : nat) (nd : BPlusTreeNode)
  : BPlusTreeNode :=
  let nd5 := merge_parent_shift k_prime_index
               (num_keys nd - 1 - k_prime_index) nd in
  let nd6 := set_child (num_keys nd5) None nd5 in
  set_num_keys (num_keys nd6 - 1) nd6.

(** The steps of one round of the copying loop of [merge_nodes], and of
    [merge_nodes] itself, one at a time. *)
Definition mc_key (l r i : nat) (t : BPlusTree) : BPlusTree :=
  store l (λ nd, set_key (num_keys nd) (key_at (node_at t r) i) nd) t.
Definition mc_val (l r i : nat) (t1 : BPlusTree) : BPlusTree :=
  if is_leaf (node_at t1 l)
  then store l (λ nd, set_offset (num_keys nd)
                        (offset_at (node_at t1 r) i) nd) t1
  else
    let t1' := store l (λ nd, set_child (num_keys nd)
                                (child_at (node_at t1 r) i) nd) t1 in
    let ln := node_at t1' l in
    store_opt (child_at ln (num_keys ln)) (set_parent (Some l)) t1'.
Definition mc_count (l : nat) (t2 : BPlusTree) : BPlusTree :=
  store l (λ nd, set_num_keys (S (num_keys nd)) nd) t2.

Definition mb_pull (l : nat) (k_prime : Z) (t : BPlusTree) : BPlusTree :=
  if negb (is_leaf (node_at t l))
  then store l (λ nd, set_num_keys (S (num_keys nd)) nd)
         (store l (λ nd, set_key (num_keys nd) k_prime nd) t)
  else t.
Definition mb_copy (l r : nat) (t1 : BPlusTree) : BPlusTree :=
  merge_copy l r 0 (num_keys (node_at t1 r)) t1.
Definition mb_last (l r : nat) (t2 : BPlusTree) : BPlusTree :=
  if negb (is_leaf (node_at t2 l))
  then
    let rn := node_at t2 r in
    let t2' := store l (λ nd, set_child (num_keys nd)
                                (child_at rn (num_keys rn)) nd) t2 in
    let ln := node_at t2' l in
    store_opt (child_at ln (num_keys ln)) (set_parent (Some l)) t2'
  else t2.
Definition mb_next (l r : nat) (t3 : BPlusTree) : BPlusTree :=
  if is_leaf (node_at t3 l)
  then store l (set_next (next (node_at t3 r))) t3
  else t3.
Definition mb_parent (p k_prime_index : nat) (t4 : BPlusTree) : BPlusTree :=
  store p (λ nd, set_num_keys (num_keys nd - 1) nd)
    (store p (λ nd, set_child (num_keys nd) None nd)
       (store p (λ nd, merge_parent_shift k_prime_index
                         (num_keys nd - 1 - k_prime_index) nd) t4)).

(** The lengths a context must have for its walk to be that of a tree. *)
Definition ctx_wf (c : list frame) : Prop :=
  Forall (λ f, length (kl f) = length (cl f) ∧ length (kr f) = length (cr f)) c.

(** The leaves before and after the hole of a context. *)
Definition lpre (c : list frame) : list nat := tpre c ≫= item_leaf.
Definition lpost (c : list frame) : list nat := tpost c ≫= item_leaf.

(** Every node of [t] is still there in [t'] and points to the same next
    leaf. *)
Definition next_kept (t t' : BPlusTree) : Prop :=
  ∀ x nd, nodes t !! x = Some nd →
          ∃ nd', nodes t' !! x = Some nd' ∧ next nd' = next nd.

Definition hd_or (l : list nat) (last : ptr) : ptr :=
  match l with [] => last | b :: _ => Some b end.

(** The node [pa] with keys [ks] in the context [c], where the children
    [W] between [cl0] and [cr0] are being rearranged; [pn] is what the pool
    holds at [pa]. *)
Record hwin (t : BPlusTree) (d : nat) (c : list frame) (pa : nat)
  (ks : list Z) (cl0 W cr0 : list bt) (pn : BPlusTreeNode) : Prop := mkHwin {
  hw_root : root t = Some (raddr c pa);
  hw_ctx : rep_ctx (S d) (nodes t) c pa;
  hw_pn : nodes t !! pa = Some pn;
  hw_node : node_is pn false (par c) ks [] (caddrs (cl0 ++ W ++ cr0));
  hw_sib : Forall (rep d (nodes t) MIN_KEYS (Some pa)) (cl0 ++ cr0);
  hw_nodup : NoDup (pa :: ((cl0 ++ W ++ cr0) ≫= addrs) ++ actx c);
  hw_ok : heap_ok t;
  hw_chain :
    chain (nodes t)
      (lpre c ++ ((cl0 ++ W ++ cr0) ≫= laddrs) ++ lpost c) None }.

(** The pool holds the tree [plug tn c], where the node [tn] in the hole has
    at least [m] keys. *)
Definition hhole (t : BPlusTree) (d : nat) (c : list frame) (m : nat)
  (tn : bt) : Prop :=
  root t = Some (raddr c (addr tn))
  ∧ rep_ctx d (nodes t) c (addr tn)
  ∧ rep d (nodes t) m (par c) tn
  ∧ NoDup (addrs tn ++ actx c)
  ∧ heap_ok t
  ∧ chain (nodes t) (lpre c ++ laddrs tn ++ lpost c) None.

(** What [merge_nodes] does once [right_node] is freed. *)
Definition merge_tail (underflow : BPlusTree → ptr → BPlusTree)
  (t8 : BPlusTree) (left_node p : nat) : BPlusTree :=
  if negb (bool_decide (Some p = root t8))
     && bool_decide (num_keys (node_at t8 p) < MIN_KEYS)
  then underflow t8 (Some p)
  else if bool_decide (num_keys (deref t8 (root t8)) = 0)
          && negb (is_leaf (deref t8 (root t8)))
  then
    match root t8 with
    | None => t8
    | Some old_root =>
        let t9 := set_root (Some left_node) t8 in
        let t10 := store left_node (set_parent None) t9 in
        free old_root t10
    end
  else t8.

(** ** Order and contents *)

(** The lengths of the arrays of a tree of depth [d]. *)
Fixpoint shape (d : nat) (T : bt) : Prop :=
  match d, T with
  | 0, BLeaf _ ks os => length os = length ks
  | S d', BNode _ ks cs => length cs = S (length ks) ∧ Forall (shape d') cs
  | _, _ => False
  end.

Definition item_keys (it : item) : list Z :=
  match it with ILeaf _ ks _ => ks | _ => [] end.
(** The keys of the leaves, left to right. *)
Definition lkeys (T : bt) : list Z := trav T ≫= item_keys.

(** Every item of [l] sorts before, resp. after, the key [key]. *)
Definition below (key : Z) (l : list item) : Prop :=
  Forall (λ x, x < 2 * key + 1)%Z (l ≫= item_io).
Definition above (key : Z) (l : list item) : Prop :=
  Forall (λ x, 2 * key + 1 < x)%Z (l ≫= item_io).

(** [l'] holds the entries of [l] and is sorted wherever [l] is. *)
Definition tstep (l l' : list item) : Prop :=
  l' ≫= item_conts = l ≫= item_conts
  ∧ ∀ pre post, ssorted (pre ++ (l ≫= item_io) ++ post) →
                ssorted (pre ++ (l' ≫= item_io) ++ post).

(** The index holds the entries [M]. *)
Definition tree_inv (t : BPlusTree) (M : gmap Z Z) : Prop :=
  ∃ D T, hrep t D T ∧ ssorted (io T) ∧ list_to_map (conts T) = M.

Fixpoint shape_ctx (d : nat) (c : list frame) : Prop :=
  match c with
  | [] => True
  | f :: c' =>
      length (kl f) = length (cl f) ∧ length (kr f) = length (cr f)
      ∧ Forall (shape d) (cl f ++ cr f) ∧ shape_ctx (S d) c'
  end.

(** ** Sequences of mutations *)

Inductive op :=
| Ins (k off : Z)
| Del (k : Z).

Definition apply_op (t : BPlusTree) (o : op) : BPlusTree :=
  match o with
  | Ins k off => insert_key t k off
  | Del k => delete_key t k
  end.

(** The tree after the calls [ops], first to last, on a new tree. *)
Definition run (ops : list op) : BPlusTree := foldl apply_op initialize_tree ops.

(** What the calls say about [k], latest call first: the offset of the latest
    [insert_key] of [k] if no [delete_key] of [k] came after it. *)
Fixpoint latest (rops : list op) (k : Z) : option Z :=
  match rops with
  | [] => None
  | Ins k' off :: r => if bool_decide (k' = k) then Some off else latest r k
  | Del k' :: r => if bool_decide (k' = k) then None else latest r k
  end.

(** No call inserts a key that is present; [rdone] are the calls made so far,
    latest first. *)
Fixpoint no_dup_insert (rdone ops : list op) : bool :=
  match ops with
  | [] => true
  | o :: r =>
      match o with
      | Ins k _ => bool_decide (latest rdone k = None)
      | Del _ => true
      end && no_dup_insert (o :: rdone) r
  end.

(** The entries after the calls [rops], latest first. *)
Fixpoint entries (rops : list op) : gmap Z Z :=
  match rops with
  | [] => ∅
  | Ins k off :: r => <[k:=off]> (entries r)
  | Del k :: r => delete k (entries r)
  end.

(** The leaf of the item [it] is in the pool with its keys. *)
Definition item_ok (h : gmap nat BPlusTreeNode) (it : item) : Prop :=
  match it with
  | ILeaf a ks _ => ∃ nd, h !! a = Some nd ∧ take (num_keys nd) (keys nd) = ks
  | ISep _ => True
  end.

(** What the invariant says of one node [nd]: its number of keys, and, for an
    internal node, its [num_keys nd + 1] children. *)
Definition node_ok (m : nat) (nd : BPlusTreeNode) : Prop :=
  m ≤ num_keys nd ≤ MAX_KEYS
  ∧ (is_leaf nd = false →
     ∀ i, i ≤ num_keys nd → child_at nd i ≠ None).

(** ** Rows in the file *)

(** What the column loop writes for column [i]. *)
Definition column_bytes (column_count : nat) (values : list (option cstring))
  (i : nat) : list ascii :=
  sanitize (strncpy (value_at values i) (MAX_ROW_LEN - 1))
  ++ [if bool_decide (i = column_count - 1) then LF else "|"%char].

(** The line of a row: the marker, the columns with their delimiters, the
    newline after the last one. *)
Definition encode_row (column_count : nat) (values : list (option cstring))
  : list ascii :=
  " "%char :: concat (map (column_bytes column_count values) (seq 0 column_count)).

(** The values the column loop writes, without their delimiters. *)
Definition written_values (column_count : nat) (values : list (option cstring))
  : list cstring :=
  map (λ i, sanitize (strncpy (value_at values i) (MAX_ROW_LEN - 1)))
      (seq 0 column_count).

(** A character that the sanitizing loop, [strtok_r] and the C string leave
    as it is. *)
Definition plain_char (c : ascii) : Prop :=
  c ≠ "|"%char ∧ c ≠ LF ∧ c ≠ DELETED_MARKER ∧ c ≠ NUL.

(** ** The line of a row, as the file format has it

    The definitions below say what a row looks like in the file without the
    column loop of the source: they are what [insert_row] and [update_row]
    are compared with. *)

(** The character kept for [c]: a delimiter, a newline or the deleted
    marker inside a value is an underscore in the file. *)
Definition stored_char (c : ascii) : ascii :=
  if bool_decide (c ∈ ["|"%char; LF; "#"%char]) then "_"%char else c.

(** The text kept for a value: nothing for a NULL pointer, otherwise the
    first [MAX_ROW_LEN - 1] bytes of the string. *)
Definition stored_value (v : option cstring) : cstring :=
  match v with
  | None => []
  | Some s => stored_char <$> take (MAX_ROW_LEN - 1) s
  end.

(** Texts with the delimiter between them. *)
Fixpoint joined (ws : list cstring) : list ascii :=
  match ws with
  | [] => []
  | [w] => w
  | w :: r => w ++ "|"%char :: joined r
  end.

(** The line of a live row: the marker, the values, the newline. *)
Definition row_line (values : list (option cstring)) : list ascii :=
  " "%char :: joined (stored_value <$> values) ++ [LF].

(** The values are C strings. *)
Definition c_strings (values : list (option cstring)) : Prop :=
  Forall (λ v, NUL ∉ default [] v) values.

(** A table with one column and no rows, on an open file. *)
Definition table0 (calls : list bool) : Table :=
  mkTable "t" ["c"] 1 initialize_tree (Some (mkFile "t.dat" [] 0 calls)).

(** ** Keys in the pool *)

(** Some leaf of the pool holds [k]. *)
Definition key_present (t : BPlusTree) (k : Z) : Prop :=
  ∃ a nd j, nodes t !! a = Some nd ∧ is_leaf nd = true
            ∧ j < num_keys nd ∧ key_at nd j = k.

(** ** The files of [compact_table] *)

Definition temp_filename (cwd : string) (tb : Table) : string :=
  in_cwd cwd (snprintf FILENAME_BUF_SIZE (name tb +:+ ".tmp")).
Definition old_filename (cwd : string) (tb : Table) : string :=
  in_cwd cwd (snprintf FILENAME_BUF_SIZE (name tb +:+ ".dat")).

(** A database without tables, and the table "t" with the one column "c"
    that [create_table] makes in it when no file exists. *)
Definition db0 : Database := mkDatabase "db" [].
Definition created_table : Table :=
  default (table0 []) (create_table "/srv" ∅ db0 "t" ["c"] 1).1.1.
Definition created_disk : disk := (create_table "/srv" ∅ db0 "t" ["c"] 1).2.

(** ** Sample calls *)

Definition sample_ops : list op :=
  [Ins 5 50; Ins 3 30; Ins 8 80; Ins 1 10; Ins 9 90; Ins 4 40; Ins 7 70;
   Del 3; Ins 3 33; Del 8; Ins 2 20; Ins 6 60; Del 5; Del 1].

(** The keys 1 to 17 inserted in ascending order. *)
Definition ascending_ops : list op :=
  [Ins 1 10; Ins 2 20; Ins 3 30; Ins 4 40; Ins 5 50; Ins 6 60; Ins 7 70;
   Ins 8 80; Ins 9 90; Ins 10 100; Ins 11 110; Ins 12 120; Ins 13 130;
   Ins 14 140; Ins 15 150; Ins 16 160; Ins 17 170].

(** A table with two columns and no rows, on an open file. *)
Definition table2 : Table :=
  mkTable "u" ["c"; "d"] 2 initialize_tree (Some (mkFile "u.dat" [] 0 [])).

(** The table [table2] with the row 1, ["a"; "b"]. *)
Definition table3 : Table :=
  (insert_row table2 1 [Some ["a"%char]; Some ["b"%char]]).2.

(** A value of 5000 bytes. *)
Definition long_value : cstring := replicate 5000 "x"%char.

(** A table with one column whose file holds a line of two columns, at the
    offset the index has for the key 1. *)
Definition wide_line_table : Table :=
  mkTable "t" ["c"] 1 (insert_key initialize_tree 1 0)
    (Some (mkFile "t.dat" [" "; "a"; "|"; "b"; LF]%char 0 [])).

(** The table [table0] with the row 1, ["a"]. *)
Definition table1 : Table := (insert_row (table0 []) 1 [Some ["a"%char]]).2.

(** ** More of the index *)

(** [print_tree_recursive]: the nodes it prints, each with its level. *)
Fixpoint print_tree_recursive (fuel : nat) (t : BPlusTree) (node : ptr)
  (level : nat) : list (nat * nat) :=
  match fuel, node with
  | S fuel', Some a =>
      let nd := node_at t a in
      (a, level)
      :: (if is_leaf nd then []
          else concat (map (λ c, print_tree_recursive fuel' t c (S level))
                         (take (S (num_keys nd)) (children nd))))
  | _, _ => []
  end.

Definition print_tree (t : BPlusTree) : list (nat * nat) :=
  print_tree_recursive (S (brk t)) t (root t) 0.

(** A leaf item has an offset for each key. *)
Definition item_wf (it : item) : Prop :=
  match it with
  | ILeaf _ ks os => length os = length ks
  | ISep _ => True
  end.

(** ** Memory *)

(** [t'] has no cell that [t] has not, and [malloc] was not called. *)
Definition no_new_cells (t t' : BPlusTree) : Prop :=
  brk t' = brk t ∧ ∀ a, is_Some (nodes t' !! a) → is_Some (nodes t !! a).

(** [t'] has the cells of [t]: no [free] took one away. *)
Definition keeps_cells (t t' : BPlusTree) : Prop :=
  brk t ≤ brk t' ∧ ∀ a, is_Some (nodes t !! a) → is_Some (nodes t' !! a).

(** ** More of the row store *)

(** The tokens [strtok_r] finds in a line written for [values]: the values
    as written, the empty ones left out. *)
Definition row_tokens (column_count : nat) (values : list (option cstring))
  : list cstring :=
  filter (λ w, w ≠ []) (written_values column_count values).

(** ** Sequences of row operations *)

Inductive row_op :=
| RInsert (primary_key : Z) (values : list (option cstring))
| RUpdate (primary_key : Z) (values : list (option cstring))
| RDelete (primary_key : Z).

Definition apply_row_op (tb : Table) (o : row_op) : Table :=
  match o with
  | RInsert k values => (insert_row tb k values).2
  | RUpdate k values => (update_row tb k values).2
  | RDelete k => (delete_row tb k).2
  end.

(** The table after the calls [ops], first to last. *)
Definition run_rows (tb : Table) (ops : list row_op) : Table :=
  foldl apply_row_op tb ops.

(** The rows a table holds by the calls made: an insert of a key that is
    there and an update of a key that is not change nothing. *)
Definition row_step (R : gmap Z (list (option cstring))) (o : row_op)
  : gmap Z (list (option cstring)) :=
  match o with
  | RInsert k values =>
      match R !! k with Some _ => R | None => <[k := values]> R end
  | RUpdate k values =>
      match R !! k with Some _ => <[k := values]> R | None => R end
  | RDelete k => delete k R
  end.

Definition rows_of (ops : list row_op) : gmap Z (list (option cstring)) :=
  foldl row_step ∅ ops.

(** Values that can be read back: none is empty as it is written, and the
    line fits the buffer of [read_row]. *)
Definition good_values (column_count : nat) (values : list (option cstring))
  : Prop :=
  Forall (λ w, w ≠ []) (written_values column_count values)
  ∧ length (encode_row column_count values) < MAX_ROW_LEN.

Definition good_op (column_count : nat) (o : row_op) : Prop :=
  match o with
  | RInsert _ values | RUpdate _ values => good_values column_count values
  | RDelete _ => True
  end.

(** The offset at which the line [i] of the lines [segs] starts. *)
Definition seg_offset (segs : list (list ascii)) (i : nat) : Z :=
  Z.of_nat (length (concat (take i segs))).

(** The table [tb] holds the rows [R]: its file is the lines [segs], and
    the index has for each key of [R] the offset of a line of its own, the
    line of its values. *)
Definition table_inv (cc : nat) (tb : Table)
  (R : gmap Z (list (option cstring))) : Prop :=
  ∃ f M segs (pos : gmap Z nat),
    data_file tb = Some f ∧ script f = [] ∧ column_count tb = cc
    ∧ tree_inv (primary_index tb) M
    ∧ contents f = concat segs
    ∧ (∀ k, M !! k = seg_offset segs <$> pos !! k)
    ∧ (∀ k, R !! k = None → pos !! k = None)
    ∧ (∀ k values, R !! k = Some values →
         good_values cc values
         ∧ ∃ i, pos !! k = Some i ∧ segs !! i = Some (encode_row cc values))
    ∧ (∀ k k' i, pos !! k = Some i → pos !! k' = Some i → k = k').

(** [table_inv] with the file, the index, the lines and the positions
    named. *)
Definition table_rep (cc : nat) (tb : Table)
  (R : gmap Z (list (option cstring))) (f : FILE) (M : gmap Z Z)
  (segs : list (list ascii)) (pos : gmap Z nat) : Prop :=
  data_file tb = Some f ∧ script f = [] ∧ column_count tb = cc
  ∧ tree_inv (primary_index tb) M
  ∧ contents f = concat segs
  ∧ (∀ k, M !! k = seg_offset segs <$> pos !! k)
  ∧ (∀ k, R !! k = None → pos !! k = None)
  ∧ (∀ k values, R !! k = Some values →
       good_values cc values
       ∧ ∃ i, pos !! k = Some i ∧ segs !! i = Some (encode_row cc values))
  ∧ (∀ k k' i, pos !! k = Some i → pos !! k' = Some i → k = k').

(** ** The lines of a data file *)

(** A line of the file: the row of a key, or a row that was marked
    deleted. *)
Inductive line :=
| Live (primary_key : Z) (values : list (option cstring))
| Dead (values : list (option cstring)).

Definition line_values (l : line) : list (option cstring) :=
  match l with Live _ values | Dead values => values end.

Definition render (cc : nat) (l : line) : list ascii :=
  match l with
  | Live _ values => encode_row cc values
  | Dead values => DELETED_MARKER :: tl (encode_row cc values)
  end.

Definition is_live (l : line) : bool :=
  match l with Live _ _ => true | Dead _ => false end.

(** The number that [compact_table] takes for the key of a row: [atoi] of
    its first column. *)
Definition key_text (cc : nat) (values : list (option cstring)) : Z :=
  atoi (hd [] (written_values cc values)).

(** Values that can be read back and whose first column is the key. *)
Definition keyed_op (cc : nat) (o : row_op) : Prop :=
  good_op cc o
  ∧ match o with
    | RInsert k values | RUpdate k values => key_text cc values = k
    | RDelete _ => True
    end.

(** The lines [ls] are the lines of the rows [R] at the positions [pos],
    and lines marked deleted. *)
Definition log_ok (cc : nat) (ls : list line) (pos : gmap Z nat)
  (R : gmap Z (list (option cstring))) : Prop :=
  (∀ i k values, ls !! i = Some (Live k values)
                 ↔ pos !! k = Some i ∧ R !! k = Some values)
  ∧ Forall (λ l, good_values cc (line_values l)) ls
  ∧ Forall (λ l, match l with
                 | Live k values => key_text cc values = k
                 | Dead _ => True
                 end) ls.

Definition table_log (cc : nat) (tb : Table)
  (R : gmap Z (list (option cstring))) (ls : list line) : Prop :=
  ∃ f M pos, table_rep cc tb R f M (render cc <$> ls) pos ∧ log_ok cc ls pos R.

(** The rows of the lines that are not marked deleted, first to last, and
    the calls of [insert_row] that write them again. *)
Definition live_rows (ls : list line) : list (Z * list (option cstring)) :=
  omap (λ l, match l with
             | Live k values => Some (k, values)
             | Dead _ => None
             end) ls.

Definition replay (ls : list line) : list row_op :=
  (λ p, RInsert p.1 p.2) <$> live_rows ls.

(** ** [rollback_transaction] *)

(** [ftruncate(fileno(f), 0)] *)
Definition ftruncate0 (f : FILE) : bool * FILE :=
  let '(ok, f1) := io_call f in
  if ok then (true, mkFile (path f1) [] (position f1) (script f1))
  else (false, f1).

(** [rewind(f)] *)
Definition rewind (f : FILE) : FILE :=
  mkFile (path f) (contents f) 0 (script f).

(** The file is cut to nothing (when that fails the call goes on), the
    stream is rewound, and the index is replaced by a new one. *)
Definition rollback_transaction (tb : Table) : Table :=
  match data_file tb with
  | None => tb
  | Some f =>
      let '(_, f1) := ftruncate0 f in
      let f2 := rewind f1 in
      with_index (with_file tb (Some f2)) initialize_tree
  end.

(** ** Databases *)

(** The tables of [db] have names of their own, and are no more than
    [MAX_TABLES]. *)
Definition database_ok (db : Database) : Prop :=
  NoDup (name <$> tables db) ∧ length (tables db) ≤ MAX_TABLES.

(** * The models ([orm.h], [orm.c]) *)

Record Field := mkField {
  Field_name : option string;
  Field_type : option string;
  is_primary : Z;
  is_foreign_key : Z;
  referenced_table : option string;
  referenced_column : option string
}.

Record Association := mkAssociation {
  Association_type : option string;
  related_model : option string;
  foreign_key : option string
}.

(** The table that [table_ref] points to is held in the schema: a call that
    works on the table gives the schema back with the table as the call
    left it. *)
Record Model := mkModel {
  Model_name : option string;
  table_ref : option Table;
  fields : option (list Field);
  field_count : Z;
  associations : option (list Association);
  association_count : Z
}.

Record ModelInstance := mkInstance {
  model_schema : option Model;
  data : option (list (option cstring));
  record_offset : Z
}.

Definition with_table (m : Model) (tb : Table) : Model :=
  mkModel (Model_name m) (Some tb) (fields m) (field_count m)
    (associations m) (association_count m).

(** [for (i = 0; i < n; ++i) if (p(a[i])) return i;  return -1;] *)
Fixpoint index_where {A} (p : A → bool) (a : list A) (i : Z) : Z :=
  match a with
  | [] => (-1)%Z
  | x :: r => if p x then i else index_where p r (i + 1)%Z
  end.

(** The first [field_count] fields of the array. *)
Definition fields_of (fs : list Field) (field_count : Z) : list Field :=
  take (Z.to_nat field_count) fs.

(** [strdup] *)
Definition strdup (s : cstring) : cstring := c_str s.

Definition define_model (cwd : string) (d : disk)
  (global_db : option Database) (name : option string)
  (fields : option (list Field)) (field_count : Z)
  (associations : option (list Association)) (association_count : Z)
  : option Model * option Database * disk :=
  match global_db with
  | None => (None, None, d)
  | Some db =>
      match name, fields with
      | Some nm, Some fs =>
          if bool_decide (field_count ≤ 0)%Z then (None, global_db, d) else
          let pk_found :=
            existsb (λ fd, negb (bool_decide (is_primary fd = 0%Z)))
              (fields_of fs field_count) in
          if negb pk_found then (None, global_db, d) else
          if existsb (λ fd, bool_decide (Field_name fd = None))
               (fields_of fs field_count)
          then (None, global_db, d) else
          let column_names :=
            (λ fd, default ""%string (Field_name fd))
              <$> fields_of fs field_count in
          match create_table cwd d db nm column_names (Z.to_nat field_count) with
          | (None, db1, d1) => (None, Some db1, d1)
          | (Some tb, db1, d1) =>
              (Some (mkModel (Some nm) (Some tb) (Some fs) field_count
                       associations association_count),
               Some db1, d1)
          end
      | _, _ => (None, global_db, d)
      end
  end.

(** [calloc] gives the array of [field_count] NULLs. *)
Definition create_new_instance (model_schema : option Model)
  : option ModelInstance :=
  match model_schema with
  | None => None
  | Some m =>
      Some (mkInstance (Some m)
              (Some (replicate (Z.to_nat (field_count m)) None)) (-1)%Z)
  end.

Definition set_instance_field (instance : option ModelInstance)
  (field_index : Z) (value : option cstring) : Z * option ModelInstance :=
  match instance with
  | None => ((-1)%Z, None)
  | Some inst =>
      match model_schema inst, data inst with
      | Some m, Some values =>
          if bool_decide (field_index < 0)%Z
             || bool_decide (field_count m ≤ field_index)%Z
          then ((-1)%Z, instance)
          else (0%Z,
                Some (mkInstance (model_schema inst)
                        (Some (<[Z.to_nat field_index := strdup <$> value]> values))
                        (record_offset inst)))
      | _, _ => ((-1)%Z, instance)
      end
  end.

Definition find_primary_key_index (model : option Model) : Z :=
  match model with
  | None => (-1)%Z
  | Some m =>
      match fields m with
      | None => (-1)%Z
      | Some fs =>
          index_where (λ fd, negb (bool_decide (is_primary fd = 0%Z)))
            (fields_of fs (field_count m)) 0
      end
  end.

(** [data[i]]; an index past the array reads as NULL. *)
Definition data_at (values : list (option cstring)) (i : Z)
  : option cstring :=
  mjoin (values !! Z.to_nat i).

(** [primary_key == 0 && strcmp(text, "0") != 0] *)
Definition bad_key_text (text : cstring) : bool :=
  bool_decide (atoi text = 0%Z)
  && negb (bool_decide (c_str text = ["0"%char])).

Definition save_model_instance (instance : option ModelInstance)
  : Z * option ModelInstance :=
  match instance with
  | None => ((-1)%Z, None)
  | Some inst =>
      match model_schema inst, data inst with
      | Some schema, Some values =>
          match table_ref schema with
          | None => ((-1)%Z, instance)
          | Some table =>
              let pk_index := find_primary_key_index (Some schema) in
              if bool_decide (pk_index = (-1)%Z) then ((-1)%Z, instance) else
              match data_at values pk_index with
              | None => ((-1)%Z, instance)
              | Some text =>
                  let primary_key := atoi text in
                  if bad_key_text text then ((-1)%Z, instance) else
                  let '(result_offset, table1) :=
                    if bool_decide (record_offset inst = (-1)%Z)
                    then insert_row table primary_key values
                    else update_row table primary_key values in
                  if negb (bool_decide (result_offset = (-1)%Z))
                  then (0%Z,
                        Some (mkInstance (Some (with_table schema table1))
                                (data inst) result_offset))
                  else ((-1)%Z,
                        Some (mkInstance (Some (with_table schema table1))
                                (data inst) (record_offset inst)))
              end
          end
      | _, _ => ((-1)%Z, instance)
      end
  end.

Definition delete_model_instance (instance : option ModelInstance)
  : Z * option ModelInstance :=
  match instance with
  | None => ((-1)%Z, None)
  | Some inst =>
      match model_schema inst, data inst with
      | Some schema, Some values =>
          match table_ref schema with
          | None => ((-1)%Z, instance)
          | Some table =>
              if bool_decide (record_offset inst = (-1)%Z)
              then ((-1)%Z, instance) else
              let pk_index := find_primary_key_index (Some schema) in
              if bool_decide (pk_index = (-1)%Z) then ((-1)%Z, instance) else
              match data_at values pk_index with
              | None => ((-1)%Z, instance)
              | Some text =>
                  let primary_key := atoi text in
                  if bad_key_text text then ((-1)%Z, instance) else
                  let '(r, table1) := delete_row table primary_key in
                  if bool_decide (r = 0%Z)
                  then (0%Z,
                        Some (mkInstance (Some (with_table schema table1))
                                (data inst) (-1)%Z))
                  else ((-1)%Z,
                        Some (mkInstance (Some (with_table schema table1))
                                (data inst) (record_offset inst)))
              end
          end
      | _, _ => ((-1)%Z, instance)
      end
  end.

(** The instance found, and the schema with the table as the read left
    it.  The copying loop takes [field_count] values of the row. *)
Definition find_model_by_primary_key (model_schema : option Model)
  (primary_key : Z) : option ModelInstance * option Model :=
  match model_schema with
  | None => (None, None)
  | Some m =>
      match table_ref m with
      | None => (None, model_schema)
      | Some table =>
          let '(row_values, table1) := read_row table primary_key in
          let m1 := with_table m table1 in
          match row_values with
          | None => (None, Some m1)
          | Some row_values =>
              let record_offset :=
                search_key (primary_index table1) primary_key in
              if bool_decide (record_offset = (-1)%Z) then (None, Some m1)
              else
                (Some (mkInstance (Some m1)
                         (Some ((λ i, strdup <$> row_values !! i)
                                  <$> seq 0 (Z.to_nat (field_count m))))
                         record_offset),
                 Some m1)
          end
      end
  end.

(** * The interface ([rdbms.h], [rdbms.c]) *)

Definition find_field_index_by_name (schema : option Model)
  (field_name : option string) : Z :=
  match schema, field_name with
  | Some m, Some n =>
      match fields m with
      | None => (-1)%Z
      | Some fs =>
          index_where (λ fd, bool_decide (Field_name fd = Some n))
            (fields_of fs (field_count m)) 0
      end
  | _, _ => (-1)%Z
  end.

(** [db_initialized] is the flag that [db_system_init] sets. *)
Definition db_set_field (db_initialized : bool)
  (instance : option ModelInstance) (field_name : option string)
  (value : option cstring) : Z * option ModelInstance :=
  if negb db_initialized then ((-1)%Z, instance) else
  match instance with
  | None => ((-1)%Z, None)
  | Some inst =>
      match model_schema inst with
      | None => ((-1)%Z, instance)
      | Some m =>
          let field_index := find_field_index_by_name (Some m) field_name in
          if bool_decide (field_index = (-1)%Z) then ((-1)%Z, instance)
          else set_instance_field instance field_index value
      end
  end.

Definition db_get_field (db_initialized : bool)
  (instance : option ModelInstance) (field_name : option string)
  : option cstring :=
  if negb db_initialized then None else
  match instance with
  | None => None
  | Some inst =>
      match model_schema inst, data inst with
      | Some m, Some values =>
          let field_index := find_field_index_by_name (Some m) field_name in
          if bool_decide (field_index = (-1)%Z) then None
          else data_at values field_index
      | _, _ => None
      end
  end.

(** A table as [create_table] makes it: the index is new, the stream is
    open and no call on it fails. *)
Definition new_table (tb : Table) : Prop :=
  primary_index tb = initialize_tree
  ∧ 0 < column_count tb
  ∧ ∃ f, data_file tb = Some f ∧ script f = [].



(** ** Sample tables and schemas *)

Definition sample_row_ops : list row_op :=
  [RInsert 1 [Some ["a"%char]]; RInsert 2 [Some ["b"%char]];
   RUpdate 1 [Some ["c"%char]]; RDelete 2].

(** A table whose file is the one [compact_table] looks for. *)
Definition sample_compact_table : Table :=
  run_rows
    (mkTable "t" ["c"] 1 initialize_tree (Some (mkFile "/srv/t.dat" [] 0 [])))
    sample_row_ops.

Definition sample_compact_disk : disk :=
  {[ "/srv/t.dat"%string :=
       default [] (contents <$> data_file sample_compact_table) ]}.


Definition sample_fields : list Field :=
  [mkField (Some "id"%string) (Some "int"%string) 1 0 None None;
   mkField (Some "title"%string) (Some "string"%string) 0 0 None None].

Definition sample_table : Table :=
  mkTable "t" ["id"; "title"]%string 2 initialize_tree
    (Some (mkFile "t.dat" [] 0 [])).

Definition sample_schema (tb : Table) : Model :=
  mkModel (Some "t"%string) (Some tb) (Some sample_fields) 2 None 0.

Definition sample_values : list (option cstring) :=
  [Some ["7"%char]; Some ["x"%char]].

Definition sample_defined :=
  define_model "/srv" ∅ (Some db0) (Some "t"%string) (Some sample_fields) 2
    None 0.

Definition sample_model : Model :=
  default (sample_schema sample_table) sample_defined.1.1.

(** A table with the key in the first column, at the place where
    [compact_table] looks for its file. *)
Definition sample_keyed_table : Table :=
  mkTable "t" ["id"; "title"]%string 2 initialize_tree
    (Some (mkFile "/srv/t.dat" [] 0 [])).

Definition sample_keyed_ops : list row_op :=
  [RInsert 7 [Some ["7"%char]; Some ["x"%char]];
   RInsert 8 [Some ["8"%char]; Some ["y"%char]];
   RDelete 7;
   RUpdate 8 [Some ["8"%char]; Some ["z"%char]]].

Ltac knum := change MIN_KEYS with 2 in *; change MAX_KEYS with 4 in *.

(** ** Walks *)

Lemma interleave_app {A} (ls1 : list (list A)) ss1 l ls2 ss2 :
  length ls1 = length ss1 →
  interleave (ls1 ++ l :: ls2) (ss1 ++ ss2)
  = concat (zip_with (λ l s, l ++ [s]) ls1 ss1) ++ interleave (l :: ls2) ss2.
Proof.
  revert ss1. induction ls1 as [|l1 ls1 IH]; intros [|s1 ss1] Hlen;
    simplify_eq/=; [done|].
  rewrite IH by done. by rewrite <- !app_assoc.
Qed.

Lemma interleave_zip {A} (l : list A) ls2 ss2 :
  length ss2 = length ls2 →
  interleave (l :: ls2) ss2 = l ++ concat (zip_with (λ s l, s :: l) ss2 ls2).
Proof.
  revert l ss2. induction ls2 as [|l2 ls2 IH]; intros l [|s2 ss2] Hlen;
    simplify_eq/=; [done|].
  f_equal. f_equal. by apply IH.
Qed.

Lemma trav_fill f t :
  length (kl f) = length (cl f) → length (kr f) = length (cr f) →
  trav (fill f t) = tL f ++ trav t ++ tR f.
Proof.
  intros Hl Hr. unfold fill, tL, tR. simpl.
  rewrite !map_app. simpl. rewrite interleave_app by (by rewrite !length_map).
  f_equal. apply interleave_zip. by rewrite !length_map.
Qed.


Lemma trav_plug t c :
  ctx_wf c → trav (plug t c) = tpre c ++ trav t ++ tpost c.
Proof.
  revert t. induction c as [|f c IH]; intros t Hc; simpl.
  - by rewrite app_nil_r.
  - inversion_clear Hc as [|?? [??] ?]. rewrite IH by done.
    rewrite trav_fill by done. repeat (rewrite <- ?app_assoc; simpl). done.
Qed.

Lemma interleave_bind_nosep {B} (g : item → list B) ls ks :
  (∀ k, g (ISep k) = []) →
  interleave ls (map ISep ks) ≫= g = concat ls ≫= g.
Proof.
  intros Hg. revert ks. induction ls as [|l ls IH]; intros ks; [done|].
  destruct ks as [|k ks]; [done|].
  change (interleave (l :: ls) (map ISep (k :: ks)))
    with (l ++ ISep k :: interleave ls (map ISep ks)).
  change (concat (l :: ls)) with (l ++ concat ls).
  rewrite !bind_app, bind_cons, Hg. simpl. by rewrite IH.
Qed.

Lemma concat_map_bind {A B C} (f : A → list B) (g : B → list C) (l : list A) :
  concat (map f l) ≫= g = l ≫= (λ x, f x ≫= g).
Proof.
  induction l as [|x l IH]; [done|].
  change (concat (map f (x :: l))) with (f x ++ concat (map f l)).
  by rewrite bind_app, IH.
Qed.

Lemma addrs_node a ks cs : addrs (BNode a ks cs) = a :: (cs ≫= addrs).
Proof. done. Qed.

Lemma laddrs_node a ks cs : laddrs (BNode a ks cs) = cs ≫= laddrs.
Proof.
  unfold laddrs. cbn [trav].
  rewrite interleave_bind_nosep by done. apply concat_map_bind.
Qed.

Lemma conts_node a ks cs : conts (BNode a ks cs) = cs ≫= conts.
Proof.
  unfold conts. cbn [trav].
  rewrite interleave_bind_nosep by done. apply concat_map_bind.
Qed.

Lemma addr_in_addrs T : addr T ∈ addrs T.
Proof. destruct T; [|rewrite addrs_node]; simpl; set_solver. Qed.

Lemma addrs_child a ks cs c x : c ∈ cs → x ∈ addrs c → x ∈ addrs (BNode a ks cs).
Proof.
  intros Hc Hx. rewrite addrs_node. apply elem_of_cons. right.
  apply list_elem_of_bind. eauto.
Qed.

(** ** Memory *)

Lemma node_at_lookup t a nd : nodes t !! a = Some nd → node_at t a = nd.
Proof. unfold node_at. by intros ->. Qed.

Lemma store_upd t a f nd :
  nodes t !! a = Some nd → store a f t = upd a (f nd) t.
Proof.
  intros H. unfold store, upd. f_equal.
  apply map_eq. intros i. destruct (decide (a = i)) as [<-|].
  - by rewrite lookup_alter_eq, lookup_insert_eq, H.
  - by rewrite lookup_alter_ne, lookup_insert_ne.
Qed.

Lemma nodes_upd a nd t : nodes (upd a nd t) = <[a := nd]> (nodes t).
Proof. done. Qed.
Lemma root_upd a nd t : root (upd a nd t) = root t.
Proof. done. Qed.
Lemma brk_upd a nd t : brk (upd a nd t) = brk t.
Proof. done. Qed.

(** ** Frames *)

Lemma rep_ext d h h' m p T :
  (∀ a, a ∈ addrs T → h' !! a = h !! a) → rep d h m p T → rep d h' m p T.
Proof.
  revert h h' m p T. induction d as [|d IH]; intros h h' m p [a ks os|a ks cs] Heq;
    simpl; try done.
  - intros (? & nd & ? & ?). split; [done|]. exists nd. split; [|done].
    rewrite Heq; [done|]. apply (addr_in_addrs (BLeaf a ks os)).
  - intros (? & ? & (nd & ? & ?) & Hcs). split_and!; try lia.
    + exists nd. split; [|done]. rewrite Heq; [done|].
      apply (addr_in_addrs (BNode a ks cs)).
    + apply Forall_forall. intros c Hc. rewrite Forall_forall in Hcs.
      eapply IH; [|by apply Hcs]. intros x Hx. apply Heq.
      by eapply addrs_child.
Qed.

Lemma rep_weaken d h m m' p T : m' ≤ m → rep d h m p T → rep d h m' p T.
Proof.
  intros Hm. destruct d, T; simpl; try done.
  - intros ([??] & ?). split; [lia|done].
  - intros ([??] & ?). split; [lia|done].
Qed.

Lemma take_lookup_total {A} `{Inhabited A} (l ks : list A) n i :
  take n l = ks → i < length ks → l !!! i = ks !!! i.
Proof.
  intros <- Hi. rewrite length_take in Hi.
  rewrite !list_lookup_total_alt. by rewrite lookup_take_lt by lia.
Qed.

Lemma node_is_os_length nd p ks os cs :
  node_is nd true p ks os cs → length os = length ks.
Proof.
  intros ((_ & Hlo & _) & _ & _ & _ & Hn & _ & <-).
  rewrite length_take. lia.
Qed.

Lemma node_is_cs_length nd p ks os cs :
  node_is nd false p ks os cs → length cs = S (length ks).
Proof.
  intros ((_ & _ & Hlc) & _ & _ & _ & Hn & _ & <-).
  rewrite length_take. lia.
Qed.

Lemma node_is_key nd leaf p ks os cs i :
  node_is nd leaf p ks os cs → i < length ks → key_at nd i = ks !!! i.
Proof. intros (_ & _ & _ & _ & _ & Hk & _) Hi. by eapply take_lookup_total. Qed.

Lemma node_is_offset nd p ks os cs i :
  node_is nd true p ks os cs → i < length ks → offset_at nd i = os !!! i.
Proof.
  intros Hn Hi. pose proof (node_is_os_length _ _ _ _ _ Hn).
  destruct Hn as (_ & _ & _ & _ & _ & _ & Ho).
  eapply take_lookup_total; [done|lia].
Qed.

Lemma node_is_child nd p ks os cs i :
  node_is nd false p ks os cs → i ≤ length ks → child_at nd i = cs !!! i.
Proof.
  intros Hn Hi. pose proof (node_is_cs_length _ _ _ _ _ Hn).
  destruct Hn as (_ & _ & _ & _ & _ & _ & Hc).
  eapply take_lookup_total; [done|lia].
Qed.

Lemma child_index_spec nd leaf p ks os cs key i fuel :
  node_is nd leaf p ks os cs → i + fuel = length ks →
  child_index nd key i fuel = i + upper key (drop i ks).
Proof.
  intros Hn. revert i. induction fuel as [|fuel IH]; intros i Hi; simpl.
  - rewrite drop_ge by lia. simpl. lia.
  - destruct Hn as (Ha & Hl & Hp & Hnum & Hle & Hk & Hx).
    rewrite Hnum. rewrite bool_decide_eq_true_2 by lia. simpl.
    assert (Hki : key_at nd i = ks !!! i).
    { eapply take_lookup_total; [done|lia]. }
    destruct (lookup_lt_is_Some_2 ks i ltac:(lia)) as [k Hkk].
    rewrite (drop_S _ _ _ Hkk). simpl.
    rewrite Hki, (list_lookup_total_correct _ _ _ Hkk).
    case_bool_decide; [|lia].
    rewrite IH by lia. lia.
Qed.

Lemma upper_le key ks : upper key ks ≤ length ks.
Proof. induction ks; simpl; [lia|]. case_bool_decide; simpl; lia. Qed.

Lemma rep_ctx_wf d h c a : rep_ctx d h c a → ctx_wf c.
Proof.
  revert d a. induction c as [|f c IH]; intros d a; simpl; [constructor|].
  intros (? & ? & _ & _ & _ & _ & Hc). constructor; [done|by eapply IH].
Qed.

Lemma caddrs_app l1 l2 : caddrs (l1 ++ l2) = caddrs l1 ++ caddrs l2.
Proof. apply fmap_app. Qed.

Lemma caddrs_lookup_total cs i ch :
  cs !! i = Some ch → caddrs cs !!! i = Some (addr ch).
Proof.
  intros H. apply list_lookup_total_correct. unfold caddrs.
  by rewrite list_lookup_fmap, H.
Qed.

Lemma rep_plug c : ∀ d h t,
  rep_ctx d h c (addr t) → rep d h (mhole c d) (par c) t →
  rep (d + length c) h (min 1 (d + length c)) None (plug t c).
Proof.
  induction c as [|f c IH]; intros d h t Hc Ht; simpl in *.
  - by rewrite Nat.add_0_r.
  - destruct Hc as (Hl & Hr & Hmin & Hmax & (nd & Hnd & Hnode) & Hsib & Hc).
    replace (d + S (length c)) with (S d + length c) by lia.
    apply IH; [done|]. simpl. split_and!.
    + destruct c; simpl in *; lia.
    + done.
    + knum. destruct c; lia.
    + exists nd. split; [done|]. by rewrite caddrs_app.
    + apply Forall_app in Hsib as [??]. apply Forall_app. split; [done|].
      by constructor.
Qed.

Lemma rep_node_inv d h m p a ks cs :
  rep (S d) h m p (BNode a ks cs) →
  m ≤ length ks ≤ MAX_KEYS ∧ 1 ≤ length ks ∧ length cs = S (length ks)
  ∧ (∃ nd, h !! a = Some nd ∧ node_is nd false p ks [] (caddrs cs))
  ∧ Forall (rep d h MIN_KEYS (Some a)) cs.
Proof.
  simpl. intros (? & ? & (nd & ? & Hn) & ?).
  assert (length cs = S (length ks)).
  { apply node_is_cs_length in Hn. unfold caddrs in Hn.
    by rewrite length_fmap in Hn. }
  split_and!; try done; try lia. eauto.
Qed.

Lemma rep_leaf_inv h m p T :
  rep 0 h m p T → ∃ a ks os, T = BLeaf a ks os.
Proof. destruct T; simpl; [eauto|done]. Qed.

Lemma descend_spec d : ∀ h key T c0,
  rep_ctx d h c0 (addr T) → rep d h (mhole c0 d) (par c0) T →
  ∃ c a ks os, descend d key T c0 = (c, BLeaf a ks os)
    ∧ rep_ctx 0 h c a ∧ rep 0 h (mhole c 0) (par c) (BLeaf a ks os)
    ∧ plug (BLeaf a ks os) c = plug T c0 ∧ length c = d + length c0.
Proof.
  induction d as [|d IH]; intros h key T c0 Hc HT.
  - destruct T as [a ks os|]; [|done]. exists c0, a, ks, os. done.
  - destruct T as [|a ks cs]; [done|].
    apply rep_node_inv in HT as (Hm & H1 & Hlen & (nd & Hnd & Hnode) & Hcs).
    simpl. pose proof (upper_le key ks) as Hu.
    set (i := upper key ks) in *.
    destruct (lookup_lt_is_Some_2 cs i ltac:(lia)) as [ch Hch]. rewrite Hch.
    set (f := mkFrame a (take i ks) (take i cs) (drop i ks) (drop (S i) cs)).
    assert (Hcs' : cs = take i cs ++ ch :: drop (S i) cs).
    { by rewrite take_drop_middle. }
    destruct (IH h key ch (f :: c0)) as (c & a' & ks' & os' & Hd & ? & ? & Hp & Hl).
    + simpl. rewrite !length_take, !length_drop, take_drop.
      split_and!; try lia.
      * destruct c0; simpl in *; lia.
      * exists nd. split; [done|].
        replace (caddrs (take i cs) ++ Some (addr ch) :: caddrs (drop (S i) cs))
          with (caddrs cs); [done|].
        rewrite Hcs' at 1. by rewrite caddrs_app.
      * rewrite Hcs' in Hcs. apply Forall_app in Hcs as [? Hcs].
        apply Forall_cons in Hcs as [??]. by apply Forall_app.
      * done.
    + simpl. rewrite Forall_forall in Hcs. apply Hcs.
      by eapply list_elem_of_lookup_2.
    + exists c, a', ks', os'. do 3 (split; [done|]). split.
      * rewrite Hp. simpl. unfold fill. simpl. by rewrite take_drop, <- Hcs'.
      * rewrite Hl. simpl. lia.
Qed.

Lemma find_leaf_from_spec d : ∀ t key T c0 m p fuel,
  rep d (nodes t) m p T → d < fuel →
  find_leaf_from fuel t (addr T) key = Some (addr (descend d key T c0).2).
Proof.
  induction d as [|d IH]; intros t key T c0 m p fuel HT Hf.
  - destruct T as [a ks os|]; [|done]. destruct fuel; [lia|]. simpl.
    destruct HT as (_ & nd & Hnd & Hn). rewrite (node_at_lookup _ _ _ Hnd).
    destruct Hn as (_ & -> & _). done.
  - destruct T as [|a ks cs]; [done|]. destruct fuel as [|fuel]; [lia|].
    apply rep_node_inv in HT as (Hm & H1 & Hlen & (nd & Hnd & Hnode) & Hcs).
    simpl. rewrite (node_at_lookup _ _ _ Hnd).
    pose proof Hnode as (_ & -> & _ & Hnum & _).
    rewrite Hnum, (child_index_spec _ _ _ _ _ _ _ _ _ Hnode) by lia.
    rewrite drop_0. simpl. pose proof (upper_le key ks) as Hu.
    set (i := upper key ks) in *.
    rewrite (node_is_child _ _ _ _ _ _ Hnode) by lia.
    destruct (lookup_lt_is_Some_2 cs i ltac:(lia)) as [ch Hch]. rewrite Hch.
    rewrite (caddrs_lookup_total _ _ _ Hch).
    eapply IH; [|lia]. rewrite Forall_forall in Hcs. apply Hcs.
    by eapply list_elem_of_lookup_2.
Qed.

Lemma key_position_spec nd p ks os cs key i fuel :
  node_is nd true p ks os cs → i + fuel = length ks →
  key_position nd key i fuel = (λ j, i + j) <$> find_key key (drop i ks).
Proof.
  intros Hn. revert i. induction fuel as [|fuel IH]; intros i Hi; simpl.
  - by rewrite drop_ge by lia.
  - destruct (lookup_lt_is_Some_2 ks i ltac:(lia)) as [k Hkk].
    rewrite (drop_S _ _ _ Hkk). simpl.
    rewrite (node_is_key _ _ _ _ _ _ _ Hn) by lia.
    rewrite (list_lookup_total_correct _ _ _ Hkk).
    case_bool_decide; simpl; [f_equal; lia|].
    rewrite IH by lia. rewrite <- option_fmap_compose.
    apply option_fmap_ext. intros j. simpl. lia.
Qed.

Lemma find_key_lt key ks i : find_key key ks = Some i → i < length ks.
Proof.
  revert i. induction ks as [|k ks IH]; intros i; simpl; [done|].
  case_bool_decide; [intros [= <-]; lia|].
  destruct (find_key key ks) as [j|]; simpl; [|done].
  intros [= <-]. specialize (IH j eq_refl). lia.
Qed.

Lemma find_key_elem key ks : is_Some (find_key key ks) ↔ key ∈ ks.
Proof.
  induction ks as [|k ks IH]; simpl.
  - split; [by intros [??]|by intros ?%elem_of_nil].
  - case_bool_decide; subst.
    + split; [intros _; by left|eauto].
    + rewrite fmap_is_Some, IH. set_solver.
Qed.

Lemma rep_addrs_dom d : ∀ h m p T a,
  rep d h m p T → a ∈ addrs T → is_Some (h !! a).
Proof.
  induction d as [|d IH]; intros h m p [x ks os|x ks cs] a HT Ha; try done.
  - destruct HT as (_ & nd & ? & _). apply list_elem_of_singleton in Ha as ->.
    eauto.
  - apply rep_node_inv in HT as (_ & _ & _ & (nd & ? & _) & Hcs).
    rewrite addrs_node in Ha. apply elem_of_cons in Ha as [->|Ha]; [eauto|].
    apply list_elem_of_bind in Ha as (c & Ha & Hc).
    rewrite Forall_forall in Hcs. eapply IH; [by apply Hcs|done].
Qed.

Lemma rep_depth d : ∀ h m p T, rep d h m p T → d < length (addrs T).
Proof.
  induction d as [|d IH]; intros h m p [x ks os|x ks cs] HT; try done.
  - simpl. lia.
  - apply rep_node_inv in HT as (_ & _ & Hlen & _ & Hcs).
    rewrite addrs_node. destruct cs as [|c cs]; [done|].
    apply Forall_cons in Hcs as [Hc _]. apply IH in Hc.
    rewrite bind_cons. simpl. rewrite length_app. lia.
Qed.

Lemma NoDup_bounded_length (l : list nat) n :
  NoDup l → (∀ x, x ∈ l → x < n) → length l ≤ n.
Proof.
  intros Hnd Hb. transitivity (length (seq 0 n)); [|by rewrite length_seq].
  apply submseteq_length, NoDup_submseteq; [done|].
  intros x Hx. apply elem_of_seq. specialize (Hb x Hx). lia.
Qed.

Lemma rep_addrs_bound d h m p T t :
  nodes t = h → heap_ok t → rep d h m p T → ∀ a, a ∈ addrs T → a < brk t.
Proof.
  intros <- Hok HT a Ha.
  destruct (rep_addrs_dom _ _ _ _ _ _ HT Ha) as [nd Hnd]. by eapply Hok.
Qed.

Lemma hrep_depth t d T : hrep t d T → d < brk t.
Proof.
  intros (_ & HT & Hnd & Hok & _).
  pose proof (rep_depth _ _ _ _ _ HT).
  pose proof (NoDup_bounded_length _ (brk t) Hnd
                (rep_addrs_bound _ _ _ _ _ _ eq_refl Hok HT)). lia.
Qed.

Lemma search_key_abs t d T key :
  hrep t d T → search_key t key = search_abs d key T.
Proof.
  intros Hrep. pose proof (hrep_depth _ _ _ Hrep) as Hd.
  destruct Hrep as (Hroot & HT & _).
  unfold search_key, search_abs, find_leaf_node. rewrite Hroot.
  rewrite (find_leaf_from_spec d t key T [] _ _ _ HT) by lia.
  destruct (descend_spec d (nodes t) key T []) as (c & a & ks & os & -> & _ & Hl & _);
    [done|done|]. simpl.
  destruct Hl as (_ & nd & Hnd & Hn). rewrite (node_at_lookup _ _ _ Hnd).
  pose proof Hn as (_ & _ & _ & -> & _).
  rewrite (key_position_spec _ _ _ _ _ _ _ _ Hn) by lia. rewrite drop_0.
  destruct (find_key key ks) as [i|] eqn:Hi; simpl; [|done].
  apply find_key_lt in Hi. by rewrite (node_is_offset _ _ _ _ _ _ Hn).
Qed.

(** Lists of a known length, spelt out. *)
Ltac explode_list l :=
  let x := fresh "x" in
  destruct l as [|x l]; simpl in *; [try (done || lia)|try (done || lia)].

Ltac explode_len H :=
  match type of H with
  | length ?l = _ => repeat (destruct l as [|? l]; simpl in H; try (done || lia))
  | length ?l ≤ _ => repeat (destruct l as [|? l]; simpl in H; try (done || lia))
  | length ?l < _ => repeat (destruct l as [|? l]; simpl in H; try (done || lia))
  end.

Ltac explode_node nd :=
  let kk := fresh "kk" in let oo := fresh "oo" in let cc := fresh "cc" in
  destruct nd as [kk oo cc ? ? ? ?]; simpl in *;
  do 5 (destruct kk as [|? kk]; try done);
  do 5 (destruct oo as [|? oo]; try done);
  do 6 (destruct cc as [|? cc]; try done).

Lemma insert_into_leaf_node_spec nd p ks os key off :
  node_is nd true p ks os [] → length ks < MAX_KEYS →
  let j := ins_pos key (rev ks) in
  node_is (insert_into_leaf_node key off nd) true p
    (ins_at j key ks) (ins_at j off os) []
  ∧ next (insert_into_leaf_node key off nd) = next nd.
Proof.
  intros Hn Hlt. pose proof (node_is_os_length _ _ _ _ _ Hn) as Hlo.
  destruct Hn as ((Hlk & Hlf & Hlc) & Hleaf & Hp & Hnum & Hle & Hk & Ho).
  unfold MAX_KEYS in *.
  explode_node nd. subst.
  destruct ks as [|k0 [|k1 [|k2 [|k3 ?]]]]; simpl in *; try lia;
  simplify_eq; unfold insert_into_leaf_node, node_is, arrays_ok, ins_at; simpl;
  repeat case_bool_decide; simpl; try lia; done.
Qed.

(** ** Memory updates *)

Lemma node_at_upd_eq a nd t : node_at (upd a nd t) a = nd.
Proof. unfold node_at, upd. simpl. by rewrite lookup_insert_eq. Qed.

Lemma node_at_upd_ne a b nd t : a ≠ b → node_at (upd a nd t) b = node_at t b.
Proof. intros. unfold node_at, upd. simpl. by rewrite lookup_insert_ne. Qed.

Lemma lookup_upd_eq a nd t : nodes (upd a nd t) !! a = Some nd.
Proof. simpl. by rewrite lookup_insert_eq. Qed.

Lemma lookup_upd_ne a b nd t : a ≠ b → nodes (upd a nd t) !! b = nodes t !! b.
Proof. intros. simpl. by rewrite lookup_insert_ne. Qed.

Lemma upd_upd a nd nd' t : upd a nd (upd a nd' t) = upd a nd t.
Proof. unfold upd. simpl. by rewrite insert_insert_eq. Qed.

Lemma set_parent_id nd p : parent nd = p → set_parent p nd = nd.
Proof. intros <-. by destruct nd. Qed.

Lemma create_new_node_upd leaf t :
  create_new_node leaf t = (brk t, upd (brk t) (fresh_node leaf) (bump t)).
Proof. done. Qed.

Lemma nodes_bump t : nodes (bump t) = nodes t.
Proof. done. Qed.
Lemma root_bump t : root (bump t) = root t.
Proof. done. Qed.
Lemma brk_bump t : brk (bump t) = S (brk t).
Proof. done. Qed.
Lemma store_opt_Some a f t : store_opt (Some a) f t = store a f t.
Proof. done. Qed.
Lemma store_opt_None f t : store_opt None f t = t.
Proof. done. Qed.
Lemma root_store a f t : root (store a f t) = root t.
Proof. done. Qed.
Lemma brk_store a f t : brk (store a f t) = brk t.
Proof. done. Qed.
Lemma nodes_set_root r t : nodes (set_root r t) = nodes t.
Proof. done. Qed.
Lemma nodes_free a t : nodes (free a t) = delete a (nodes t).
Proof. done. Qed.

Ltac heap_lookup :=
  repeat first
    [ rewrite lookup_upd_eq
    | rewrite lookup_upd_ne by done
    | rewrite nodes_bump
    | rewrite nodes_set_root
    | rewrite nodes_free, lookup_delete_ne by done ];
  first [ eassumption | reflexivity ].

Lemma store_upd_eq a f nd t : store a f (upd a nd t) = upd a (f nd) t.
Proof.
  rewrite (store_upd _ _ _ nd) by apply lookup_upd_eq. apply upd_upd.
Qed.

Lemma store_upd_ne a b f nd t :
  a ≠ b → store a f (upd b nd t) = upd b nd (store a f t).
Proof.
  intros Hne. unfold store, upd. simpl. f_equal.
  apply map_eq. intros i. destruct (decide (a = i)) as [<-|].
  - by rewrite lookup_alter_eq, !lookup_insert_ne, lookup_alter_eq.
  - rewrite lookup_alter_ne by done. destruct (decide (b = i)) as [<-|].
    + by rewrite !lookup_insert_eq.
    + by rewrite !lookup_insert_ne, lookup_alter_ne.
Qed.

Lemma store_bump a f t : store a f (bump t) = bump (store a f t).
Proof. done. Qed.
Lemma upd_bump a nd t : upd a nd (bump t) = bump (upd a nd t).
Proof. done. Qed.

(** Turn a [store] on a pool in normal form into an [upd]. *)
Ltac store_step :=
  first
    [ rewrite store_upd_eq
    | rewrite store_upd_ne by done
    | match goal with
      | |- context [store ?a ?f ?t] =>
          lazymatch t with
          | context [store _ _ _] => fail
          | context [store_opt _ _ _] => fail
          | context [upd _ _ _] => fail
          | _ => idtac
          end;
          let H := fresh in
          eassert (nodes t !! a = Some _) as H by heap_lookup;
          rewrite (store_upd t a f _ H); clear H
      end ].

Ltac node_at_step :=
  first
    [ rewrite node_at_upd_eq
    | rewrite node_at_upd_ne by done
    | match goal with
      | |- context [node_at ?t ?a] =>
          lazymatch t with
          | context [store _ _ _] => fail
          | context [store_opt _ _ _] => fail
          | context [upd _ _ _] => fail
          | _ => idtac
          end;
          let H := fresh in
          eassert (nodes t !! a = Some _) as H by heap_lookup;
          rewrite (node_at_lookup t a _ H); clear H
      end ].

(** The cells other than the listed ones are as before. *)
Ltac heap_frame :=
  let x := fresh "x" in
  intros x; intros;
  repeat first
    [ rewrite lookup_upd_ne by done
    | rewrite nodes_bump
    | rewrite nodes_set_root
    | rewrite nodes_free, lookup_delete_ne by done ];
  done.

Ltac forall_inv :=
  repeat match goal with
  | H : Forall _ (_ :: _) |- _ => apply Forall_cons in H as [? H]
  | H : Forall _ [] |- _ => clear H
  end.

Ltac bool_simpl :=
  repeat first
    [ rewrite bool_decide_eq_true_2 by (done || lia)
    | rewrite bool_decide_eq_false_2 by (done || lia || congruence) ];
  simpl.

Ltac nodup_inv H :=
  repeat (apply NoDup_cons in H as [? H]);
  repeat match goal with
  | H' : _ ∉ _ :: _ |- _ => apply not_elem_of_cons in H' as [? H']
  | H' : _ ∉ [] |- _ => clear H'
  end; clear H.

Ltac is_some_inv :=
  repeat match goal with
  | H : is_Some (_ !! _) |- _ => destruct H as [? H]
  end.

Ltac heap_exec :=
  repeat first
    [ store_step | node_at_step
    | rewrite store_opt_Some | rewrite store_opt_None
    | rewrite root_upd | rewrite brk_upd | rewrite root_bump | rewrite brk_bump
    | rewrite root_store | rewrite brk_store
    | progress unfold child_at, key_at, offset_at, fresh_node
    | progress simpl ].

(** ** Building and moving representations *)

Lemma rep_ctx_ext c : ∀ d h h' a,
  (∀ x, x ∈ actx c → h' !! x = h !! x) → rep_ctx d h c a → rep_ctx d h' c a.
Proof.
  induction c as [|f c IH]; intros d h h' a Heq; simpl; [done|].
  intros (? & ? & ? & ? & (nd & Hnd & ?) & Hsib & Hc).
  unfold actx in Heq. setoid_rewrite bind_cons in Heq.
  split_and!; try done.
  - exists nd. split; [|done]. rewrite Heq; [done|]. set_solver.
  - apply Forall_forall. intros s Hs. rewrite Forall_forall in Hsib.
    eapply rep_ext; [|by apply Hsib]. intros x Hx. apply Heq.
    apply elem_of_app. left. apply elem_of_cons. right.
    apply list_elem_of_bind. eauto.
  - eapply IH; [|done]. intros x Hx. apply Heq. apply elem_of_app. by right.
Qed.

Lemma rep_root d h m p T :
  rep d h m p T → ∃ nd, h !! addr T = Some nd ∧ parent nd = p.
Proof.
  destruct d, T; simpl; try done.
  - intros (_ & nd & ? & _ & _ & ? & _). eauto.
  - intros (_ & _ & (nd & ? & _ & _ & ? & _) & _). eauto.
Qed.

Lemma node_is_set_parent nd leaf p p' ks os cs :
  node_is nd leaf p ks os cs → node_is (set_parent p' nd) leaf p' ks os cs.
Proof. intros (? & ? & ? & ? & ? & ? & ?). by destruct nd. Qed.

Lemma rep_reparent d h h' m p p' T nd :
  rep d h m p T → NoDup (addrs T) →
  h !! addr T = Some nd → h' !! addr T = Some (set_parent p' nd) →
  (∀ x, x ∈ addrs T → x ≠ addr T → h' !! x = h !! x) →
  rep d h' m p' T.
Proof.
  intros HT Hnd Hh Hh' Heq. destruct d, T as [a ks os|a ks cs]; simpl in *; try done.
  - destruct HT as (? & nd' & ? & ?). simplify_eq. split; [done|].
    eexists. split; [done|]. by eapply node_is_set_parent.
  - destruct HT as (? & ? & (nd' & ? & ?) & Hcs). simplify_eq.
    split_and!; try (done || lia).
    + eexists. split; [done|]. by eapply node_is_set_parent.
    + apply NoDup_cons in Hnd as [Ha _].
      apply Forall_forall. intros c Hc. rewrite Forall_forall in Hcs.
      eapply rep_ext; [|by apply Hcs]. intros x Hx.
      assert (x ∈ cs ≫= addrs) by (apply list_elem_of_bind; eauto).
      apply Heq; [apply elem_of_cons; by right|]. intros ->. done.
Qed.

(** ** Leaf chains *)

Lemma chain_ext h h' ls last :
  (∀ a, a ∈ ls → next <$> h' !! a = next <$> h !! a) →
  chain h ls last → chain h' ls last.
Proof.
  induction ls as [|a ls IH]; intros Heq; simpl; [done|].
  intros ((nd & Hnd & Hn) & Hc). split.
  - specialize (Heq a ltac:(by left)). rewrite Hnd in Heq. simpl in Heq.
    destruct (h' !! a) as [nd'|]; simplify_eq/=. exists nd'. split; [done|].
    congruence.
  - apply IH; [|done]. intros x Hx. apply Heq. by right.
Qed.

Lemma addr_plug c : ∀ t, addr (plug t c) = raddr c (addr t).
Proof. induction c as [|f c IH]; intros t; simpl; [done|]. by rewrite IH. Qed.

Lemma addrs_fill f t :
  addrs (fill f t) ≡ₚ addrs t ++ fa f :: ((cl f ++ cr f) ≫= addrs).
Proof.
  unfold fill. rewrite addrs_node, !bind_app, bind_cons.
  rewrite <- Permutation_middle. apply perm_skip.
  rewrite (assoc (++)), (comm (++) _ (addrs t)). by rewrite <- (assoc (++)).
Qed.

Lemma actx_cons f c :
  actx (f :: c) = (fa f :: ((cl f ++ cr f) ≫= addrs)) ++ actx c.
Proof. done. Qed.

Lemma addrs_plug c : ∀ t, addrs (plug t c) ≡ₚ addrs t ++ actx c.
Proof.
  induction c as [|f c IH]; intros t.
  - simpl. by rewrite app_nil_r.
  - cbn [plug]. rewrite IH, addrs_fill, actx_cons.
    by rewrite <- (assoc (++)).
Qed.


Lemma laddrs_plug c t :
  ctx_wf c → laddrs (plug t c) = lpre c ++ laddrs t ++ lpost c.
Proof.
  intros Hc. unfold laddrs, lpre, lpost. by rewrite trav_plug, !bind_app.
Qed.

Lemma heap_ok_upd a nd t :
  is_Some (nodes t !! a) → heap_ok t → heap_ok (upd a nd t).
Proof.
  intros [nd' Hnd] Hok b ndb. simpl. destruct (decide (a = b)) as [<-|].
  - intros _. by eapply Hok.
  - rewrite lookup_insert_ne by done. apply Hok.
Qed.

Lemma hrep_replace t t' D d c told tnew :
  hrep t D (plug told c) → rep_ctx d (nodes t) c (addr told) →
  d + length c = D →
  root t' = root t → addr tnew = addr told →
  (∀ x, x ∈ actx c → nodes t' !! x = nodes t !! x) →
  rep d (nodes t') (mhole c d) (par c) tnew →
  NoDup (addrs tnew ++ actx c) → heap_ok t' →
  chain (nodes t') (lpre c ++ laddrs tnew ++ lpost c) None →
  hrep t' D (plug tnew c).
Proof.
  intros (Hroot & _) Hc <- Hr Ha Heq Hnew Hnd Hok Hch.
  pose proof (rep_ctx_wf _ _ _ _ Hc) as Hwf.
  split_and!; try done.
  - by rewrite Hr, Hroot, !addr_plug, Ha.
  - apply rep_plug; [|done]. rewrite Ha. by eapply rep_ctx_ext.
  - by rewrite addrs_plug.
  - by rewrite laddrs_plug.
Qed.

Lemma hrep_descend t D T key :
  hrep t D T →
  ∃ c a ks os nd, descend D key T [] = (c, BLeaf a ks os)
    ∧ T = plug (BLeaf a ks os) c ∧ length c = D
    ∧ rep_ctx 0 (nodes t) c a
    ∧ mhole c 0 ≤ length ks ≤ MAX_KEYS
    ∧ nodes t !! a = Some nd ∧ node_is nd true (par c) ks os []
    ∧ NoDup (a :: actx c)
    ∧ find_leaf_node t (root t) key = Some a.
Proof.
  intros Hrep. pose proof (hrep_depth _ _ _ Hrep) as Hd.
  destruct Hrep as (Hroot & HT & Hnd & Hok & Hch).
  destruct (descend_spec D (nodes t) key T [])
    as (c & a & ks & os & Hdesc & Hc & Hl & Hp & Hlen); [done|done|].
  destruct Hl as (? & nd & ? & ?).
  exists c, a, ks, os, nd. simpl in *. split_and!; try (done || lia).
  - rewrite <- Hp, addrs_plug in Hnd. done.
  - rewrite Hroot. unfold find_leaf_node.
    rewrite (find_leaf_from_spec D t key T [] _ _ _ HT) by lia.
    by rewrite Hdesc.
Qed.

Lemma NoDup_cons_app_l {A} (x : A) l1 l2 :
  NoDup (x :: l1 ++ l2) → NoDup (x :: l2).
Proof.
  rewrite !NoDup_cons, NoDup_app, not_elem_of_app. naive_solver.
Qed.

Lemma hrep_insert_leaf t D T key off c a ks os :
  hrep t D T → descend D key T [] = (c, BLeaf a ks os) →
  length ks < MAX_KEYS →
  let j := ins_pos key (rev ks) in
  hrep (insert_into_leaf a key off t) D
       (plug (BLeaf a (ins_at j key ks) (ins_at j off os)) c).
Proof.
  intros Hrep Hdesc Hlt j.
  destruct (hrep_descend _ _ _ key Hrep)
    as (c' & a' & ks' & os' & nd & Hdesc' & HT & Hlen & Hc & Hsz & Hnd & Hn & Hdup & _).
  rewrite Hdesc in Hdesc'. injection Hdesc' as <- <- <- <-.
  destruct (insert_into_leaf_node_spec _ _ _ _ key off Hn Hlt) as [Hn' Hnext].
  unfold insert_into_leaf. rewrite (store_upd _ _ _ _ Hnd).
  pose proof Hrep as (_ & _ & _ & Hok & Hch).
  apply NoDup_cons in Hdup as [Ha Hdup]. subst T.
  eapply (hrep_replace t _ _ 0 c (BLeaf a ks os)); try done.
  - intros x Hx. simpl. rewrite lookup_insert_ne; [done|]. by intros ->.
  - simpl. split.
    + unfold ins_at. rewrite length_app. simpl.
      rewrite length_take, length_drop. lia.
    + eexists. split; [apply lookup_insert_eq|done].
  - simpl. by apply NoDup_cons.
  - apply heap_ok_upd; [eauto|done].
  - rewrite laddrs_plug in Hch by (by eapply rep_ctx_wf).
    eapply chain_ext; [|exact Hch]. intros x Hx. simpl.
    destruct (decide (x = a)) as [->|].
    + rewrite lookup_insert_eq, Hnd. simpl. by rewrite Hnext.
    + by rewrite lookup_insert_ne.
Qed.

Lemma key_position_Some nd k i fuel j :
  key_position nd k i fuel = Some j → i ≤ j < i + fuel ∧ key_at nd j = k.
Proof.
  revert i. induction fuel as [|fuel IH]; intros i; simpl; [done|].
  case_bool_decide as Hk.
  - intros [= <-]. split; [lia|done].
  - intros H. apply IH in H. split; [lia|tauto].
Qed.

Lemma find_leaf_from_leaf fuel t a k l :
  find_leaf_from fuel t a k = Some l → is_leaf (node_at t l) = true.
Proof.
  revert a. induction fuel as [|fuel IH]; intros a; simpl; [done|].
  destruct (is_leaf (node_at t a)) eqn:Hl.
  - by intros [= <-].
  - destruct (child_at _ _); [apply IH|done].
Qed.

Lemma node_at_present t a j :
  j < num_keys (node_at t a) → ∃ nd, nodes t !! a = Some nd ∧ node_at t a = nd.
Proof.
  unfold node_at. destruct (nodes t !! a) as [nd|]; simpl; [eauto|lia].
Qed.

Lemma delete_key_not_present t k : ¬ key_present t k → delete_key t k = t.
Proof.
  intros Habs. unfold delete_key.
  destruct (root t) as [r|] eqn:Hr; [|done]. unfold find_leaf_node.
  destruct (find_leaf_from (S (brk t)) t r k) as [l|] eqn:Hf; [|done].
  destruct (key_position (node_at t l) k 0 _) as [j|] eqn:Hp; [|done].
  exfalso. apply Habs.
  apply key_position_Some in Hp as [Hj Hk].
  apply find_leaf_from_leaf in Hf.
  destruct (node_at_present t l j) as (nd & Hnd & Heq); [lia|].
  exists l, nd, j. rewrite Heq in *. repeat split; [done..|lia|done].
Qed.

Local Opaque upd bump store store_opt node_at set_root free.

Lemma heap_ok_fresh t : heap_ok t → nodes t !! brk t = None.
Proof.
  intros Hok. destruct (nodes t !! brk t) as [nd|] eqn:H; [|done].
  apply Hok in H. lia.
Qed.

Lemma split_leaf_node_spec t leaf ln p ks os key off :
  nodes t !! leaf = Some ln → node_is ln true p ks os [] →
  length ks = MAX_KEYS → leaf ≠ brk t →
  let i := lower key ks in
  let mk := ins_at i key ks in
  let mo := ins_at i off os in
  ∃ t8 ln' nl',
    split_leaf_node t leaf key off = (brk t, t8)
    ∧ root t8 = root t ∧ brk t8 = S (brk t)
    ∧ nodes t8 !! leaf = Some ln' ∧ nodes t8 !! brk t = Some nl'
    ∧ (∀ x, x ≠ leaf → x ≠ brk t → nodes t8 !! x = nodes t !! x)
    ∧ node_is ln' true p (take 2 mk) (take 2 mo) []
    ∧ next ln' = Some (brk t)
    ∧ node_is nl' true p (drop 2 mk) (drop 2 mo) []
    ∧ next nl' = next ln
    ∧ key_at nl' 0 = mk !!! 2.
Proof.
  intros Hl Hn Hlen Hne i mk mo.
  pose proof (node_is_os_length _ _ _ _ _ Hn) as Hlo.
  unfold split_leaf_node. rewrite create_new_node_upd.
  rewrite (node_at_lookup _ _ _ Hl).
  destruct (split_leaf_temp ln key off) as [tk tofs] eqn:Htemp.
  repeat (first [store_step | node_at_step]; cbn [parent num_keys set_num_keys]).
  eexists _, _, _. split; [reflexivity|].
  split; [done|]. split; [done|].
  split; [heap_lookup|]. split; [heap_lookup|]. split; [heap_frame|].
  destruct Hn as ((Hlk & Hlf & Hlc) & Hleaf & Hp & Hnum & Hle & Hk & Ho).
  unfold MAX_KEYS in *. explode_node ln. subst.
  destruct ks as [|k0 [|k1 [|k2 [|k3 [|]]]]]; simpl in *; try lia.
  simplify_eq. subst i mk mo.
  unfold split_leaf_temp, key_at, offset_at in Htemp. simpl in Htemp.
  unfold node_is, arrays_ok, ins_at, key_at; simpl.
  repeat case_bool_decide; simpl in *; simplify_eq;
    unfold key_at, offset_at; simpl; try lia;
    split_and!; try done; knum; lia.
Qed.

Lemma insert_into_node_local pn pp kl kr (al ar : list ptr) a key r :
  node_is pn false pp (kl ++ kr) [] (al ++ Some a :: ar) →
  length al = length kl → length ar = length kr →
  length (kl ++ kr) < MAX_KEYS →
  Forall (λ x, x ≠ Some a) al →
  child_slot pn a 0 (num_keys pn) = length kl
  ∧ let pn' :=
      set_num_keys
        (S (num_keys (insert_into_node_shift (num_keys pn) (length kl) pn)))
        (set_child (length kl + 1) (Some r)
           (set_key (length kl) key
              (insert_into_node_shift (num_keys pn) (length kl) pn))) in
    node_is pn' false pp (kl ++ key :: kr) [] (al ++ Some a :: Some r :: ar)
    ∧ next pn' = next pn.
Proof.
  intros ((Hlk & Hlf & Hlc) & Hleaf & Hp & Hnum & Hle & Hk & Hc) Hal Har Hlt Hne.
  unfold MAX_KEYS in *. explode_node pn. subst.
  destruct kl as [|k0 [|k1 [|k2 [|k3 ?]]]]; simpl in Hlt; try lia;
  destruct al as [|a0 [|a1 [|a2 [|a3 ?]]]]; simpl in Hal; try lia;
  destruct kr as [|j0 [|j1 [|j2 [|j3 ?]]]]; simpl in Hlt; try lia;
  destruct ar as [|b0 [|b1 [|b2 [|b3 ?]]]]; simpl in Har; try lia;
  simpl in *; simplify_eq; forall_inv;
  unfold child_at, key_at, node_is, arrays_ok; simpl; bool_simpl;
  split_and!; try done; knum; lia.
Qed.

Lemma insert_into_node_spec t p pn rn pp kl kr al ar a key r :
  nodes t !! p = Some pn → nodes t !! r = Some rn → p ≠ r →
  node_is pn false pp (kl ++ kr) [] (al ++ Some a :: ar) →
  length al = length kl → length ar = length kr →
  length (kl ++ kr) < MAX_KEYS →
  Forall (λ x, x ≠ Some a) al →
  ∃ t' pn',
    insert_into_node p (length kl) key (Some r) t = t'
    ∧ root t' = root t ∧ brk t' = brk t
    ∧ nodes t' !! p = Some pn'
    ∧ nodes t' !! r = Some (set_parent (Some p) rn)
    ∧ (∀ x, x ≠ p → x ≠ r → nodes t' !! x = nodes t !! x)
    ∧ node_is pn' false pp (kl ++ key :: kr) [] (al ++ Some a :: Some r :: ar)
    ∧ next pn' = next pn.
Proof.
  intros Hp Hr Hne Hn Hal Har Hlt Hfa.
  destruct (insert_into_node_local _ _ _ _ _ _ _ key r Hn Hal Har Hlt Hfa)
    as (_ & Hn' & Hnext).
  unfold insert_into_node.
  repeat (first [store_step | node_at_step]; cbn [store_opt num_keys set_key set_child]).
  eexists _, _. split; [reflexivity|].
  split; [done|]. split; [done|].
  split; [heap_lookup|]. split; [heap_lookup|]. split; [heap_frame|].
  done.
Qed.

Lemma new_root_spec fuel t left right ln rn key :
  nodes t !! left = Some ln → nodes t !! right = Some rn →
  parent ln = None → left ≠ right → left ≠ brk t → right ≠ brk t →
  ∃ t' nr,
    insert_into_parent_from fuel t left key right = t'
    ∧ root t' = Some (brk t) ∧ brk t' = S (brk t)
    ∧ nodes t' !! brk t = Some nr
    ∧ nodes t' !! left = Some (set_parent (Some (brk t)) ln)
    ∧ nodes t' !! right = Some (set_parent (Some (brk t)) rn)
    ∧ (∀ x, x ≠ left → x ≠ right → x ≠ brk t → nodes t' !! x = nodes t !! x)
    ∧ node_is nr false None [key] [] [Some left; Some right]
    ∧ next nr = None.
Proof.
  intros Hl Hr Hp Hne Hlb Hrb.
  assert (insert_into_parent_from fuel t left key right
          = insert_into_parent_from 0 t left key right) as ->.
  { destruct fuel; simpl; by rewrite (node_at_lookup _ _ _ Hl), Hp. }
  cbn [insert_into_parent_from]. rewrite (node_at_lookup _ _ _ Hl), Hp.
  rewrite create_new_node_upd.
  repeat store_step.
  eexists _, _. split; [reflexivity|].
  split; [done|]. split; [done|].
  split; [heap_lookup|].
  split; [heap_lookup|].
  split; [heap_lookup|].
  split; [heap_frame|].
  unfold node_is, arrays_ok; simpl. split_and!; try done; knum; lia.
Qed.

Lemma split_internal_node_spec t p pn pp kl kr xl xr a r key :
  nodes t !! p = Some pn →
  node_is pn false pp (kl ++ kr) [] (Some <$> (xl ++ a :: xr)) →
  length xl = length kl → length xr = length kr →
  length (kl ++ kr) = MAX_KEYS →
  NoDup (p :: brk t :: xl ++ a :: r :: xr) →
  Forall (λ x, is_Some (nodes t !! x)) (xl ++ a :: r :: xr) →
  let tk := kl ++ key :: kr in
  let xs := xl ++ a :: r :: xr in
  ∃ t' pn' nb,
    split_internal_node t p (length kl) key r = (tk !!! 2, brk t, t')
    ∧ root t' = root t ∧ brk t' = S (brk t)
    ∧ nodes t' !! p = Some pn' ∧ nodes t' !! brk t = Some nb
    ∧ (∀ x, x ∈ drop 3 xs →
         nodes t' !! x = set_parent (Some (brk t)) <$> nodes t !! x)
    ∧ (∀ x, x ≠ p → x ≠ brk t → x ∉ drop 3 xs →
         nodes t' !! x = nodes t !! x)
    ∧ node_is pn' false pp (take 2 tk) [] (Some <$> take 3 xs)
    ∧ next pn' = next pn
    ∧ node_is nb false pp (drop 3 tk) [] (Some <$> drop 3 xs)
    ∧ next nb = None.
Proof.
  intros Hp ((Hlk & Hlf & Hlc) & Hleaf & Hpp & Hnum & Hle & Hk & Hc)
    Hxl Hxr Hlen Hnd Hdom tk xs.
  unfold split_internal_node. rewrite create_new_node_upd.
  rewrite (node_at_lookup _ _ _ Hp).
  destruct (split_internal_temp pn (length kl) key r) as [tk' tc] eqn:Htemp.
  unfold split_internal_temp in Htemp.
  unfold MAX_KEYS in *. explode_node pn. subst tk xs.
  destruct kl as [|k0 [|k1 [|k2 [|k3 [|]]]]]; simpl in Hlen; try lia;
  destruct xl as [|a0 [|a1 [|a2 [|a3 [|]]]]]; simpl in Hxl; try lia;
  destruct kr as [|j0 [|j1 [|j2 [|j3 [|]]]]]; simpl in Hlen; try lia;
  destruct xr as [|b0 [|b1 [|b2 [|b3 [|]]]]]; simpl in Hxr; try lia.
  all: simpl in *; simplify_eq; forall_inv; is_some_inv; nodup_inv Hnd.
  all: unfold key_at, child_at in *; simpl in *; simplify_eq.
  all: heap_exec.
  all: eexists _, _, _; split; [reflexivity|].
  all: split; [done|]; split; [done|].
  all: split; [heap_lookup|]; split; [heap_lookup|].
  all: split; [intros y Hy; set_unfold in Hy; destruct_or!; subst y;
               (etrans; [heap_lookup|]);
               match goal with H : nodes _ !! _ = _ |- _ => by rewrite H end|].
  all: split; [intros y ?? Hy; set_unfold in Hy;
               rewrite ?lookup_upd_ne by naive_solver; by rewrite ?nodes_bump|].
  all: unfold node_is, arrays_ok; simpl; split_and!; try done; knum; lia.
Qed.

(** ** Lists of subtrees *)

Lemma roots_in_addrs cs x : x ∈ addr <$> cs → x ∈ cs ≫= addrs.
Proof.
  intros (c & -> & Hc)%list_elem_of_fmap. apply list_elem_of_bind.
  exists c. split; [apply addr_in_addrs|done].
Qed.

Lemma NoDup_roots cs : NoDup (cs ≫= addrs) → NoDup (addr <$> cs).
Proof.
  induction cs as [|c cs IH]; [constructor|].
  rewrite bind_cons, fmap_cons. intros (H1 & H2 & H3)%NoDup_app.
  apply NoDup_cons. split; [|by apply IH].
  intros Hin%roots_in_addrs. eapply H2; [apply addr_in_addrs|done].
Qed.

Lemma root_unique cs c x :
  NoDup (cs ≫= addrs) → c ∈ cs → x ∈ addrs c → x ∈ addr <$> cs → x = addr c.
Proof.
  induction cs as [|c' cs IH]; [by intros _ ?%elem_of_nil|].
  rewrite bind_cons, fmap_cons. intros (H1 & H2 & H3)%NoDup_app Hc Hx Hr.
  apply elem_of_cons in Hc as [->|Hc]; apply elem_of_cons in Hr as [->|Hr].
  - done.
  - exfalso. eapply H2; [done|]. by apply roots_in_addrs.
  - exfalso. eapply H2; [apply addr_in_addrs|].
    apply list_elem_of_bind. eauto.
  - by apply IH.
Qed.

Lemma reps_ext d h h' m p cs :
  Forall (rep d h m p) cs →
  (∀ x, x ∈ cs ≫= addrs → h' !! x = h !! x) →
  Forall (rep d h' m p) cs.
Proof.
  intros Hcs Heq. apply Forall_forall. intros c Hc.
  rewrite Forall_forall in Hcs. eapply rep_ext; [|by apply Hcs].
  intros x Hx. apply Heq. apply list_elem_of_bind. eauto.
Qed.

Lemma reps_reparent d h h' m p p' cs :
  Forall (rep d h m p) cs → NoDup (cs ≫= addrs) →
  (∀ x, x ∈ addr <$> cs → h' !! x = set_parent p' <$> h !! x) →
  (∀ x, x ∈ cs ≫= addrs → x ∉ addr <$> cs → h' !! x = h !! x) →
  Forall (rep d h' m p') cs.
Proof.
  intros Hcs Hnd Hroot Hrest. apply Forall_forall. intros c Hc.
  rewrite Forall_forall in Hcs. specialize (Hcs c Hc).
  destruct (rep_root _ _ _ _ _ Hcs) as (nd & Hnode & _).
  eapply rep_reparent; [done| |done| |].
  - clear -Hnd Hc. induction cs as [|c' cs IH]; [by apply elem_of_nil in Hc|].
    rewrite bind_cons in Hnd. apply NoDup_app in Hnd as (? & _ & ?).
    apply elem_of_cons in Hc as [->|?]; [done|by apply IH].
  - rewrite Hroot, Hnode; [done|]. apply list_elem_of_fmap. eauto.
  - intros x Hx Hne. apply Hrest; [apply list_elem_of_bind; eauto|].
    intros Hr. by apply Hne, (root_unique cs).
Qed.

Lemma reps_roots d h m p cs :
  Forall (rep d h m p) cs → Forall (λ x, is_Some (h !! x)) (addr <$> cs).
Proof.
  intros Hcs. apply Forall_fmap. eapply Forall_impl; [done|].
  intros c Hc. simpl. destruct (rep_root _ _ _ _ _ Hc) as (? & ? & _). eauto.
Qed.

Lemma reps_addrs_dom d h m p cs x :
  Forall (rep d h m p) cs → x ∈ cs ≫= addrs → is_Some (h !! x).
Proof.
  intros Hcs (c & Hx & Hc)%list_elem_of_bind. rewrite Forall_forall in Hcs.
  eapply rep_addrs_dom; [by apply Hcs|done].
Qed.

Lemma rep_ctx_addrs_dom c : ∀ d h a x,
  rep_ctx d h c a → x ∈ actx c → is_Some (h !! x).
Proof.
  induction c as [|f c IH]; intros d h a x; [by intros _ ?%elem_of_nil|].
  rewrite actx_cons. simpl.
  intros (_ & _ & _ & _ & (nd & Hnd & _) & Hsib & Hc) Hx.
  apply elem_of_cons in Hx as [->|Hx]; [eauto|].
  apply elem_of_app in Hx as [Hx|Hx]; [by eapply reps_addrs_dom|by eapply IH].
Qed.

Lemma caddrs_fmap cs : caddrs cs = Some <$> (addr <$> cs).
Proof. unfold caddrs. by rewrite <- list_fmap_compose. Qed.

Lemma insert_into_parent_from_unfold fuel t left key right :
  insert_into_parent_from fuel t left key right =
  match parent (node_at t left) with
  | None => insert_into_parent_from 0 t left key right
  | Some p =>
      let pn := node_at t p in
      let index := child_slot pn left 0 (num_keys pn) in
      if bool_decide (num_keys pn < MAX_KEYS)
      then insert_into_node p index key (Some right) t
      else
        match fuel with
        | 0 => t
        | S fuel' =>
            let '(k_prime, new_internal, t9) :=
              split_internal_node t p index key right in
            insert_into_parent_from fuel' t9 p k_prime new_internal
        end
  end.
Proof. destruct fuel; simpl; by destruct (parent (node_at t left)). Qed.

Lemma child_slot_spec pn pp kl kr (al ar : list ptr) a :
  node_is pn false pp (kl ++ kr) [] (al ++ Some a :: ar) →
  length al = length kl → length ar = length kr →
  Forall (λ x, x ≠ Some a) al →
  child_slot pn a 0 (num_keys pn) = length kl.
Proof.
  intros ((Hlk & Hlf & Hlc) & Hleaf & Hp & Hnum & Hle & Hk & Hc) Hal Har Hne.
  unfold MAX_KEYS in *. explode_node pn. subst.
  destruct kl as [|k0 [|k1 [|k2 [|k3 [|]]]]]; simpl in Hle; try lia;
  destruct al as [|a0 [|a1 [|a2 [|a3 [|]]]]]; simpl in Hal; try lia;
  destruct kr as [|j0 [|j1 [|j2 [|j3 [|]]]]]; simpl in Hle; try lia;
  destruct ar as [|b0 [|b1 [|b2 [|b3 [|]]]]]; simpl in Har; try lia;
  simpl in *; simplify_eq; forall_inv;
  unfold child_at; simpl; bool_simpl; done.
Qed.

(** What [insert_into_parent] leaves of the cells that were there: the
    [next] pointers. *)

Lemma next_kept_trans t1 t2 t3 :
  next_kept t1 t2 → next_kept t2 t3 → next_kept t1 t3.
Proof.
  intros H12 H23 x nd Hx. destruct (H12 x nd Hx) as (nd' & Hx' & <-).
  by apply H23.
Qed.

Lemma heap_ok_grow t t' :
  heap_ok t → brk t ≤ brk t' →
  (∀ x, is_Some (nodes t' !! x) → x < brk t' ∨ is_Some (nodes t !! x)) →
  heap_ok t'.
Proof.
  intros Hok Hb Hdom x nd Hx. destruct (Hdom x) as [?|[nd' Hnd']]; [eauto|done|].
  apply Hok in Hnd'. lia.
Qed.

Lemma ins_up_rep c : ∀ d t tl tr key fuel,
  rep_ctx d (nodes t) c (addr tl) →
  rep d (nodes t) MIN_KEYS (par c) tl →
  rep d (nodes t) MIN_KEYS (par c) tr →
  NoDup (addrs tl ++ addrs tr ++ actx c) →
  heap_ok t → root t = Some (raddr c (addr tl)) →
  length c ≤ fuel →
  ∃ d' t',
    insert_into_parent_from fuel t (addr tl) key (addr tr) = t'
    ∧ root t' = Some (addr (ins_up c tl key tr (brk t)))
    ∧ rep d' (nodes t') (min 1 d') None (ins_up c tl key tr (brk t))
    ∧ heap_ok t' ∧ next_kept t t'.
Proof.
  induction c as [|f c IH]; intros d t tl tr key fuel Hc Htl Htr Hnd Hok Hroot Hfuel.
  - simpl in *. rewrite app_nil_r in Hnd.
    destruct (rep_root _ _ _ _ _ Htl) as (ln & Hln & Hpl).
    destruct (rep_root _ _ _ _ _ Htr) as (rn & Hrn & Hpr).
    apply NoDup_app in Hnd as (Hndl & Hdisj & Hndr).
    assert (addr tl ≠ addr tr) as Hne.
    { intros E. eapply Hdisj; [apply addr_in_addrs|]. rewrite E.
      apply addr_in_addrs. }
    assert (∀ x, is_Some (nodes t !! x) → x ≠ brk t) as Hfresh.
    { intros x [nd Hx] ->. apply Hok in Hx. lia. }
    destruct (new_root_spec fuel t _ _ _ _ key Hln Hrn Hpl Hne)
      as (t' & nr & -> & Hr' & Hb' & Hnr & Hl' & Hr'' & Hfr & Hnode & Hnext);
      [apply Hfresh; eauto..|].
    exists (S d), t'. split_and!.
    + done.
    + done.
    + simpl. split_and!; try (knum; simpl; lia).
      * eexists. split; [done|]. done.
      * repeat constructor.
        -- eapply rep_reparent; [done..|].
           intros x Hx Hxl. apply Hfr; [done| |].
           ++ intros ->. eapply Hdisj; [done|apply addr_in_addrs].
           ++ apply Hfresh. by eapply (rep_addrs_dom _ _ _ _ tl).
        -- eapply rep_reparent; [done..|].
           intros x Hx Hxl. apply Hfr; [|done|].
           ++ intros ->. eapply Hdisj; [apply addr_in_addrs|done].
           ++ apply Hfresh. by eapply (rep_addrs_dom _ _ _ _ tr).
    + eapply heap_ok_grow; [done|lia|]. intros x Hx. rewrite Hb'.
      destruct (decide (x = brk t)) as [->|]; [left; lia|].
      destruct (decide (x = addr tl)) as [->|]; [eauto|].
      destruct (decide (x = addr tr)) as [->|]; [eauto|].
      right. by rewrite <- Hfr.
    + intros x nd Hx.
      destruct (decide (x = addr tl)) as [->|].
      { simplify_eq. eexists. split; [done|]. done. }
      destruct (decide (x = addr tr)) as [->|].
      { simplify_eq. eexists. split; [done|]. done. }
      exists nd. split; [|done]. rewrite Hfr; [done..|]. apply Hfresh; eauto.
  - destruct Hc as (Hl & Hr & Hmin & Hmax & (pn & Hpn & Hnode) & Hsib & Hc').
    cbn [par] in Htl, Htr. cbn [raddr] in Hroot.
    destruct (rep_root _ _ _ _ _ Htl) as (ln & Hln & Hpl).
    destruct (rep_root _ _ _ _ _ Htr) as (rn & Hrn & Hpr).
    rewrite insert_into_parent_from_unfold.
    rewrite (node_at_lookup _ _ _ Hln), Hpl. cbn zeta.
    rewrite (node_at_lookup _ _ _ Hpn).
    set (tcs := cl f ++ tl :: tr :: cr f).
    assert (addrs tl ++ addrs tr ++ actx (f :: c)
            ≡ₚ fa f :: (tcs ≫= addrs) ++ actx c) as Hperm.
    { rewrite actx_cons. unfold tcs. rewrite !bind_app, !bind_cons.
      solve_Permutation. }
    pose proof Hnd as Hnd'. rewrite Hperm in Hnd'.
    apply NoDup_cons in Hnd' as [Hp1 Hnd'].
    apply not_elem_of_app in Hp1 as [Hp1 Hp2].
    apply NoDup_app in Hnd' as (Hnd1 & Hdisj & Hnd2).
    assert (Forall (rep d (nodes t) MIN_KEYS (Some (fa f))) tcs) as Htcs.
    { apply Forall_app in Hsib as [??]. unfold tcs.
      apply Forall_app. split; [done|]. by repeat constructor. }
    assert (∀ x, is_Some (nodes t !! x) → x ≠ brk t) as Hfresh.
    { intros x [nd Hx] ->. apply Hok in Hx. lia. }
    assert (Forall (λ x, x ≠ Some (addr tl)) (caddrs (cl f))) as Hne.
    { apply NoDup_roots in Hnd1. unfold tcs in Hnd1.
      rewrite fmap_app, fmap_cons in Hnd1.
      apply NoDup_app in Hnd1 as (_ & Hd & _).
      rewrite caddrs_fmap. apply Forall_fmap, Forall_forall.
      intros x Hx [= ->]. eapply Hd; [done|by left]. }
    rewrite (child_slot_spec _ _ _ _ _ _ _ Hnode) by
      (rewrite ?length_fmap; done || (unfold caddrs; rewrite ?length_fmap; done)).
    pose proof Hnode as (_ & _ & _ & Hnum & _). rewrite Hnum.
    case_bool_decide as Hfull.
    + assert (fa f ≠ addr tr) as Hpr'.
      { intros E. apply Hp1. rewrite E. unfold tcs.
        rewrite bind_app, !bind_cons. pose proof (addr_in_addrs tr). set_solver. }
      destruct (insert_into_node_spec t (fa f) pn rn _ _ _ _ _ _ key (addr tr)
                  Hpn Hrn Hpr' Hnode)
        as (t' & pn' & Heq & Hr' & Hb' & Hpn' & Hrn' & Hfr & Hnode' & Hnext);
        [by (unfold caddrs; rewrite length_fmap)..|done|done|].
      assert (∀ x, nodes t' !! x
                   = if decide (x = fa f) then Some pn' else nodes t !! x) as Hh'.
      { intros x. case_decide as Hx; [by subst|].
        destruct (decide (x = addr tr)) as [->|].
        - by rewrite Hrn', Hrn, set_parent_id.
        - by apply Hfr. }
      exists (S d + length c), t'. split; [done|].
      cbn [ins_up]. rewrite bool_decide_eq_true_2 by done.
      split; [by rewrite Hr', Hroot, addr_plug|]. split_and!.
      * apply rep_plug.
        -- eapply rep_ctx_ext; [|exact Hc']. intros x Hx. rewrite Hh'.
           rewrite decide_False; [done|]. by intros ->.
        -- cbn [rep]. split_and!.
           ++ rewrite length_app. simpl. rewrite length_app in Hmin.
              destruct c; simpl in *; knum; lia.
           ++ rewrite length_app in *. simpl in *. lia.
           ++ rewrite length_app. simpl. lia.
           ++ exists pn'. split; [by rewrite Hh', decide_True|].
              unfold caddrs in *. rewrite fmap_app. exact Hnode'.
           ++ eapply reps_ext; [exact Htcs|]. intros x Hx. rewrite Hh'.
              rewrite decide_False; [done|]. by intros ->.
      * eapply heap_ok_grow; [done|lia|]. intros x. rewrite Hh'.
        case_decide; [subst; eauto|eauto].
      * intros x nd Hx. rewrite Hh'. case_decide; [|eauto]. subst.
        simplify_eq. eauto.
    + destruct fuel as [|fuel]; [simpl in Hfuel; lia|].
      assert (length (kl f ++ kr f) = MAX_KEYS) as Hlen by lia.
      set (xs := addr <$> tcs).
      assert (∀ x, x ∈ xs → x ∈ tcs ≫= addrs) as Hxs by apply roots_in_addrs.
      assert (fa f ≠ brk t) as Hpb by (apply Hfresh; eauto).
      assert (brk t ∉ tcs ≫= addrs) as Hb1.
      { intros Hin. eapply Hfresh; [|done]. by eapply reps_addrs_dom. }
      assert (brk t ∉ actx c) as Hb2.
      { intros Hin. eapply Hfresh; [|done]. by eapply rep_ctx_addrs_dom. }
      destruct (split_internal_node_spec t (fa f) pn (par c) (kl f) (kr f)
                  (addr <$> cl f) (addr <$> cr f) (addr tl) (addr tr) key Hpn)
        as (t9 & pn' & nb & Heq & Hr9 & Hb9 & Hpn' & Hnb & Hmoved & Hfr
            & Hnode1 & Hnext1 & Hnode2 & Hnext2).
      { rewrite fmap_app, fmap_cons, <- !caddrs_fmap. done. }
      { by rewrite length_fmap. }
      { by rewrite length_fmap. }
      { done. }
      { replace (_ ++ _ :: _ :: _) with xs
          by (unfold xs, tcs; by rewrite fmap_app).
        apply NoDup_cons. split.
        { apply not_elem_of_cons. split; [done|]. intros ?%Hxs. done. }
        apply NoDup_cons. split; [by intros ?%Hxs|]. by apply NoDup_roots. }
      { replace (_ ++ _ :: _ :: _) with xs
          by (unfold xs, tcs; by rewrite fmap_app).
        by eapply reps_roots. }
      cbv zeta in Heq. rewrite Heq. clear Heq.
      replace ((addr <$> cl f) ++ addr tl :: addr tr :: (addr <$> cr f)) with xs
        in * by (unfold xs, tcs; by rewrite fmap_app).
      set (tk := kl f ++ key :: kr f) in *.
      assert (length tk = 5) as Htk.
      { unfold tk. rewrite length_app in *. simpl. knum. lia. }
      assert (length tcs = 6) as Htcsl.
      { unfold tcs. rewrite length_app in *. simpl. knum. lia. }
      assert (tcs ≫= addrs = (take 3 tcs ≫= addrs) ++ (drop 3 tcs ≫= addrs))
        as Hsplit by (by rewrite <- bind_app, take_drop).
      rewrite Hsplit in Hnd1. apply NoDup_app in Hnd1 as (Hnd1a & Hnd1d & Hnd1b).
      assert (∀ x, x ∈ drop 3 xs → x ∈ drop 3 tcs ≫= addrs) as Hxs3.
      { unfold xs. rewrite <- fmap_drop. apply roots_in_addrs. }
      pose proof (Forall_take _ 3 _ Htcs) as Htcs1.
      pose proof (Forall_drop _ 3 _ Htcs) as Htcs2.
      edestruct (IH (S d) t9 (BNode (fa f) (take 2 tk) (take 3 tcs))
                   (BNode (brk t) (drop 3 tk) (drop 3 tcs)) (tk !!! 2) fuel)
        as (d' & t' & Heq' & Hroot' & Hrep' & Hok' & Hnext').
      * eapply rep_ctx_ext; [|exact Hc']. intros x Hx. apply Hfr.
        -- by intros ->.
        -- by intros ->.
        -- intros Hin%Hxs3. eapply Hdisj; [|done]. rewrite Hsplit. set_solver.
      * cbn [rep]. rewrite length_take. split_and!; try (knum; lia).
        -- exists pn'. split; [done|]. unfold xs in Hnode1.
           by rewrite caddrs_fmap, fmap_take.
        -- eapply reps_ext; [exact Htcs1|]. intros x Hx. apply Hfr.
           ++ intros ->. apply Hp1. rewrite Hsplit. set_solver.
           ++ intros ->. apply Hb1. rewrite Hsplit. set_solver.
           ++ intros Hin%Hxs3. by eapply Hnd1d.
      * cbn [rep]. rewrite length_drop. split_and!; try (knum; lia).
        -- exists nb. split; [done|]. unfold xs in Hnode2.
           by rewrite caddrs_fmap, fmap_drop.
        -- eapply reps_reparent; [exact Htcs2|done| |].
           ++ intros x Hx. apply Hmoved. unfold xs. by rewrite <- fmap_drop.
           ++ intros x Hx Hnr. apply Hfr.
              ** intros ->. apply Hp1. rewrite Hsplit. set_solver.
              ** intros ->. apply Hb1. rewrite Hsplit. set_solver.
              ** unfold xs. by rewrite <- fmap_drop.
      * cbn [addrs addr]. 
        assert (((fa f :: (take 3 tcs ≫= addrs))
                 ++ (brk t :: (drop 3 tcs ≫= addrs)) ++ actx c)
                ≡ₚ brk t :: fa f :: (tcs ≫= addrs) ++ actx c) as ->.
        { rewrite Hsplit. solve_Permutation. }
        apply NoDup_cons. split.
        { rewrite not_elem_of_cons, not_elem_of_app. naive_solver. }
        rewrite Hperm in Hnd. done.
      * eapply heap_ok_grow; [done|lia|]. intros x Hx. rewrite Hb9.
        destruct (decide (x = brk t)) as [->|]; [left; lia|].
        destruct (decide (x = fa f)) as [->|]; [eauto|].
        destruct (decide (x ∈ drop 3 xs)) as [Hin|Hin].
        -- rewrite (Hmoved _ Hin) in Hx. apply fmap_is_Some in Hx. eauto.
        -- rewrite Hfr in Hx by done. eauto.
      * by rewrite Hr9.
      * simpl in Hfuel. lia.
      * exists d', t'. cbn [ins_up]. rewrite bool_decide_eq_false_2 by done.
        cbn [addr] in Heq'. rewrite Hb9 in *.
        change (MAX_KEYS / 2) with 2. fold tk tcs.
        split_and!; try done.
        eapply next_kept_trans; [|exact Hnext'].
        intros x nd Hx.
        destruct (decide (x = fa f)) as [->|].
        { simplify_eq. eauto. }
        destruct (decide (x ∈ drop 3 xs)) as [Hin|Hin].
        { rewrite (Hmoved _ Hin), Hx. simpl. eauto. }
        exists nd. split; [|done]. rewrite Hfr; [done|done| |done]. apply Hfresh. eauto.
Qed.

(** ** The walk of a split node *)

Lemma interleave_split {A} (s : nat) : ∀ (ls : list (list A)) (ss : list A) x,
  length ls = S (length ss) → ss !! s = Some x →
  interleave ls ss
  = interleave (take (S s) ls) (take s ss)
      ++ x :: interleave (drop (S s) ls) (drop (S s) ss).
Proof.
  induction s as [|s IH]; intros [|l ls] [|y ss] x Hlen Hx; simplify_eq/=.
  - by rewrite ?take_0, ?drop_0, ?app_nil_r.
  - rewrite (IH ls ss x) at 1 by (done || lia).
    by rewrite <- !app_assoc.
Qed.

Lemma trav_node_split a a1 a2 ks cs s x :
  length cs = S (length ks) → ks !! s = Some x →
  trav (BNode a ks cs)
  = trav (BNode a1 (take s ks) (take (S s) cs))
      ++ ISep x :: trav (BNode a2 (drop (S s) ks) (drop (S s) cs)).
Proof.
  intros Hlen Hx. cbn [trav].
  rewrite (interleave_split s _ _ (ISep x));
    rewrite ?length_map, ?list_lookup_fmap, ?Hx; [|done..].
  by rewrite <- !fmap_take, <- !fmap_drop.
Qed.

Lemma trav_node_ins f tl key tr :
  length (kl f) = length (cl f) → length (kr f) = length (cr f) →
  trav (BNode (fa f) (kl f ++ key :: kr f) (cl f ++ tl :: tr :: cr f))
  = tL f ++ trav tl ++ ISep key :: trav tr ++ tR f.
Proof.
  intros Hl Hr. unfold tL, tR. cbn [trav].
  rewrite !map_app. cbn [map].
  rewrite interleave_app by (by rewrite !length_map).
  f_equal. cbn [interleave]. f_equal. f_equal.
  apply interleave_zip. by rewrite !length_map.
Qed.

Lemma trav_ins_up c : ∀ tl key tr b,
  ctx_wf c →
  trav (ins_up c tl key tr b)
  = tpre c ++ trav tl ++ ISep key :: trav tr ++ tpost c.
Proof.
  induction c as [|f c IH]; intros tl key tr b Hc.
  - simpl. by rewrite !app_nil_r.
  - inversion_clear Hc as [|?? [Hl Hr] Hc']. cbn [ins_up tpre tpost].
    case_bool_decide as Hfull.
    + rewrite trav_plug, trav_node_ins by done.
      by repeat (rewrite <- ?app_assoc; simpl).
    + rewrite IH by done.
      assert (is_Some ((kl f ++ key :: kr f) !! (MAX_KEYS / 2))) as [sk Hx].
      { apply lookup_lt_is_Some. rewrite length_app in *. simpl. knum.
        change (4 / 2) with 2. lia. }
      rewrite (list_lookup_total_correct _ _ _ Hx).
      transitivity (tpre c ++ (tL f ++ trav tl ++ ISep key :: trav tr ++ tR f)
                      ++ tpost c);
        [|by repeat (rewrite <- ?app_assoc; simpl)].
      rewrite <- (trav_node_ins f tl key tr) by done.
      rewrite (trav_node_split (fa f) (fa f) b (kl f ++ key :: kr f)
                 (cl f ++ tl :: tr :: cr f) (MAX_KEYS / 2) sk);
        [|rewrite !length_app; simpl; lia | done].
      by repeat (rewrite <- ?app_assoc; simpl).
Qed.

Lemma addrs_ins_up c : ∀ tl key tr b,
  ∃ n, addrs (ins_up c tl key tr b)
       ≡ₚ addrs tl ++ addrs tr ++ actx c ++ seq b n.
Proof.
  induction c as [|f c IH]; intros tl key tr b.
  - exists 1. simpl. rewrite !app_nil_r. solve_Permutation.
  - cbn [ins_up]. case_bool_decide as Hfull.
    + exists 0. rewrite addrs_plug, addrs_node, actx_cons, !bind_app.
      cbn [seq]. rewrite !bind_cons, app_nil_r. solve_Permutation.
    + destruct (IH (BNode (fa f) (take (MAX_KEYS / 2) (kl f ++ key :: kr f))
                      (take (S (MAX_KEYS / 2)) (cl f ++ tl :: tr :: cr f)))
                  ((kl f ++ key :: kr f) !!! (MAX_KEYS / 2))
                  (BNode b (drop (S (MAX_KEYS / 2)) (kl f ++ key :: kr f))
                     (drop (S (MAX_KEYS / 2)) (cl f ++ tl :: tr :: cr f)))
                  (S b)) as [n Hn].
      exists (S n). rewrite Hn, !addrs_node, actx_cons. cbn [seq].
      set (cs := cl f ++ tl :: tr :: cr f).
      assert (cs ≫= addrs
              ≡ₚ addrs tl ++ addrs tr ++ ((cl f ++ cr f) ≫= addrs)) as Hcs.
      { unfold cs. rewrite !bind_app, !bind_cons. solve_Permutation. }
      rewrite <- (take_drop (S (MAX_KEYS / 2)) cs), bind_app in Hcs.
      revert Hcs.
      generalize (take (S (MAX_KEYS / 2)) cs ≫= addrs).
      generalize (drop (S (MAX_KEYS / 2)) cs ≫= addrs).
      generalize ((cl f ++ cr f) ≫= addrs).
      intros l1 l2 l3 Hcs.
      transitivity (fa f :: b :: (l3 ++ l2) ++ actx c ++ seq (S b) n);
        [solve_Permutation|].
      rewrite Hcs. solve_Permutation.
Qed.

Lemma laddrs_ins_up c tl key tr b :
  ctx_wf c →
  laddrs (ins_up c tl key tr b) = lpre c ++ laddrs tl ++ laddrs tr ++ lpost c.
Proof.
  intros Hc. unfold laddrs, lpre, lpost. rewrite trav_ins_up by done.
  change (ISep key :: trav tr ++ tpost c)
    with ([ISep key] ++ trav tr ++ tpost c).
  by rewrite !bind_app.
Qed.

(** ** Chains *)


Lemma chain_app h l1 l2 last :
  chain h (l1 ++ l2) last ↔ chain h l1 (hd_or l2 last) ∧ chain h l2 last.
Proof.
  induction l1 as [|a l1 IH]; simpl; [naive_solver|].
  rewrite IH. destruct l1, l2; simpl; naive_solver.
Qed.

Lemma chain_insert h h' pre a b post na nb :
  chain h (pre ++ a :: post) None →
  NoDup (b :: pre ++ a :: post) →
  h' !! a = Some na → h' !! b = Some nb →
  next na = Some b → next <$> Some nb = next <$> h !! a →
  (∀ x, x ≠ a → x ≠ b → next <$> h' !! x = next <$> h !! x) →
  chain h' (pre ++ a :: b :: post) None.
Proof.
  intros Hch Hnd Ha Hb Hna Hnb Hfr.
  apply NoDup_cons in Hnd as [Hb' Hnd].
  apply NoDup_app in Hnd as (_ & Hpre & [Ha' _]%NoDup_cons).
  apply chain_app in Hch as [Hpre' Hpost]. apply chain_app. split.
  - eapply chain_ext; [|exact Hpre']. intros x Hx. apply Hfr.
    + intros ->. by eapply Hpre; [|left].
    + intros ->. apply Hb'. set_solver.
  - simpl in *. destruct Hpost as ((nd & Hnd & Hn) & Hpost).
    split; [eauto|]. split.
    + exists nb. split; [done|]. rewrite Hnd in Hnb. simpl in Hnb.
      congruence.
    + eapply chain_ext; [|exact Hpost]. intros x Hx. apply Hfr.
      * by intros ->.
      * intros ->. apply Hb'. set_solver.
Qed.

Lemma chain_next_kept t t' ls last :
  next_kept t t' → chain (nodes t) ls last → chain (nodes t') ls last.
Proof.
  intros Hk. induction ls as [|a ls IH]; simpl; [done|].
  intros ((nd & Hnd & Hn) & Hc). split; [|by apply IH].
  destruct (Hk _ _ Hnd) as (nd' & ? & ?). exists nd'. split; [done|].
  congruence.
Qed.

Lemma bt_ind' (P : bt → Prop) :
  (∀ a ks os, P (BLeaf a ks os)) →
  (∀ a ks cs, Forall P cs → P (BNode a ks cs)) →
  ∀ T, P T.
Proof.
  intros Hl Hn. fix IH 1. intros [a ks os|a ks cs]; [apply Hl|apply Hn].
  induction cs as [|c cs IHcs]; constructor; [apply IH|apply IHcs].
Qed.

Lemma bind_submseteq {A B} (f g : A → list B) (l : list A) :
  Forall (λ x, f x ⊆+ g x) l → l ≫= f ⊆+ l ≫= g.
Proof.
  induction 1 as [|x l Hx Hl IH]; [done|].
  rewrite !bind_cons. by apply submseteq_app.
Qed.

Lemma laddrs_addrs T : laddrs T ⊆+ addrs T.
Proof.
  induction T as [a ks os|a ks cs IH] using bt_ind'; [done|].
  rewrite laddrs_node, addrs_node. apply submseteq_cons.
  by apply bind_submseteq.
Qed.

Lemma NoDup_sub {A} (l k : list A) : l ⊆+ k → NoDup k → NoDup l.
Proof.
  intros [k' ->]%submseteq_Permutation. by intros [? _]%NoDup_app.
Qed.

Lemma NoDup_laddrs T : NoDup (addrs T) → NoDup (laddrs T).
Proof. apply NoDup_sub, laddrs_addrs. Qed.

Lemma NoDup_app_seq (l : list nat) b n :
  NoDup l → (∀ x, x ∈ l → x < b) → NoDup (l ++ seq b n).
Proof.
  intros Hl Hb. apply NoDup_app. split_and!; [done| |apply NoDup_seq].
  intros x Hx [??]%elem_of_seq. apply Hb in Hx. lia.
Qed.

Lemma root_is_leaf t D T :
  hrep t D T →
  is_leaf (node_at t (addr T)) = bool_decide (D = 0)
  ∧ num_keys (node_at t (addr T)) = length (bkeys T).
Proof.
  intros (_ & HT & _). destruct D as [|D], T as [a ks os|a ks cs]; try done.
  - destruct HT as (_ & nd & Hnd & Hn). simpl.
    rewrite (node_at_lookup _ _ _ Hnd). by destruct Hn as (_ & -> & _ & -> & _).
  - apply rep_node_inv in HT as (_ & _ & _ & (nd & Hnd & Hn) & _). simpl.
    rewrite (node_at_lookup _ _ _ Hnd). by destruct Hn as (_ & -> & _ & -> & _).
Qed.

Lemma hrep_insert t D T key off :
  hrep t D T →
  ∃ D', hrep (insert_key t key off) D' (insert_abs D key off (brk t) T).
Proof.
  intros Hrep.
  destruct (hrep_descend _ _ _ key Hrep)
    as (c & a & ks & os & nd & Hdesc & HT & Hlen & Hc & Hsz & Hnd & Hn & Hdup
        & Hfind).
  pose proof (root_is_leaf _ _ _ Hrep) as [Hleaf Hnum].
  pose proof (hrep_depth _ _ _ Hrep) as Hdepth.
  pose proof Hrep as (Hroot & HTrep & HndT & Hok & Hch).
  pose proof (rep_ctx_wf _ _ _ _ Hc) as Hwf.
  assert (num_keys (node_at t a) = length ks) as Hnk.
  { rewrite (node_at_lookup _ _ _ Hnd). by destruct Hn as (_ & _ & _ & -> & _). }
  unfold insert_key, insert_abs. rewrite Hroot, Hdesc, Hleaf, Hnum.
  assert (insert_into_leaf a key off t
          = if bool_decide (D = 0) && bool_decide (length (bkeys T) = 0)
            then insert_into_leaf (addr T) key off t
            else insert_into_leaf a key off t) as Hsame.
  { case_bool_decide as HD; [|done].
    destruct c; [|simpl in *; lia]. simpl in HT. subst T. simpl.
    by destruct (bool_decide _). }
  assert (bool_decide (D = 0) && bool_decide (length (bkeys T) = 0) = true
          → length ks < MAX_KEYS) as Hshort.
  { intros [HD Hk]%andb_true_iff. case_bool_decide; [|done].
    case_bool_decide; [|done]. destruct c; [|simpl in *; lia]. simpl in HT.
    subst T. simpl in *. knum. lia. }
  rewrite <- Hroot, Hfind, Hnk.
  destruct (bool_decide (D = 0) && bool_decide (length (bkeys T) = 0)) eqn:Hb.
  { exists D. rewrite <- Hsame, bool_decide_eq_true_2 by auto.
    eapply hrep_insert_leaf; [done|done|auto]. }
  clear Hsame Hshort Hb.
  destruct (decide (length ks < MAX_KEYS)) as [Hlt|Hlt].
  { rewrite !bool_decide_eq_true_2 by done.
    exists D. by eapply hrep_insert_leaf. }
  rewrite !bool_decide_eq_false_2 by done.
  assert (length ks = MAX_KEYS) as Hfull by lia.
  apply NoDup_cons in Hdup as [Ha Hdup].
  assert (a ≠ brk t) as Hab by (intros ->; apply Hok in Hnd; lia).
  assert (brk t ∉ actx c) as Hbc.
  { intros Hin. eapply rep_ctx_addrs_dom in Hin as [? Hin]; [|done].
    apply Hok in Hin. lia. }
  destruct (split_leaf_node_spec t a nd (par c) ks os key off Hnd Hn Hfull Hab)
    as (t8 & ln' & nl' & Heq & Hr8 & Hb8 & Hln' & Hnl' & Hfr & Hn1 & Hnx1 & Hn2
        & Hnx2 & Hk0).
  cbv zeta in Heq. rewrite Heq.
  rewrite (node_at_lookup _ _ _ Hnl'), Hk0. clear Heq.
  pose proof (node_is_os_length _ _ _ _ _ Hn) as Hlo.
  set (mk := ins_at (lower key ks) key ks) in *.
  set (mo := ins_at (lower key ks) off os) in *.
  assert (length mk = 5) as Hmk.
  { unfold mk, ins_at. rewrite length_app. simpl.
    rewrite length_take, length_drop. knum. lia. }
  change ((MAX_KEYS + 1) / 2) with 2.
  edestruct (ins_up_rep c 0 t8 (BLeaf a (take 2 mk) (take 2 mo))
               (BLeaf (brk t) (drop 2 mk) (drop 2 mo)) (mk !!! 2) (S (brk t8)))
    as (D' & t' & Heq' & Hroot' & Hrep' & Hok' & Hkept).
  - eapply rep_ctx_ext; [|exact Hc]. intros x Hx. apply Hfr; by intros ->.
  - simpl. rewrite length_take. split; [knum; lia|eauto].
  - simpl. rewrite length_drop. split; [knum; lia|eauto].
  - simpl. apply NoDup_cons. split; [|by apply NoDup_cons].
    apply not_elem_of_cons. by split.
  - eapply heap_ok_grow; [done|lia|]. intros x Hx. rewrite Hb8.
    destruct (decide (x = brk t)) as [->|]; [left; lia|].
    destruct (decide (x = a)) as [->|]; [eauto|].
    rewrite Hfr in Hx by done. eauto.
  - simpl. by rewrite Hr8, Hroot, HT, addr_plug.
  - lia.
  - exists D'. unfold insert_into_parent. cbn [addr] in Heq'. rewrite Heq'.
    rewrite Hb8 in *. split_and!; try done.
    + destruct (addrs_ins_up c (BLeaf a (take 2 mk) (take 2 mo)) (mk !!! 2)
                  (BLeaf (brk t) (drop 2 mk) (drop 2 mo)) (S (brk t)))
        as [n ->].
      simpl. 
      assert (a :: brk t :: actx c ++ seq (S (brk t)) n
              ≡ₚ (a :: actx c) ++ seq (brk t) (S n)) as ->
        by (cbn [seq]; solve_Permutation).
      apply NoDup_app_seq.
      * by apply NoDup_cons.
      * intros x [->|Hx]%elem_of_cons; [by eapply Hok|].
        eapply rep_ctx_addrs_dom in Hx as [? Hx]; [|done]. by eapply Hok.
    + rewrite laddrs_ins_up by done. simpl.
      eapply chain_next_kept; [done|].
      subst T. rewrite laddrs_plug in Hch by done. simpl in Hch.
      assert (lpre c ++ a :: lpost c ⊆+ a :: actx c) as Hsub.
      { change (a :: actx c) with (addrs (BLeaf a ks os) ++ actx c).
        rewrite <- addrs_plug.
        change (a :: lpost c) with (laddrs (BLeaf a ks os) ++ lpost c).
        rewrite <- laddrs_plug by done. apply laddrs_addrs. }
      eapply (chain_insert (nodes t)); try done.
      * apply NoDup_cons. split.
        -- intros Hin. eapply elem_of_submseteq in Hin; [|done].
           apply elem_of_cons in Hin as [?|?]; done.
        -- eapply NoDup_sub; [done|]. by apply NoDup_cons.
      * rewrite Hnd. simpl. by rewrite Hnx2.
      * intros x ??. by rewrite Hfr.
Qed.

(** ** Deletion inside a leaf *)

Lemma lower_bound_spec nd leaf p ks os cs key i fuel :
  node_is nd leaf p ks os cs → i + fuel = length ks →
  lower_bound nd key i fuel = i + lower key (drop i ks).
Proof.
  intros Hn. revert i. induction fuel as [|fuel IH]; intros i Hi; simpl.
  - rewrite drop_ge by lia. simpl. lia.
  - destruct (lookup_lt_is_Some_2 ks i ltac:(lia)) as [k Hkk].
    rewrite (drop_S _ _ _ Hkk). simpl.
    rewrite (node_is_key _ _ _ _ _ _ _ Hn) by lia.
    rewrite (list_lookup_total_correct _ _ _ Hkk).
    destruct Hn as (_ & _ & _ & -> & _).
    rewrite bool_decide_eq_true_2 by lia. simpl.
    case_bool_decide; [|lia]. rewrite IH by lia. lia.
Qed.

Lemma delete_leaf_local nd p ks os i :
  node_is nd true p ks os [] → i < length ks →
  let nd' := set_num_keys (num_keys nd - 1)
               (delete_entry_shift i (num_keys nd - 1 - i) nd) in
  node_is nd' true p (del_at i ks) (del_at i os) [] ∧ next nd' = next nd.
Proof.
  intros Hn Hi. pose proof (node_is_os_length _ _ _ _ _ Hn) as Hlo.
  destruct Hn as ((Hlk & Hlf & Hlc) & Hleaf & Hp & Hnum & Hle & Hk & Ho).
  unfold MAX_KEYS in *. explode_node nd. subst.
  destruct ks as [|k0 [|k1 [|k2 [|k3 [|]]]]]; simpl in *; try lia;
  destruct i as [|[|[|[|]]]]; simpl in *; try lia;
  simplify_eq; unfold node_is, arrays_ok, del_at, key_at, offset_at; simpl;
  split_and!; try done; knum; lia.
Qed.

Lemma node_index_spec pn pp kl kr (al ar : list ptr) a :
  node_is pn false pp (kl ++ kr) [] (al ++ Some a :: ar) →
  length al = length kl → length ar = length kr →
  Forall (λ x, x ≠ Some a) al →
  node_index pn a 0 (S (num_keys pn)) = length kl.
Proof.
  intros ((Hlk & Hlf & Hlc) & Hleaf & Hp & Hnum & Hle & Hk & Hc) Hal Har Hne.
  unfold MAX_KEYS in *. explode_node pn. subst.
  destruct kl as [|k0 [|k1 [|k2 [|k3 [|]]]]]; simpl in Hle; try lia;
  destruct al as [|a0 [|a1 [|a2 [|a3 [|]]]]]; simpl in Hal; try lia;
  destruct kr as [|j0 [|j1 [|j2 [|j3 [|]]]]]; simpl in Hle; try lia;
  destruct ar as [|b0 [|b1 [|b2 [|b3 [|]]]]]; simpl in Har; try lia;
  simpl in *; simplify_eq; forall_inv;
  unfold child_at; simpl; bool_simpl; done.
Qed.

(** ** Borrowing from a sibling *)

Lemma borrow_from_left_leaf_spec t n p l nn ln pn q ks os lks lk los lo idx :
  nodes t !! n = Some nn → nodes t !! l = Some ln → nodes t !! p = Some pn →
  n ≠ l → n ≠ p → l ≠ p →
  node_is nn true q ks os [] → node_is ln true q (lks ++ [lk]) (los ++ [lo]) [] →
  length los = length lks →
  length ks = 1 → MIN_KEYS < length (lks ++ [lk]) →
  ∃ t' nn' ln',
    borrow_from_left t n p l idx = t'
    ∧ root t' = root t ∧ brk t' = brk t
    ∧ nodes t' !! n = Some nn' ∧ nodes t' !! l = Some ln'
    ∧ nodes t' !! p = Some (set_key (idx - 1) lk pn)
    ∧ (∀ x, x ≠ n → x ≠ l → x ≠ p → nodes t' !! x = nodes t !! x)
    ∧ node_is nn' true q (lk :: ks) (lo :: os) []
    ∧ node_is ln' true q lks los []
    ∧ next nn' = next nn ∧ next ln' = next ln.
Proof.
  intros Hn Hl Hp Hnl Hnp Hlp Hnn Hln Hlos Hlt Hgt.
  pose proof (node_is_os_length _ _ _ _ _ Hnn) as Hlo.
  destruct Hnn as ((Hnk & Hnf & Hnc) & Hnleaf & Hnq & Hnnum & Hnle & Hnks & Hno).
  destruct Hln as ((Hlk & Hlf & Hlc) & Hlleaf & Hlq & Hlnum & Hlle & Hlks & Hllo).
  unfold borrow_from_left.
  unfold MAX_KEYS, MIN_KEYS in *. simpl in Hlt, Hgt.
  explode_node nn. explode_node ln. subst.
  destruct ks as [|k0 [|k1 ?]]; simpl in Hlt; try lia;
  destruct lks as [|l0 [|l1 [|l2 [|l3 [|]]]]]; simpl in Hgt, Hlle; try lia;
  destruct los as [|m0 [|m1 [|m2 [|m3 [|]]]]]; simpl in Hlos; try lia.
  all: simpl in *; simplify_eq.
  all: heap_exec.
  all: eexists _, _, _; split; [reflexivity|].
  all: split; [done|]; split; [done|].
  all: split; [heap_lookup|]; split; [heap_lookup|]; split; [heap_lookup|].
  all: split; [heap_frame|].
  all: unfold node_is, arrays_ok; simpl; split_and!; try done; knum; lia.
Qed.

Lemma borrow_from_left_internal_spec t n p l x nn ln pn xn q ks cs lks lk lcs idx :
  nodes t !! n = Some nn → nodes t !! l = Some ln → nodes t !! p = Some pn →
  nodes t !! x = Some xn →
  NoDup [n; l; p; x] →
  node_is nn false q ks [] (Some <$> cs) →
  node_is ln false q (lks ++ [lk]) [] (Some <$> (lcs ++ [x])) →
  length lcs = S (length lks) →
  length ks = 1 → MIN_KEYS < length (lks ++ [lk]) →
  ∃ t' nn' ln',
    borrow_from_left t n p l idx = t'
    ∧ root t' = root t ∧ brk t' = brk t
    ∧ nodes t' !! n = Some nn' ∧ nodes t' !! l = Some ln'
    ∧ nodes t' !! p = Some (set_key (idx - 1) lk pn)
    ∧ nodes t' !! x = Some (set_parent (Some n) xn)
    ∧ (∀ y, y ≠ n → y ≠ l → y ≠ p → y ≠ x → nodes t' !! y = nodes t !! y)
    ∧ node_is nn' false q (key_at pn (idx - 1) :: ks) [] (Some <$> (x :: cs))
    ∧ node_is ln' false q lks [] (Some <$> lcs)
    ∧ next nn' = next nn ∧ next ln' = next ln.
Proof.
  intros Hn Hl Hp Hx Hnd Hnn Hln Hlcs Hlt Hgt.
  pose proof (node_is_cs_length _ _ _ _ _ Hnn) as Hcs.
  rewrite length_fmap in Hcs.
  destruct Hnn as ((Hnk & Hnf & Hnc) & Hnleaf & Hnq & Hnnum & Hnle & Hnks & Hno).
  destruct Hln as ((Hlk & Hlf & Hlc) & Hlleaf & Hlq & Hlnum & Hlle & Hlks & Hllo).
  unfold borrow_from_left.
  unfold MAX_KEYS, MIN_KEYS in *. simpl in Hgt.
  explode_node nn. explode_node ln. subst. nodup_inv Hnd.
  destruct ks as [|k0 [|k1 ?]]; simpl in Hlt; try lia;
  destruct cs as [|c0 [|c1 [|c2 ?]]]; simpl in Hcs; try lia;
  destruct lks as [|l0 [|l1 [|l2 [|l3 [|]]]]]; simpl in Hgt, Hlle; try lia;
  destruct lcs as [|m0 [|m1 [|m2 [|m3 [|m4 [|]]]]]]; simpl in Hlcs; try lia.
  all: simpl in *; simplify_eq.
  all: heap_exec.
  all: eexists _, _, _; split; [reflexivity|].
  all: split; [done|]; split; [done|].
  all: split; [heap_lookup|]; split; [heap_lookup|]; split; [heap_lookup|].
  all: split; [heap_lookup|].
  all: split; [heap_frame|].
  all: unfold node_is, arrays_ok; simpl; split_and!; try done; knum; lia.
Qed.

Lemma borrow_from_right_leaf_spec t n p r nn rn pn q ks os rk0 rk1 rks ro0 ros idx :
  nodes t !! n = Some nn → nodes t !! r = Some rn → nodes t !! p = Some pn →
  n ≠ r → n ≠ p → r ≠ p →
  node_is nn true q ks os [] →
  node_is rn true q (rk0 :: rk1 :: rks) (ro0 :: ros) [] →
  length ks = 1 → MIN_KEYS < length (rk0 :: rk1 :: rks) →
  ∃ t' nn' rn',
    borrow_from_right t n p r idx = t'
    ∧ root t' = root t ∧ brk t' = brk t
    ∧ nodes t' !! n = Some nn' ∧ nodes t' !! r = Some rn'
    ∧ nodes t' !! p = Some (set_key idx rk1 pn)
    ∧ (∀ x, x ≠ n → x ≠ r → x ≠ p → nodes t' !! x = nodes t !! x)
    ∧ node_is nn' true q (ks ++ [rk0]) (os ++ [ro0]) []
    ∧ node_is rn' true q (rk1 :: rks) ros []
    ∧ next nn' = next nn ∧ next rn' = next rn.
Proof.
  intros Hn Hr Hp Hnr Hnp Hrp Hnn Hrn Hlt Hgt.
  pose proof (node_is_os_length _ _ _ _ _ Hnn) as Hlo.
  pose proof (node_is_os_length _ _ _ _ _ Hrn) as Hro.
  destruct Hnn as ((Hnk & Hnf & Hnc) & Hnleaf & Hnq & Hnnum & Hnle & Hnks & Hno).
  destruct Hrn as ((Hrk & Hrf & Hrc) & Hrleaf & Hrq & Hrnum & Hrle & Hrks & Hrlo).
  unfold borrow_from_right.
  unfold MAX_KEYS, MIN_KEYS in *. simpl in Hgt.
  explode_node nn. explode_node rn. subst.
  destruct ks as [|k0 [|k1 ?]]; simpl in Hlt; try lia;
  destruct rks as [|l2 [|l3 [|]]]; simpl in Hgt, Hrle; try lia;
  destruct ros as [|m1 [|m2 [|m3 [|]]]]; simpl in Hro; try lia.
  all: simpl in *; simplify_eq.
  all: heap_exec.
  all: eexists _, _, _; split; [reflexivity|].
  all: split; [done|]; split; [done|].
  all: split; [heap_lookup|]; split; [heap_lookup|]; split; [heap_lookup|].
  all: split; [heap_frame|].
  all: unfold node_is, arrays_ok; simpl; split_and!; try done; knum; lia.
Qed.

Lemma borrow_from_right_internal_spec t n p r x nn rn pn xn q ks cs rk0 rks rcs idx :
  nodes t !! n = Some nn → nodes t !! r = Some rn → nodes t !! p = Some pn →
  nodes t !! x = Some xn →
  NoDup [n; r; p; x] →
  node_is nn false q ks [] (Some <$> cs) →
  node_is rn false q (rk0 :: rks) [] (Some <$> (x :: rcs)) →
  length ks = 1 → MIN_KEYS < length (rk0 :: rks) →
  ∃ t' nn' rn',
    borrow_from_right t n p r idx = t'
    ∧ root t' = root t ∧ brk t' = brk t
    ∧ nodes t' !! n = Some nn' ∧ nodes t' !! r = Some rn'
    ∧ nodes t' !! p = Some (set_key idx rk0 pn)
    ∧ nodes t' !! x = Some (set_parent (Some n) xn)
    ∧ (∀ y, y ≠ n → y ≠ r → y ≠ p → y ≠ x → nodes t' !! y = nodes t !! y)
    ∧ node_is nn' false q (ks ++ [key_at pn idx]) [] (Some <$> (cs ++ [x]))
    ∧ node_is rn' false q rks [] (Some <$> rcs)
    ∧ next nn' = next nn ∧ next rn' = next rn.
Proof.
  intros Hn Hr Hp Hx Hnd Hnn Hrn Hlt Hgt.
  pose proof (node_is_cs_length _ _ _ _ _ Hnn) as Hcs.
  pose proof (node_is_cs_length _ _ _ _ _ Hrn) as Hrcs.
  rewrite length_fmap in Hcs, Hrcs.
  destruct Hnn as ((Hnk & Hnf & Hnc) & Hnleaf & Hnq & Hnnum & Hnle & Hnks & Hno).
  destruct Hrn as ((Hrk & Hrf & Hrc) & Hrleaf & Hrq & Hrnum & Hrle & Hrks & Hrlo).
  unfold borrow_from_right.
  unfold MAX_KEYS, MIN_KEYS in *. simpl in Hgt.
  explode_node nn. explode_node rn. subst. nodup_inv Hnd.
  destruct ks as [|k0 [|k1 ?]]; simpl in Hlt; try lia;
  destruct cs as [|c0 [|c1 [|c2 ?]]]; simpl in Hcs; try lia;
  destruct rks as [|l1 [|l2 [|l3 [|]]]]; simpl in Hgt, Hrle; try lia;
  destruct rcs as [|m1 [|m2 [|m3 [|m4 [|]]]]]; simpl in Hrcs; try lia.
  all: simpl in *; simplify_eq.
  all: heap_exec.
  all: eexists _, _, _; split; [reflexivity|].
  all: split; [done|]; split; [done|].
  all: split; [heap_lookup|]; split; [heap_lookup|]; split; [heap_lookup|].
  all: split; [heap_lookup|].
  all: split; [heap_frame|].
  all: unfold node_is, arrays_ok; simpl; split_and!; try done; knum; lia.
Qed.

(** ** Merging two siblings *)

Lemma parent_remove_local pn pp kl kr s (al ar : list ptr) l r :
  node_is pn false pp (kl ++ s :: kr) [] (al ++ l :: r :: ar) →
  length al = length kl → length ar = length kr →
  node_is (parent_remove (length kl) pn) false pp (kl ++ kr) [] (al ++ l :: ar)
  ∧ next (parent_remove (length kl) pn) = next pn.
Proof.
  intros ((Hlk & Hlf & Hlc) & Hleaf & Hp & Hnum & Hle & Hk & Hc) Hal Har.
  unfold MAX_KEYS in *. explode_node pn. subst.
  rewrite length_app in Hle. simpl in Hle.
  destruct kl as [|k0 [|k1 [|k2 [|]]]]; simpl in Hle; try lia;
  destruct al as [|a0 [|a1 [|a2 [|]]]]; simpl in Hal; try lia;
  destruct kr as [|j0 [|j1 [|j2 [|]]]]; simpl in Hle; try lia;
  destruct ar as [|b0 [|b1 [|b2 [|]]]]; simpl in Har; try lia;
  simpl in *; simplify_eq;
  unfold parent_remove, child_at, key_at, node_is, arrays_ok; simpl;
  split_and!; try done; knum; lia.
Qed.

Lemma lookup_free_eq a t : nodes (free a t) !! a = None.
Proof. rewrite nodes_free. apply lookup_delete_eq. Qed.

Lemma merge_copy_S l r i fuel t :
  merge_copy l r i (S fuel) t
  = merge_copy l r (S i) fuel (mc_count l (mc_val l r i (mc_key l r i t))).
Proof. reflexivity. Qed.

Lemma merge_copy_0 l r i t : merge_copy l r i 0 t = t.
Proof. reflexivity. Qed.

Lemma merge_nodes_body_eq t l r p ki kp :
  merge_nodes_body t l r p ki kp
  = free r (mb_parent p ki (mb_next l r (mb_last l r (mb_copy l r
                                                       (mb_pull l kp t))))).
Proof. reflexivity. Qed.

Lemma store_parent_remove p ki pn t :
  nodes t !! p = Some pn → mb_parent p ki t = upd p (parent_remove ki pn) t.
Proof.
  intros Hp. unfold mb_parent. rewrite (store_upd _ _ _ _ Hp).
  by rewrite !store_upd_eq.
Qed.

#[local] Arguments merge_copy : simpl never.
#[local] Arguments mc_key : simpl never.
#[local] Arguments mc_val : simpl never.
#[local] Arguments mc_count : simpl never.
#[local] Arguments mb_pull : simpl never.
#[local] Arguments mb_copy : simpl never.
#[local] Arguments mb_last : simpl never.
#[local] Arguments mb_next : simpl never.
#[local] Arguments mb_parent : simpl never.

Ltac stage f := unfold f; heap_exec.
Ltac copy_round :=
  rewrite merge_copy_S; stage mc_key; stage mc_val; stage mc_count.
Ltac merge_exec :=
  rewrite merge_nodes_body_eq;
  stage mb_pull; stage mb_copy; repeat copy_round; rewrite merge_copy_0;
  stage mb_last; stage mb_next.

Lemma merge_leaf_body_spec t l r p ln rn pn q lks los rks ros ki kp :
  nodes t !! l = Some ln → nodes t !! r = Some rn → nodes t !! p = Some pn →
  NoDup [l; r; p] →
  node_is ln true q lks los [] → node_is rn true q rks ros [] →
  length lks + length rks = 3 → 1 ≤ length lks ≤ 2 →
  ∃ t8 ln',
    merge_nodes_body t l r p ki kp = t8
    ∧ root t8 = root t ∧ brk t8 = brk t
    ∧ nodes t8 !! l = Some ln' ∧ nodes t8 !! r = None
    ∧ nodes t8 !! p = Some (parent_remove ki pn)
    ∧ (∀ x, x ≠ l → x ≠ r → x ≠ p → nodes t8 !! x = nodes t !! x)
    ∧ node_is ln' true q (lks ++ rks) (los ++ ros) []
    ∧ next ln' = next rn.
Proof.
  intros Hl Hr Hp Hnd Hln Hrn Hsum Hlen.
  pose proof (node_is_os_length _ _ _ _ _ Hln) as Hlo.
  pose proof (node_is_os_length _ _ _ _ _ Hrn) as Hro.
  destruct Hln as ((Hlk & Hlf & Hlc) & Hlleaf & Hlq & Hlnum & Hlle & Hlks & Hllo).
  destruct Hrn as ((Hrk & Hrf & Hrc) & Hrleaf & Hrq & Hrnum & Hrle & Hrks & Hrlo).
  unfold MAX_KEYS, MIN_KEYS in *.
  explode_node ln. explode_node rn. subst. nodup_inv Hnd.
  destruct lks as [|k0 [|k1 [|k2 ?]]]; simpl in Hlen, Hsum; try lia;
  destruct rks as [|l0 [|l1 [|l2 ?]]]; simpl in Hsum; try lia.
  all: simpl in *; simplify_eq.
  all: merge_exec.
  all: erewrite store_parent_remove by heap_lookup.
  all: eexists _, _; split; [reflexivity|].
  all: split; [done|]; split; [done|].
  all: split; [heap_lookup|]; split; [apply lookup_free_eq|].
  all: split; [heap_lookup|].
  all: split; [heap_frame|].
  all: unfold node_is, arrays_ok; simpl; split_and!; try done; knum; lia.
Qed.

Lemma merge_internal_body_spec t l r p ln rn pn q lks lcs rks rcs ki kp :
  nodes t !! l = Some ln → nodes t !! r = Some rn → nodes t !! p = Some pn →
  NoDup (l :: r :: p :: rcs) →
  Forall (λ x, is_Some (nodes t !! x)) rcs →
  node_is ln false q lks [] (Some <$> lcs) →
  node_is rn false q rks [] (Some <$> rcs) →
  length lks + length rks = 3 → 1 ≤ length lks ≤ 2 →
  ∃ t8 ln',
    merge_nodes_body t l r p ki kp = t8
    ∧ root t8 = root t ∧ brk t8 = brk t
    ∧ nodes t8 !! l = Some ln' ∧ nodes t8 !! r = None
    ∧ nodes t8 !! p = Some (parent_remove ki pn)
    ∧ (∀ x, x ∈ rcs → nodes t8 !! x = set_parent (Some l) <$> nodes t !! x)
    ∧ (∀ x, x ≠ l → x ≠ r → x ≠ p → x ∉ rcs → nodes t8 !! x = nodes t !! x)
    ∧ node_is ln' false q (lks ++ kp :: rks) [] (Some <$> (lcs ++ rcs))
    ∧ next ln' = next ln.
Proof.
  intros Hl Hr Hp Hnd Hdom Hln Hrn Hsum Hlen.
  pose proof (node_is_cs_length _ _ _ _ _ Hln) as Hlcs.
  pose proof (node_is_cs_length _ _ _ _ _ Hrn) as Hrcs.
  rewrite length_fmap in Hlcs, Hrcs.
  destruct Hln as ((Hlk & Hlf & Hlc) & Hlleaf & Hlq & Hlnum & Hlle & Hlks & Hllo).
  destruct Hrn as ((Hrk & Hrf & Hrc) & Hrleaf & Hrq & Hrnum & Hrle & Hrks & Hrlo).
  unfold MAX_KEYS, MIN_KEYS in *.
  explode_node ln. explode_node rn. subst.
  destruct lks as [|k0 [|k1 [|k2 ?]]]; simpl in Hlen, Hsum; try lia;
  destruct rks as [|l0 [|l1 [|l2 ?]]]; simpl in Hsum; try lia;
  destruct lcs as [|c0 [|c1 [|c2 [|c3 ?]]]]; simpl in Hlcs; try lia;
  destruct rcs as [|d0 [|d1 [|d2 [|d3 ?]]]]; simpl in Hrcs; try lia.
  all: simpl in *; simplify_eq; forall_inv; is_some_inv; nodup_inv Hnd.
  all: merge_exec.
  all: erewrite store_parent_remove by heap_lookup.
  all: eexists _, _; split; [reflexivity|].
  all: split; [done|]; split; [done|].
  all: split; [heap_lookup|]; split; [apply lookup_free_eq|].
  all: split; [heap_lookup|].
  all: split; [intros y Hy; set_unfold in Hy; destruct_or!; subst y;
               (etrans; [heap_lookup|]);
               match goal with H : nodes _ !! _ = _ |- _ => by rewrite H end|].
  all: split; [intros y ??? Hy; set_unfold in Hy;
               rewrite nodes_free, lookup_delete_ne by done;
               rewrite ?lookup_upd_ne by naive_solver; done|].
  all: unfold node_is, arrays_ok; simpl; split_and!; try done; knum; lia.
Qed.

(** ** A node and the children being rearranged *)

Lemma node_is_set_key_mid pn leaf pp kl0 s v kr0 os cs :
  node_is pn leaf pp (kl0 ++ s :: kr0) os cs →
  node_is (set_key (length kl0) v pn) leaf pp (kl0 ++ v :: kr0) os cs
  ∧ next (set_key (length kl0) v pn) = next pn.
Proof.
  intros ((Hlk & Hlf & Hlc) & Hleaf & Hp & Hnum & Hle & Hk & Hc).
  rewrite length_app in *. simpl in *.
  split; [|done]. unfold node_is, arrays_ok. simpl.
  rewrite length_insert, !length_app. simpl. split_and!; try done.
  rewrite take_insert_lt by lia. rewrite Hk.
  replace (length kl0) with (length kl0 + 0) at 1 by lia.
  by rewrite insert_app_r.
Qed.

Lemma node_is_key_mid pn leaf pp kl0 s kr0 os cs :
  node_is pn leaf pp (kl0 ++ s :: kr0) os cs → key_at pn (length kl0) = s.
Proof.
  intros Hn. rewrite (node_is_key _ _ _ _ _ _ _ Hn).
  - by apply list_lookup_total_middle.
  - rewrite length_app. simpl. lia.
Qed.

Lemma rep_num_keys d h m p T nd :
  rep d h m p T → h !! addr T = Some nd →
  num_keys nd = length (bkeys T) ∧ is_leaf nd = bool_decide (d = 0)
  ∧ parent nd = p.
Proof.
  destruct d, T; simpl; try done.
  - intros (_ & nd' & ? & _ & ? & ? & ? & _) ?. by simplify_eq.
  - intros (_ & _ & (nd' & ? & _ & ? & ? & ? & _) & _) ?. by simplify_eq.
Qed.

Lemma rep_strengthen d h m m' p T :
  rep d h m p T → m' ≤ length (bkeys T) → rep d h m' p T.
Proof.
  destruct d, T; simpl; try done.
  - intros ([??] & ?) ?. split; [lia|done].
  - intros ([??] & ?) ?. split; [lia|done].
Qed.

Lemma rep_keys_bound d h m p T :
  rep d h m p T → m ≤ length (bkeys T) ≤ MAX_KEYS.
Proof.
  destruct d, T; simpl; try done.
  - by intros (? & _).
  - by intros (? & _).
Qed.

Lemma chain_delete h h' pre a b post :
  chain h (pre ++ a :: b :: post) None →
  NoDup (pre ++ a :: b :: post) →
  next <$> h' !! a = next <$> h !! b →
  (∀ x, x ≠ a → x ≠ b → next <$> h' !! x = next <$> h !! x) →
  chain h' (pre ++ a :: post) None.
Proof.
  intros Hch Hnd Ha Hfr.
  apply NoDup_app in Hnd as (_ & Hpre & [Ha' [Hb' _]%NoDup_cons]%NoDup_cons).
  apply chain_app in Hch as [Hpre' Hpost]. apply chain_app. split.
  - eapply chain_ext; [|exact Hpre']. intros x Hx. apply Hfr.
    + intros ->. by eapply Hpre; [|left].
    + intros ->. eapply Hpre; [done|]. right. by left.
  - simpl in *. destruct Hpost as (_ & (nd & Hnd & Hn) & Hpost).
    split.
    + rewrite Hnd in Ha. simpl in Ha.
      destruct (h' !! a) as [nd'|]; simplify_eq/=. exists nd'. split; [done|].
      congruence.
    + eapply chain_ext; [|exact Hpost]. intros x Hx. apply Hfr.
      * intros ->. apply Ha'. by right.
      * by intros ->.
Qed.

Lemma leaves_frame f c tn :
  ctx_wf (f :: c) →
  lpre (f :: c) ++ laddrs tn ++ lpost (f :: c)
  = lpre c ++ ((cl f ++ tn :: cr f) ≫= laddrs) ++ lpost c.
Proof.
  intros Hwf. rewrite <- laddrs_plug by done. cbn [plug].
  inversion_clear Hwf. rewrite laddrs_plug by done.
  unfold fill. by rewrite laddrs_node.
Qed.

Lemma hwin_intro t d f c tn pn cl0 W cr0 :
  root t = Some (raddr (f :: c) (addr tn)) →
  rep_ctx d (nodes t) (f :: c) (addr tn) →
  nodes t !! fa f = Some pn →
  NoDup (addrs tn ++ actx (f :: c)) → heap_ok t →
  chain (nodes t) (lpre (f :: c) ++ laddrs tn ++ lpost (f :: c)) None →
  cl f ++ tn :: cr f = cl0 ++ W ++ cr0 →
  Forall (rep d (nodes t) MIN_KEYS (Some (fa f))) (cl0 ++ cr0) →
  hwin t d c (fa f) (kl f ++ kr f) cl0 W cr0 pn.
Proof.
  intros Hroot Hc Hpn Hnd Hok Hch Heq Hsib.
  pose proof (rep_ctx_wf _ _ _ _ Hc) as Hwf.
  destruct Hc as (Hl & Hr & Hmin & Hmax & (nd & Hnd' & Hnode) & _ & Hc).
  simplify_eq. split; try done.
  - rewrite <- Heq, caddrs_app. done.
  - rewrite <- Heq. rewrite actx_cons in Hnd.
    eapply NoDup_Permutation_proper; [|exact Hnd].
    rewrite !bind_app, bind_cons. solve_Permutation.
  - rewrite <- Heq. by rewrite <- leaves_frame.
Qed.

Lemma hwin_step t t' d c pa ks ks' cl0 W W' cr0 pn pn' :
  hwin t d c pa ks cl0 W cr0 pn →
  root t' = root t → heap_ok t' →
  nodes t' !! pa = Some pn' →
  node_is pn' false (par c) ks' [] (caddrs (cl0 ++ W' ++ cr0)) →
  W' ≫= addrs ⊆+ W ≫= addrs →
  (∀ x, x ≠ pa → x ∉ W ≫= addrs → nodes t' !! x = nodes t !! x) →
  chain (nodes t') (lpre c ++ ((cl0 ++ W' ++ cr0) ≫= laddrs) ++ lpost c) None →
  hwin t' d c pa ks' cl0 W' cr0 pn'.
Proof.
  intros [Hroot Hc Hpn Hnode Hsib Hnd Hok Hch] Hr' Hok' Hpn' Hnode' Hsub Hfr Hch'.
  pose proof Hnd as Hnd0.
  apply NoDup_cons in Hnd as [Hpa Hnd].
  rewrite !bind_app in Hpa, Hnd.
  rewrite !not_elem_of_app in Hpa. destruct Hpa as ((Hp1 & Hp2 & Hp3) & Hp4).
  apply NoDup_app in Hnd as (Hnd1 & Hd1 & Hnd2).
  apply NoDup_app in Hnd1 as (Hnd3 & Hd2 & Hnd4).
  apply NoDup_app in Hnd4 as (Hnd5 & Hd3 & Hnd6).
  split; try done.
  - by rewrite Hr'.
  - eapply rep_ctx_ext; [|exact Hc]. intros x Hx. apply Hfr.
    + by intros ->.
    + intros Hin. eapply Hd1; [|done].
      apply elem_of_app. right. apply elem_of_app. by left.
  - eapply reps_ext; [exact Hsib|]. intros x Hx. rewrite bind_app in Hx.
    apply Hfr.
    + intros ->. apply elem_of_app in Hx as [Hx|Hx]; done.
    + intros Hin. apply elem_of_app in Hx as [Hx|Hx].
      * eapply Hd2; [done|]. apply elem_of_app. by left.
      * by eapply Hd3.
  - eapply NoDup_sub; [|exact Hnd0]. apply submseteq_skip.
    rewrite !bind_app. apply submseteq_app; [|done].
    apply submseteq_app; [done|]. by apply submseteq_app.
Qed.

Lemma hwin_close t d c pa ks cl0 W cr0 pn :
  hwin t d c pa ks cl0 W cr0 pn →
  Forall (rep d (nodes t) MIN_KEYS (Some pa)) W →
  mhole c (S d) ≤ length ks ≤ MAX_KEYS → 1 ≤ length ks →
  hrep t (S d + length c) (plug (BNode pa ks (cl0 ++ W ++ cr0)) c).
Proof.
  intros [Hroot Hc Hpn Hnode Hsib Hnd Hok Hch] HW Hlen H1.
  pose proof (rep_ctx_wf _ _ _ _ Hc) as Hwf.
  apply Forall_app in Hsib as [Hsl Hsr].
  split_and!; try done.
  - by rewrite addr_plug.
  - apply rep_plug; [done|]. simpl. split_and!; try done; try lia; [eauto|].
    rewrite !Forall_app. done.
  - rewrite addrs_plug, addrs_node. done.
  - rewrite laddrs_plug, laddrs_node by done. done.
Qed.

(** ** Borrowing, seen from the parent *)

Lemma bind_pair {A B} (f : A → list B) x y : [x; y] ≫= f = f x ++ f y.
Proof. simpl. by rewrite app_nil_r. Qed.

Lemma bind_single {A B} (f : A → list B) x : [x] ≫= f = f x.
Proof. simpl. by rewrite app_nil_r. Qed.

Lemma hwin_rearrange t t' d c pa kl0 s s' kr0 cl0 A B A' B' cr0 pn pn' :
  hwin t d c pa (kl0 ++ s :: kr0) cl0 [A; B] cr0 pn →
  root t' = root t → brk t' = brk t →
  nodes t' !! pa = Some pn' →
  node_is pn' false (par c) (kl0 ++ s' :: kr0) [] (caddrs (cl0 ++ [A; B] ++ cr0)) →
  addr A' = addr A → addr B' = addr B →
  addrs A' ++ addrs B' ≡ₚ addrs A ++ addrs B →
  laddrs A' ++ laddrs B' = laddrs A ++ laddrs B →
  rep d (nodes t') MIN_KEYS (Some pa) A' →
  rep d (nodes t') MIN_KEYS (Some pa) B' →
  (∀ x, x ≠ pa → x ∉ addrs A ++ addrs B → nodes t' !! x = nodes t !! x) →
  (∀ x, is_Some (nodes t' !! x) → is_Some (nodes t !! x)) →
  next_kept t t' →
  mhole c (S d) ≤ length (kl0 ++ s :: kr0) →
  hrep t' (S d + length c)
    (plug (BNode pa (kl0 ++ s' :: kr0) (cl0 ++ [A'; B'] ++ cr0)) c).
Proof.
  intros Hw Hroot Hbrk Hpn' Hnode' HaA HaB Hperm Hleaves HA' HB' Hfr Hdom Hkept
    Hmin.
  pose proof (hw_node _ _ _ _ _ _ _ _ _ Hw) as (_ & _ & _ & _ & Hmax & _).
  rewrite length_app in Hmin, Hmax. simpl in Hmin, Hmax.
  eapply (hwin_close t' d c pa _ cl0 [A'; B'] cr0).
  - eapply (hwin_step t t' d c pa _ _ cl0 [A; B] [A'; B'] cr0); try done.
    + eapply heap_ok_grow; [by destruct Hw|lia|]. intros x Hx. right. auto.
    + rewrite !caddrs_app in *. simpl. by rewrite HaA, HaB.
    + rewrite !bind_pair. by rewrite Hperm.
    + intros x ? Hx. apply Hfr; [done|]. by rewrite bind_pair in Hx.
    + eapply chain_next_kept; [done|].
      pose proof (hw_chain _ _ _ _ _ _ _ _ _ Hw) as Hch.
      rewrite !bind_app, !bind_pair in *. by rewrite Hleaves.
  - by repeat constructor.
  - rewrite length_app. simpl. lia.
  - rewrite length_app. simpl. lia.
Qed.

Lemma win_borrow_left_leaf t c pa kl0 s kr0 cl0 cr0 pn la lks lk los lo a ks os :
  hwin t 0 c pa (kl0 ++ s :: kr0) cl0
    [BLeaf la (lks ++ [lk]) (los ++ [lo]); BLeaf a ks os] cr0 pn →
  rep 0 (nodes t) MIN_KEYS (Some pa) (BLeaf la (lks ++ [lk]) (los ++ [lo])) →
  rep 0 (nodes t) (MIN_KEYS - 1) (Some pa) (BLeaf a ks os) →
  length los = length lks →
  length kl0 = length cl0 → length ks = 1 → MIN_KEYS < length (lks ++ [lk]) →
  mhole c 1 ≤ length (kl0 ++ s :: kr0) →
  hrep (borrow_from_left t a pa la (S (length cl0))) (1 + length c)
    (plug (BNode pa (kl0 ++ lk :: kr0)
             (cl0 ++ [BLeaf la lks los; BLeaf a (lk :: ks) (lo :: os)] ++ cr0))
       c).
Proof.
  intros Hw (_ & ln & Hl & Hln) (_ & nn & Hn & Hnn) Hlos Hkl Hks Hgt Hmin.
  pose proof Hw as [Hroot Hc Hpn Hnode Hsib Hnd Hok Hch].
  assert (a ≠ la ∧ a ≠ pa ∧ la ≠ pa) as (Hne1 & Hne2 & Hne3).
  { apply NoDup_cons in Hnd as [Hpa Hnd]. rewrite !bind_app in *.
    rewrite !bind_cons in *. simpl in *.
    apply NoDup_app in Hnd as [Hnd _]. apply NoDup_app in Hnd as (_ & _ & Hnd).
    apply NoDup_cons in Hnd as [Hla _].
    rewrite !not_elem_of_app, !not_elem_of_cons in Hpa.
    rewrite not_elem_of_cons in Hla. naive_solver. }
  destruct (borrow_from_left_leaf_spec t a pa la nn ln pn (Some pa) ks os lks lk
              los lo (S (length cl0)) Hn Hl Hpn Hne1 Hne2 Hne3 Hnn Hln Hlos Hks
              Hgt)
    as (t' & nn' & ln' & Heq & Hr' & Hb' & Hn' & Hl' & Hp' & Hfr & Hnn' & Hln'
        & Hx1 & Hx2).
  rewrite Heq. simpl in Hp'. rewrite Nat.sub_0_r, <- Hkl in Hp'.
  destruct (node_is_set_key_mid _ _ _ _ _ lk _ _ _ Hnode) as [Hnode' Hx3].
  pose proof (proj1 (proj2 (proj2 (proj2 (proj2 Hln))))) as Hlmax.
  rewrite length_app in Hgt, Hlmax. simpl in Hgt, Hlmax.
  eapply (hwin_rearrange t t'); try done.
  - split; [knum; lia|eauto].
  - split; [simpl; knum; lia|eauto].
  - intros x ? Hx. simpl in Hx. rewrite !not_elem_of_cons in Hx.
    apply Hfr; naive_solver.
  - intros x Hx. destruct (decide (x = a)) as [->|]; [eauto|].
    destruct (decide (x = la)) as [->|]; [eauto|].
    destruct (decide (x = pa)) as [->|]; [eauto|].
    by rewrite Hfr in Hx.
  - intros x nd Hx. destruct (decide (x = a)) as [->|]; [simplify_eq; eauto|].
    destruct (decide (x = la)) as [->|]; [simplify_eq; eauto|].
    destruct (decide (x = pa)) as [->|]; [simplify_eq; eauto|].
    rewrite Hfr by done. eauto.
Qed.

Lemma hwin_distinct t d c pa ks cl0 A B cr0 pn :
  hwin t d c pa ks cl0 [A; B] cr0 pn →
  NoDup (pa :: addrs A ++ addrs B).
Proof.
  intros Hw. pose proof (hw_nodup _ _ _ _ _ _ _ _ _ Hw) as Hnd.
  eapply NoDup_sub; [|exact Hnd]. apply submseteq_skip.
  rewrite !bind_app, bind_pair.
  etrans; [|apply submseteq_inserts_r; reflexivity].
  etrans; [|apply submseteq_inserts_l; reflexivity].
  by apply submseteq_inserts_r.
Qed.

Lemma win_borrow_right_leaf t c pa kl0 s kr0 cl0 cr0 pn ra rk0 rk1 rks ro0 ros
    a ks os :
  hwin t 0 c pa (kl0 ++ s :: kr0) cl0
    [BLeaf a ks os; BLeaf ra (rk0 :: rk1 :: rks) (ro0 :: ros)] cr0 pn →
  rep 0 (nodes t) (MIN_KEYS - 1) (Some pa) (BLeaf a ks os) →
  rep 0 (nodes t) MIN_KEYS (Some pa) (BLeaf ra (rk0 :: rk1 :: rks) (ro0 :: ros)) →
  length kl0 = length cl0 → length ks = 1 →
  MIN_KEYS < length (rk0 :: rk1 :: rks) →
  mhole c 1 ≤ length (kl0 ++ s :: kr0) →
  hrep (borrow_from_right t a pa ra (length cl0)) (1 + length c)
    (plug (BNode pa (kl0 ++ rk1 :: kr0)
             (cl0 ++ [BLeaf a (ks ++ [rk0]) (os ++ [ro0]); BLeaf ra (rk1 :: rks) ros]
                ++ cr0)) c).
Proof.
  intros Hw (_ & nn & Hn & Hnn) (_ & rn & Hr & Hrn) Hkl Hks Hgt Hmin.
  pose proof Hw as [Hroot Hc Hpn Hnode Hsib Hnd Hok Hch].
  pose proof (hwin_distinct _ _ _ _ _ _ _ _ _ _ Hw) as Hdis. simpl in Hdis.
  nodup_inv Hdis.
  destruct (borrow_from_right_leaf_spec t a pa ra nn rn pn (Some pa) ks os rk0
              rk1 rks ro0 ros (length cl0) Hn Hr Hpn)
    as (t' & nn' & rn' & Heq & Hr' & Hb' & Hn' & Hrr' & Hp' & Hfr & Hnn' & Hrn'
        & Hx1 & Hx2); try done.
  rewrite Heq. rewrite <- Hkl in Hp'.
  destruct (node_is_set_key_mid _ _ _ _ _ rk1 _ _ _ Hnode) as [Hnode' Hx3].
  pose proof (proj1 (proj2 (proj2 (proj2 (proj2 Hrn))))) as Hrmax.
  simpl in Hgt, Hrmax.
  eapply (hwin_rearrange t t'); try done.
  - split; [rewrite length_app; simpl; knum; lia|eauto].
  - split; [simpl; knum; lia|eauto].
  - intros x ? Hx. simpl in Hx. rewrite !not_elem_of_cons in Hx.
    apply Hfr; naive_solver.
  - intros x Hx. destruct (decide (x = a)) as [->|]; [eauto|].
    destruct (decide (x = ra)) as [->|]; [eauto|].
    destruct (decide (x = pa)) as [->|]; [eauto|].
    by rewrite Hfr in Hx.
  - intros x nd Hx. destruct (decide (x = a)) as [->|]; [simplify_eq; eauto|].
    destruct (decide (x = ra)) as [->|]; [simplify_eq; eauto|].
    destruct (decide (x = pa)) as [->|]; [simplify_eq; eauto|].
    rewrite Hfr by done. eauto.
Qed.

Lemma win_borrow_left_internal t d c pa kl0 s kr0 cl0 cr0 pn la lks lk lcs X
    a ks cs :
  hwin t (S d) c pa (kl0 ++ s :: kr0) cl0
    [BNode la (lks ++ [lk]) (lcs ++ [X]); BNode a ks cs] cr0 pn →
  rep (S d) (nodes t) MIN_KEYS (Some pa) (BNode la (lks ++ [lk]) (lcs ++ [X])) →
  rep (S d) (nodes t) (MIN_KEYS - 1) (Some pa) (BNode a ks cs) →
  length kl0 = length cl0 → length ks = 1 → MIN_KEYS < length (lks ++ [lk]) →
  mhole c (S (S d)) ≤ length (kl0 ++ s :: kr0) →
  hrep (borrow_from_left t a pa la (S (length cl0))) (S (S d) + length c)
    (plug (BNode pa (kl0 ++ lk :: kr0)
             (cl0 ++ [BNode la lks lcs; BNode a (s :: ks) (X :: cs)] ++ cr0))
       c).
Proof.
  intros Hw HL HN Hkl Hks Hgt Hmin.
  apply rep_node_inv in HL as (HLlen & _ & HLcs & (ln & Hl & Hln) & HLch).
  apply rep_node_inv in HN as (HNlen & _ & HNcs & (nn & Hn & Hnn) & HNch).
  pose proof Hw as [Hroot Hc Hpn Hnode Hsib Hnd Hok Hch].
  pose proof (hwin_distinct _ _ _ _ _ _ _ _ _ _ Hw) as Hdis.
  rewrite !addrs_node, bind_app, bind_single in Hdis.
  apply Forall_app in HLch as [HLch HX]. rewrite Forall_singleton in HX.
  destruct (rep_root _ _ _ _ _ HX) as (xn & Hx & Hxp).
  pose proof (addr_in_addrs X) as HXin.
  apply NoDup_cons in Hdis as [Hd1 Hdis]. rewrite <- app_comm_cons in Hd1, Hdis.
  apply NoDup_cons in Hdis as [Hd2 Hdis].
  apply NoDup_app in Hdis as (Hd3 & Hd4 & Hdis).
  apply NoDup_app in Hd3 as (Hd5 & Hd6 & Hd7).
  apply NoDup_cons in Hdis as [Hd8 Hd9].
  rewrite not_elem_of_cons, !not_elem_of_app, not_elem_of_cons in Hd1.
  rewrite !not_elem_of_app, not_elem_of_cons in Hd2.
  destruct Hd1 as (Hpl & (Hp1 & Hp2) & Hpa & Hp3).
  destruct Hd2 as ((Hl1 & Hl2) & Hla & Hl3).
  assert (a ≠ addr X) as HaX.
  { intros ->. eapply Hd4; [apply elem_of_app; right; exact HXin|by left]. }
  assert (la ≠ addr X) as HlX by (by intros ->).
  assert (pa ≠ addr X) as HpX by (by intros ->).
  assert (NoDup [a; la; pa; addr X]) as Hfour.
  { clear -Hpa Hla Hpl HaX HlX HpX.
    repeat (apply NoDup_cons; split); [| | | |apply NoDup_nil_2];
      set_unfold; naive_solver. }
  rewrite !length_app in HLcs. rewrite length_app in Hgt, HLlen.
  simpl in HLcs, Hgt, HLlen.
  assert (node_is ln false (Some pa) (lks ++ [lk]) []
            (Some <$> ((addr <$> lcs) ++ [addr X]))) as Hln0.
  { rewrite caddrs_fmap, (fmap_app addr) in Hln. exact Hln. }
  rewrite caddrs_fmap in Hnn.
  destruct (borrow_from_left_internal_spec t a pa la (addr X) nn ln pn xn
              (Some pa) ks (addr <$> cs) lks lk (addr <$> lcs) (S (length cl0))
              Hn Hl Hpn Hx Hfour Hnn)
    as (t' & nn' & ln' & Heq & Hr' & Hb' & Hn' & Hl' & Hp' & Hx' & Hfr & Hnn'
        & Hln' & Hx1 & Hx2); try done.
  { rewrite length_fmap. lia. }
  { rewrite length_app. simpl. lia. }
  rewrite Heq. simpl in Hp', Hnn'. rewrite Nat.sub_0_r, <- Hkl in Hp', Hnn'.
  rewrite (node_is_key_mid _ _ _ _ _ _ _ _ Hnode) in Hnn'.
  destruct (node_is_set_key_mid _ _ _ _ _ lk _ _ _ Hnode) as [Hnode' Hx3].
  assert (∀ y, y ∈ lcs ≫= addrs ∨ y ∈ cs ≫= addrs ∨ (y ∈ addrs X ∧ y ≠ addr X) →
               nodes t' !! y = nodes t !! y) as Hfr'.
  { intros y Hy. apply Hfr.
    - intros ->. destruct Hy as [Hy|[Hy|[Hy _]]]; [|done|].
      + eapply Hd4; [apply elem_of_app; left; exact Hy|]. by left.
      + eapply Hd4; [apply elem_of_app; right; exact Hy|]. by left.
    - intros ->. destruct Hy as [Hy|[Hy|[Hy _]]]; done.
    - intros ->. destruct Hy as [Hy|[Hy|[Hy _]]]; done.
    - intros ->. destruct Hy as [Hy|[Hy|[Hy ?]]]; [| |done].
      + by eapply Hd6.
      + eapply Hd4; [apply elem_of_app; right; exact HXin|]. by right. }
  eapply (hwin_rearrange t t'); try done.
  - rewrite !addrs_node, !bind_app, bind_single, bind_cons. solve_Permutation.
  - rewrite !laddrs_node, !bind_app, bind_single, bind_cons.
    by rewrite <- app_assoc.
  - cbn [rep]. split_and!; try (knum; lia).
    + exists ln'. split; [done|]. by rewrite caddrs_fmap.
    + eapply reps_ext; [done|]. intros y Hy. apply Hfr'. by left.
  - cbn [rep]. split_and!; try (simpl; knum; lia).
    + exists nn'. split; [done|]. by rewrite caddrs_fmap.
    + apply Forall_cons. split.
      * eapply rep_reparent; [exact HX|done|done|done|].
        intros y Hy Hne. apply Hfr'. by right; right.
      * eapply reps_ext; [done|]. intros y Hy. apply Hfr'. by right; left.
  - intros y Hy1 Hy2. rewrite !addrs_node in Hy2.
    rewrite !not_elem_of_app, !not_elem_of_cons, bind_app, bind_single,
      !not_elem_of_app in Hy2.
    destruct Hy2 as ((? & ? & Hy2) & ? & ?).
    apply Hfr; try done. by intros ->.
  - intros y Hy. destruct (decide (y = a)) as [->|]; [eauto|].
    destruct (decide (y = la)) as [->|]; [eauto|].
    destruct (decide (y = pa)) as [->|]; [eauto|].
    destruct (decide (y = addr X)) as [->|]; [eauto|].
    by rewrite Hfr in Hy.
  - intros y nd Hy. destruct (decide (y = a)) as [->|]; [simplify_eq; eauto|].
    destruct (decide (y = la)) as [->|]; [simplify_eq; eauto|].
    destruct (decide (y = pa)) as [->|]; [simplify_eq; eauto|].
    destruct (decide (y = addr X)) as [->|]; [simplify_eq; eauto|].
    rewrite Hfr by done. eauto.
Qed.

Lemma win_borrow_right_internal t d c pa kl0 s kr0 cl0 cr0 pn ra rk0 rks X rcs
    a ks cs :
  hwin t (S d) c pa (kl0 ++ s :: kr0) cl0
    [BNode a ks cs; BNode ra (rk0 :: rks) (X :: rcs)] cr0 pn →
  rep (S d) (nodes t) (MIN_KEYS - 1) (Some pa) (BNode a ks cs) →
  rep (S d) (nodes t) MIN_KEYS (Some pa) (BNode ra (rk0 :: rks) (X :: rcs)) →
  length kl0 = length cl0 → length ks = 1 → MIN_KEYS < length (rk0 :: rks) →
  mhole c (S (S d)) ≤ length (kl0 ++ s :: kr0) →
  hrep (borrow_from_right t a pa ra (length cl0)) (S (S d) + length c)
    (plug (BNode pa (kl0 ++ rk0 :: kr0)
             (cl0 ++ [BNode a (ks ++ [s]) (cs ++ [X]); BNode ra rks rcs] ++ cr0))
       c).
Proof.
  intros Hw HN HR Hkl Hks Hgt Hmin.
  apply rep_node_inv in HN as (HNlen & _ & HNcs & (nn & Hn & Hnn) & HNch).
  apply rep_node_inv in HR as (HRlen & _ & HRcs & (rn & Hr & Hrn) & HRch).
  pose proof Hw as [Hroot Hc Hpn Hnode Hsib Hnd Hok Hch].
  pose proof (hwin_distinct _ _ _ _ _ _ _ _ _ _ Hw) as Hdis.
  rewrite !addrs_node, bind_cons in Hdis.
  apply Forall_cons in HRch as [HX HRch].
  destruct (rep_root _ _ _ _ _ HX) as (xn & Hx & Hxp).
  pose proof (addr_in_addrs X) as HXin.
  apply NoDup_cons in Hdis as [Hd1 Hdis]. rewrite <- app_comm_cons in Hd1, Hdis.
  apply NoDup_cons in Hdis as [Hd2 Hdis].
  apply NoDup_app in Hdis as (Hd3 & Hd4 & Hdis).
  apply NoDup_cons in Hdis as [Hd8 Hd9].
  apply NoDup_app in Hd9 as (Hd5 & Hd6 & Hd7).
  rewrite not_elem_of_cons, !not_elem_of_app, not_elem_of_cons,
    not_elem_of_app in Hd1.
  rewrite !not_elem_of_app, not_elem_of_cons, not_elem_of_app in Hd2.
  rewrite not_elem_of_app in Hd8.
  destruct Hd1 as (Hpl & Hp1 & Hpa & Hp2 & Hp3).
  destruct Hd2 as (Hl1 & Hla & Hl2 & Hl3).
  destruct Hd8 as [Hr1 Hr2].
  assert (a ≠ addr X) as HaX by (by intros ->).
  assert (ra ≠ addr X) as HrX by (by intros ->).
  assert (pa ≠ addr X) as HpX by (by intros ->).
  assert (NoDup [a; ra; pa; addr X]) as Hfour.
  { clear -Hpa Hla Hpl HaX HrX HpX.
    repeat (apply NoDup_cons; split); [| | | |apply NoDup_nil_2];
      set_unfold; naive_solver. }
  simpl in HRcs, Hgt, HRlen.
  assert (node_is rn false (Some pa) (rk0 :: rks) []
            (Some <$> (addr X :: (addr <$> rcs)))) as Hrn0.
  { rewrite caddrs_fmap in Hrn. exact Hrn. }
  rewrite caddrs_fmap in Hnn.
  destruct (borrow_from_right_internal_spec t a pa ra (addr X) nn rn pn xn
              (Some pa) ks (addr <$> cs) rk0 rks (addr <$> rcs) (length cl0)
              Hn Hr Hpn Hx Hfour Hnn)
    as (t' & nn' & rn' & Heq & Hr' & Hb' & Hn' & Hrr' & Hp' & Hx' & Hfr & Hnn'
        & Hrn' & Hx1 & Hx2); try done.
  rewrite Heq. rewrite <- Hkl in Hp', Hnn'.
  rewrite (node_is_key_mid _ _ _ _ _ _ _ _ Hnode) in Hnn'.
  destruct (node_is_set_key_mid _ _ _ _ _ rk0 _ _ _ Hnode) as [Hnode' Hx3].
  assert (∀ y, y ∈ rcs ≫= addrs ∨ y ∈ cs ≫= addrs ∨ (y ∈ addrs X ∧ y ≠ addr X) →
               nodes t' !! y = nodes t !! y) as Hfr'.
  { intros y Hy. apply Hfr.
    - intros ->. destruct Hy as [Hy|[Hy|[Hy _]]]; done.
    - intros ->. destruct Hy as [Hy|[Hy|[Hy _]]]; [done| |done].
      eapply Hd4; [exact Hy|]. by left.
    - intros ->. destruct Hy as [Hy|[Hy|[Hy _]]]; done.
    - intros ->. destruct Hy as [Hy|[Hy|[Hy ?]]]; [| |done].
      + by eapply Hd6.
      + eapply Hd4; [exact Hy|]. right. apply elem_of_app. by left. }
  eapply (hwin_rearrange t t'); try done.
  - rewrite !addrs_node, !bind_app, bind_single, bind_cons. solve_Permutation.
  - rewrite !laddrs_node, !bind_app, bind_single, bind_cons.
    by rewrite <- app_assoc.
  - cbn [rep]. rewrite length_app. split_and!; try (simpl; knum; lia).
    + exists nn'. split; [done|].
      by rewrite caddrs_fmap, (fmap_app addr).
    + apply Forall_app. split.
      * eapply reps_ext; [done|]. intros y Hy. apply Hfr'. by right; left.
      * apply Forall_singleton.
        eapply rep_reparent; [exact HX|done|done|done|].
        intros y Hy Hne. apply Hfr'. by right; right.
  - cbn [rep]. split_and!; try (knum; lia).
    + exists rn'. split; [done|]. by rewrite caddrs_fmap.
    + eapply reps_ext; [done|]. intros y Hy. apply Hfr'. by left.
  - intros y Hy1 Hy2. rewrite !addrs_node in Hy2.
    rewrite !not_elem_of_app, !not_elem_of_cons, bind_cons,
      !not_elem_of_app in Hy2.
    destruct Hy2 as ((? & ?) & ? & Hy2 & ?).
    apply Hfr; try done. by intros ->.
  - intros y Hy. destruct (decide (y = a)) as [->|]; [eauto|].
    destruct (decide (y = ra)) as [->|]; [eauto|].
    destruct (decide (y = pa)) as [->|]; [eauto|].
    destruct (decide (y = addr X)) as [->|]; [eauto|].
    by rewrite Hfr in Hy.
  - intros y nd Hy. destruct (decide (y = a)) as [->|]; [simplify_eq; eauto|].
    destruct (decide (y = ra)) as [->|]; [simplify_eq; eauto|].
    destruct (decide (y = pa)) as [->|]; [simplify_eq; eauto|].
    destruct (decide (y = addr X)) as [->|]; [simplify_eq; eauto|].
    rewrite Hfr by done. eauto.
Qed.

(** ** Merging, seen from the parent *)

Lemma lctx_actx c x : ctx_wf c → x ∈ lpre c ++ lpost c → x ∈ actx c.
Proof.
  intros Hwf Hx.
  pose proof (laddrs_addrs (plug (BLeaf 0 [] []) c)) as Hsub.
  rewrite laddrs_plug, addrs_plug in Hsub by done. simpl in Hsub.
  assert (x ∈ 0 :: actx c) as Hin.
  { eapply elem_of_submseteq; [|exact Hsub].
    apply elem_of_app in Hx as [?|?]; set_solver. }
  apply elem_of_cons in Hin as [->|?]; [|done].
  (* the address of the hole may be any one: take another *)
  pose proof (laddrs_addrs (plug (BLeaf 1 [] []) c)) as Hsub1.
  rewrite laddrs_plug, addrs_plug in Hsub1 by done. simpl in Hsub1.
  assert (0 ∈ 1 :: actx c) as Hin.
  { eapply elem_of_submseteq; [|exact Hsub1].
    apply elem_of_app in Hx as [?|?]; set_solver. }
  apply elem_of_cons in Hin as [?|?]; [lia|done].
Qed.

Lemma hwin_leaves_nodup t d c pa ks cl0 W cr0 pn :
  hwin t d c pa ks cl0 W cr0 pn →
  NoDup (lpre c ++ ((cl0 ++ W ++ cr0) ≫= laddrs) ++ lpost c).
Proof.
  intros Hw. pose proof (rep_ctx_wf _ _ _ _ (hw_ctx _ _ _ _ _ _ _ _ _ Hw)) as Hwf.
  rewrite <- (laddrs_node pa ks), <- laddrs_plug by done.
  apply NoDup_laddrs. rewrite addrs_plug, addrs_node.
  apply (hw_nodup _ _ _ _ _ _ _ _ _ Hw).
Qed.

Lemma hwin_leaf_cases t d c pa ks cl0 W cr0 pn x :
  hwin t d c pa ks cl0 W cr0 pn →
  x ∈ lpre c ++ ((cl0 ++ W ++ cr0) ≫= laddrs) ++ lpost c →
  x ∈ W ≫= laddrs ∨ x ∉ W ≫= addrs.
Proof.
  intros Hw Hx.
  pose proof (rep_ctx_wf _ _ _ _ (hw_ctx _ _ _ _ _ _ _ _ _ Hw)) as Hwf.
  pose proof (hw_nodup _ _ _ _ _ _ _ _ _ Hw) as Hnd.
  apply NoDup_cons in Hnd as [_ Hnd]. rewrite !bind_app in Hnd, Hx.
  apply NoDup_app in Hnd as (Hnd & Hd1 & _).
  apply NoDup_app in Hnd as (_ & Hd2 & Hnd).
  apply NoDup_app in Hnd as (_ & Hd3 & _).
  assert (∀ l : list bt, x ∈ l ≫= laddrs → x ∈ l ≫= addrs) as Hsub.
  { intros l Hl. eapply elem_of_submseteq; [exact Hl|].
    apply bind_submseteq, Forall_forall. intros ??. apply laddrs_addrs. }
  rewrite !elem_of_app in Hx.
  destruct Hx as [Hx|[[Hx|[Hx|Hx]]|Hx]].
  - right. intros Hin. eapply Hd1; [|apply lctx_actx; [done|]].
    + apply elem_of_app. right. apply elem_of_app. left. exact Hin.
    + apply elem_of_app. by left.
  - right. intros Hin. eapply Hd2; [by apply Hsub|].
    apply elem_of_app. by left.
  - by left.
  - right. intros Hin. eapply Hd3; [done|]. by apply Hsub.
  - right. intros Hin. eapply Hd1; [|apply lctx_actx; [done|]].
    + apply elem_of_app. right. apply elem_of_app. left. exact Hin.
    + apply elem_of_app. by right.
Qed.

Lemma win_merge_leaf t c pa kl0 s kr0 cl0 cr0 pn a ks os b ks' os' :
  hwin t 0 c pa (kl0 ++ s :: kr0) cl0 [BLeaf a ks os; BLeaf b ks' os'] cr0 pn →
  rep 0 (nodes t) 1 (Some pa) (BLeaf a ks os) →
  rep 0 (nodes t) 1 (Some pa) (BLeaf b ks' os') →
  length ks + length ks' = 3 → 1 ≤ length ks ≤ 2 →
  length kl0 = length cl0 → length kr0 = length cr0 →
  ∃ t8 pn',
    merge_nodes_body t a b pa (length kl0) s = t8
    ∧ hwin t8 0 c pa (kl0 ++ kr0) cl0 [BLeaf a (ks ++ ks') (os ++ os')] cr0 pn'
    ∧ rep 0 (nodes t8) MIN_KEYS (Some pa) (BLeaf a (ks ++ ks') (os ++ os'))
    ∧ brk t8 = brk t.
Proof.
  intros Hw (_ & ln & Hl & Hln) (_ & rn & Hr & Hrn) Hsum Hlen Hkl Hkr.
  pose proof Hw as [Hroot Hc Hpn Hnode Hsib Hnd Hok Hch].
  pose proof (hwin_distinct _ _ _ _ _ _ _ _ _ _ Hw) as Hdis. simpl in Hdis.
  assert (NoDup [a; b; pa]) as Hthree.
  { eapply NoDup_Permutation_proper; [|exact Hdis]. solve_Permutation. }
  destruct (merge_leaf_body_spec t a b pa ln rn pn (Some pa) ks os ks' os'
              (length kl0) s Hl Hr Hpn Hthree Hln Hrn Hsum Hlen)
    as (t8 & ln' & Heq & Hr8 & Hb8 & Hl8 & Hr8' & Hp8 & Hfr & Hln' & Hnx).
  nodup_inv Hthree.
  rewrite !caddrs_app in Hnode. simpl in Hnode.
  destruct (parent_remove_local _ _ _ _ _ _ _ _ _ Hnode) as [Hnode' Hnx'].
  { unfold caddrs. by rewrite length_fmap. }
  { unfold caddrs. by rewrite length_fmap. }
  exists t8, (parent_remove (length kl0) pn). split; [done|].
  assert (rep 0 (nodes t8) MIN_KEYS (Some pa) (BLeaf a (ks ++ ks') (os ++ os')))
    as HM.
  { split; [rewrite length_app; knum; lia|eauto]. }
  split; [|done].
  eapply (hwin_step t t8 0 c pa _ _ cl0 _ [BLeaf a (ks ++ ks') (os ++ os')]);
    try done.
  - eapply heap_ok_grow; [done|lia|]. intros x Hx. right.
    destruct (decide (x = a)) as [->|]; [eauto|].
    destruct (decide (x = b)) as [->|]; [eauto|].
    destruct (decide (x = pa)) as [->|]; [eauto|].
    by rewrite Hfr in Hx.
  - rewrite !caddrs_app. done.
  - simpl. by apply submseteq_skip, submseteq_cons.
  - intros x ? Hx. simpl in Hx. rewrite !not_elem_of_cons in Hx.
    apply Hfr; naive_solver.
  - pose proof (hwin_leaves_nodup _ _ _ _ _ _ _ _ _ Hw) as Hlnd.
    assert (∀ W : list bt,
              lpre c ++ ((cl0 ++ W ++ cr0) ≫= laddrs) ++ lpost c
              = (lpre c ++ (cl0 ≫= laddrs)) ++ (W ≫= laddrs)
                  ++ ((cr0 ≫= laddrs) ++ lpost c)) as Hlist.
    { intros W. rewrite !bind_app. by rewrite <- !app_assoc. }
    rewrite Hlist in Hch, Hlnd. rewrite Hlist.
    rewrite bind_pair in Hch, Hlnd. rewrite bind_single.
    change (laddrs (BLeaf a ks os) ++ laddrs (BLeaf b ks' os')) with [a; b]
      in Hch, Hlnd.
    change (laddrs (BLeaf a (ks ++ ks') (os ++ os'))) with [a].
    eapply chain_delete; [exact Hch|exact Hlnd| |].
    + rewrite Hl8, Hr. simpl. by rewrite Hnx.
    + intros x ??. destruct (decide (x = pa)) as [->|].
      * rewrite Hp8, Hpn. cbv [fmap option_fmap option_map].
        by rewrite Hnx'.
      * by rewrite Hfr.
Qed.

Lemma laddrs_in_children a ks cs x :
  x ∈ laddrs (BNode a ks cs) → x ∈ cs ≫= addrs.
Proof.
  rewrite laddrs_node. intros Hx. eapply elem_of_submseteq; [exact Hx|].
  apply bind_submseteq, Forall_forall. intros ??. apply laddrs_addrs.
Qed.

Lemma win_merge_internal t d c pa kl0 s kr0 cl0 cr0 pn a ks cs b ks' cs' :
  hwin t (S d) c pa (kl0 ++ s :: kr0) cl0 [BNode a ks cs; BNode b ks' cs'] cr0
    pn →
  rep (S d) (nodes t) 1 (Some pa) (BNode a ks cs) →
  rep (S d) (nodes t) 1 (Some pa) (BNode b ks' cs') →
  length ks + length ks' = 3 → 1 ≤ length ks ≤ 2 →
  length kl0 = length cl0 → length kr0 = length cr0 →
  ∃ t8 pn',
    merge_nodes_body t a b pa (length kl0) s = t8
    ∧ hwin t8 (S d) c pa (kl0 ++ kr0) cl0
        [BNode a (ks ++ s :: ks') (cs ++ cs')] cr0 pn'
    ∧ rep (S d) (nodes t8) MIN_KEYS (Some pa)
        (BNode a (ks ++ s :: ks') (cs ++ cs'))
    ∧ brk t8 = brk t.
Proof.
  intros Hw HA HB Hsum Hlen Hkl Hkr.
  apply rep_node_inv in HA as (_ & _ & HAcs & (ln & Hl & Hln) & HAch).
  apply rep_node_inv in HB as (_ & _ & HBcs & (rn & Hr & Hrn) & HBch).
  pose proof Hw as [Hroot Hc Hpn Hnode Hsib Hnd Hok Hch].
  pose proof (hwin_distinct _ _ _ _ _ _ _ _ _ _ Hw) as Hdis.
  rewrite !addrs_node in Hdis.
  apply NoDup_cons in Hdis as [Hd1 Hdis]. rewrite <- app_comm_cons in Hd1, Hdis.
  apply NoDup_cons in Hdis as [Hd2 Hdis].
  apply NoDup_app in Hdis as (Hd3 & Hd4 & Hdis).
  apply NoDup_cons in Hdis as [Hd5 Hd6].
  rewrite not_elem_of_cons, not_elem_of_app, not_elem_of_cons in Hd1.
  rewrite not_elem_of_app, not_elem_of_cons in Hd2.
  destruct Hd1 as (Hpa & Hp1 & Hpb & Hp2). destruct Hd2 as (Ha1 & Hab & Ha2).
  assert (NoDup (a :: b :: pa :: (addr <$> cs'))) as Hall.
  { apply NoDup_cons. split.
    { rewrite !not_elem_of_cons.
      split_and!; try done; try (by apply not_eq_sym);
        by intros ?%roots_in_addrs. }
    apply NoDup_cons. split.
    { rewrite !not_elem_of_cons.
      split_and!; try done; try (by apply not_eq_sym);
        by intros ?%roots_in_addrs. }
    apply NoDup_cons. split; [by intros ?%roots_in_addrs|].
    by apply NoDup_roots. }
  rewrite caddrs_fmap in Hln, Hrn.
  destruct (merge_internal_body_spec t a b pa ln rn pn (Some pa) ks
              (addr <$> cs) ks' (addr <$> cs') (length kl0) s Hl Hr Hpn Hall)
    as (t8 & ln' & Heq & Hr8 & Hb8 & Hl8 & Hr8' & Hp8 & Hmv & Hfr & Hln' & Hnx);
    try done.
  { by eapply reps_roots. }
  rewrite !caddrs_app in Hnode. simpl in Hnode.
  destruct (parent_remove_local _ _ _ _ _ _ _ _ _ Hnode) as [Hnode' Hnx'].
  { unfold caddrs. by rewrite length_fmap. }
  { unfold caddrs. by rewrite length_fmap. }
  exists t8, (parent_remove (length kl0) pn). split; [done|].
  assert (∀ y, y ∈ cs ≫= addrs ∨ (y ∈ cs' ≫= addrs ∧ y ∉ addr <$> cs') →
               nodes t8 !! y = nodes t !! y) as Hfr'.
  { intros y Hy. apply Hfr.
    - intros ->. by destruct Hy as [Hy|[Hy _]].
    - intros ->. destruct Hy as [Hy|[Hy _]]; [|done].
      eapply Hd4; [exact Hy|]. by left.
    - intros ->. by destruct Hy as [Hy|[Hy _]].
    - destruct Hy as [Hy|[_ Hy]]; [|done].
      intros Hin%roots_in_addrs. eapply Hd4; [exact Hy|]. by right. }
  assert (rep (S d) (nodes t8) MIN_KEYS (Some pa)
            (BNode a (ks ++ s :: ks') (cs ++ cs'))) as HM.
  { cbn [rep]. rewrite length_app. simpl.
    split_and!; try (knum; lia).
    - exists ln'. split; [done|]. by rewrite caddrs_fmap, (fmap_app addr).
    - apply Forall_app. split.
      + eapply reps_ext; [done|]. intros y Hy. apply Hfr'. by left.
      + eapply reps_reparent; [done|done|done|].
        intros y Hy Hne. apply Hfr'. by right. }
  split; [|done].
  eapply (hwin_step t t8 (S d) c pa _ _ cl0 _
            [BNode a (ks ++ s :: ks') (cs ++ cs')]); try done.
  - eapply heap_ok_grow; [done|lia|]. intros x Hx. right.
    destruct (decide (x = a)) as [->|]; [eauto|].
    destruct (decide (x = b)) as [->|]; [eauto|].
    destruct (decide (x = pa)) as [->|]; [eauto|].
    destruct (decide (x ∈ addr <$> cs')) as [Hin|Hin].
    + rewrite (Hmv _ Hin) in Hx. by apply fmap_is_Some in Hx.
    + by rewrite Hfr in Hx.
  - rewrite !caddrs_app. done.
  - rewrite bind_single, bind_pair, !addrs_node, bind_app.
    rewrite <- app_comm_cons. apply submseteq_skip.
    apply submseteq_app; [done|]. by apply submseteq_cons.
  - intros x ? Hx. rewrite bind_pair, !addrs_node in Hx.
    rewrite <- app_comm_cons in Hx.
    rewrite not_elem_of_cons, not_elem_of_app, not_elem_of_cons in Hx.
    destruct Hx as (? & ? & ? & Hx). apply Hfr; try done.
    by intros ?%roots_in_addrs.
  - assert (lpre c ++ ((cl0 ++ [BNode a (ks ++ s :: ks') (cs ++ cs')] ++ cr0)
                          ≫= laddrs) ++ lpost c
            = lpre c ++ ((cl0 ++ [BNode a ks cs; BNode b ks' cs'] ++ cr0)
                           ≫= laddrs) ++ lpost c) as ->.
    { rewrite !bind_app, bind_single, bind_pair, !laddrs_node, bind_app.
      by rewrite <- !app_assoc. }
    eapply chain_ext; [|exact Hch]. intros x Hx.
    assert (x ≠ b → next <$> nodes t8 !! x = next <$> nodes t !! x) as Hkeep.
    { intros Hxb. destruct (decide (x = a)) as [->|].
      { rewrite Hl8, Hl. simpl. by rewrite Hnx. }
      destruct (decide (x = pa)) as [->|].
      { rewrite Hp8, Hpn. cbv [fmap option_fmap option_map]. by rewrite Hnx'. }
      destruct (decide (x ∈ addr <$> cs')) as [Hin|Hin].
      { rewrite (Hmv _ Hin). by destruct (nodes t !! x). }
      by rewrite Hfr. }
    apply Hkeep.
    destruct (hwin_leaf_cases _ _ _ _ _ _ _ _ _ x Hw) as [Hin|Hin]; [done| |].
    + rewrite bind_pair in Hin.
      intros ->. apply elem_of_app in Hin as [Hin|Hin].
      * apply laddrs_in_children in Hin. eapply Hd4; [exact Hin|]. by left.
      * apply laddrs_in_children in Hin. done.
    + intros ->. apply Hin. rewrite bind_pair, !addrs_node.
      apply elem_of_app. right. by left.
Qed.

(** ** After a merge *)

Lemma hhole_hrep t d c tn :
  hhole t d c (mhole c d) tn → hrep t (d + length c) (plug tn c).
Proof.
  intros (Hroot & Hc & Hrep & Hnd & Hok & Hch).
  pose proof (rep_ctx_wf _ _ _ _ Hc) as Hwf.
  split_and!; try done.
  - by rewrite addr_plug.
  - by apply rep_plug.
  - by rewrite addrs_plug.
  - by rewrite laddrs_plug.
Qed.

Lemma hwin_hhole t d c pa ks cl0 W cr0 pn m :
  hwin t d c pa ks cl0 W cr0 pn →
  Forall (rep d (nodes t) MIN_KEYS (Some pa)) W →
  m ≤ length ks → 1 ≤ length ks →
  hhole t (S d) c m (BNode pa ks (cl0 ++ W ++ cr0)).
Proof.
  intros [Hroot Hc Hpn Hnode Hsib Hnd Hok Hch] HW Hm H1.
  pose proof (proj1 (proj2 (proj2 (proj2 (proj2 Hnode))))) as Hmax.
  apply Forall_app in Hsib as [Hsl Hsr].
  split_and!; try done.
  - simpl. split_and!; try done; [eauto|]. rewrite !Forall_app. done.
  - by rewrite laddrs_node.
Qed.

Lemma merge_nodes_with_tail u t l r ki kp p :
  parent (node_at t l) = Some p →
  merge_nodes_with u t l r ki kp
  = merge_tail u (merge_nodes_body t l r p ki kp) l p.
Proof. intros Hp. unfold merge_nodes_with. by rewrite Hp. Qed.

Lemma rep_ctx_root c : ∀ d h a,
  rep_ctx d h c a → c ≠ [] →
  ∃ nd, h !! raddr c a = Some nd ∧ 1 ≤ num_keys nd ∧ is_leaf nd = false
        ∧ raddr c a ∈ actx c.
Proof.
  induction c as [|f c IH]; intros d h a Hc Hne; [done|].
  destruct Hc as (Hl & Hr & Hmin & Hmax & (nd & Hnd & Hnode) & Hsib & Hc).
  destruct c as [|f' c].
  - exists nd. cbn [raddr]. destruct Hnode as (_ & ? & _ & -> & _).
    split_and!; try done. rewrite actx_cons.
    apply elem_of_app. left. by left.
  - destruct (IH _ _ _ Hc) as (nd' & ? & ? & ? & ?); [done|].
    exists nd'. cbn [raddr] in *. split_and!; try done.
    rewrite (actx_cons f). apply elem_of_app. by right.
Qed.

Lemma fix_up_ok f c t :
  MIN_KEYS ≤ length (bkeys t) → fix_up (f :: c) t = plug t (f :: c).
Proof. intros H. cbn [fix_up]. by rewrite bool_decide_eq_true_2. Qed.

Lemma root_free a t : root (free a t) = root t.
Proof. done. Qed.
Lemma brk_free a t : brk (free a t) = brk t.
Proof. done. Qed.
Lemma root_set_root r t : root (set_root r t) = r.
Proof. done. Qed.
Lemma brk_set_root r t : brk (set_root r t) = brk t.
Proof. done. Qed.

Lemma merge_tail_rep c d t8 pa kl0 kr0 cl0 M cr0 pn' fuel :
  hwin t8 d c pa (kl0 ++ kr0) cl0 [M] cr0 pn' →
  rep d (nodes t8) MIN_KEYS (Some pa) M →
  mhole c (S d) ≤ S (length (kl0 ++ kr0)) →
  length kl0 = length cl0 → length kr0 = length cr0 →
  (c ≠ [] → ∀ P, addr P = pa → hhole t8 (S d) c (MIN_KEYS - 1) P →
     ∃ D', hrep (handle_underflow_from fuel t8 (Some pa)) D' (fix_up c P)) →
  ∃ D', hrep (merge_tail (handle_underflow_from fuel) t8 (addr M) pa) D'
          (merge_up c (fix_up c) pa kl0 cl0 M kr0 cr0).
Proof.
  intros Hw HM Hmin Hkl Hkr IH.
  pose proof Hw as [Hroot Hc Hpn Hnode Hsib Hnd Hok Hch].
  pose proof Hnode as (_ & Hleaf & _ & Hnum & Hmax & _).
  unfold merge_tail. rewrite (node_at_lookup _ _ _ Hpn), Hnum.
  destruct c as [|f c'].
  - simpl in Hroot. rewrite Hroot.
    rewrite (bool_decide_eq_true_2 (Some pa = Some pa)) by done.
    cbn [negb andb deref]. rewrite (node_at_lookup _ _ _ Hpn), Hnum, Hleaf.
    cbn [negb]. rewrite andb_true_r. cbn [merge_up].
    case_bool_decide as Hz.
    + destruct kl0, kr0; try done. destruct cl0, cr0; try done.
      simpl in *. clear Hkl Hkr Hz Hmin.
      destruct (rep_root _ _ _ _ _ HM) as (mn & Hmn & Hmp).
      apply NoDup_cons in Hnd as [Hpa HndM]. rewrite !app_nil_r in *.
      assert (addr M ≠ pa) as Hne.
      { intros <-. apply Hpa, addr_in_addrs. }
      rewrite (store_upd _ _ _ mn) by (by rewrite nodes_set_root).
      exists d. split_and!.
      * done.
      * eapply rep_weaken; [|eapply (rep_reparent d (nodes t8)); try done].
        -- knum. lia.
        -- rewrite nodes_free, lookup_delete_ne by done.
           apply lookup_upd_eq.
        -- intros x Hx Hxm. rewrite nodes_free, lookup_delete_ne.
           ++ rewrite lookup_upd_ne by done. by rewrite nodes_set_root.
           ++ by intros <-.
      * done.
      * intros x nd. rewrite nodes_free. intros Hx.
        apply lookup_delete_Some in Hx as [Hxp Hx].
        destruct (decide (x = addr M)) as [->|].
        -- rewrite brk_free, brk_upd, brk_set_root. by eapply Hok.
        -- rewrite lookup_upd_ne, nodes_set_root in Hx by done.
           rewrite brk_free, brk_upd, brk_set_root. by eapply Hok.
      * eapply chain_ext; [|exact Hch]. intros x Hx.
        assert (x ≠ pa) as Hxp.
        { intros ->. apply Hpa. eapply elem_of_submseteq; [exact Hx|].
          apply laddrs_addrs. }
        rewrite nodes_free, lookup_delete_ne by done.
        destruct (decide (x = addr M)) as [->|].
        -- rewrite lookup_upd_eq, Hmn. done.
        -- rewrite lookup_upd_ne by done. by rewrite nodes_set_root.
    + exists (S d + 0).
      apply (hwin_close t8 d [] pa (kl0 ++ kr0) cl0 [M] cr0 pn');
        [done|by repeat constructor|simpl; lia|lia].
  - destruct (rep_ctx_root _ _ _ _ Hc) as (rn & Hrn & Hrk & Hrl & Hrin); [done|].
    apply NoDup_cons in Hnd as [Hpa Hnd'].
    assert (Some pa ≠ root t8) as Hne.
    { rewrite Hroot. intros [= Heq]. apply Hpa. rewrite Heq at 1.
      apply elem_of_app. by right. }
    rewrite (bool_decide_eq_false_2 _ Hne). cbn [negb andb merge_up].
    case_bool_decide as Hlt.
    + apply IH; [done|done|].
      apply (hwin_hhole t8 d (f :: c') pa (kl0 ++ kr0) cl0 [M] cr0 pn');
        [done|by repeat constructor|simpl in Hmin; knum; lia..].
    + rewrite Hroot. cbn [deref]. rewrite (node_at_lookup _ _ _ Hrn).
      rewrite bool_decide_eq_false_2 by lia. cbn [andb].
      rewrite fix_up_ok by (simpl; lia).
      exists (S d + length (f :: c')).
      apply (hwin_close t8 d (f :: c') pa (kl0 ++ kr0) cl0 [M] cr0 pn');
        [done|by repeat constructor|simpl; knum; lia..].
Qed.

(** ** The branches of [fix_up] *)

Lemma fix_up_borrow_left f c t cl0 L kl0 s :
  ¬ MIN_KEYS ≤ length (bkeys t) →
  cl f = cl0 ++ [L] → kl f = kl0 ++ [s] → MIN_KEYS < length (bkeys L) →
  fix_up (f :: c) t
  = let '(L', s', t') := borrow_left_bt L s t in
    plug (BNode (fa f) (kl0 ++ s' :: kr f) (cl0 ++ L' :: t' :: cr f)) c.
Proof.
  intros Hlt Hcl Hkl Hgt. cbn [fix_up].
  rewrite bool_decide_eq_false_2 by done.
  rewrite Hcl, Hkl, !last_snoc, !removelast_last.
  by rewrite bool_decide_eq_true_2.
Qed.

Lemma fix_up_borrow_right f c t R cr' s2 kr' :
  ¬ MIN_KEYS ≤ length (bkeys t) →
  (∀ L, last (cl f) = Some L → ¬ MIN_KEYS < length (bkeys L)) →
  cr f = R :: cr' → kr f = s2 :: kr' → MIN_KEYS < length (bkeys R) →
  fix_up (f :: c) t
  = let '(t', s', R') := borrow_right_bt t s2 R in
    plug (BNode (fa f) (kl f ++ s' :: kr') (cl f ++ t' :: R' :: cr')) c.
Proof.
  intros Hlt HL Hcr Hkr Hgt. cbn [fix_up].
  rewrite bool_decide_eq_false_2 by done.
  destruct (last (cl f)) as [L|] eqn:HlL, (last (kl f)) as [s|] eqn:Hls;
    rewrite ?Hcr, ?Hkr.
  - rewrite (bool_decide_eq_false_2 _ (HL _ eq_refl)).
    by rewrite bool_decide_eq_true_2.
  - by rewrite bool_decide_eq_true_2.
  - by rewrite bool_decide_eq_true_2.
  - by rewrite bool_decide_eq_true_2.
Qed.

Lemma fix_up_merge_left f c t cl0 L kl0 s :
  ¬ MIN_KEYS ≤ length (bkeys t) →
  cl f = cl0 ++ [L] → kl f = kl0 ++ [s] → ¬ MIN_KEYS < length (bkeys L) →
  (∀ R cr' s2 kr', cr f = R :: cr' → kr f = s2 :: kr' →
                   ¬ MIN_KEYS < length (bkeys R)) →
  fix_up (f :: c) t
  = merge_up c (fix_up c) (fa f) kl0 cl0 (merge_bt L s t) (kr f) (cr f).
Proof.
  intros Hlt Hcl Hkl HL HR. cbn [fix_up].
  rewrite bool_decide_eq_false_2 by done.
  rewrite Hcl, Hkl, !last_snoc, !removelast_last.
  rewrite bool_decide_eq_false_2 by done.
  destruct (cr f) as [|R cr'] eqn:Hcr; [done|].
  destruct (kr f) as [|s2 kr'] eqn:Hkr; [done|].
  by rewrite (bool_decide_eq_false_2 _ (HR _ _ _ _ eq_refl eq_refl)).
Qed.

Lemma fix_up_merge_right f c t R cr' s2 kr' :
  ¬ MIN_KEYS ≤ length (bkeys t) →
  cl f = [] → kl f = [] → cr f = R :: cr' → kr f = s2 :: kr' →
  ¬ MIN_KEYS < length (bkeys R) →
  fix_up (f :: c) t
  = merge_up c (fix_up c) (fa f) (kl f) (cl f) (merge_bt t s2 R) kr' cr'.
Proof.
  intros Hlt Hcl Hkl Hcr Hkr HR. cbn [fix_up].
  rewrite bool_decide_eq_false_2 by done.
  rewrite Hcl, Hkl, Hcr, Hkr. simpl.
  by rewrite bool_decide_eq_false_2.
Qed.

(** ** [handle_underflow], one round *)

Lemma handle_underflow_from_S fuel t n p :
  Some n ≠ root t → ¬ MIN_KEYS ≤ num_keys (node_at t n) →
  parent (node_at t n) = Some p →
  ¬ num_keys (node_at t p) < node_index (node_at t p) n 0 (S (num_keys (node_at t p))) →
  handle_underflow_from (S fuel) t (Some n)
  = let pn := node_at t p in
    let idx := node_index pn n 0 (S (num_keys pn)) in
    let ls := child_at pn (idx - 1) in
    let rs := child_at pn (idx + 1) in
    if bool_decide (0 < idx) && bool_decide (MIN_KEYS < num_keys (deref t ls))
    then match ls with
         | Some l => borrow_from_left t n p l idx
         | None => t
         end
    else if bool_decide (idx < num_keys pn)
            && bool_decide (MIN_KEYS < num_keys (deref t rs))
    then match rs with
         | Some r => borrow_from_right t n p r idx
         | None => t
         end
    else if bool_decide (0 < idx)
    then match ls with
         | Some l => merge_nodes_with (handle_underflow_from fuel) t l n
                       (idx - 1) (key_at pn (idx - 1))
         | None => t
         end
    else match rs with
         | Some r => merge_nodes_with (handle_underflow_from fuel) t n r idx
                       (key_at pn idx)
         | None => t
         end.
Proof.
  intros Hroot Hnum Hp Hidx. cbn [handle_underflow_from].
  rewrite (bool_decide_eq_false_2 _ Hroot), (bool_decide_eq_false_2 _ Hnum).
  cbn [orb]. rewrite Hp. by rewrite (bool_decide_eq_false_2 _ Hidx).
Qed.

Lemma hu_facts t d f c tn :
  hhole t d (f :: c) (MIN_KEYS - 1) tn → ¬ MIN_KEYS ≤ length (bkeys tn) →
  ∃ pn,
    nodes t !! fa f = Some pn
    ∧ node_is pn false (par c) (kl f ++ kr f) []
        (caddrs (cl f) ++ Some (addr tn) :: caddrs (cr f))
    ∧ length (kl f) = length (cl f) ∧ length (kr f) = length (cr f)
    ∧ mhole c (S d) ≤ length (kl f ++ kr f)
    ∧ length (bkeys tn) = 1
    ∧ Forall (rep d (nodes t) MIN_KEYS (Some (fa f))) (cl f ++ cr f)
    ∧ ∀ fuel,
        handle_underflow_from (S fuel) t (Some (addr tn))
        = let idx := length (cl f) in
          let ls := child_at pn (idx - 1) in
          let rs := child_at pn (idx + 1) in
          if bool_decide (0 < idx)
             && bool_decide (MIN_KEYS < num_keys (deref t ls))
          then match ls with
               | Some l => borrow_from_left t (addr tn) (fa f) l idx
               | None => t
               end
          else if bool_decide (idx < num_keys pn)
                  && bool_decide (MIN_KEYS < num_keys (deref t rs))
          then match rs with
               | Some r => borrow_from_right t (addr tn) (fa f) r idx
               | None => t
               end
          else if bool_decide (0 < idx)
          then match ls with
               | Some l =>
                   merge_nodes_with (handle_underflow_from fuel) t l (addr tn)
                     (idx - 1) (key_at pn (idx - 1))
               | None => t
               end
          else match rs with
               | Some r =>
                   merge_nodes_with (handle_underflow_from fuel) t (addr tn) r
                     idx (key_at pn idx)
               | None => t
               end.
Proof.
  intros (Hroot & Hc & Hrep & Hnd & Hok & Hch) Hlt.
  destruct Hc as (Hl & Hr & Hmin & Hmax & (pn & Hpn & Hnode) & Hsib & Hc).
  destruct (rep_root _ _ _ _ _ Hrep) as (nn & Hnn & Hnp).
  destruct (rep_num_keys _ _ _ _ _ _ Hrep Hnn) as (Hnk & _ & _).
  assert (MIN_KEYS - 1 ≤ length (bkeys tn)) as Hge.
  { destruct d, tn; simpl in *; try done; lia. }
  exists pn. split_and!; try done.
  { knum. lia. }
  intros fuel.
  rewrite actx_cons in Hnd. rewrite bind_app in Hnd.
  assert (Forall (λ x, x ≠ Some (addr tn)) (caddrs (cl f))) as Hnotin.
  { apply Forall_forall. intros x Hx Heq. subst x.
    unfold caddrs in Hx. apply list_elem_of_fmap in Hx as (ch & [= Heq] & Hch').
    apply NoDup_app in Hnd as (_ & Hd & _).
    eapply (Hd (addr tn)); [apply addr_in_addrs|].
    apply elem_of_app. left. right. apply elem_of_app. left.
    rewrite Heq. apply list_elem_of_bind. eexists. split; [apply addr_in_addrs|done]. }
  assert (node_index pn (addr tn) 0 (S (num_keys pn)) = length (cl f)) as Hidx.
  { rewrite <- Hl. apply (node_index_spec _ _ _ _ _ _ _ Hnode); [..|done];
      unfold caddrs; by rewrite length_fmap. }
  assert (Some (addr tn) ≠ root t) as Hner.
  { rewrite Hroot. cbn [raddr]. intros [= Heq].
    apply NoDup_app in Hnd as (_ & Hd & _).
    eapply (Hd (addr tn)); [apply addr_in_addrs|].
    destruct c as [|f' c].
    - simpl in Heq. rewrite Heq. apply elem_of_app. left. by left.
    - destruct (rep_ctx_root _ _ _ _ Hc) as (_ & _ & _ & _ & Hin); [done|].
      rewrite Heq. apply elem_of_app. by right. }
  rewrite (handle_underflow_from_S fuel t (addr tn) (fa f)); try done.
  - rewrite (node_at_lookup _ _ _ Hpn). cbv zeta. by rewrite Hidx.
  - rewrite (node_at_lookup _ _ _ Hnn). lia.
  - by rewrite (node_at_lookup _ _ _ Hnn).
  - rewrite (node_at_lookup _ _ _ Hpn), Hidx.
    destruct Hnode as (_ & _ & _ & -> & _). rewrite length_app. lia.
Qed.

Lemma snoc_cases {A} (l : list A) : l = [] ∨ ∃ l' x, l = l' ++ [x].
Proof.
  induction l as [|x l _] using rev_ind; [by left|right; eauto].
Qed.

Lemma hu_borrow_left t d c pa kl0 s kr0 cl0 cr0 pn L N :
  hwin t d c pa (kl0 ++ s :: kr0) cl0 [L; N] cr0 pn →
  rep d (nodes t) MIN_KEYS (Some pa) L →
  rep d (nodes t) (MIN_KEYS - 1) (Some pa) N →
  length kl0 = length cl0 → length (bkeys N) = 1 →
  MIN_KEYS < length (bkeys L) →
  mhole c (S d) ≤ length (kl0 ++ s :: kr0) →
  hrep (borrow_from_left t (addr N) pa (addr L) (S (length cl0)))
    (S d + length c)
    (let '(L', s', N') := borrow_left_bt L s N in
     plug (BNode pa (kl0 ++ s' :: kr0) (cl0 ++ L' :: N' :: cr0)) c).
Proof.
  intros Hw HL HN Hkl Hk1 Hgt Hmin.
  destruct d as [|d], L as [la lks' los'|la lks' lcs'], N as [a ks os|a ks cs];
    try done; simpl in Hk1, Hgt.
  - destruct (snoc_cases lks') as [->|(lks & lk & ->)]; [simpl in Hgt; lia|].
    pose proof HL as (_ & ln & _ & Hln).
    apply node_is_os_length in Hln.
    destruct (snoc_cases los') as [->|(los & lo & ->)].
    { rewrite length_app in Hln. simpl in Hln. lia. }
    rewrite !length_app in Hln. simpl in Hln.
    cbn [borrow_left_bt]. rewrite !last_snoc, !removelast_last. cbn [default].
    apply (win_borrow_left_leaf t c pa kl0 s kr0 cl0 cr0 pn); try done. lia.
  - destruct (snoc_cases lks') as [->|(lks & lk & ->)]; [simpl in Hgt; lia|].
    pose proof (rep_node_inv _ _ _ _ _ _ _ HL) as (_ & _ & Hlcs & _).
    destruct (snoc_cases lcs') as [->|(lcs & X & ->)]; [done|].
    cbn [borrow_left_bt]. rewrite !last_snoc, !removelast_last.
    cbn [default option_list app].
    by apply (win_borrow_left_internal t d c pa kl0 s kr0 cl0 cr0 pn).
Qed.

Lemma hu_borrow_right t d c pa kl0 s kr0 cl0 cr0 pn N R :
  hwin t d c pa (kl0 ++ s :: kr0) cl0 [N; R] cr0 pn →
  rep d (nodes t) (MIN_KEYS - 1) (Some pa) N →
  rep d (nodes t) MIN_KEYS (Some pa) R →
  length kl0 = length cl0 → length (bkeys N) = 1 →
  MIN_KEYS < length (bkeys R) →
  mhole c (S d) ≤ length (kl0 ++ s :: kr0) →
  hrep (borrow_from_right t (addr N) pa (addr R) (length cl0))
    (S d + length c)
    (let '(N', s', R') := borrow_right_bt N s R in
     plug (BNode pa (kl0 ++ s' :: kr0) (cl0 ++ N' :: R' :: cr0)) c).
Proof.
  intros Hw HN HR Hkl Hk1 Hgt Hmin.
  destruct d as [|d], N as [a ks os|a ks cs], R as [ra rks' ros'|ra rks' rcs'];
    try done; simpl in Hk1, Hgt.
  - destruct rks' as [|rk0 [|rk1 rks]]; try (simpl in Hgt; knum; lia).
    pose proof HR as (_ & rn & _ & Hrn).
    apply node_is_os_length in Hrn.
    destruct ros' as [|ro0 ros]; [done|].
    cbn [borrow_right_bt take drop lookup list_lookup default].
    by apply (win_borrow_right_leaf t c pa kl0 s kr0 cl0 cr0 pn).
  - destruct rks' as [|rk0 rks]; [simpl in Hgt; lia|].
    pose proof (rep_node_inv _ _ _ _ _ _ _ HR) as (_ & _ & Hrcs & _).
    destruct rcs' as [|X rcs]; [done|].
    cbn [borrow_right_bt take drop lookup list_lookup default].
    by apply (win_borrow_right_internal t d c pa kl0 s kr0 cl0 cr0 pn).
Qed.

Lemma hu_merge t d c pa kl0 s kr0 cl0 cr0 pn A B fuel :
  hwin t d c pa (kl0 ++ s :: kr0) cl0 [A; B] cr0 pn →
  rep d (nodes t) 1 (Some pa) A → rep d (nodes t) 1 (Some pa) B →
  length (bkeys A) + length (bkeys B) = 3 → 1 ≤ length (bkeys A) ≤ 2 →
  length kl0 = length cl0 → length kr0 = length cr0 →
  mhole c (S d) ≤ length (kl0 ++ s :: kr0) →
  (c ≠ [] → ∀ t8 P, addr P = pa → hhole t8 (S d) c (MIN_KEYS - 1) P →
     ∃ D', hrep (handle_underflow_from fuel t8 (Some pa)) D' (fix_up c P)) →
  ∃ D', hrep (merge_nodes_with (handle_underflow_from fuel) t (addr A) (addr B)
                (length kl0) s) D'
          (merge_up c (fix_up c) pa kl0 cl0 (merge_bt A s B) kr0 cr0).
Proof.
  intros Hw HA HB Hsum Hlen Hkl Hkr Hmin IH.
  destruct (rep_root _ _ _ _ _ HA) as (an & Han & Hap).
  rewrite (merge_nodes_with_tail _ _ _ _ _ _ pa)
    by (by rewrite (node_at_lookup _ _ _ Han)).
  assert (mhole c (S d) ≤ S (length (kl0 ++ kr0))) as Hmin'.
  { rewrite length_app in *. simpl in Hmin. lia. }
  destruct d as [|d], A as [a ks os|a ks cs], B as [b ks' os'|b ks' cs'];
    try done; simpl in Hsum, Hlen.
  - destruct (win_merge_leaf t c pa kl0 s kr0 cl0 cr0 pn a ks os b ks' os')
      as (t8 & pn' & Heq & Hw8 & HM & Hb8); try done.
    cbn [addr]. rewrite Heq. cbn [merge_bt].
    apply (merge_tail_rep c 0 t8 pa kl0 kr0 cl0
             (BLeaf a (ks ++ ks') (os ++ os')) cr0 pn' fuel); try done.
    intros Hne P HP. by apply IH.
  - destruct (win_merge_internal t d c pa kl0 s kr0 cl0 cr0 pn a ks cs b ks' cs')
      as (t8 & pn' & Heq & Hw8 & HM & Hb8); try done.
    cbn [addr]. rewrite Heq. cbn [merge_bt].
    apply (merge_tail_rep c (S d) t8 pa kl0 kr0 cl0
             (BNode a (ks ++ s :: ks') (cs ++ cs')) cr0 pn' fuel); try done.
    intros Hne P HP. by apply IH.
Qed.

(** ** [handle_underflow] rebuilds the tree as [fix_up] does *)

Lemma child_at_left pn pp ks cl0 L n cr :
  node_is pn false pp ks [] (caddrs (cl0 ++ [L]) ++ Some n :: caddrs cr) →
  child_at pn (length cl0) = Some (addr L).
Proof.
  intros Hn. pose proof (node_is_cs_length _ _ _ _ _ Hn) as Hlen.
  rewrite (node_is_child _ _ _ _ _ _ Hn).
  - rewrite caddrs_app, <- app_assoc. simpl.
    apply list_lookup_total_middle. unfold caddrs. by rewrite length_fmap.
  - rewrite !length_app, caddrs_app, length_app in Hlen. simpl in Hlen.
    unfold caddrs in Hlen. rewrite !length_fmap in Hlen. lia.
Qed.

Lemma child_at_right pn pp ks cl n R cr :
  node_is pn false pp ks [] (caddrs cl ++ Some n :: caddrs (R :: cr)) →
  child_at pn (length cl + 1) = Some (addr R).
Proof.
  intros Hn. pose proof (node_is_cs_length _ _ _ _ _ Hn) as Hlen.
  rewrite !length_app in Hlen. simpl in Hlen.
  unfold caddrs in Hlen. rewrite !length_fmap in Hlen.
  rewrite (node_is_child _ _ _ _ _ _ Hn) by lia.
  change (caddrs cl ++ Some n :: caddrs (R :: cr))
    with (caddrs cl ++ [Some n] ++ Some (addr R) :: caddrs cr).
  rewrite app_assoc. apply list_lookup_total_middle.
  rewrite length_app. unfold caddrs. rewrite length_fmap. simpl. lia.
Qed.

Lemma fix_up_rep c : ∀ d t tn fuel,
  c ≠ [] → hhole t d c (MIN_KEYS - 1) tn → length c ≤ fuel →
  ∃ D', hrep (handle_underflow_from fuel t (Some (addr tn))) D' (fix_up c tn).
Proof.
  induction c as [|f c IH]; intros d t tn fuel Hne Hh Hfuel; [done|].
  destruct fuel as [|fuel]; [simpl in Hfuel; lia|]. simpl in Hfuel.
  assert (c ≠ [] → ∀ t8 P, addr P = fa f → hhole t8 (S d) c (MIN_KEYS - 1) P →
          ∃ D', hrep (handle_underflow_from fuel t8 (Some (fa f))) D'
                  (fix_up c P)) as IH'.
  { intros Hc t8 P <- HP. apply (IH (S d)); [done|done|lia]. }
  clear IH.
  pose proof Hh as (Hroot & Hc & Hrep & Hnd & Hok & Hch).
  destruct (rep_root _ _ _ _ _ Hrep) as (nn & Hnn & Hnp).
  destruct (rep_num_keys _ _ _ _ _ _ Hrep Hnn) as (Hnk & _ & _).
  destruct (decide (MIN_KEYS ≤ length (bkeys tn))) as [Hge|Hunder].
  { rewrite fix_up_ok by done.
    assert (handle_underflow_from (S fuel) t (Some (addr tn)) = t) as ->.
    { cbn [handle_underflow_from]. rewrite (node_at_lookup _ _ _ Hnn), Hnk.
      rewrite (bool_decide_eq_true_2 (MIN_KEYS ≤ _)) by done.
      by rewrite orb_true_r. }
    exists (d + length (f :: c)). apply hhole_hrep.
    split_and!; try done. by eapply rep_strengthen. }
  destruct (hu_facts _ _ _ _ _ Hh Hunder)
    as (pn & Hpn & Hnode & Hl & Hr & Hmin & Hk1 & Hsib & Hstep).
  rewrite Hstep. cbv zeta. clear Hstep.
  pose proof Hnode as (_ & _ & _ & Hpk & _).
  destruct (snoc_cases (cl f)) as [Hcl|(cl0 & L & Hcl)].
  - (* no left sibling *)
    rewrite Hcl in *. simpl in Hl. destruct (kl f) as [|] eqn:Hkl; [|done].
    cbn [length]. rewrite (bool_decide_eq_false_2 (0 < 0)) by lia. cbn [andb].
    destruct (kr f) as [|s2 kr'] eqn:Hkr.
    { destruct c; simpl in Hmin; lia. }
    destruct (cr f) as [|R cr'] eqn:Hcr; [done|].
    simpl in Hpk. rewrite Hpk, (bool_decide_eq_true_2 (0 < _)) by lia.
    cbn [andb].
    pose proof (child_at_right _ _ _ [] _ _ _ Hnode) as Hrs. simpl in Hrs.
    cbn [Nat.add]. rewrite Hrs. cbn [deref].
    apply Forall_cons in Hsib as [HR Hsib].
    destruct (rep_root _ _ _ _ _ HR) as (rn & Hrn & Hrp).
    destruct (rep_num_keys _ _ _ _ _ _ HR Hrn) as (Hrk & _ & _).
    rewrite (node_at_lookup _ _ _ Hrn), Hrk.
    assert (hwin t d c (fa f) ([] ++ s2 :: kr') [] [tn; R] cr' pn) as Hw.
    { replace ([] ++ s2 :: kr') with (kl f ++ kr f) by (by rewrite Hkl, Hkr).
      apply (hwin_intro t d f c tn pn [] [tn; R] cr'); try done.
      all: by rewrite ?Hcl, ?Hcr. }
    case_bool_decide as HgtR.
    + rewrite (fix_up_borrow_right f c tn R cr' s2 kr'); try done.
      * rewrite Hkl, Hcl. exists (S d + length c).
        by apply (hu_borrow_right t d c (fa f) [] s2 kr' [] cr' pn tn R).
      * by rewrite Hcl.
    + rewrite (fix_up_merge_right f c tn R cr' s2 kr'); try done.
      rewrite Hkl, Hcl.
      pose proof (node_is_key_mid pn false (par c) [] s2 kr' _ _ Hnode) as Hk0.
      simpl in Hk0. rewrite Hk0.
      pose proof (rep_keys_bound _ _ _ _ _ HR) as HRb.
      apply (hu_merge t d c (fa f) [] s2 kr' [] cr' pn tn R fuel); try done.
      all: try (eapply rep_weaken; [|done]; knum; lia).
      all: simpl in *; knum; lia.
  - (* a left sibling *)
    destruct (snoc_cases (kl f)) as [Hkl|(kl0 & s & Hkl)].
    { rewrite Hkl, Hcl, length_app in Hl. simpl in Hl. lia. }
    rewrite Hcl, Hkl in *. rewrite !length_app in Hl. simpl in Hl.
    assert (length kl0 = length cl0) as Hl0 by lia.
    rewrite length_app. cbn [length].
    rewrite (bool_decide_eq_true_2 (0 < _)) by lia. cbn [andb].
    replace (length cl0 + 1 - 1) with (length cl0) by lia.
    rewrite (child_at_left _ _ _ _ _ _ _ Hnode). cbn [deref].
    rewrite <- app_assoc in Hsib. apply Forall_app in Hsib as [Hsl Hsib].
    apply Forall_cons in Hsib as [HL Hsr].
    destruct (rep_root _ _ _ _ _ HL) as (ln & Hln & Hlp).
    destruct (rep_num_keys _ _ _ _ _ _ HL Hln) as (Hlk & _ & _).
    rewrite (node_at_lookup _ _ _ Hln), Hlk.
    rewrite <- (app_assoc kl0) in Hnode, Hmin, Hpk. simpl in Hnode, Hmin, Hpk.
    assert (hwin t d c (fa f) (kl0 ++ s :: kr f) cl0 [L; tn] (cr f) pn) as Hw.
    { replace (kl0 ++ s :: kr f) with (kl f ++ kr f)
        by (by rewrite Hkl, <- app_assoc).
      apply (hwin_intro t d f c tn pn cl0 [L; tn] (cr f)); try done.
      - rewrite Hcl. by rewrite <- app_assoc.
      - by apply Forall_app. }
    case_bool_decide as HgtL.
    + rewrite (fix_up_borrow_left f c tn cl0 L kl0 s); try done.
      exists (S d + length c). rewrite Nat.add_1_r.
      by apply (hu_borrow_left t d c (fa f) kl0 s (kr f) cl0 (cr f) pn L tn).
    + pose proof (rep_keys_bound _ _ _ _ _ HL) as HLb.
      pose proof (node_is_key_mid pn false (par c) kl0 s (kr f) _ _ Hnode) as Hks.
      rewrite Hl0 in Hks.
      assert (∃ D', hrep (merge_nodes_with (handle_underflow_from fuel) t
                            (addr L) (addr tn) (length cl0) s) D'
                      (merge_up c (fix_up c) (fa f) kl0 cl0 (merge_bt L s tn)
                         (kr f) (cr f))) as Hmerge.
      { rewrite <- Hl0.
        apply (hu_merge t d c (fa f) kl0 s (kr f) cl0 (cr f) pn L tn fuel);
          try done.
        all: try (eapply rep_weaken; [|done]; knum; lia).
        all: simpl in *; knum; lia. }
      rewrite Hpk, length_app. cbn [length].
      destruct (kr f) as [|s2 kr'] eqn:Hkr.
      { rewrite (bool_decide_eq_false_2 (_ < _)) by (simpl; lia). cbn [andb].
        rewrite Hks.
        rewrite (fix_up_merge_left f c tn cl0 L kl0 s); try done.
        - by rewrite Hkr.
        - intros ???? _ Hkr'. by rewrite Hkr in Hkr'. }
      destruct (cr f) as [|R cr'] eqn:Hcr; [done|].
      rewrite (bool_decide_eq_true_2 (_ < _)) by (simpl; lia). cbn [andb].
      replace (length cl0 + 1 + 1) with (length (cl0 ++ [L]) + 1)
        by (rewrite length_app; simpl; lia).
      rewrite (child_at_right pn (par c) (kl0 ++ s :: s2 :: kr') (cl0 ++ [L])
                 (addr tn) R cr' Hnode).
      cbn [deref].
      apply Forall_cons in Hsr as [HR Hsr].
      destruct (rep_root _ _ _ _ _ HR) as (rn & Hrn & Hrp).
      destruct (rep_num_keys _ _ _ _ _ _ HR Hrn) as (Hrk & _ & _).
      rewrite (node_at_lookup _ _ _ Hrn), Hrk.
      case_bool_decide as HgtR.
      * rewrite (fix_up_borrow_right f c tn R cr' s2 kr'); try done.
        -- rewrite Hkl, Hcl. exists (S d + length c).
           replace (length cl0 + 1) with (length (cl0 ++ [L]))
             by (rewrite length_app; simpl; lia).
           apply (hu_borrow_right t d c (fa f) (kl0 ++ [s]) s2 kr' (cl0 ++ [L])
                    cr' pn tn R); try done.
           ++ replace ((kl0 ++ [s]) ++ s2 :: kr') with (kl f ++ kr f)
                by (by rewrite Hkl, Hkr).
              apply (hwin_intro t d f c tn pn (cl0 ++ [L]) [tn; R] cr');
                try done.
              ** by rewrite Hcl, Hcr.
              ** rewrite <- app_assoc. apply Forall_app. split; [done|].
                 by apply Forall_cons.
           ++ rewrite !length_app. simpl. lia.
           ++ rewrite <- app_assoc. done.
        -- rewrite Hcl, last_snoc. by intros ? [= <-].
      * rewrite Hks.
        rewrite (fix_up_merge_left f c tn cl0 L kl0 s); try done.
        -- by rewrite Hkr, Hcr.
        -- intros ???? Hcr' Hkr'. rewrite Hcr in Hcr'. by simplify_eq.
Qed.

(** ** [delete_key] and [delete_abs] *)

Lemma delete_entry_shift_num_keys fuel : ∀ i nd,
  num_keys (delete_entry_shift i fuel nd) = num_keys nd.
Proof.
  induction fuel as [|fuel IH]; intros i nd; simpl; [done|].
  rewrite IH. by destruct (is_leaf _).
Qed.

Lemma lower_le key ks : lower key ks ≤ length ks.
Proof.
  induction ks as [|k ks IH]; simpl; [done|]. case_bool_decide; lia.
Qed.

Lemma length_del_at {A} i (l : list A) :
  i < length l → length (del_at i l) = length l - 1.
Proof.
  intros Hi. unfold del_at. rewrite length_app, length_take, length_drop. lia.
Qed.

Lemma hrep_delete t D T key :
  hrep t D T → ∃ D', hrep (delete_key t key) D' (delete_abs D key T).
Proof.
  intros Hrep.
  destruct (hrep_descend _ _ _ key Hrep)
    as (c & a & ks & os & nd & Hdesc & HT & Hlen & Hc & Hsz & Hnd & Hn & Hdup
        & Hfind).
  pose proof (hrep_depth _ _ _ Hrep) as Hdepth.
  pose proof Hrep as (Hroot & HTrep & HndT & Hok & Hch).
  pose proof (rep_ctx_wf _ _ _ _ Hc) as Hwf.
  pose proof Hn as (_ & Hleaf & _ & Hnum & _).
  unfold delete_key, delete_abs. rewrite Hdesc, Hroot. rewrite <- Hroot, Hfind.
  rewrite (node_at_lookup _ _ _ Hnd).
  rewrite (key_position_spec _ _ _ _ _ key 0 _ Hn) by lia. rewrite drop_0.
  case_bool_decide as Hin.
  2: { assert (find_key key ks = None) as ->; [|by eauto].
       destruct (find_key key ks) eqn:Hf; [|done].
       exfalso. apply Hin, find_key_elem. eauto. }
  apply find_key_elem in Hin as [j Hj]. rewrite Hj. cbn [fmap option_fmap option_map].
  unfold delete_entry. rewrite (node_at_lookup _ _ _ Hnd).
  rewrite (lower_bound_spec _ _ _ _ _ _ key 0 _ Hn) by lia. rewrite drop_0.
  cbn [Nat.add]. set (i := lower key ks).
  pose proof (lower_le key ks) as Hile. fold i in Hile.
  destruct (decide (ks !! i = Some key)) as [Hat|Hat];
    [rewrite (bool_decide_eq_true_2 _ Hat)
    |rewrite (bool_decide_eq_false_2 _ Hat)].
  2: { assert (bool_decide (i = num_keys nd)
               || negb (bool_decide (key_at nd i = key)) = true) as ->;
         [|by eauto].
       destruct (decide (i = length ks)) as [Heq|Hne].
       { by rewrite Hnum, bool_decide_eq_true_2. }
       rewrite (bool_decide_eq_false_2 (i = _)) by (by rewrite Hnum).
       rewrite (node_is_key _ _ _ _ _ _ _ Hn) by lia.
       rewrite bool_decide_eq_false_2; [done|]. intros Heq. apply Hat.
       rewrite <- Heq. apply list_lookup_lookup_total_lt. lia. }
  assert (i < length ks) as Hilt by (by eapply lookup_lt_Some).
  rewrite (bool_decide_eq_false_2 (i = _)) by (rewrite Hnum; lia).
  rewrite (node_is_key _ _ _ _ _ _ _ Hn) by lia.
  rewrite (list_lookup_total_correct _ _ _ Hat).
  rewrite (bool_decide_eq_true_2 (key = key)) by done. cbn [negb orb].
  rewrite (store_upd _ _ _ _ Hnd), store_upd_eq.
  rewrite delete_entry_shift_num_keys.
  destruct (delete_leaf_local nd (par c) ks os i Hn Hilt) as [Hn' Hnx].
  set (nd' := set_num_keys _ _) in *.
  rewrite root_upd, node_at_upd_eq.
  pose (t2 := upd a nd' t).
  assert (num_keys nd' = length ks - 1) as Hnum'.
  { destruct Hn' as (_ & _ & _ & -> & _). by apply length_del_at. }
  rewrite Hnum'.
  apply NoDup_cons in Hdup as [Ha Hdup].
  assert (∀ m, m ≤ length ks - 1 →
            hhole t2 0 c m (BLeaf a (del_at i ks) (del_at i os))) as Hh.
  { intros m Hm. unfold t2. split_and!.
    - by rewrite root_upd, Hroot, HT, addr_plug.
    - eapply rep_ctx_ext; [|exact Hc]. intros x Hx.
      rewrite lookup_upd_ne; [done|]. by intros ->.
    - simpl. rewrite length_del_at by done. split; [lia|].
      exists nd'. split; [apply lookup_upd_eq|done].
    - simpl. by apply NoDup_cons.
    - apply heap_ok_upd; [eauto|done].
    - rewrite HT, laddrs_plug in Hch by done.
      eapply chain_ext; [|exact Hch]. intros x Hx.
      destruct (decide (x = a)) as [->|].
      + rewrite lookup_upd_eq, Hnd. cbv [fmap option_fmap option_map].
        by rewrite Hnx.
      + by rewrite lookup_upd_ne. }
  destruct c as [|f c].
  - simpl in HT. subst T. simpl in Hroot.
    rewrite Hroot, (bool_decide_eq_true_2 (Some a = Some a)) by done.
    cbn [negb andb deref]. rewrite node_at_upd_eq.
    destruct Hn' as (_ & -> & _). cbn [negb]. rewrite andb_false_r.
    exists (0 + length (@nil frame)).
    apply (hhole_hrep t2 0 [] (BLeaf a (del_at i ks) (del_at i os))).
    apply Hh. simpl. lia.
  - destruct (rep_ctx_root _ _ _ _ Hc) as (rn & Hrn & Hrk & Hrl & Hrin); [done|].
    assert (root t = Some (raddr (f :: c) a)) as Hroot'.
    { by rewrite Hroot, HT, addr_plug. }
    assert (Some a ≠ root t) as Hne.
    { rewrite Hroot'. intros [= Heq]. apply Ha. by rewrite Heq at 1. }
    rewrite (bool_decide_eq_false_2 _ Hne). cbn [negb andb].
    simpl in Hsz.
    case_bool_decide as Hlt.
    + unfold handle_underflow.
      apply (fix_up_rep (f :: c) 0 t2 (BLeaf a (del_at i ks) (del_at i os)));
        [done| |].
      * apply Hh. knum. lia.
      * rewrite brk_upd. lia.
    + rewrite Hroot'. cbn [deref]. rewrite node_at_upd_ne.
      2: { intros Heq. apply Ha. by rewrite Heq at 1. }
      rewrite (node_at_lookup _ _ _ Hrn).
      rewrite (bool_decide_eq_false_2 (num_keys rn = 0)) by lia. cbn [andb].
      rewrite fix_up_ok by (simpl; rewrite length_del_at by done; lia).
      exists (0 + length (f :: c)).
      apply (hhole_hrep t2 0 (f :: c) (BLeaf a (del_at i ks) (del_at i os))).
      apply Hh. simpl. lia.
Qed.

Local Transparent upd bump store store_opt node_at set_root free.

(** * Order *)

Lemma ssorted_app l1 l2 :
  ssorted (l1 ++ l2)
  ↔ ssorted l1 ∧ ssorted l2 ∧ ∀ x y, x ∈ l1 → y ∈ l2 → (x < y)%Z.
Proof.
  induction l1 as [|a l1 IH]; simpl.
  - split; [intros ?; split_and!; try done; by intros ?? ?%elem_of_nil|tauto].
  - rewrite IH, Forall_app, !Forall_forall. split.
    + intros ([H1 H2] & H3 & H4 & H5). split_and!; try done.
      intros x y [->|Hx]%elem_of_cons Hy; [by apply H2|by apply H5].
    + intros ([H1 H2] & H3 & H4). split_and!; try done.
      * intros y Hy. apply H4; [by left|done].
      * intros x y Hx Hy. apply H4; [by right|done].
Qed.

Lemma ssorted_cons x l :
  ssorted (x :: l) ↔ (∀ y, y ∈ l → (x < y)%Z) ∧ ssorted l.
Proof. simpl. by rewrite Forall_forall. Qed.

Lemma ssorted_remove l1 x l2 : ssorted (l1 ++ x :: l2) → ssorted (l1 ++ l2).
Proof.
  rewrite !ssorted_app, ssorted_cons. intros (Ha & [Hb Hc] & Hd).
  split_and!; try done.
  intros ?? ??. apply Hd; [done|by right].
Qed.

Lemma ssorted_remove_mid l1 m l2 : ssorted (l1 ++ m ++ l2) → ssorted (l1 ++ l2).
Proof.
  rewrite !ssorted_app. intros (Ha & (Hb & Hc & He) & Hd).
  split_and!; try done.
  intros ?? ??. apply Hd; [done|]. apply elem_of_app. by right.
Qed.

Lemma ssorted_insert l1 x l2 :
  ssorted (l1 ++ l2) → (∀ y, y ∈ l1 → (y < x)%Z) → (∀ y, y ∈ l2 → (x < y)%Z) →
  ssorted (l1 ++ x :: l2).
Proof.
  rewrite !ssorted_app, ssorted_cons. intros (Hs1 & Hs2 & H) H1 H2.
  split_and!; try done.
  intros a b Ha [->|Hb]%elem_of_cons; [by apply H1|by apply H].
Qed.

(** A separator [x] goes in just before the key [x], when a key comes
    before. *)
Lemma ssorted_insert_sep l1 w x l2 :
  ssorted (l1 ++ (2 * w + 1)%Z :: (2 * x + 1)%Z :: l2) →
  ssorted (l1 ++ (2 * w + 1)%Z :: (2 * x)%Z :: (2 * x + 1)%Z :: l2).
Proof.
  intros H.
  change (l1 ++ (2 * w + 1)%Z :: (2 * x + 1)%Z :: l2)
    with (l1 ++ [(2 * w + 1)%Z] ++ (2 * x + 1)%Z :: l2) in H.
  change (l1 ++ (2 * w + 1)%Z :: (2 * x)%Z :: (2 * x + 1)%Z :: l2)
    with (l1 ++ [(2 * w + 1)%Z] ++ (2 * x)%Z :: (2 * x + 1)%Z :: l2).
  rewrite app_assoc in *. apply ssorted_insert; [done| |].
  - apply ssorted_app in H as (H1 & H2 & H3).
    apply ssorted_app in H1 as (_ & _ & H1).
    assert (2 * w + 1 < 2 * x + 1)%Z as Hwx.
    { apply H3; [apply elem_of_app; right; by left|by left]. }
    intros y [Hy| ->%list_elem_of_singleton]%elem_of_app; [|lia].
    specialize (H1 y (2 * w + 1)%Z Hy ltac:(by left)). lia.
  - apply ssorted_app in H as (_ & H2 & _). apply ssorted_cons in H2 as [H2 _].
    intros y [->|Hy]%elem_of_cons; [lia|]. specialize (H2 y Hy). lia.
Qed.

Lemma ssorted_map_dk ks :
  ssorted (map (λ k, 2 * k + 1)%Z ks) ↔ ssorted ks.
Proof.
  induction ks as [|k ks IH]; simpl; [done|].
  rewrite IH, Forall_map. split; intros [H ?]; split; try done;
    eapply Forall_impl; try exact H; simpl; intros; lia.
Qed.

Lemma ssorted_NoDup l : ssorted l → NoDup l.
Proof.
  induction l as [|x l IH]; simpl; [constructor|].
  intros [H ?]. constructor; [|by apply IH].
  rewrite Forall_forall in H. intros Hx. specialize (H _ Hx). lia.
Qed.

Lemma ssorted_StronglySorted l : ssorted l ↔ StronglySorted Z.lt l.
Proof.
  induction l as [|x l IH]; simpl.
  - split; [constructor|done].
  - rewrite IH. split.
    + intros [??]. by constructor.
    + intros H. by apply StronglySorted_inv in H as [??].
Qed.

(** * The descent keeps to the side of the key *)

Lemma rep_shape d : ∀ h m p T, rep d h m p T → shape d T.
Proof.
  induction d as [|d IH]; intros h m p [a ks os|a ks cs] HT; try done.
  - destruct HT as (_ & nd & _ & Hn). simpl.
    by eapply node_is_os_length.
  - apply rep_node_inv in HT as (_ & _ & Hlen & _ & Hcs). simpl.
    split; [done|]. eapply Forall_impl; [exact Hcs|]. intros c. apply IH.
Qed.

Lemma upper_take key ks : Forall (λ k, (k ≤ key)%Z) (take (upper key ks) ks).
Proof.
  induction ks as [|k ks IH]; simpl; [constructor|].
  case_bool_decide; simpl; by constructor.
Qed.

Lemma upper_drop key ks k :
  head (drop (upper key ks) ks) = Some k → (key < k)%Z.
Proof.
  induction ks as [|k' ks IH]; simpl; [done|].
  case_bool_decide; simpl; [done|]. intros [= <-]. lia.
Qed.

Lemma tL_snoc a kl s cl ch kr cr kr' cr' :
  length kl = length cl →
  tL (mkFrame a (kl ++ [s]) (cl ++ [ch]) kr cr)
  = tL (mkFrame a kl cl kr' cr') ++ trav ch ++ [ISep s].
Proof.
  intros Hl. unfold tL. simpl. rewrite !map_app.
  rewrite zip_with_app by (by rewrite !length_map).
  rewrite concat_app. simpl. by rewrite app_nil_r.
Qed.

Lemma tR_cons a kl cl s kr ch cr kl' cl' :
  tR (mkFrame a kl cl (s :: kr) (ch :: cr))
  = ISep s :: trav ch ++ tR (mkFrame a kl' cl' kr cr).
Proof. done. Qed.

Lemma below_tL key f l1 l2 :
  ssorted (l1 ++ (tL f ≫= item_io) ++ l2) →
  length (kl f) = length (cl f) → Forall (λ k, (k ≤ key)%Z) (kl f) →
  below key (tL f).
Proof.
  destruct f as [a kl cl kr cr]. simpl. intros Hs Hl Hk.
  destruct (snoc_cases kl) as [->|(kl' & s & ->)].
  { destruct cl; [|done]. constructor. }
  destruct (snoc_cases cl) as [->|(cl' & ch & ->)].
  { rewrite length_app in Hl. simpl in Hl. lia. }
  rewrite !length_app in Hl. simpl in Hl.
  rewrite (tL_snoc _ _ _ _ _ _ _ kr cr) in * by lia.
  apply Forall_app in Hk as [_ Hk]. rewrite Forall_singleton in Hk.
  rewrite (app_assoc _ (trav ch)) in *.
  set (Y := tL _ ++ trav ch) in *.
  rewrite bind_app in Hs.
  apply ssorted_app in Hs as (_ & Hs & _). apply ssorted_app in Hs as (Hs & _).
  apply ssorted_app in Hs as (_ & _ & Hs).
  unfold below. rewrite bind_app. apply Forall_app. split.
  - apply Forall_forall. intros x Hx.
    specialize (Hs x (2 * s)%Z Hx ltac:(by left)). lia.
  - simpl. constructor; [lia|constructor].
Qed.

Lemma above_tR key f l1 l2 :
  ssorted (l1 ++ (tR f ≫= item_io) ++ l2) →
  length (kr f) = length (cr f) →
  (∀ k, head (kr f) = Some k → (key < k)%Z) →
  above key (tR f).
Proof.
  destruct f as [a kl cl kr cr]. simpl. intros Hs Hl Hk.
  destruct kr as [|s kr]; [destruct cr; [constructor|done]|].
  destruct cr as [|ch cr]; [done|].
  rewrite (tR_cons _ _ _ _ _ _ _ kl cl) in *.
  specialize (Hk s eq_refl).
  apply ssorted_app in Hs as (_ & Hs & _). apply ssorted_app in Hs as (Hs & _).
  change (ISep s :: ?l) with ([ISep s] ++ l) in Hs. rewrite bind_app in Hs.
  simpl in Hs. destruct Hs as [Hs _].
  unfold above. change (ISep s :: ?l) with ([ISep s] ++ l). rewrite bind_app.
  simpl. constructor; [lia|].
  eapply Forall_impl; [exact Hs|]. simpl. intros. lia.
Qed.

Lemma io_plug t c :
  ctx_wf c →
  io (plug t c) = (tpre c ≫= item_io) ++ io t ++ (tpost c ≫= item_io).
Proof. intros Hc. unfold io. by rewrite trav_plug, !bind_app. Qed.

Lemma descend_bounds d : ∀ key T c0 c l,
  shape d T → ctx_wf c0 → ssorted (io (plug T c0)) →
  below key (tpre c0) → above key (tpost c0) →
  descend d key T c0 = (c, l) →
  ctx_wf c ∧ plug l c = plug T c0
  ∧ below key (tpre c) ∧ above key (tpost c) ∧ shape 0 l.
Proof.
  induction d as [|d IH]; intros key T c0 c l HT Hc0 Hs Hb Ha Hd.
  - destruct T; [|done]. simpl in Hd. by simplify_eq.
  - destruct T as [|a ks cs]; [done|]. destruct HT as [Hlen Hcs].
    simpl in Hd. pose proof (upper_le key ks) as Hu.
    set (i := upper key ks) in *.
    destruct (lookup_lt_is_Some_2 cs i ltac:(lia)) as [ch Hch].
    rewrite Hch in Hd.
    set (f := mkFrame a (take i ks) (take i cs) (drop i ks) (drop (S i) cs))
      in *.
    assert (fill f ch = BNode a ks cs) as Hfill.
    { unfold fill, f. simpl. by rewrite take_drop, take_drop_middle. }
    assert (length (kl f) = length (cl f) ∧ length (kr f) = length (cr f))
      as [Hl Hr].
    { unfold f. simpl. rewrite !length_take, !length_drop. lia. }
    assert (ctx_wf (f :: c0)) as Hwf by (by constructor).
    rewrite <- Hfill in Hs. change (plug (fill f ch) c0) with (plug ch (f :: c0)) in Hs.
    pose proof Hs as Hs'.
    rewrite io_plug in Hs' by done. cbn [tpre tpost] in Hs'.
    rewrite !bind_app in Hs'.
    destruct (IH key ch (f :: c0) c l) as (? & Hp & ? & ? & ?); try done.
    + rewrite Forall_forall in Hcs. apply Hcs. by eapply list_elem_of_lookup_2.
    + cbn [tpre]. unfold below. rewrite bind_app. apply Forall_app. split; [done|].
      apply (below_tL key f (tpre c0 ≫= item_io)
               (io ch ++ (tR f ≫= item_io) ++ (tpost c0 ≫= item_io))).
      * by rewrite <- !app_assoc in Hs'.
      * done.
      * apply upper_take.
    + cbn [tpost]. unfold above. rewrite bind_app. apply Forall_app. split; [|done].
      apply (above_tR key f ((tpre c0 ≫= item_io) ++ (tL f ≫= item_io) ++ io ch)
               (tpost c0 ≫= item_io)).
      * by rewrite <- !app_assoc in *.
      * done.
      * apply upper_drop.
    + split_and!; try done. rewrite Hp. cbn [plug]. by rewrite Hfill.
Qed.

(** * Contents *)

Lemma elem_of_zip_l {A B} (x : A) (y : B) l k : (x, y) ∈ zip l k → x ∈ l.
Proof.
  revert k. induction l as [|a l IH]; intros [|b k]; simpl;
    try (by intros ?%elem_of_nil).
  intros [[= -> ->]|?]%elem_of_cons; [by left|right; eauto].
Qed.

Lemma conts_in_io l k o :
  (k, o) ∈ l ≫= item_conts → (2 * k + 1)%Z ∈ l ≫= item_io.
Proof.
  intros (it & Hin & Hit)%list_elem_of_bind. apply list_elem_of_bind.
  exists it. split; [|done]. destruct it as [a ks os|]; simpl in *.
  - apply list_elem_of_fmap. exists k. split; [done|]. by eapply elem_of_zip_l.
  - by apply elem_of_nil in Hin.
Qed.

Lemma keys_in_io l k :
  k ∈ l ≫= item_keys → (2 * k + 1)%Z ∈ l ≫= item_io.
Proof.
  intros (it & Hin & Hit)%list_elem_of_bind. apply list_elem_of_bind.
  exists it. split; [|done]. destruct it as [a ks os|]; simpl in *.
  - apply list_elem_of_fmap. eauto.
  - by apply elem_of_nil in Hin.
Qed.

Lemma below_notin key l : below key l → key ∉ (l ≫= item_conts).*1.
Proof.
  intros Hb ([k o] & -> & Hin%conts_in_io)%list_elem_of_fmap.
  unfold below in Hb. rewrite Forall_forall in Hb. apply Hb in Hin.
  simpl in Hin. lia.
Qed.

Lemma above_notin key l : above key l → key ∉ (l ≫= item_conts).*1.
Proof.
  intros Hb ([k o] & -> & Hin%conts_in_io)%list_elem_of_fmap.
  unfold above in Hb. rewrite Forall_forall in Hb. apply Hb in Hin.
  simpl in Hin. lia.
Qed.

Lemma fst_zip_take {A B} (l : list A) (k : list B) :
  (zip l k).*1 = take (length k) l.
Proof.
  revert k. induction l as [|a l IH]; intros [|b k]; simpl; try done.
  by rewrite IH.
Qed.

Lemma ssorted_take n l : ssorted l → ssorted (take n l).
Proof.
  rewrite <- (take_drop n l) at 1. by intros (? & _)%ssorted_app.
Qed.

Lemma keys_sorted l :
  ssorted (l ≫= item_io) → ssorted (l ≫= item_keys).
Proof.
  induction l as [|it l IH]; [done|]. rewrite !bind_cons.
  intros (H1 & H2 & H3)%ssorted_app. apply ssorted_app.
  split_and!; [|by apply IH|].
  - destruct it; simpl in *; [by apply ssorted_map_dk|done].
  - intros x y Hx Hy. apply keys_in_io in Hy.
    destruct it as [a ks os|]; simpl in Hx; [|by apply elem_of_nil in Hx].
    assert ((2 * x + 1)%Z ∈ item_io (ILeaf a ks os)) as Hx'.
    { simpl. apply list_elem_of_fmap. eauto. }
    specialize (H3 _ _ Hx' Hy). lia.
Qed.

Lemma conts_keys_sorted l :
  ssorted (l ≫= item_io) → ssorted (l ≫= item_conts).*1.
Proof.
  induction l as [|it l IH]; [done|]. rewrite !bind_cons, fmap_app.
  intros (H1 & H2 & H3)%ssorted_app. apply ssorted_app.
  split_and!; [|by apply IH|].
  - destruct it; simpl in *; [|done].
    rewrite fst_zip_take. by apply ssorted_take, ssorted_map_dk.
  - intros x y ([k o] & -> & Hx)%list_elem_of_fmap
      ([k' o'] & -> & Hy%conts_in_io)%list_elem_of_fmap. simpl.
    destruct it as [a ks os|]; simpl in Hx; [|by apply elem_of_nil in Hx].
    assert ((2 * k + 1)%Z ∈ item_io (ILeaf a ks os)) as Hx'.
    { simpl. apply list_elem_of_fmap. exists k. split; [done|].
      by eapply elem_of_zip_l. }
    specialize (H3 _ _ Hx' Hy). lia.
Qed.

Lemma conts_NoDup T : ssorted (io T) → NoDup (conts T).*1.
Proof. intros H. by apply ssorted_NoDup, conts_keys_sorted. Qed.

Lemma lookup_zip_find_key key ks os :
  length os = length ks →
  (list_to_map (zip ks os) : gmap Z Z) !! key
  = (λ i, os !!! i) <$> find_key key ks.
Proof.
  revert os. induction ks as [|k ks IH]; intros [|o os] Hlen; simplify_eq/=.
  - done.
  - case_bool_decide as Hk.
    + subst. by rewrite lookup_insert_eq.
    + rewrite lookup_insert_ne by done. rewrite IH by done.
      by destruct (find_key key ks).
Qed.

Lemma conts_plug t c :
  ctx_wf c →
  conts (plug t c)
  = (tpre c ≫= item_conts) ++ conts t ++ (tpost c ≫= item_conts).
Proof. intros Hc. unfold conts. by rewrite trav_plug, !bind_app. Qed.

Lemma lookup_conts_plug key a ks os c :
  ctx_wf c → below key (tpre c) → above key (tpost c) →
  (list_to_map (conts (plug (BLeaf a ks os) c)) : gmap Z Z) !! key
  = (list_to_map (zip ks os) : gmap Z Z) !! key.
Proof.
  intros Hc Hb Ha. rewrite conts_plug by done.
  rewrite !list_to_map_app, !lookup_union.
  rewrite (not_elem_of_list_to_map_1 _ _ (below_notin _ _ Hb)).
  rewrite (not_elem_of_list_to_map_1 _ _ (above_notin _ _ Ha)).
  unfold conts. simpl. rewrite app_nil_r.
  by destruct (list_to_map (zip ks os) !! key).
Qed.

Lemma descend_leaf D key T :
  shape D T → ssorted (io T) →
  ∃ c a ks os,
    descend D key T [] = (c, BLeaf a ks os)
    ∧ ctx_wf c ∧ T = plug (BLeaf a ks os) c
    ∧ below key (tpre c) ∧ above key (tpost c) ∧ length os = length ks.
Proof.
  intros HT Hs. destruct (descend D key T []) as [c l] eqn:Hd.
  destruct (descend_bounds D key T [] c l) as (Hc & Hp & Hb & Ha & Hl);
    try done; try by constructor.
  destruct l as [a ks os|]; [|done]. exists c, a, ks, os. done.
Qed.

Lemma search_abs_correct D key T :
  shape D T → ssorted (io T) →
  search_abs D key T
  = default (-1)%Z ((list_to_map (conts T) : gmap Z Z) !! key).
Proof.
  intros HT Hs.
  destruct (descend_leaf D key T HT Hs)
    as (c & a & ks & os & Hd & Hc & -> & Hb & Ha & Hlen).
  unfold search_abs. rewrite Hd.
  rewrite lookup_conts_plug, lookup_zip_find_key by done.
  by destruct (find_key key ks).
Qed.

(** * Insertion keeps the order *)

Lemma lower_spec key ks :
  ssorted ks → key ∉ ks →
  Forall (λ k, (k < key)%Z) (take (lower key ks) ks)
  ∧ Forall (λ k, (key < k)%Z) (drop (lower key ks) ks).
Proof.
  induction ks as [|k ks IH]; simpl; [by split; constructor|].
  intros [Hk Hs] Hnin. apply not_elem_of_cons in Hnin as [Hne Hnin].
  case_bool_decide as Hlt; simpl.
  - destruct (IH Hs Hnin) as [??]. split; [by constructor|done].
  - split; [constructor|]. constructor; [lia|].
    eapply Forall_impl; [exact Hk|]. simpl. intros. lia.
Qed.

Lemma ins_pos_le key rks : ins_pos key rks ≤ length rks.
Proof.
  induction rks as [|k r IH]; simpl; [done|]. case_bool_decide; lia.
Qed.

Lemma ins_pos_spec key ks :
  ssorted ks → key ∉ ks →
  Forall (λ k, (k < key)%Z) (take (ins_pos key (rev ks)) ks)
  ∧ Forall (λ k, (key < k)%Z) (drop (ins_pos key (rev ks)) ks).
Proof.
  induction ks as [|k ks IH] using rev_ind; [by split; constructor|].
  rewrite rev_app_distr. simpl.
  intros (Hs & _ & Hlt)%ssorted_app Hnin.
  apply not_elem_of_app in Hnin as [Hnin Hne].
  rewrite not_elem_of_cons in Hne. destruct Hne as [Hne _].
  case_bool_decide as Hk.
  - destruct (IH Hs Hnin) as [H1 H2].
    pose proof (ins_pos_le key (rev ks)) as Hle. rewrite length_rev in Hle.
    rewrite take_app_le, drop_app_le by done. split; [done|].
    apply Forall_app. split; [done|]. by repeat constructor.
  - rewrite length_rev.
    replace (S (length ks)) with (length (ks ++ [k]))
      by (rewrite length_app; simpl; lia).
    rewrite firstn_all, drop_all. split; [|constructor].
    apply Forall_app. split; [|repeat constructor; lia].
    apply Forall_forall. intros x Hx.
    specialize (Hlt x k Hx ltac:(by left)). lia.
Qed.

Lemma ssorted_ins_at pre post key p ks :
  ssorted (pre ++ map (λ k, 2 * k + 1)%Z ks ++ post) →
  Forall (λ y, (y < 2 * key + 1)%Z) pre →
  Forall (λ y, (2 * key + 1 < y)%Z) post →
  Forall (λ k, (k < key)%Z) (take p ks) →
  Forall (λ k, (key < k)%Z) (drop p ks) →
  ssorted (pre ++ map (λ k, 2 * k + 1)%Z (ins_at p key ks) ++ post).
Proof.
  intros Hs Hpre Hpost Ht Hd. unfold ins_at.
  rewrite map_app. simpl. rewrite <- app_assoc. simpl.
  rewrite (app_assoc pre). apply ssorted_insert.
  - rewrite <- (take_drop p ks), map_app, <- !app_assoc in Hs.
    by rewrite <- app_assoc.
  - intros y [Hy|Hy]%elem_of_app.
    + rewrite Forall_forall in Hpre. by apply Hpre.
    + apply list_elem_of_fmap in Hy as (k & -> & Hk).
      rewrite Forall_forall in Ht. specialize (Ht _ Hk). simpl in Ht. lia.
  - intros y [Hy|Hy]%elem_of_app.
    + apply list_elem_of_fmap in Hy as (k & -> & Hk).
      rewrite Forall_forall in Hd. specialize (Hd _ Hk). simpl in Hd. lia.
    + rewrite Forall_forall in Hpost. by apply Hpost.
Qed.

Lemma zip_ins_at {A B} p (x : A) (y : B) l k :
  length k = length l →
  zip (ins_at p x l) (ins_at p y k) ≡ₚ (x, y) :: zip l k.
Proof.
  intros Hlen. unfold ins_at.
  rewrite zip_with_app by (rewrite !length_take; lia). simpl.
  rewrite <- Permutation_middle. apply perm_skip.
  by rewrite <- zip_with_take, <- zip_with_drop, take_drop.
Qed.

Lemma zip_take_drop {A B} n (l : list A) (k : list B) :
  zip (take n l) (take n k) ++ zip (drop n l) (drop n k) = zip l k.
Proof. by rewrite <- zip_with_take, <- zip_with_drop, take_drop. Qed.

Lemma bind_nil_l {A B} (f : A → list B) : [] ≫= f = [].
Proof. done. Qed.

Lemma io_ins_up_leaf c a k1 o1 s b k2 o2 b' :
  ctx_wf c →
  io (ins_up c (BLeaf a k1 o1) s (BLeaf b k2 o2) b')
  = (tpre c ≫= item_io) ++ map (λ k, 2 * k + 1)%Z k1
      ++ (2 * s)%Z :: map (λ k, 2 * k + 1)%Z k2 ++ (tpost c ≫= item_io).
Proof.
  intros Hc. unfold io. rewrite trav_ins_up by done. cbn [trav].
  repeat rewrite ?bind_app, ?bind_cons, ?bind_nil_l.
  cbn [item_io app]. by rewrite !app_nil_r.
Qed.

Lemma conts_ins_up_leaf c a k1 o1 s b k2 o2 b' :
  ctx_wf c →
  conts (ins_up c (BLeaf a k1 o1) s (BLeaf b k2 o2) b')
  = (tpre c ≫= item_conts) ++ zip k1 o1 ++ zip k2 o2
      ++ (tpost c ≫= item_conts).
Proof.
  intros Hc. unfold conts. rewrite trav_ins_up by done. cbn [trav].
  repeat rewrite ?bind_app, ?bind_cons, ?bind_nil_l.
  cbn [item_conts app]. by rewrite !app_nil_r.
Qed.

Lemma io_plug_leaf c a ks os :
  ctx_wf c →
  io (plug (BLeaf a ks os) c)
  = (tpre c ≫= item_io) ++ map (λ k, 2 * k + 1)%Z ks ++ (tpost c ≫= item_io).
Proof.
  intros Hc. rewrite io_plug by done. unfold io. cbn [trav].
  by rewrite bind_single.
Qed.

Lemma conts_plug_leaf c a ks os :
  ctx_wf c →
  conts (plug (BLeaf a ks os) c)
  = (tpre c ≫= item_conts) ++ zip ks os ++ (tpost c ≫= item_conts).
Proof.
  intros Hc. rewrite conts_plug by done. unfold conts. cbn [trav].
  by rewrite bind_single.
Qed.

Lemma insert_abs_correct D key off b T :
  shape D T → ssorted (io T) → key ∉ (conts T).*1 →
  ssorted (io (insert_abs D key off b T))
  ∧ conts (insert_abs D key off b T) ≡ₚ (key, off) :: conts T.
Proof.
  intros HT Hs Hnin.
  destruct (descend_leaf D key T HT Hs)
    as (c & a & ks & os & Hd & Hc & -> & Hb & Ha & Hlen).
  unfold insert_abs. rewrite Hd.
  rewrite conts_plug_leaf in Hnin by done. rewrite io_plug_leaf in Hs by done.
  assert (key ∉ ks) as Hks.
  { rewrite !fmap_app, !not_elem_of_app in Hnin.
    destruct Hnin as (_ & Hnin & _). by rewrite fst_zip in Hnin by lia. }
  assert (ssorted ks) as Hsk.
  { apply ssorted_app in Hs as (_ & Hs' & _).
    apply ssorted_app in Hs' as (Hs' & _). by apply ssorted_map_dk. }
  rewrite (conts_plug_leaf c a ks os) by done.
  case_bool_decide as Hroom.
  - destruct (ins_pos_spec key ks Hsk Hks) as [H1 H2]. split.
    + rewrite io_plug_leaf by done. by apply ssorted_ins_at.
    + rewrite conts_plug_leaf by done. rewrite zip_ins_at by done.
      by rewrite <- app_comm_cons, <- Permutation_middle.
  - destruct (lower_spec key ks Hsk Hks) as [H1 H2].
    assert (ssorted ((tpre c ≫= item_io)
                       ++ map (λ k, 2 * k + 1)%Z (ins_at (lower key ks) key ks)
                       ++ (tpost c ≫= item_io))) as Hs'.
    { by apply ssorted_ins_at. }
    pose proof (zip_ins_at (lower key ks) key off ks os Hlen) as Hz.
    assert (5 ≤ length (ins_at (lower key ks) key ks)) as Hmk.
    { unfold ins_at. rewrite length_app. simpl.
      pose proof (lower_le key ks).
      rewrite length_take, length_drop. knum. lia. }
    change ((MAX_KEYS + 1) / 2) with 2.
    rewrite io_ins_up_leaf, conts_ins_up_leaf by done.
    rewrite (app_assoc (zip _ _)), zip_take_drop.
    destruct (ins_at (lower key ks) key ks) as [|m0 [|m1 [|m2 mk']]];
      try (simpl in Hmk; lia).
    split.
    + cbn [take drop map app lookup_total list_lookup_total].
      simpl in Hs'.
      change ((tpre c ≫= item_io)
              ++ (2 * m0 + 1)%Z :: (2 * m1 + 1)%Z :: (2 * m2 + 1)%Z
                   :: map (λ k, (2 * k + 1)%Z) mk' ++ (tpost c ≫= item_io))
        with ((tpre c ≫= item_io) ++ [(2 * m0 + 1)%Z]
              ++ (2 * m1 + 1)%Z :: (2 * m2 + 1)%Z
                   :: (map (λ k, (2 * k + 1)%Z) mk' ++ (tpost c ≫= item_io)))
        in Hs'.
      rewrite app_assoc in Hs'. apply ssorted_insert_sep in Hs'.
      rewrite <- app_assoc in Hs'. exact Hs'.
    + rewrite Hz. by rewrite <- app_comm_cons, <- Permutation_middle.
Qed.

(** * Rebalancing keeps the order and the entries *)

Lemma shape_ctx_wf c : ∀ d, shape_ctx d c → ctx_wf c.
Proof.
  induction c as [|f c IH]; intros d; [constructor|].
  intros (? & ? & _ & ?). constructor; [done|by eapply IH].
Qed.

Lemma descend_shape d : ∀ key T c0 c l,
  shape d T → shape_ctx d c0 → descend d key T c0 = (c, l) →
  shape_ctx 0 c.
Proof.
  induction d as [|d IH]; intros key T c0 c l HT Hc0 Hd.
  - destruct T; [|done]. simpl in Hd. by simplify_eq.
  - destruct T as [|a ks cs]; [done|]. destruct HT as [Hlen Hcs].
    simpl in Hd. pose proof (upper_le key ks) as Hu.
    set (i := upper key ks) in *.
    destruct (lookup_lt_is_Some_2 cs i ltac:(lia)) as [ch Hch].
    rewrite Hch in Hd.
    eapply (IH key ch _ c l); [| |exact Hd].
    + rewrite Forall_forall in Hcs. apply Hcs. by eapply list_elem_of_lookup_2.
    + simpl. rewrite !length_take, !length_drop. split_and!; try lia; [|done].
      rewrite <- (take_drop_middle cs i ch Hch) in Hcs.
      apply Forall_app in Hcs as [? Hcs]. apply Forall_cons in Hcs as [_ ?].
      by apply Forall_app.
Qed.

Lemma tstep_refl l : tstep l l.
Proof. by split. Qed.

Lemma tstep_eq l l' : l = l' → tstep l l'.
Proof. intros ->. apply tstep_refl. Qed.

Lemma tstep_trans l1 l2 l3 : tstep l1 l2 → tstep l2 l3 → tstep l1 l3.
Proof.
  intros [H1 H2] [H3 H4]. split; [by rewrite H3|]. intros pre post H.
  by apply H4, H2.
Qed.

Lemma tstep_ctx a b l l' : tstep l l' → tstep (a ++ l ++ b) (a ++ l' ++ b).
Proof.
  intros [H1 H2]. split; [by rewrite !bind_app, H1|]. intros pre post.
  rewrite !bind_app, <- !app_assoc.
  rewrite !(app_assoc pre). apply H2.
Qed.

Lemma tstep_node2 pa kl0 s s' kr0 cl0 A B A' B' cr0 c :
  length kl0 = length cl0 → length kr0 = length cr0 → ctx_wf c →
  tstep (trav A ++ ISep s :: trav B) (trav A' ++ ISep s' :: trav B') →
  tstep (trav (plug (BNode pa (kl0 ++ s :: kr0) (cl0 ++ A :: B :: cr0)) c))
        (trav (plug (BNode pa (kl0 ++ s' :: kr0) (cl0 ++ A' :: B' :: cr0)) c)).
Proof.
  intros Hl Hr Hc H. rewrite !trav_plug by done. apply tstep_ctx.
  rewrite !(trav_node_ins (mkFrame pa kl0 cl0 kr0 cr0)) by done.
  rewrite !(app_comm_cons (trav _) (tR _)), !(app_assoc (trav _)).
  by apply tstep_ctx.
Qed.

Lemma tstep_node1 pa kl0 s kr0 cl0 A B M cr0 c :
  length kl0 = length cl0 → length kr0 = length cr0 → ctx_wf c →
  tstep (trav A ++ ISep s :: trav B) (trav M) →
  tstep (trav (plug (BNode pa (kl0 ++ s :: kr0) (cl0 ++ A :: B :: cr0)) c))
        (trav (plug (BNode pa (kl0 ++ kr0) (cl0 ++ M :: cr0)) c)).
Proof.
  intros Hl Hr Hc H. rewrite !trav_plug by done. apply tstep_ctx.
  rewrite (trav_node_ins (mkFrame pa kl0 cl0 kr0 cr0)) by done.
  change (BNode pa (kl0 ++ kr0) (cl0 ++ M :: cr0))
    with (fill (mkFrame pa kl0 cl0 kr0 cr0) M).
  rewrite trav_fill by done.
  rewrite !(app_comm_cons (trav _) (tR _)), !(app_assoc (trav _)).
  by apply tstep_ctx.
Qed.

(** ** Leaves *)

Lemma tstep_merge_leaf a ks os s b ks' os' :
  length os = length ks →
  tstep [ILeaf a ks os; ISep s; ILeaf b ks' os']
        [ILeaf a (ks ++ ks') (os ++ os')].
Proof.
  intros Hlen. split.
  - simpl. rewrite !app_nil_r. by rewrite zip_with_app.
  - intros pre post. simpl. rewrite !app_nil_r, map_app, <- !app_assoc. simpl.
    intros H. rewrite (app_assoc pre) in H. apply ssorted_remove in H.
    by rewrite <- app_assoc in H.
Qed.

Lemma tstep_borrow_left_leaf la lks w lk los lo s a ks os :
  length los = length (lks ++ [w]) →
  tstep [ILeaf la ((lks ++ [w]) ++ [lk]) (los ++ [lo]); ISep s; ILeaf a ks os]
        [ILeaf la (lks ++ [w]) los; ISep lk; ILeaf a (lk :: ks) (lo :: os)].
Proof.
  intros Hlen. split.
  - simpl. rewrite !app_nil_r. rewrite zip_with_app by done. simpl.
    by rewrite <- app_assoc.
  - intros pre post. simpl. rewrite !app_nil_r, !map_app, <- !app_assoc. simpl.
    set (dl := map _ lks). set (dr := map _ ks). intros H.
    assert (ssorted ((pre ++ dl ++ [(2 * w + 1)%Z; (2 * lk + 1)%Z])
                       ++ (2 * s)%Z :: dr ++ post)) as H1
      by (rewrite <- !app_assoc; exact H).
    apply ssorted_remove in H1.
    assert (ssorted ((pre ++ dl) ++ (2 * w + 1)%Z :: (2 * lk + 1)%Z
                       :: dr ++ post)) as H2
      by (rewrite <- !app_assoc in *; exact H1).
    apply ssorted_insert_sep in H2. rewrite <- !app_assoc in H2. exact H2.
Qed.

Lemma tstep_borrow_right_leaf a ks os s ra r0 r1 rks ro0 ros :
  length os = length ks →
  tstep [ILeaf a ks os; ISep s; ILeaf ra (r0 :: r1 :: rks) (ro0 :: ros)]
        [ILeaf a (ks ++ [r0]) (os ++ [ro0]); ISep r1; ILeaf ra (r1 :: rks) ros].
Proof.
  intros Hlen. split.
  - simpl. rewrite !app_nil_r. rewrite zip_with_app by done. simpl.
    by rewrite <- app_assoc.
  - intros pre post. simpl. rewrite !app_nil_r, !map_app, <- !app_assoc. simpl.
    set (dl := map _ ks). set (dr := map _ rks). intros H.
    assert (ssorted ((pre ++ dl) ++ (2 * s)%Z :: (2 * r0 + 1)%Z
                       :: (2 * r1 + 1)%Z :: dr ++ post)) as H1
      by (rewrite <- !app_assoc; exact H).
    apply ssorted_remove, ssorted_insert_sep in H1.
    rewrite <- !app_assoc in H1. exact H1.
Qed.

(** ** Internal nodes: the walk does not change *)

Lemma trav_node_merge a ks s ks' cs cs' :
  length cs = S (length ks) →
  trav (BNode a (ks ++ s :: ks') (cs ++ cs'))
  = trav (BNode a ks cs) ++ ISep s :: interleave (map trav cs') (map ISep ks').
Proof.
  intros Hlen. cbn [trav].
  destruct (snoc_cases cs) as [->|(cs0 & X & ->)]; [done|].
  rewrite length_app in Hlen. simpl in Hlen.
  rewrite <- !app_assoc. cbn [app]. rewrite !map_app. cbn [map].
  rewrite interleave_app by (rewrite !length_map; lia).
  rewrite <- (app_nil_r (map ISep ks)) at 2.
  rewrite interleave_app by (rewrite !length_map; lia).
  cbn [interleave concat]. rewrite app_nil_r, <- !app_assoc. done.
Qed.

Lemma trav_node_snoc a ks k cs X :
  length cs = S (length ks) →
  trav (BNode a (ks ++ [k]) (cs ++ [X]))
  = trav (BNode a ks cs) ++ ISep k :: trav X.
Proof.
  intros Hlen. rewrite trav_node_merge by done. simpl. by rewrite app_nil_r.
Qed.

(** ** The three rearrangements *)

Lemma tstep_borrow_left d L s N :
  shape d L → shape d N → MIN_KEYS < length (bkeys L) →
  tstep (trav L ++ ISep s :: trav N)
        (let '(L', s', N') := borrow_left_bt L s N in
         trav L' ++ ISep s' :: trav N').
Proof.
  intros HL HN Hgt.
  destruct d as [|d], L as [la lks los|la lks lcs], N as [a ks os|a ks cs];
    try done; simpl in HL, HN, Hgt.
  - destruct (snoc_cases lks) as [->|(lks1 & lk & ->)]; [simpl in Hgt; lia|].
    destruct (snoc_cases lks1) as [->|(lks0 & w & ->)].
    { simpl in Hgt. knum. lia. }
    destruct (snoc_cases los) as [->|(los' & lo & ->)].
    { rewrite !length_app in HL. simpl in HL. lia. }
    rewrite !length_app in HL. simpl in HL.
    cbn [borrow_left_bt]. rewrite !last_snoc, !removelast_last. cbn [default].
    apply tstep_borrow_left_leaf. rewrite length_app. simpl. lia.
  - destruct HL as [HLlen HLcs].
    destruct (snoc_cases lks) as [->|(lks' & lk & ->)]; [simpl in Hgt; lia|].
    destruct (snoc_cases lcs) as [->|(lcs' & X & ->)]; [done|].
    rewrite !length_app in HLlen. simpl in HLlen.
    cbn [borrow_left_bt]. rewrite !last_snoc, !removelast_last.
    cbn [default option_list app]. apply tstep_eq.
    rewrite trav_node_snoc by lia. rewrite <- app_assoc. done.
Qed.

Lemma tstep_borrow_right d N s R :
  shape d N → shape d R → MIN_KEYS < length (bkeys R) →
  tstep (trav N ++ ISep s :: trav R)
        (let '(N', s', R') := borrow_right_bt N s R in
         trav N' ++ ISep s' :: trav R').
Proof.
  intros HN HR Hgt.
  destruct d as [|d], N as [a ks os|a ks cs], R as [ra rks ros|ra rks rcs];
    try done; simpl in HN, HR, Hgt.
  - destruct rks as [|r0 [|r1 rks]]; try (simpl in Hgt; knum; lia).
    destruct ros as [|ro0 ros]; [done|].
    cbn [borrow_right_bt take drop lookup list_lookup default].
    by apply tstep_borrow_right_leaf.
  - destruct HN as [HNlen HNcs]. destruct HR as [HRlen HRcs].
    destruct rks as [|rk0 rks]; [simpl in Hgt; lia|].
    destruct rcs as [|X rcs]; [done|].
    cbn [borrow_right_bt take drop lookup list_lookup default].
    apply tstep_eq. rewrite trav_node_snoc by done.
    rewrite <- app_assoc. done.
Qed.

Lemma tstep_merge d A s B :
  shape d A → shape d B →
  tstep (trav A ++ ISep s :: trav B) (trav (merge_bt A s B))
  ∧ shape d (merge_bt A s B).
Proof.
  intros HA HB.
  destruct d as [|d], A as [a ks os|a ks cs], B as [b ks' os'|b ks' cs'];
    try done; simpl in HA, HB.
  - split; [by apply tstep_merge_leaf|].
    simpl. rewrite !length_app. lia.
  - destruct HA as [HAlen HAcs]. destruct HB as [HBlen HBcs].
    cbn [merge_bt]. split.
    + apply tstep_eq. by rewrite trav_node_merge.
    + simpl. rewrite !length_app. simpl. split; [lia|by apply Forall_app].
Qed.

Lemma fix_up_tstep c : ∀ d t,
  shape d t → shape_ctx d c → tstep (trav (plug t c)) (trav (fix_up c t)).
Proof.
  induction c as [|f c IH]; intros d t Ht Hc; [apply tstep_refl|].
  destruct Hc as (Hl & Hr & Hsib & Hc).
  pose proof (shape_ctx_wf _ _ Hc) as Hwf.
  destruct (decide (MIN_KEYS ≤ length (bkeys t))) as [Hge|Hlt].
  { rewrite fix_up_ok by done. apply tstep_refl. }
  assert (∀ kl0 s kr0 cl0 A B cr0,
            kl f ++ kr f = kl0 ++ s :: kr0 →
            cl f ++ t :: cr f = cl0 ++ A :: B :: cr0 →
            length kl0 = length cl0 → length kr0 = length cr0 →
            shape d A → shape d B → Forall (shape d) (cl0 ++ cr0) →
            tstep (trav (plug t (f :: c)))
                  (trav (merge_up c (fix_up c) (fa f) kl0 cl0 (merge_bt A s B)
                           kr0 cr0))) as Hmerge.
  { intros kl0 s kr0 cl0 A B cr0 Hks Hcs Hl0 Hr0 HA HB Hsib0.
    destruct (tstep_merge d A s B HA HB) as [Hstep HM].
    cbn [plug]. unfold fill. rewrite Hks, Hcs.
    eapply tstep_trans; [by apply tstep_node1|].
    destruct c as [|f' c'].
    - cbn [merge_up plug]. case_bool_decide as Hz; [|apply tstep_refl].
      destruct kl0, kr0; try done. destruct cl0, cr0; try done.
      apply tstep_eq. simpl. by rewrite app_nil_r.
    - cbn [merge_up]. apply (IH (S d)); [|done].
      simpl. rewrite !length_app. simpl. split; [lia|].
      apply Forall_app in Hsib0 as [??].
      apply Forall_app. split; [done|]. by apply Forall_cons. }
  destruct (snoc_cases (cl f)) as [Hcl|(cl0 & L & Hcl)].
  - rewrite Hcl in Hl. destruct (kl f) as [|] eqn:Hkl; [|done].
    destruct (cr f) as [|R cr'] eqn:Hcr.
    { destruct (kr f) eqn:Hkr; [|done].
      assert (fix_up (f :: c) t = plug t (f :: c)) as ->; [|apply tstep_refl].
      cbn [fix_up]. rewrite bool_decide_eq_false_2 by done.
      by rewrite Hcl, Hkl, Hcr, Hkr. }
    destruct (kr f) as [|s2 kr'] eqn:Hkr; [done|].
    rewrite Hcl in Hsib. apply Forall_cons in Hsib as [HR Hsib].
    simpl in Hr.
    destruct (decide (MIN_KEYS < length (bkeys R))) as [HgtR|HgtR].
    + rewrite (fix_up_borrow_right f c t R cr' s2 kr'); try done.
      2: by rewrite Hcl.
      pose proof (tstep_borrow_right d t s2 R Ht HR HgtR) as Hstep.
      destruct (borrow_right_bt t s2 R) as [[t' s'] R'].
      cbn [plug]. unfold fill. rewrite Hcl, Hkl, Hcr, Hkr.
      apply (tstep_node2 (fa f) [] s2 s' kr' [] t R t' R' cr' c); try done. lia.
    + rewrite (fix_up_merge_right f c t R cr' s2 kr'); try done.
      rewrite Hkl, Hcl.
      apply (Hmerge [] s2 kr' [] t R cr'); try done; try lia.
      all: by rewrite ?Hcl, ?Hkl, ?Hcr, ?Hkr.
  - destruct (snoc_cases (kl f)) as [Hkl|(kl0 & s & Hkl)].
    { rewrite Hkl, Hcl, length_app in Hl. simpl in Hl. lia. }
    rewrite Hcl, Hkl, !length_app in Hl. simpl in Hl.
    rewrite Hcl, <- app_assoc in Hsib. apply Forall_app in Hsib as [Hsl Hsib].
    apply Forall_cons in Hsib as [HL Hsr].
    destruct (decide (MIN_KEYS < length (bkeys L))) as [HgtL|HgtL].
    + rewrite (fix_up_borrow_left f c t cl0 L kl0 s); try done.
      pose proof (tstep_borrow_left d L s t HL Ht HgtL) as Hstep.
      destruct (borrow_left_bt L s t) as [[L' s'] t'].
      cbn [plug]. unfold fill. rewrite Hcl, Hkl, <- !app_assoc. cbn [app].
      apply (tstep_node2 (fa f) kl0 s s' (kr f) cl0 L t L' t' (cr f) c);
        try done. lia.
    + assert (tstep (trav (plug t (f :: c)))
                (trav (merge_up c (fix_up c) (fa f) kl0 cl0 (merge_bt L s t)
                         (kr f) (cr f)))) as Hm.
      { apply (Hmerge kl0 s (kr f) cl0 L t (cr f)); try done; try lia.
        - by rewrite Hkl, <- app_assoc.
        - by rewrite Hcl, <- app_assoc.
        - by apply Forall_app. }
      destruct (cr f) as [|R cr'] eqn:Hcr.
      { rewrite (fix_up_merge_left f c t cl0 L kl0 s); try done.
        - by rewrite Hcr.
        - intros ???? Hcr'. by rewrite Hcr in Hcr'. }
      destruct (kr f) as [|s2 kr'] eqn:Hkr; [done|].
      apply Forall_cons in Hsr as [HR Hsr].
      destruct (decide (MIN_KEYS < length (bkeys R))) as [HgtR|HgtR].
      * rewrite (fix_up_borrow_right f c t R cr' s2 kr'); try done.
        2: { rewrite Hcl, last_snoc. by intros ? [= <-]. }
        pose proof (tstep_borrow_right d t s2 R Ht HR HgtR) as Hstep.
        destruct (borrow_right_bt t s2 R) as [[t' s'] R'].
        cbn [plug]. unfold fill. rewrite Hcr, Hkr.
        apply (tstep_node2 (fa f) (kl f) s2 s' kr' (cl f) t R t' R' cr' c);
          try done.
        -- rewrite Hcl, Hkl, !length_app. simpl. lia.
        -- simpl in Hr. lia.
      * rewrite (fix_up_merge_left f c t cl0 L kl0 s); try done.
        -- by rewrite Hcr, Hkr.
        -- intros ???? Hcr' Hkr'. rewrite Hcr in Hcr'. by simplify_eq.
Qed.

(** * Deletion keeps the order and removes one entry *)

Lemma lower_found key ks :
  ssorted ks → key ∈ ks → ks !! lower key ks = Some key.
Proof.
  induction ks as [|k ks IH]; simpl; [by intros _ ?%elem_of_nil|].
  intros [Hk Hs] Hin. apply elem_of_cons in Hin as [->|Hin].
  - rewrite bool_decide_eq_false_2 by lia. done.
  - rewrite Forall_forall in Hk. specialize (Hk _ Hin).
    rewrite bool_decide_eq_true_2 by done. simpl. by apply IH.
Qed.

Lemma del_at_middle {A} (l1 : list A) x l2 :
  del_at (length l1) (l1 ++ x :: l2) = l1 ++ l2.
Proof.
  unfold del_at. rewrite take_app_length. f_equal.
  rewrite drop_app_ge by lia.
  by replace (S (length l1) - length l1) with 1 by lia.
Qed.

Lemma zip_app_eq {A B} (l1 l2 : list A) (k1 k2 : list B) :
  length l1 = length k1 → zip (l1 ++ l2) (k1 ++ k2) = zip l1 k1 ++ zip l2 k2.
Proof.
  revert k1. induction l1 as [|x l1 IH]; intros [|y k1] Hlen; simplify_eq/=;
    [done|]. f_equal. by apply IH.
Qed.

Lemma list_to_map_delete_mid (A B : list (Z * Z)) key o :
  key ∉ A.*1 → key ∉ B.*1 →
  (list_to_map (A ++ B) : gmap Z Z)
  = delete key (list_to_map (A ++ (key, o) :: B)).
Proof.
  intros HA HB. apply map_eq. intros k.
  destruct (decide (k = key)) as [->|Hne].
  - rewrite lookup_delete_eq. apply not_elem_of_list_to_map_1.
    rewrite fmap_app. apply not_elem_of_app. done.
  - rewrite lookup_delete_ne by done.
    rewrite !list_to_map_app, !lookup_union. simpl.
    by rewrite lookup_insert_ne.
Qed.

Lemma delete_abs_correct D key T :
  shape D T → ssorted (io T) →
  ssorted (io (delete_abs D key T))
  ∧ (list_to_map (conts (delete_abs D key T)) : gmap Z Z)
    = delete key (list_to_map (conts T)).
Proof.
  intros HT Hs.
  destruct (descend_leaf D key T HT Hs)
    as (c & a & ks & os & Hd & Hc & HTe & Hb & Ha & Hlen).
  pose proof (lookup_conts_plug key a ks os c Hc Hb Ha) as Hlk.
  rewrite <- HTe in Hlk.
  assert (shape_ctx 0 c) as Hsc by (by eapply (descend_shape D key T [])).
  unfold delete_abs. rewrite Hd.
  case_bool_decide as Hin.
  2: { split; [done|]. symmetry. apply delete_id. rewrite Hlk.
       apply not_elem_of_list_to_map_1. rewrite fst_zip by lia. done. }
  pose proof Hs as Hs'. rewrite HTe, io_plug_leaf in Hs' by done.
  assert (ssorted ks) as Hks.
  { apply ssorted_app in Hs' as (_ & (Hm & _)%ssorted_app & _).
    clear -Hm. induction ks as [|k ks IH]; [done|]. destruct Hm as [H1 H2].
    split; [|by apply IH]. apply Forall_forall. intros x Hx.
    rewrite Forall_forall in H1.
    specialize (H1 (2 * x + 1)%Z). cbv beta in H1.
    assert ((2 * k + 1 < 2 * x + 1)%Z); [|lia].
    apply H1, list_elem_of_fmap. eauto. }
  pose proof (lower_found key ks Hks Hin) as Hi.
  rewrite bool_decide_eq_true_2 by done.
  set (i := lower key ks) in *.
  pose proof (lookup_lt_Some _ _ _ Hi) as Hilt.
  destruct (lookup_lt_is_Some_2 os i ltac:(lia)) as [o Ho].
  pose proof (take_drop_middle _ _ _ Hi) as Hke.
  pose proof (take_drop_middle _ _ _ Ho) as Hoe.
  assert (length (take i ks) = i) as Hl1 by (rewrite length_take; lia).
  assert (length (take i os) = i) as Hl2 by (rewrite length_take; lia).
  set (k1 := take i ks) in *. set (k2 := drop (S i) ks) in *.
  set (o1 := take i os) in *. set (o2 := drop (S i) os) in *.
  assert (del_at i ks = k1 ++ k2) as ->.
  { rewrite <- Hke, <- Hl1 at 1. apply del_at_middle. }
  assert (del_at i os = o1 ++ o2) as ->.
  { rewrite <- Hoe, <- Hl2 at 1. apply del_at_middle. }
  assert (ssorted (io (plug (BLeaf a (k1 ++ k2) (o1 ++ o2)) c))
          ∧ (list_to_map (conts (plug (BLeaf a (k1 ++ k2) (o1 ++ o2)) c))
             : gmap Z Z)
            = delete key (list_to_map (conts T))) as [Hs1 Hm1].
  { split.
    - rewrite io_plug_leaf by done. rewrite <- Hke in Hs'.
      rewrite fmap_app in *. rewrite fmap_cons in Hs'.
      rewrite <- !app_assoc in *. cbn [app] in Hs'.
      rewrite (assoc_L (++) _ (_ <$> k1)) in Hs'.
      apply ssorted_remove in Hs'. by rewrite <- app_assoc in Hs'.
    - pose proof (conts_NoDup T Hs) as Hnd.
      assert (conts T = ((tpre c ≫= item_conts) ++ zip k1 o1)
                        ++ (key, o) :: (zip k2 o2 ++ (tpost c ≫= item_conts)))
        as HcT.
      { rewrite HTe, conts_plug_leaf by done. rewrite <- Hke, <- Hoe.
        rewrite zip_app_eq by lia. cbn [zip zip_with].
        by rewrite <- !app_assoc. }
      rewrite conts_plug_leaf by done. rewrite zip_app_eq by lia.
      rewrite HcT in Hnd |- *.
      rewrite fmap_app, fmap_cons in Hnd.
      apply NoDup_app in Hnd as (_ & Hnd1 & Hnd2).
      apply NoDup_cons in Hnd2 as [Hnd2 _].
      trans (list_to_map (((tpre c ≫= item_conts) ++ zip k1 o1)
                          ++ (zip k2 o2 ++ (tpost c ≫= item_conts)))
             : gmap Z Z).
      { by rewrite <- !app_assoc. }
      apply list_to_map_delete_mid; [|done].
      intros Hx. apply (Hnd1 _ Hx). apply elem_of_cons. by left. }
  destruct c as [|f c]; [done|].
  destruct (fix_up_tstep (f :: c) 0 (BLeaf a (k1 ++ k2) (o1 ++ o2)))
    as [Hct Hst]; [|done|].
  { simpl. rewrite !length_app. unfold o2, k2. rewrite !length_drop. lia. }
  split.
  - specialize (Hst [] []). rewrite !app_nil_r in Hst. by apply Hst.
  - unfold conts. rewrite Hct. done.
Qed.

(** * The index as a finite map *)

Lemma hrep_initialize_tree : hrep initialize_tree 0 (BLeaf 0 [] []).
Proof.
  unfold hrep, initialize_tree. simpl. split_and!.
  - done.
  - done.
  - knum. lia.
  - exists (fresh_node true). split; [by rewrite lookup_singleton_eq|].
    unfold node_is, arrays_ok, fresh_node. simpl.
    repeat split; knum; lia.
  - apply NoDup_singleton.
  - intros a nd Ha. simpl in Ha.
    apply lookup_singleton_Some in Ha as [<- _]. simpl. lia.
  - exists (fresh_node true). by rewrite lookup_singleton_eq.
  - done.
Qed.

Lemma tree_inv_init : tree_inv initialize_tree ∅.
Proof.
  exists 0, (BLeaf 0 [] []). split; [apply hrep_initialize_tree|]. done.
Qed.

Lemma hrep_shape t D T : hrep t D T → shape D T.
Proof. intros (_ & HT & _). by eapply rep_shape. Qed.

Lemma tree_inv_search t M k :
  tree_inv t M → search_key t k = default (-1)%Z (M !! k).
Proof.
  intros (D & T & Hrep & Hs & <-).
  rewrite (search_key_abs t D T) by done.
  apply search_abs_correct; [by eapply hrep_shape|done].
Qed.

Lemma tree_inv_insert t M k off :
  tree_inv t M → M !! k = None →
  tree_inv (insert_key t k off) (<[k:=off]> M).
Proof.
  intros (D & T & Hrep & Hs & <-) Hk.
  destruct (hrep_insert t D T k off Hrep) as [D' Hrep'].
  destruct (insert_abs_correct D k off (brk t) T) as [Hs' Hp];
    [by eapply hrep_shape|done|by apply not_elem_of_list_to_map_2|].
  exists D', (insert_abs D k off (brk t) T). split_and!; [done|done|].
  rewrite (list_to_map_proper _ _ (conts_NoDup _ Hs') Hp). done.
Qed.

Lemma tree_inv_delete t M k :
  tree_inv t M → tree_inv (delete_key t k) (delete k M).
Proof.
  intros (D & T & Hrep & Hs & <-).
  destruct (hrep_delete t D T k Hrep) as [D' Hrep'].
  destruct (delete_abs_correct D k T) as [Hs' Hm];
    [by eapply hrep_shape|done|].
  by exists D', (delete_abs D k T).
Qed.

Lemma entries_latest rops k : entries rops !! k = latest rops k.
Proof.
  induction rops as [|[k' off|k'] r IH]; simpl; [done|..].
  - case_bool_decide as Hk; [subst; by rewrite lookup_insert_eq|].
    by rewrite lookup_insert_ne.
  - case_bool_decide as Hk; [subst; by rewrite lookup_delete_eq|].
    by rewrite lookup_delete_ne.
Qed.

Lemma tree_inv_run ops : ∀ rdone t,
  tree_inv t (entries rdone) → no_dup_insert rdone ops = true →
  tree_inv (foldl apply_op t ops) (entries (rev ops ++ rdone)).
Proof.
  induction ops as [|o ops IH]; intros rdone t Ht Hv; [done|].
  simpl in Hv. apply andb_prop in Hv as [Ho Hv]. simpl.
  rewrite <- app_assoc. simpl. apply IH; [|done].
  destruct o as [k off|k]; simpl.
  - apply tree_inv_insert; [done|].
    apply bool_decide_eq_true_1 in Ho. by rewrite entries_latest.
  - by apply tree_inv_delete.
Qed.

(** C1. After any calls of [insert_key] and [delete_key] on a new tree, none
    of which inserts a key that is present, [search_key] of a key [k] gives
    the offset of the latest [insert_key] of [k] when no [delete_key] of [k]
    came after it, and -1 when [k] was deleted since or never inserted. *)
Theorem search_key_latest (ops : list op) (k : Z) :
  no_dup_insert [] ops = true →
  search_key (run ops) k = default (-1)%Z (latest (rev ops) k).
Proof.
  intros Hv.
  pose proof (tree_inv_run ops [] initialize_tree tree_inv_init Hv) as Hinv.
  rewrite app_nil_r in Hinv.
  unfold run. rewrite (tree_inv_search _ _ k Hinv). by rewrite entries_latest.
Qed.

(** * The traversals of a represented tree *)

Lemma lkeys_node a ks cs : lkeys (BNode a ks cs) = cs ≫= lkeys.
Proof.
  unfold lkeys. cbn [trav].
  rewrite interleave_bind_nosep by done. apply concat_map_bind.
Qed.

Lemma concat_map_caddrs {B} (g : nat → list B) (cs : list bt) :
  concat (map (λ c : ptr, match c with Some c => g c | None => [] end)
            (caddrs cs))
  = cs ≫= (λ c, g (addr c)).
Proof.
  induction cs as [|c cs IH]; [done|].
  rewrite bind_cons, <- IH. done.
Qed.

Lemma bind_ext_Forall {A B} (f g : A → list B) (l : list A) :
  Forall (λ x, f x = g x) l → l ≫= f = l ≫= g.
Proof.
  induction 1 as [|x l Hx _ IH]; [done|]. by rewrite !bind_cons, Hx, IH.
Qed.

Lemma node_is_children nd p ks os cs :
  node_is nd false p ks os cs → take (S (num_keys nd)) (children nd) = cs.
Proof. intros (_ & _ & _ & -> & _ & _ & Hc). exact Hc. Qed.

Lemma subtree_nodes_rep d : ∀ t m p T fuel,
  rep d (nodes t) m p T → d < fuel → subtree_nodes fuel t (addr T) = addrs T.
Proof.
  induction d as [|d IH]; intros t m p T fuel HT Hf.
  - destruct T as [a ks os|]; [|done]. destruct fuel; [lia|]. simpl.
    destruct HT as (_ & nd & Hnd & Hn). rewrite (node_at_lookup _ _ _ Hnd).
    destruct Hn as (_ & -> & _). done.
  - destruct T as [|a ks cs]; [done|]. destruct fuel as [|fuel]; [lia|].
    apply rep_node_inv in HT as (Hm & H1 & Hlen & (nd & Hnd & Hnode) & Hcs).
    cbn [subtree_nodes addr]. rewrite (node_at_lookup _ _ _ Hnd).
    pose proof Hnode as (_ & -> & _).
    rewrite (node_is_children _ _ _ _ _ Hnode), concat_map_caddrs.
    rewrite addrs_node. f_equal. apply bind_ext_Forall.
    eapply Forall_impl; [exact Hcs|]. intros c Hc. simpl.
    eapply IH; [exact Hc|lia].
Qed.

Lemma inorder_from_rep d : ∀ t m p T fuel,
  rep d (nodes t) m p T → d < fuel → inorder_from fuel t (addr T) = lkeys T.
Proof.
  induction d as [|d IH]; intros t m p T fuel HT Hf.
  - destruct T as [a ks os|]; [|done]. destruct fuel; [lia|]. simpl.
    destruct HT as (_ & nd & Hnd & Hn). rewrite (node_at_lookup _ _ _ Hnd).
    destruct Hn as (_ & -> & _ & -> & _ & -> & _).
    unfold lkeys. simpl. by rewrite app_nil_r.
  - destruct T as [|a ks cs]; [done|]. destruct fuel as [|fuel]; [lia|].
    apply rep_node_inv in HT as (Hm & H1 & Hlen & (nd & Hnd & Hnode) & Hcs).
    cbn [inorder_from addr]. rewrite (node_at_lookup _ _ _ Hnd).
    pose proof Hnode as (_ & -> & _).
    rewrite (node_is_children _ _ _ _ _ Hnode), concat_map_caddrs.
    rewrite lkeys_node. apply bind_ext_Forall.
    eapply Forall_impl; [exact Hcs|]. intros c Hc. simpl.
    eapply IH; [exact Hc|lia].
Qed.

Lemma leftmost_from_rep d : ∀ t m p T fuel,
  rep d (nodes t) m p T → d < fuel →
  ∃ a l, laddrs T = a :: l ∧ leftmost_from fuel t (Some (addr T)) = Some a.
Proof.
  induction d as [|d IH]; intros t m p T fuel HT Hf.
  - destruct T as [a ks os|]; [|done]. destruct fuel; [lia|]. simpl.
    destruct HT as (_ & nd & Hnd & Hn). rewrite (node_at_lookup _ _ _ Hnd).
    destruct Hn as (_ & -> & _). by exists a, [].
  - destruct T as [|a ks cs]; [done|]. destruct fuel as [|fuel]; [lia|].
    apply rep_node_inv in HT as (Hm & H1 & Hlen & (nd & Hnd & Hnode) & Hcs).
    cbn [leftmost_from addr]. rewrite (node_at_lookup _ _ _ Hnd).
    pose proof Hnode as (_ & -> & _).
    rewrite (node_is_child _ _ _ _ _ 0 Hnode) by lia.
    destruct cs as [|c cs]; [done|]. apply Forall_cons in Hcs as [Hc Hcs].
    destruct (IH t _ _ c fuel Hc ltac:(lia)) as (x & l & Hl & Hx).
    exists x, (l ++ (cs ≫= laddrs)). split; [|exact Hx].
    by rewrite laddrs_node, bind_cons, Hl.
Qed.

Lemma Forall_interleave {A} (P : A → Prop) ls ss :
  Forall (Forall P) ls → Forall P ss → Forall P (interleave ls ss).
Proof.
  intros Hls. revert ss. induction Hls as [|l ls Hl Hls IH]; intros ss Hss;
    [constructor|].
  simpl. apply Forall_app. split; [done|]. destruct Hss as [|s ss Hs Hss].
  - by apply Forall_concat.
  - constructor; [done|]. by apply IH.
Qed.

Lemma rep_items_ok d : ∀ h m p T,
  rep d h m p T → Forall (item_ok h) (trav T).
Proof.
  induction d as [|d IH]; intros h m p T HT.
  - destruct T as [a ks os|]; [|done].
    destruct HT as (_ & nd & Hnd & Hn). repeat constructor.
    exists nd. split; [done|].
    by destruct Hn as (_ & _ & _ & -> & _ & -> & _).
  - destruct T as [|a ks cs]; [done|].
    apply rep_node_inv in HT as (_ & _ & Hlen & _ & Hcs). cbn [trav].
    apply Forall_interleave.
    + apply Forall_map. eapply Forall_impl; [exact Hcs|].
      intros c Hc. by eapply IH.
    + apply Forall_map. by apply Forall_true.
Qed.

Lemma chain_from_items t : ∀ l fuel,
  Forall (item_ok (nodes t)) l →
  chain (nodes t) (l ≫= item_leaf) None →
  length (l ≫= item_leaf) < fuel →
  chain_from fuel t (head (l ≫= item_leaf)) = l ≫= item_keys.
Proof.
  induction l as [|[a ks os|k] l IH]; intros fuel Hok Hch Hf.
  - by destruct fuel.
  - apply Forall_cons in Hok as [(nd & Hnd & Hks) Hok].
    rewrite !bind_cons in *. simpl in Hch, Hf |- *.
    destruct fuel as [|fuel]; [lia|].
    destruct Hch as ((nd' & Hnd' & Hnext) & Hch). simplify_eq.
    cbn [chain_from]. rewrite (node_at_lookup _ _ _ Hnd). f_equal.
    rewrite <- (IH fuel) by (done || lia). f_equal. rewrite Hnext.
    by destruct (l ≫= item_leaf).
  - apply Forall_cons in Hok as [_ Hok]. rewrite !bind_cons in *.
    simpl in *. by apply IH.
Qed.

Lemma rep_node_ok d : ∀ h m p T a,
  m ≤ MIN_KEYS → rep d h m p T → a ∈ addrs T →
  ∃ nd, h !! a = Some nd
        ∧ node_ok (if bool_decide (a = addr T) then m else MIN_KEYS) nd.
Proof.
  induction d as [|d IH]; intros h m p T a Hle HT Ha.
  - destruct T as [x ks os|]; [|done]. destruct HT as (Hm & nd & Hnd & Hn).
    apply list_elem_of_singleton in Ha as ->. exists nd. split; [done|].
    simpl. rewrite bool_decide_eq_true_2 by done. unfold node_ok.
    destruct Hn as (_ & Hl & _ & Hnk & _). rewrite Hnk, Hl. done.
  - destruct T as [|x ks cs]; [done|].
    apply rep_node_inv in HT as (Hm & H1 & Hlen & (nd & Hnd & Hnode) & Hcs).
    rewrite addrs_node in Ha. apply elem_of_cons in Ha as [->|Ha].
    + exists nd. split; [done|]. simpl. rewrite bool_decide_eq_true_2 by done.
      pose proof Hnode as (_ & _ & _ & Hnk & _). unfold node_ok.
      rewrite Hnk. split; [done|].
      intros _ i Hi. rewrite (node_is_child _ _ _ _ _ i Hnode) by lia.
      destruct (lookup_lt_is_Some_2 cs i ltac:(lia)) as [c Hc].
      assert (caddrs cs !! i = Some (Some (addr c))) as Hci
        by (unfold caddrs; by rewrite list_lookup_fmap, Hc).
      by rewrite (list_lookup_total_correct _ _ _ Hci).
    + apply list_elem_of_bind in Ha as (c & Ha & Hc).
      rewrite Forall_forall in Hcs.
      destruct (IH _ _ _ _ _ (reflexivity _) (Hcs _ Hc) Ha)
        as (nd' & Hnd' & Hok).
      exists nd'. split; [done|].
      destruct Hok as [Hk Hch]. split; [|done].
      repeat case_bool_decide; knum; lia.
Qed.

(** ** What holds of the tree of an index *)

Lemma tree_inv_nodes t M a :
  tree_inv t M → a ∈ tree_nodes t →
  node_ok (if bool_decide (Some a = root t) then 0 else MIN_KEYS) (node_at t a).
Proof.
  intros (D & T & Hrep & _) Ha.
  pose proof (hrep_depth _ _ _ Hrep) as Hd.
  destruct Hrep as (Hroot & HT & _).
  unfold tree_nodes in Ha. rewrite Hroot in Ha.
  rewrite (subtree_nodes_rep D t _ _ T) in Ha by (done || lia).
  destruct (rep_node_ok D (nodes t) (min 1 D) None T a) as (nd & Hnd & [Hk Hc]);
    [knum; lia|done|done|].
  rewrite (node_at_lookup _ _ _ Hnd), Hroot. split; [|done].
  repeat case_bool_decide; simplify_eq; lia.
Qed.

Lemma tree_inv_chain t M :
  tree_inv t M →
  leaf_chain_keys t = inorder_keys t
  ∧ StronglySorted Z.lt (leaf_chain_keys t) ∧ NoDup (leaf_chain_keys t).
Proof.
  intros (D & T & Hrep & Hs & _).
  pose proof (hrep_depth _ _ _ Hrep) as Hd.
  destruct Hrep as (Hroot & HT & Hnd & Hok & Hch).
  assert (inorder_keys t = lkeys T) as Hin.
  { unfold inorder_keys. rewrite Hroot.
    eapply inorder_from_rep; [exact HT|lia]. }
  assert (leaf_chain_keys t = lkeys T) as Hlc.
  { unfold leaf_chain_keys. rewrite Hroot.
    destruct (leftmost_from_rep D t _ _ T (S (brk t)) HT ltac:(lia))
      as (a & l & Hl & ->).
    replace (Some a) with (head (trav T ≫= item_leaf))
      by (by fold (laddrs T); rewrite Hl).
    apply chain_from_items; [by eapply rep_items_ok|done|].
    fold (laddrs T).
    pose proof (submseteq_length _ _ (laddrs_addrs T)).
    pose proof (NoDup_bounded_length _ (brk t) Hnd
                  (rep_addrs_bound _ _ _ _ _ _ eq_refl Hok HT)). lia. }
  rewrite Hlc, Hin. split; [done|].
  pose proof (keys_sorted _ Hs) as Hk. fold (lkeys T) in Hk.
  split; [by apply ssorted_StronglySorted|by apply ssorted_NoDup].
Qed.

(** C2. After any calls of [insert_key] and [delete_key] on a new tree, none
    of which inserts a key that is present: every node of the tree other
    than the root holds between [MIN_KEYS] and [MAX_KEYS] keys; every
    internal node with [k] keys has its children [children[0..k]], [k + 1] of
    them, all non-null (what the array holds past [children[k]] is not a
    child of the node and is left out here: [index_stale_children] shows
    that it can be non-null); and the keys along the leaf
    chain from the leftmost leaf are strictly ascending, without duplicates,
    and are the keys the leaves hold in the order of the children. *)
Theorem index_invariants (ops : list op) :
  no_dup_insert [] ops = true →
  let t := run ops in
  (∀ a, a ∈ tree_nodes t → Some a ≠ root t →
        MIN_KEYS ≤ num_keys (node_at t a) ≤ MAX_KEYS)
  ∧ (∀ a, a ∈ tree_nodes t → is_leaf (node_at t a) = false →
          ∀ i, i ≤ num_keys (node_at t a) → child_at (node_at t a) i ≠ None)
  ∧ leaf_chain_keys t = inorder_keys t
  ∧ StronglySorted Z.lt (leaf_chain_keys t)
  ∧ NoDup (leaf_chain_keys t).
Proof.
  intros Hv t.
  pose proof (tree_inv_run ops [] initialize_tree tree_inv_init Hv) as Hinv.
  rewrite app_nil_r in Hinv. fold (run ops) in Hinv. fold t in Hinv.
  split_and!.
  - intros a Ha Hr. destruct (tree_inv_nodes _ _ _ Hinv Ha) as [Hk _].
    by rewrite bool_decide_eq_false_2 in Hk.
  - intros a Ha Hl. destruct (tree_inv_nodes _ _ _ Hinv Ha) as [Hk Hc].
    by apply Hc.
  - by apply (tree_inv_chain _ _ Hinv).
  - by apply (tree_inv_chain _ _ Hinv).
  - by apply (tree_inv_chain _ _ Hinv).
Qed.

(** C2, with exactly [k + 1] non-null children for a node with [k] keys,
    fails: the code does not clear the slots of the array [children] that a
    split or a borrow leaves behind.  After the keys
    1 to 17 are inserted in ascending order, the internal node in cell 2 is
    a node of the tree with 2 keys, and all 5 slots of its array [children]
    are non-null: its children are the cells 0, 1 and 3, and the slots 3 and
    4 still hold the cells 4 and 5, which are children of another node.
    After [delete_key] of 7, cell 5 has been freed and slot 4 of cell 2
    still holds it. *)
Lemma index_stale_children :
  no_dup_insert [] ascending_ops = true
  ∧ 2 ∈ tree_nodes (run ascending_ops)
  ∧ is_leaf (node_at (run ascending_ops) 2) = false
  ∧ num_keys (node_at (run ascending_ops) 2) = 2
  ∧ children (node_at (run ascending_ops) 2)
    = [Some 0; Some 1; Some 3; Some 4; Some 5]
  ∧ no_dup_insert [] (ascending_ops ++ [Del 7]) = true
  ∧ 2 ∈ tree_nodes (run (ascending_ops ++ [Del 7]))
  ∧ num_keys (node_at (run (ascending_ops ++ [Del 7])) 2) = 2
  ∧ child_at (node_at (run (ascending_ops ++ [Del 7])) 2) 4 = Some 5
  ∧ nodes (run (ascending_ops ++ [Del 7])) !! 5 = None.
Proof.
  split_and!; try (vm_compute; reflexivity).
  - apply (bool_decide_unpack (2 ∈ tree_nodes (run ascending_ops))).
    vm_compute. exact I.
  - apply (bool_decide_unpack
             (2 ∈ tree_nodes (run (ascending_ops ++ [Del 7])))).
    vm_compute. exact I.
Qed.

#[local] Opaque MAX_ROW_LEN.

(** * The row store *)


(** ** Streams *)

Lemma io_call_same f ok f1 :
  io_call f = (ok, f1) →
  path f1 = path f ∧ contents f1 = contents f ∧ position f1 = position f.
Proof.
  unfold io_call. destruct (script f); intros [= <- <-]; done.
Qed.

Lemma io_call_quiet f :
  script f = [] → io_call f = (true, f).
Proof. unfold io_call. by intros ->. Qed.

Lemma write_at_end bytes data :
  write_at (length data) bytes data = data ++ bytes.
Proof.
  unfold write_at. rewrite Nat.sub_diag. simpl. rewrite app_nil_r.
  rewrite firstn_all. rewrite drop_ge by lia. by rewrite app_nil_r.
Qed.

Lemma fwrite_end f bytes f1 :
  fwrite f bytes = (true, f1) → position f = length (contents f) →
  contents f1 = contents f ++ bytes ∧ position f1 = length (contents f1)
  ∧ path f1 = path f.
Proof.
  unfold fwrite. destruct (io_call f) as [ok f0] eqn:Hio.
  apply io_call_same in Hio as (Hp & Hc & Hpos).
  destruct ok; intros [= <-] Hend; simpl.
  rewrite Hpos, Hend, Hc, write_at_end, length_app. done.
Qed.

Lemma fwrite_quiet f bytes :
  script f = [] →
  fwrite f bytes
  = (true, mkFile (path f) (write_at (position f) bytes (contents f))
             (position f + length bytes) []).
Proof. intros Hs. unfold fwrite. rewrite io_call_quiet by done. by rewrite Hs. Qed.

(** ** [insert_row] *)

Lemma write_columns_end cc values : ∀ fuel i f f',
  write_columns cc values i fuel f = (true, f') →
  position f = length (contents f) →
  contents f' = contents f ++ concat (map (column_bytes cc values) (seq i fuel))
  ∧ position f' = length (contents f') ∧ path f' = path f.
Proof.
  induction fuel as [|fuel IH]; intros i f f' Hw Hend.
  - simpl in Hw. injection Hw as <-. simpl. by rewrite app_nil_r.
  - cbn [write_columns] in Hw. fold (column_bytes cc values i) in Hw.
    destruct (fwrite f (column_bytes cc values i)) as [ok f1] eqn:Hf.
    destruct ok; [|done].
    apply fwrite_end in Hf as (Hc1 & Hp1 & Hpath1); [|done].
    apply IH in Hw as (Hc & Hp & Hpath); [|done].
    split_and!; [|done|congruence].
    rewrite Hc, Hc1. cbn [seq map concat]. by rewrite <- app_assoc.
Qed.

Lemma write_columns_quiet cc values : ∀ fuel i f,
  script f = [] →
  ∃ f', write_columns cc values i fuel f = (true, f') ∧ script f' = [].
Proof.
  induction fuel as [|fuel IH]; intros i f Hs; [by exists f|].
  cbn [write_columns]. rewrite fwrite_quiet by done. by apply IH.
Qed.

Lemma append_row_Some cc values f off f' :
  append_row cc values f = (Some off, f') →
  off = Z.of_nat (length (contents f))
  ∧ contents f' = contents f ++ encode_row cc values
  ∧ position f' = length (contents f') ∧ path f' = path f.
Proof.
  unfold append_row, fseek_end, ftell, fflush.
  destruct (io_call f) as [ok1 f1] eqn:H1.
  apply io_call_same in H1 as (Hp1 & Hc1 & _).
  destruct ok1; [|done]. cbn [negb].
  match goal with |- context [io_call ?x] => set (g := x) end.
  destruct (io_call g) as [ok2 f2] eqn:H2.
  apply io_call_same in H2 as (Hp2 & Hc2 & Hpos2). subst g. simpl in *.
  destruct ok2; [|done].
  rewrite bool_decide_eq_false_2 by lia.
  destruct (fwrite f2 [" "%char]) as [ok3 f3] eqn:H3.
  destruct ok3; [|done]. cbn [negb].
  apply fwrite_end in H3 as (Hc3 & Hpos3 & Hp3); [|congruence].
  destruct (write_columns cc values 0 cc f3) as [ok4 f4] eqn:H4.
  destruct ok4; [|done]. cbn [negb].
  apply write_columns_end in H4 as (Hc4 & Hpos4 & Hp4); [|done].
  destruct (io_call f4) as [ok5 f5] eqn:H5.
  apply io_call_same in H5 as (Hp5 & Hc5 & Hpos5).
  destruct ok5; [|done]. cbn [negb]. intros [= <- <-].
  rewrite Hpos2, Hc1, Hpos5, Hc5, Hp5, Hp4, Hp3, Hp2, Hp1.
  split_and!; try done.
  rewrite Hc4, Hc3, Hc2, Hc1. unfold encode_row.
  by rewrite <- app_assoc.
Qed.

Lemma append_row_quiet cc values f :
  script f = [] →
  ∃ f', append_row cc values f = (Some (Z.of_nat (length (contents f))), f')
        ∧ script f' = [].
Proof.
  intros Hs. unfold append_row, fseek_end, ftell, fflush.
  rewrite io_call_quiet by done. cbn [negb]. rewrite io_call_quiet by done.
  cbn [position]. rewrite bool_decide_eq_false_2 by lia.
  rewrite fwrite_quiet by done. cbn [negb].
  match goal with |- context [write_columns _ _ _ _ ?x] => set (g := x) end.
  destruct (write_columns_quiet cc values cc 0 g eq_refl) as (f4 & -> & Hs4).
  cbn [negb]. rewrite io_call_quiet by done. cbn [negb]. eauto.
Qed.

Lemma append_row_None_or cc values f r f' :
  append_row cc values f = (r, f') → r ≠ Some (-1)%Z.
Proof.
  destruct r as [off|]; [|done]. intros (-> & _)%append_row_Some. 
  intros [=]. lia.
Qed.

(** C5. [insert_row] with a key that the index has fails, and leaves the
    table as it was: the index, the bytes of the file, and the stream, on
    which no call is made. *)
Theorem insert_row_existing_key (tb : Table) (primary_key : Z)
  (values : list (option cstring)) :
  search_key (primary_index tb) primary_key ≠ (-1)%Z →
  insert_row tb primary_key values = ((-1)%Z, tb).
Proof.
  intros Hk. unfold insert_row. destruct (data_file tb); [|done].
  by rewrite bool_decide_eq_false_2.
Qed.

(** ** [read_row] *)

Lemma sanitize_no_delims s : Forall (λ c, c ∉ row_delims) (sanitize s).
Proof.
  unfold sanitize. apply Forall_map, Forall_forall. intros c _. simpl.
  unfold sanitize_char, row_delims.
  repeat case_bool_decide; simpl; set_solver.
Qed.

Lemma c_str_no_NUL s : Forall (λ c, c ≠ NUL) (c_str s).
Proof.
  induction s as [|c s IH]; simpl; [constructor|].
  case_bool_decide; by constructor.
Qed.

Lemma c_str_id s : Forall (λ c, c ≠ NUL) s → c_str s = s.
Proof.
  induction 1 as [|c s Hc _ IH]; simpl; [done|].
  rewrite bool_decide_eq_false_2 by done. by rewrite IH.
Qed.

Lemma sanitize_no_NUL s : Forall (λ c, c ≠ NUL) s → Forall (λ c, c ≠ NUL) (sanitize s).
Proof.
  intros H. unfold sanitize. apply Forall_map. eapply Forall_impl; [exact H|].
  intros c Hc. simpl. unfold sanitize_char.
  repeat case_bool_decide; simpl; done.
Qed.

Lemma written_no_NUL values i :
  Forall (λ c, c ≠ NUL) (sanitize (strncpy (value_at values i) (MAX_ROW_LEN - 1))).
Proof.
  apply sanitize_no_NUL. unfold strncpy. apply Forall_take, c_str_no_NUL.
Qed.

Lemma sanitize_plain s : Forall plain_char s → sanitize s = s.
Proof.
  induction 1 as [|c s (H1 & H2 & H3 & _) _ IH]; [done|].
  unfold sanitize in *. simpl. rewrite IH. f_equal.
  unfold sanitize_char. by rewrite !bool_decide_eq_false_2.
Qed.

Lemma skip_delims_plain c s :
  c ∉ row_delims → skip_delims row_delims (c :: s) = c :: s.
Proof.
  intros Hc. simpl. unfold is_delim. by rewrite bool_decide_eq_false_2.
Qed.

Lemma token_of_app w d rest :
  Forall (λ c, c ∉ row_delims) w → d ∈ row_delims →
  token_of row_delims (w ++ d :: rest) = (w, rest).
Proof.
  intros Hw Hd. induction Hw as [|c w Hc _ IH]; simpl.
  - unfold is_delim. by rewrite bool_decide_eq_true_2.
  - unfold is_delim at 1. rewrite bool_decide_eq_false_2 by done.
    by rewrite IH.
Qed.

Lemma parse_columns_None fuel : parse_columns fuel None = [].
Proof. by destruct fuel. Qed.

Lemma parse_columns_tokens (l : list (cstring * ascii)) : ∀ fuel,
  Forall (λ p, p.1 ≠ [] ∧ Forall (λ c, c ∉ row_delims) p.1
               ∧ p.2 ∈ row_delims) l →
  length l ≤ fuel →
  parse_columns fuel
    (strtok_r row_delims (concat (map (λ p, p.1 ++ [p.2]) l)))
  = map fst l.
Proof.
  induction l as [|[w d] l IH]; intros fuel Hl Hf.
  - simpl. apply parse_columns_None.
  - apply Forall_cons in Hl as [(Hne & Hw & Hd) Hl]. simpl in *.
    destruct fuel as [|fuel]; [lia|].
    destruct w as [|c w]; [done|].
    apply Forall_cons in Hw as [Hc Hw].
    unfold strtok_r. cbn [app]. rewrite skip_delims_plain by done.
    change (c :: w ++ [d] ++ ?r) with ((c :: w) ++ d :: r).
    rewrite <- app_assoc. cbn [app].
    change (c :: w ++ d :: ?r) with ((c :: w) ++ d :: r).
    rewrite token_of_app by (done || by constructor).
    cbn [parse_columns]. f_equal. apply IH; [done|lia].
Qed.

Lemma read_line_full n line rest :
  Forall (λ c, c ≠ LF) line → length line < n →
  read_line n (line ++ LF :: rest) = line ++ [LF].
Proof.
  revert n. induction line as [|c line IH]; intros n Hl Hn.
  - destruct n; [simpl in Hn; lia|]. done.
  - apply Forall_cons in Hl as [Hc Hl]. destruct n; [simpl in Hn; lia|].
    simpl in *. rewrite bool_decide_eq_false_2 by done.
    rewrite IH by (done || lia). done.
Qed.

(** The columns as pairs of a value and its delimiter. *)
Lemma columns_pairs cc values : ∀ n i,
  concat (map (column_bytes cc values) (seq i n))
  = concat (map (λ p : cstring * ascii, p.1 ++ [p.2])
              (map (λ i, (sanitize (strncpy (value_at values i) (MAX_ROW_LEN - 1)),
                          if bool_decide (i = cc - 1) then LF else "|"%char))
                   (seq i n))).
Proof.
  induction n as [|n IH]; intros i; [done|].
  cbn [seq map concat]. by rewrite IH.
Qed.

Lemma columns_last cc values :
  0 < cc →
  ∃ body, concat (map (column_bytes cc values) (seq 0 cc)) = body ++ [LF]
          ∧ Forall (λ c, c ≠ LF) body.
Proof.
  intros Hcc. destruct cc as [|n]; [lia|].
  rewrite seq_S, map_app, concat_app. cbn [map concat plus].
  rewrite app_nil_r. unfold column_bytes at 2.
  rewrite bool_decide_eq_true_2 by lia.
  eexists (_ ++ _). split; [by rewrite <- app_assoc|].
  apply Forall_app. split.
  - apply Forall_concat, Forall_map, Forall_forall.
    intros i Hi%elem_of_seq. simpl. unfold column_bytes.
    rewrite bool_decide_eq_false_2 by lia. apply Forall_app. split.
    + eapply Forall_impl; [apply sanitize_no_delims|].
      intros c Hc. simpl in Hc. unfold row_delims in Hc. set_solver.
    + by repeat constructor.
  - eapply Forall_impl; [apply sanitize_no_delims|].
    intros c Hc. simpl in Hc. unfold row_delims in Hc. set_solver.
Qed.

Lemma parse_encoded cc values :
  Forall (λ w, w ≠ []) (written_values cc values) →
  parse_columns cc
    (strtok_r row_delims (concat (map (column_bytes cc values) (seq 0 cc))))
  = written_values cc values.
Proof.
  intros Hne. rewrite columns_pairs. rewrite parse_columns_tokens.
  - rewrite map_map. done.
  - unfold written_values in Hne. rewrite Forall_map in Hne |- *.
    eapply Forall_impl; [exact Hne|]. intros i Hi. simpl in *.
    split_and!; [done|apply sanitize_no_delims|].
    unfold row_delims. case_bool_decide; set_solver.
  - by rewrite length_map, length_seq.
Qed.

Lemma columns_no_NUL cc values :
  Forall (λ c, c ≠ NUL) (concat (map (column_bytes cc values) (seq 0 cc))).
Proof.
  apply Forall_concat, Forall_map, Forall_forall. intros i _. simpl.
  unfold column_bytes. apply Forall_app. split; [apply written_no_NUL|].
  repeat constructor. by case_bool_decide.
Qed.

Lemma length_write_at pos bytes data :
  pos + length bytes ≤ length (write_at pos bytes data).
Proof.
  unfold write_at. rewrite !length_app, length_take, length_app,
    length_replicate. lia.
Qed.

Lemma written_values_plain cc (V : list cstring) :
  length V = cc →
  Forall (λ v, Forall plain_char v ∧ length v ≤ MAX_ROW_LEN - 1) V →
  written_values cc (Some <$> V) = V.
Proof.
  intros <- HV. unfold written_values.
  apply list_eq. intros i. rewrite list_lookup_fmap.
  destruct (V !! i) as [v|] eqn:Hv.
  - rewrite (lookup_seq_lt _ _ _ (lookup_lt_Some _ _ _ Hv)). simpl.
    unfold value_at. rewrite list_lookup_fmap, Hv. simpl.
    rewrite Forall_forall in HV.
    destruct (HV v (list_elem_of_lookup_2 _ _ _ Hv)) as [Hp Hl].
    unfold strncpy. rewrite c_str_id.
    + rewrite take_ge by done. by rewrite sanitize_plain.
    + eapply Forall_impl; [exact Hp|]. by intros c (_ & _ & _ & ?).
  - rewrite lookup_seq_ge; [done|]. by apply lookup_ge_None.
Qed.

Lemma fseek_set_quiet f off :
  script f = [] → (0 ≤ off)%Z →
  fseek_set f off = (true, mkFile (path f) (contents f) (Z.to_nat off) []).
Proof.
  intros Hs Hoff. unfold fseek_set. rewrite io_call_quiet by done.
  rewrite bool_decide_eq_true_2 by done. by rewrite Hs.
Qed.

Lemma fgets_line f line rest :
  script f = [] → drop (position f) (contents f) = line ++ LF :: rest →
  Forall (λ c, c ≠ LF) line → length line < MAX_ROW_LEN - 1 →
  (fgets MAX_ROW_LEN f).1 = Some (line ++ [LF]).
Proof.
  intros Hs Hd Hl Hlen. unfold fgets. rewrite io_call_quiet by done.
  rewrite Hd, read_line_full by done. by destruct line.
Qed.

Lemma read_row_encoded tb f k off cc values pre :
  data_file tb = Some f → script f = [] →
  search_key (primary_index tb) k = off → (0 ≤ off)%Z →
  column_count tb = cc → 0 < cc →
  contents f = pre ++ encode_row cc values → Z.to_nat off = length pre →
  Forall (λ w, w ≠ []) (written_values cc values) →
  length (encode_row cc values) < MAX_ROW_LEN →
  (read_row tb k).1 = Some (written_values cc values).
Proof.
  intros Hf Hs Hk Hoff Hcc Hpos Hc Hpre Hne Hfit.
  destruct (columns_last cc values Hpos) as (body & Hbody & Hnl).
  assert (encode_row cc values = (" "%char :: body) ++ [LF]) as Henc.
  { unfold encode_row. by rewrite Hbody. }
  unfold read_row. rewrite Hf, Hk. cbv zeta.
  rewrite bool_decide_eq_false_2 by lia.
  rewrite fseek_set_quiet by done. cbn [negb].
  match goal with |- context [fgets _ ?x] => set (g := x) end.
  pose proof (fgets_line g (" "%char :: body) []) as Hg.
  destruct (fgets MAX_ROW_LEN g) as [r f2]. cbn [fst] in Hg.
  rewrite Hg; cycle 1.
  { done. }
  { subst g. cbn [position contents]. rewrite Hpre, Hc, drop_app_length.
    by rewrite Henc. }
  { constructor; [done|exact Hnl]. }
  { rewrite Henc, length_app in Hfit. simpl in Hfit |- *. lia. }
  cbn [app hd tl]. rewrite bool_decide_eq_false_2 by done.
  rewrite bool_decide_eq_true_2 by done. cbn [negb].
  rewrite <- Hbody, Hcc. rewrite c_str_id by apply columns_no_NUL.
  rewrite parse_encoded by done.
  rewrite bool_decide_eq_true_2; [done|].
  unfold written_values. by rewrite length_map, length_seq.
Qed.

(** C4, as the code has it. When the index was built by [insert_key] and
    [delete_key] and holds an offset for the key, no call on the stream
    fails, none of the values is empty as it is written, and the line fits
    the buffer of [read_row]: [update_row] returns an offset past the old
    one, the index has it for the key, and [read_row] gives the values as
    they were written, cut to [MAX_ROW_LEN - 1] bytes and with the delimiter,
    the newline and the delete marker replaced; these are the values passed
    when those have none of these characters. *)
Theorem update_row_read_back (tb : Table) (f : FILE) (ops : list op)
  (primary_key : Z) (values : list (option cstring)) :
  data_file tb = Some f → script f = [] →
  primary_index tb = run ops → no_dup_insert [] ops = true →
  (0 ≤ search_key (primary_index tb) primary_key)%Z →
  0 < column_count tb →
  Forall (λ w, w ≠ []) (written_values (column_count tb) values) →
  length (encode_row (column_count tb) values) < MAX_ROW_LEN →
  ∃ new_offset tb',
    update_row tb primary_key values = (new_offset, tb')
    ∧ (search_key (primary_index tb) primary_key < new_offset)%Z
    ∧ search_key (primary_index tb') primary_key = new_offset
    ∧ (read_row tb' primary_key).1
      = Some (written_values (column_count tb) values)
    ∧ ∀ V, values = Some <$> V → length V = column_count tb →
           Forall (λ v, Forall plain_char v ∧ length v ≤ MAX_ROW_LEN - 1) V →
           (read_row tb' primary_key).1 = Some V.
Proof.
  intros Hf Hs Hix Hv Hold Hcc Hne Hfit.
  set (old := search_key (primary_index tb) primary_key) in *.
  unfold update_row. rewrite Hf. cbv zeta. fold old.
  rewrite bool_decide_eq_false_2 by lia.
  rewrite fseek_set_quiet by done. cbn [negb].
  rewrite fwrite_quiet by done. cbn [negb position contents path].
  unfold fflush at 1. rewrite io_call_quiet by done. cbn [negb].
  match goal with |- context [append_row _ _ ?x] => set (f3 := x) end.
  destruct (append_row_quiet (column_count tb) values f3 eq_refl)
    as (f' & Ha & Hs').
  rewrite Ha.
  apply append_row_Some in Ha as (_ & Hc' & _ & _).
  set (new := Z.of_nat (length (contents f3))) in *.
  assert (old < new)%Z as Hlt.
  { subst new f3. cbn [contents].
    pose proof (length_write_at (Z.to_nat old) [DELETED_MARKER] (contents f)).
    simpl in *. lia. }
  assert (search_key (insert_key (delete_key (primary_index tb) primary_key)
                        primary_key new) primary_key = new) as Hsk.
  { pose proof (tree_inv_run ops [] initialize_tree tree_inv_init Hv) as Hinv.
    rewrite app_nil_r in Hinv. fold (run ops) in Hinv. rewrite <- Hix in Hinv.
    apply (tree_inv_delete _ _ primary_key) in Hinv.
    apply (tree_inv_insert _ _ primary_key new) in Hinv;
      [|by rewrite lookup_delete_eq].
    rewrite (tree_inv_search _ _ primary_key Hinv).
    by rewrite lookup_insert_eq. }
  eexists _, _. split; [reflexivity|]. split; [done|]. split; [exact Hsk|].
  match goal with |- ?A ∧ _ => assert A as Hread end.
  { apply (read_row_encoded _ f' _ new (column_count tb) values (contents f3));
      try done; try lia. }
  split; [exact Hread|].
  intros V -> HlV HV. rewrite Hread. f_equal.
  by apply written_values_plain.
Qed.

(** C4, a case in which the values read are not the values passed: a value
    with a delimiter in it. *)
Lemma update_row_delimiter :
  let tb := (insert_row (table0 []) 1 [Some ["a"%char]]).2 in
  let V := [["a"; "|"; "b"]%char] in
  search_key (primary_index tb) 1 ≠ (-1)%Z
  ∧ (read_row (update_row tb 1 (Some <$> V)).2 1).1 ≠ Some V.
Proof. split; by vm_compute. Qed.

(** ** [delete_key] of a key the index does not hold *)

Lemma tree_inv_delete_absent t M k :
  tree_inv t M → M !! k = None → delete_key t k = t.
Proof.
  intros (D & T & Hrep & Hs & <-) Hk.
  destruct (hrep_descend _ _ _ k Hrep)
    as (c & a & ks & os & nd & Hdesc & HT & _ & _ & _ & Hnd & Hn & _ & Hfind).
  destruct (descend_leaf D k T (hrep_shape _ _ _ Hrep) Hs)
    as (c' & a' & ks' & os' & Hd' & Hc' & _ & Hb & Ha & Hlen).
  rewrite Hdesc in Hd'. simplify_eq.
  rewrite lookup_conts_plug, lookup_zip_find_key in Hk by done.
  destruct (find_key k ks') as [j|] eqn:Hfk; [done|].
  destruct Hrep as (Hroot & _).
  unfold delete_key. rewrite Hroot. rewrite <- Hroot, Hfind.
  rewrite (node_at_lookup _ _ _ Hnd).
  pose proof Hn as (_ & _ & _ & Hnum & _).
  rewrite (key_position_spec _ _ _ _ _ k 0 _ Hn) by lia.
  by rewrite drop_0, Hfk.
Qed.

(** C9. [delete_key] of a key that no leaf holds leaves the tree as it is,
    whatever the tree; so it does for an index built by [insert_key] and
    [delete_key] calls that does not have the key. *)
Theorem delete_key_absent (t : BPlusTree) (k : Z) :
  ¬ key_present t k
  ∨ (∃ ops, no_dup_insert [] ops = true ∧ t = run ops
            ∧ latest (rev ops) k = None) →
  delete_key t k = t.
Proof.
  intros [Habs|(ops & Hv & -> & Hk)]; [by apply delete_key_not_present|].
  pose proof (tree_inv_run ops [] initialize_tree tree_inv_init Hv) as Hinv.
  rewrite app_nil_r in Hinv.
  eapply tree_inv_delete_absent; [exact Hinv|]. by rewrite entries_latest.
Qed.

(** ** The split of a full leaf *)

(** C8, as the code has it. The split of a full leaf leaves the first
    [(MAX_KEYS + 1) / 2] = 2 of the [MAX_KEYS + 1] = 5 sorted entries in the
    leaf, the division rounding down, and gives the other 3 to the new leaf
    (not 3 and 2); the new leaf comes after the leaf in the chain, and its
    first key is the third of the entries. *)
Theorem split_leaf_node_halves (t : BPlusTree) (leaf : nat)
  (ln : BPlusTreeNode) (p : ptr) (ks os : list Z) (key off : Z) :
  nodes t !! leaf = Some ln → node_is ln true p ks os [] →
  length ks = MAX_KEYS → leaf ≠ brk t →
  let merged_keys := ins_at (lower key ks) key ks in
  let merged_offsets := ins_at (lower key ks) off os in
  let new_leaf := (split_leaf_node t leaf key off).1 in
  let t8 := (split_leaf_node t leaf key off).2 in
  num_keys (node_at t8 leaf) = (MAX_KEYS + 1) / 2
  ∧ (MAX_KEYS + 1) / 2 = 2
  ∧ num_keys (node_at t8 new_leaf) = 3
  ∧ take 2 (keys (node_at t8 leaf)) = take 2 merged_keys
  ∧ take 2 (file_offsets (node_at t8 leaf)) = take 2 merged_offsets
  ∧ take 3 (keys (node_at t8 new_leaf)) = drop 2 merged_keys
  ∧ take 3 (file_offsets (node_at t8 new_leaf)) = drop 2 merged_offsets
  ∧ next (node_at t8 leaf) = Some new_leaf
  ∧ next (node_at t8 new_leaf) = next ln.
Proof.
  intros Hl Hn Hlen Hne. cbv zeta.
  pose proof (node_is_os_length _ _ _ _ _ Hn) as Hlo.
  pose proof (split_leaf_node_spec t leaf ln p ks os key off Hl Hn Hlen Hne)
    as Hspec. cbv zeta in Hspec.
  destruct Hspec
    as (t8' & ln' & nl' & Heq & _ & _ & Hl' & Hnl' & _ & Hn1 & Hx1 & Hn2 & Hx2 & _).
  rewrite Heq. cbn [fst snd].
  rewrite (node_at_lookup _ _ _ Hl'), (node_at_lookup _ _ _ Hnl').
  set (mk := ins_at (lower key ks) key ks) in *.
  set (mo := ins_at (lower key ks) off os) in *.
  assert (length mk = 5) as Hmk.
  { subst mk. unfold ins_at. pose proof (lower_le key ks).
    rewrite !length_app, !length_take. simpl. rewrite !length_drop.
    knum. lia. }
  assert (length (take 2 mk) = 2) as Ht2 by (rewrite length_take; lia).
  assert (length (drop 2 mk) = 3) as Hd2 by (rewrite length_drop; lia).
  destruct Hn1 as (_ & _ & _ & Hk1 & _ & Hks1 & Hos1).
  destruct Hn2 as (_ & _ & _ & Hk2 & _ & Hks2 & Hos2).
  rewrite Ht2 in Hk1, Hks1, Hos1. rewrite Hd2 in Hk2, Hks2, Hos2.
  split_and!; done.
Qed.

(** ** [compact_table] *)

Lemma ftell_quiet f :
  script f = [] → ftell f = (Z.of_nat (position f), f).
Proof. intros Hs. unfold ftell. by rewrite io_call_quiet. Qed.

Lemma compact_rows_temp fuel : ∀ f temp ix off,
  script temp = [] →
  ∃ f1 temp1 ix1,
    compact_rows fuel f temp ix off = (f1, Some (temp1, ix1))
    ∧ script temp1 = [] ∧ path temp1 = path temp ∧ path f1 = path f.
Proof.
  induction fuel as [|fuel IH]; intros f temp ix off Hs; [by eauto 10|].
  cbn [compact_rows].
  assert (∀ r f1, fgets MAX_ROW_LEN f = (r, f1) → path f1 = path f) as Hp.
  { unfold fgets. destruct (io_call f) as [ok f0] eqn:Hio.
    apply io_call_same in Hio as (Hp0 & _).
    destruct ok; [|by intros ?? [= <- <-]].
    destruct (read_line _ _); by intros ?? [= <- <-]. }
  destruct (fgets MAX_ROW_LEN f) as [[buffer|] f1] eqn:Hg;
    [|specialize (Hp _ _ eq_refl); by eauto 10].
  specialize (Hp _ _ eq_refl).
  case_bool_decide as Hm.
  2: { destruct (IH f1 temp ix off Hs) as (f2 & t2 & i2 & -> & ? & ? & ?).
       eexists _, _, _. split; [done|]. split_and!; congruence. }
  destruct (strtok_r _ _) as [[first_col rest]|].
  2: { destruct (IH f1 temp ix off Hs) as (f2 & t2 & i2 & -> & ? & ? & ?).
       eexists _, _, _. split; [done|]. split_and!; congruence. }
  rewrite fwrite_quiet by done. cbn [negb].
  rewrite ftell_quiet by done. cbn [position].
  rewrite bool_decide_eq_false_2 by lia.
  match goal with |- context [compact_rows fuel f1 ?tp ?i ?o] =>
    destruct (IH f1 tp i o eq_refl) as (f2 & t2 & i2 & -> & ? & ? & ?) end.
  eexists _, _, _. split; [done|]. split_and!; try done. congruence.
Qed.

(** C3, as the code has it. [compact_table] takes the file of the table for
    [<name>.dat] in the working directory. When the table's file is another
    one, as the file that [create_table] opens is, and the working directory
    has no [<name>.dat], the removal fails: [compact_table] leaves the table
    without an open file, and [read_row] gives no row for any key. *)
Theorem compact_table_closes (cwd : string) (d : disk) (tb : Table) (f : FILE) :
  data_file tb = Some f →
  d !! old_filename cwd tb = None →
  path f ≠ old_filename cwd tb →
  temp_filename cwd tb ≠ old_filename cwd tb →
  data_file (compact_table cwd d tb).2 = None
  ∧ primary_index (compact_table cwd d tb).2 = primary_index tb
  ∧ ∀ k, (read_row (compact_table cwd d tb).2 k).1 = None.
Proof.
  intros Hf Hd Hp Ht.
  assert (data_file (compact_table cwd d tb).2 = None
          ∧ primary_index (compact_table cwd d tb).2 = primary_index tb)
    as [H1 H2].
  { unfold compact_table. rewrite Hf. cbv zeta.
    fold (temp_filename cwd tb). fold (old_filename cwd tb).
    match goal with |- context [compact_rows ?n ?a ?b ?c ?o] =>
      destruct (compact_rows_temp n a b c o eq_refl)
        as (f1 & temp1 & ix1 & -> & Hs1 & Hp1 & Hpf1) end.
    unfold fflush. rewrite io_call_quiet by done. cbn [negb].
    unfold fclose. cbn [path] in *. rewrite Hp1, Hpf1.
    rewrite !lookup_insert_ne by done. by rewrite Hd. }
  split_and!; [done|done|].
  intros k. unfold read_row. by rewrite H1.
Qed.

(** ** The line of a row *)

Lemma sanitize_char_stored c : sanitize_char c = stored_char c.
Proof.
  unfold sanitize_char, stored_char, DELETED_MARKER.
  destruct (decide (c = "|"%char)) as [->|H1]; [done|].
  destruct (decide (c = LF)) as [->|H2]; [done|].
  destruct (decide (c = "#"%char)) as [->|H3]; [done|].
  rewrite !bool_decide_eq_false_2; [done|set_solver|done|done|done].
Qed.

Lemma column_stored values i v :
  values !! i = Some v → NUL ∉ default [] v →
  sanitize (strncpy (value_at values i) (MAX_ROW_LEN - 1)) = stored_value v.
Proof.
  intros Hi Hv. unfold value_at. rewrite Hi. cbn [mjoin option_join].
  unfold strncpy. rewrite c_str_id.
  - unfold sanitize. destruct v as [s|]; cbn [default stored_value].
    + apply map_ext. intros c. apply sanitize_char_stored.
    + by rewrite take_nil.
  - apply Forall_forall. by intros c Hc ->.
Qed.

Lemma joined_cons w w' r :
  joined (w :: w' :: r) = w ++ "|"%char :: joined (w' :: r).
Proof. done. Qed.

Lemma columns_joined cc values : ∀ vs pre,
  values = pre ++ vs → vs ≠ [] → length values = cc → c_strings values →
  concat (map (column_bytes cc values) (seq (length pre) (length vs)))
  = joined (stored_value <$> vs) ++ [LF].
Proof.
  induction vs as [|v vs IH]; intros pre Hv Hne Hl Hc; [done|].
  assert (values !! length pre = Some v) as Hi.
  { rewrite Hv. by rewrite list_lookup_middle. }
  assert (NUL ∉ default [] v) as Hnv.
  { unfold c_strings in Hc. rewrite Forall_forall in Hc. apply Hc.
    by eapply list_elem_of_lookup_2. }
  cbn [length seq map concat]. unfold column_bytes at 1.
  rewrite (column_stored _ _ v) by done.
  assert (length values = length pre + S (length vs)) as Hlen
    by (rewrite Hv, length_app; simpl; lia).
  destruct vs as [|v' vs]; simpl in Hlen.
  - rewrite bool_decide_eq_true_2 by lia. simpl. by rewrite app_nil_r.
  - rewrite bool_decide_eq_false_2 by lia.
    rewrite fmap_cons, (fmap_cons _ v'), joined_cons.
    rewrite <- !app_assoc. f_equal. cbn [app]. f_equal.
    rewrite <- fmap_cons.
    replace (S (length pre)) with (length (pre ++ [v]))
      by (rewrite length_app; simpl; lia).
    apply IH; try done. by rewrite <- app_assoc.
Qed.

(** The line that the column loop writes is the line of the file format. *)
Lemma encode_row_line cc values :
  length values = cc → 0 < cc → c_strings values →
  encode_row cc values = row_line values.
Proof.
  intros Hl Hcc Hc. unfold encode_row, row_line. f_equal.
  rewrite <- Hl at 2.
  apply (columns_joined cc values values []); try done.
  intros ->. simpl in Hl. lia.
Qed.

(** ** What [insert_row] appends *)




(** ** Values that are cut, and NULL values *)

Lemma write_at_marker pos c data :
  pos < length data → write_at pos [c] data = <[pos:=c]> data.
Proof.
  intros Hp. unfold write_at.
  replace (pos - length data) with 0 by lia. cbn [replicate].
  rewrite app_nil_r, insert_take_drop by done.
  cbn [app length]. by rewrite Nat.add_1_r.
Qed.

(** C10. On a table with an open file on which no call fails, for values
    that are C strings or NULL, one for each column: [insert_row] with a key
    that the index does not have, and [update_row] with a key for which the
    index has an offset in the file, do not fail; they return the length the
    file had, and leave the file with the line of the row after what was
    there ([update_row] with the marker of the old line made the deleted
    marker); in that line a NULL value is the empty text and a value longer
    than [MAX_ROW_LEN - 1] bytes is its first [MAX_ROW_LEN - 1] bytes, no
    less. *)
Theorem rows_truncate_values (tb : Table) (f : FILE) (primary_key : Z)
  (values : list (option cstring)) :
  data_file tb = Some f → script f = [] →
  length values = column_count tb → 0 < column_count tb →
  c_strings values →
  (search_key (primary_index tb) primary_key = (-1)%Z →
   ∃ tb' f',
     insert_row tb primary_key values = (Z.of_nat (length (contents f)), tb')
     ∧ data_file tb' = Some f'
     ∧ contents f' = contents f ++ row_line values)
  ∧ ((0 ≤ search_key (primary_index tb) primary_key
        < Z.of_nat (length (contents f)))%Z →
     ∃ tb' f',
       update_row tb primary_key values = (Z.of_nat (length (contents f)), tb')
       ∧ data_file tb' = Some f'
       ∧ contents f'
         = <[Z.to_nat (search_key (primary_index tb) primary_key) := "#"%char]>
             (contents f) ++ row_line values).
Proof.
  intros Hf Hs Hl Hcc Hv. split.
  - intros Hk. unfold insert_row. rewrite Hf, Hk.
    rewrite bool_decide_eq_true_2 by done. cbn [negb].
    destruct (append_row_quiet (column_count tb) values f Hs)
      as (f' & Ha & _).
    rewrite Ha. apply append_row_Some in Ha as (_ & Hc & _ & _).
    eexists _, f'. split_and!; try done.
    by rewrite Hc, encode_row_line.
  - intros Hold.
    set (old := search_key (primary_index tb) primary_key) in *.
    unfold update_row. rewrite Hf. cbv zeta. fold old.
    rewrite bool_decide_eq_false_2 by lia.
    rewrite fseek_set_quiet by (done || lia). cbn [negb].
    rewrite fwrite_quiet by done. cbn [negb position contents path].
    unfold fflush at 1. rewrite io_call_quiet by done. cbn [negb].
    match goal with |- context [append_row _ _ ?x] => set (f3 := x) end.
    destruct (append_row_quiet (column_count tb) values f3 eq_refl)
      as (f' & Ha & _).
    rewrite Ha. apply append_row_Some in Ha as (_ & Hc & _ & _).
    assert (contents f3 = <[Z.to_nat old := "#"%char]> (contents f)) as Hc3.
    { subst f3. cbn [contents]. apply write_at_marker. lia. }
    eexists _, f'. split_and!.
    + rewrite Hc3, length_insert. done.
    + done.
    + by rewrite Hc, Hc3, encode_row_line.
Qed.

(** ** What [read_row] takes from a line *)

Lemma strtok_r_skip d s :
  d ∈ row_delims → strtok_r row_delims (d :: s) = strtok_r row_delims s.
Proof.
  intros Hd. unfold strtok_r. cbn [skip_delims]. unfold is_delim at 1.
  by rewrite bool_decide_eq_true_2.
Qed.

Lemma parse_columns_tokens_gen (l : list (cstring * ascii)) : ∀ fuel,
  Forall (λ p, Forall (λ c, c ∉ row_delims) p.1 ∧ p.2 ∈ row_delims) l →
  parse_columns fuel
    (strtok_r row_delims (concat (map (λ p, p.1 ++ [p.2]) l)))
  = take fuel (filter (λ w, w ≠ []) (map fst l)).
Proof.
  induction l as [|[w d] l IH]; intros fuel Hl.
  - simpl. rewrite parse_columns_None. by destruct fuel.
  - apply Forall_cons in Hl as [(Hw & Hd) Hl]. simpl in Hw, Hd.
    cbn [map concat fst snd]. destruct w as [|c w].
    + cbn [app]. rewrite strtok_r_skip by done. rewrite IH by done.
      by rewrite filter_cons_False by (by intros ?).
    + rewrite filter_cons_True by done.
      apply Forall_cons in Hw as [Hc Hw].
      unfold strtok_r. rewrite <- app_assoc. cbn [app].
      rewrite skip_delims_plain by done.
      change (c :: w ++ d :: ?r) with ((c :: w) ++ d :: r).
      rewrite token_of_app by (done || by constructor).
      destruct fuel as [|fuel]; [done|].
      cbn [parse_columns take]. f_equal. by apply IH.
Qed.

Lemma joined_pairs ws :
  ws ≠ [] →
  ∃ l : list (cstring * ascii),
    map fst l = ws ∧ Forall (λ p, p.2 ∈ row_delims) l
    ∧ joined ws ++ [LF] = concat (map (λ p, p.1 ++ [p.2]) l).
Proof.
  induction ws as [|w ws IH]; [done|]. intros _.
  destruct ws as [|w' ws].
  - exists [(w, LF)]. split_and!; [done| |by simpl; rewrite app_nil_r].
    apply Forall_singleton. unfold row_delims. set_solver.
  - destruct IH as (l & Hl & Hd & Hj); [done|].
    exists ((w, "|"%char) :: l). split_and!.
    + simpl. by rewrite Hl.
    + constructor; [|done]. unfold row_delims. set_solver.
    + rewrite joined_cons. cbn [map concat fst snd]. rewrite <- Hj.
      by rewrite <- !app_assoc.
Qed.

Lemma parse_joined ws fuel :
  Forall (λ w, w ≠ [] ∧ Forall plain_char w) ws →
  parse_columns fuel (strtok_r row_delims (joined ws ++ [LF]))
  = take fuel ws.
Proof.
  intros Hws. destruct (decide (ws = [])) as [->|Hne].
  { cbn [joined app]. rewrite strtok_r_skip by (unfold row_delims; set_solver).
    rewrite take_nil. by destruct fuel. }
  destruct (joined_pairs ws Hne) as (l & Hl & Hd & ->).
  rewrite parse_columns_tokens_gen.
  - rewrite Hl. f_equal. clear -Hws.
    induction Hws as [|w ws [Hw _] _ IH]; [done|].
    by rewrite filter_cons_True, IH.
  - subst ws. clear Hne. induction l as [|p l IH]; [constructor|].
    apply Forall_cons in Hd as [Hp Hd]. cbn [map] in Hws.
    apply Forall_cons in Hws as [[_ Hw] Hws].
    constructor; [|by apply IH]. split; [|done].
    eapply Forall_impl; [exact Hw|]. intros c (H1 & H2 & _).
    unfold row_delims. set_solver.
Qed.

(** C7. What [read_row] gives for a key, on a table with an open file.  It
    gives nothing when the index does not have the key, and when the first
    call on the stream fails.  When no call fails and the file has at the
    offset of the key a line, a marker and columns with the delimiter
    between them, [read_row] gives nothing when the marker is the deleted
    marker or any other character than a blank, and when the line has fewer
    columns than the table; but when the line has more columns than the
    table it is not refused: [read_row] gives the first [column_count]
    columns of it. *)
Theorem read_row_extra_columns (tb : Table) (f : FILE) (primary_key : Z) :
  data_file tb = Some f →
  (search_key (primary_index tb) primary_key = (-1)%Z →
   (read_row tb primary_key).1 = None)
  ∧ (∀ calls, script f = false :: calls → (read_row tb primary_key).1 = None)
  ∧ (∀ (pre post : list ascii) (marker : ascii) (tokens : list cstring),
       script f = [] →
       search_key (primary_index tb) primary_key = Z.of_nat (length pre) →
       contents f = pre ++ marker :: joined tokens ++ LF :: post →
       marker ≠ LF →
       Forall (λ w, w ≠ [] ∧ Forall plain_char w) tokens →
       length (joined tokens) + 2 < MAX_ROW_LEN →
       (read_row tb primary_key).1
       = if bool_decide (marker = " "%char)
            && bool_decide (column_count tb ≤ length tokens)
         then Some (take (column_count tb) tokens) else None).
Proof.
  intros Hf. split_and!.
  - intros Hk. unfold read_row. rewrite Hf, Hk. cbv zeta.
    by rewrite bool_decide_eq_true_2.
  - intros calls Hs. unfold read_row. rewrite Hf. cbv zeta.
    case_bool_decide; [done|]. unfold fseek_set, io_call. rewrite Hs. done.
  - intros pre post marker tokens Hs Hk Hc Hm Htok Hfit.
    assert (Forall (λ c, c ≠ LF) (joined tokens)) as Hnl.
    { clear -Htok. induction Htok as [|w ws [_ Hw] _ IH]; [constructor|].
      assert (Forall (λ c, c ≠ LF) w) as Hw'
        by (eapply Forall_impl; [exact Hw|]; by intros c (_ & ? & _)).
      destruct ws as [|w' ws]; [done|]. rewrite joined_cons.
      apply Forall_app. split; [done|]. by constructor. }
    assert (Forall (λ c, c ≠ NUL) (joined tokens ++ [LF])) as Hnn.
    { apply Forall_app. split; [|by apply Forall_singleton].
      clear -Htok. induction Htok as [|w ws [_ Hw] _ IH]; [constructor|].
      assert (Forall (λ c, c ≠ NUL) w) as Hw'
        by (eapply Forall_impl; [exact Hw|]; by intros c (_ & _ & _ & ?)).
      destruct ws as [|w' ws]; [done|]. rewrite joined_cons.
      apply Forall_app. split; [done|]. by constructor. }
    unfold read_row. rewrite Hf, Hk. cbv zeta.
    rewrite bool_decide_eq_false_2 by lia.
    rewrite fseek_set_quiet by (done || lia). cbn [negb].
    match goal with |- context [fgets _ ?x] => set (g := x) end.
    pose proof (fgets_line g (marker :: joined tokens) post) as Hg.
    destruct (fgets MAX_ROW_LEN g) as [r f2]. cbn [fst] in Hg.
    rewrite Hg; cycle 1.
    { done. }
    { subst g. cbn [position contents]. rewrite Nat2Z.id, Hc.
      by rewrite drop_app_length. }
    { by constructor. }
    { simpl. lia. }
    cbn [app hd tl]. unfold DELETED_MARKER.
    destruct (decide (marker = " "%char)) as [->|Hsp].
    + rewrite bool_decide_eq_false_2 by done.
      rewrite !bool_decide_eq_true_2 by done. cbn [negb andb].
      rewrite c_str_id by done. rewrite parse_joined by done.
      rewrite length_take.
      destruct (decide (column_count tb ≤ length tokens)) as [Hle|Hgt].
      * rewrite !bool_decide_eq_true_2 by lia. done.
      * rewrite !bool_decide_eq_false_2 by lia. done.
    + rewrite (bool_decide_eq_false_2 (marker = " "%char)) by done.
      cbn [negb andb]. by case_bool_decide.
Qed.

(** * More properties of the index *)

Lemma run_inv ops :
  no_dup_insert [] ops = true → tree_inv (run ops) (entries (rev ops)).
Proof.
  intros Hv.
  pose proof (tree_inv_run ops [] initialize_tree tree_inv_init Hv) as Hinv.
  by rewrite app_nil_r in Hinv.
Qed.

(** ** The descent to a leaf *)

(** X1. On an index built by [insert_key] and [delete_key], [find_leaf_node]
    gives a node for every key, never NULL, and the node is a leaf of the
    tree. *)
Theorem find_leaf_node_leaf (ops : list op) (key : Z) :
  no_dup_insert [] ops = true →
  ∃ leaf, find_leaf_node (run ops) (root (run ops)) key = Some leaf
          ∧ is_leaf (node_at (run ops) leaf) = true
          ∧ leaf ∈ tree_nodes (run ops).
Proof.
  intros Hv. destruct (run_inv ops Hv) as (D & T & Hrep & _).
  pose proof (hrep_depth _ _ _ Hrep) as Hd.
  destruct (hrep_descend _ _ _ key Hrep)
    as (c & a & ks & os & nd & _ & HT & _ & _ & _ & Hnd & Hn & _ & Hfind).
  exists a. split; [done|]. rewrite (node_at_lookup _ _ _ Hnd).
  split; [by destruct Hn as (_ & ? & _)|].
  destruct Hrep as (Hroot & Hr & _).
  unfold tree_nodes. rewrite Hroot.
  rewrite (subtree_nodes_rep D _ _ _ T) by (done || lia).
  rewrite HT. rewrite addrs_plug. apply elem_of_app. left. by left.
Qed.

(** ** Levels *)

Lemma print_tree_rep d : ∀ t m p T fuel level a l,
  rep d (nodes t) m p T → d < fuel →
  (a, l) ∈ print_tree_recursive fuel t (Some (addr T)) level →
  a ∈ addrs T ∧ l ≤ level + d
  ∧ (is_leaf (node_at t a) = true ↔ l = level + d).
Proof.
  induction d as [|d IH]; intros t m p T fuel level a l HT Hf Hin.
  - destruct T as [x ks os|]; [|done]. destruct fuel; [lia|]. simpl in Hin.
    destruct HT as (_ & nd & Hnd & Hn).
    rewrite (node_at_lookup _ _ _ Hnd) in Hin.
    pose proof Hn as (_ & Hl & _). rewrite Hl in Hin.
    apply list_elem_of_singleton in Hin as [= -> ->].
    rewrite (node_at_lookup _ _ _ Hnd), Hl.
    split; [by left|]. split; [lia|]. split; [lia|done].
  - destruct T as [|x ks cs]; [done|]. destruct fuel as [|fuel]; [lia|].
    apply rep_node_inv in HT as (Hm & H1 & Hlen & (nd & Hnd & Hnode) & Hcs).
    cbn [print_tree_recursive addr] in Hin.
    rewrite (node_at_lookup _ _ _ Hnd) in Hin.
    pose proof Hnode as (_ & Hl & _). rewrite Hl in Hin.
    rewrite (node_is_children _ _ _ _ _ Hnode) in Hin.
    apply elem_of_cons in Hin as [[= -> ->]|Hin].
    + rewrite (node_at_lookup _ _ _ Hnd), Hl. split; [by left|].
      split; [lia|]. split; [done|lia].
    + apply list_elem_of_In, in_concat in Hin as (pl & Hpl & Hin).
      apply list_elem_of_In in Hpl, Hin.
      apply list_elem_of_fmap in Hpl as (co & -> & Hco).
      unfold caddrs in Hco. apply list_elem_of_fmap in Hco as (c & -> & Hc).
      rewrite Forall_forall in Hcs.
      destruct (IH t _ _ c fuel (S level) a l (Hcs _ Hc) ltac:(lia) Hin)
        as (Ha & Hle & Hiff).
      split; [by eapply addrs_child|]. split; [lia|].
      rewrite Hiff. lia.
Qed.

(** X2. The tree of an index built by [insert_key] and [delete_key] is
    balanced: the leaves that [print_tree] prints are all on one level, and
    no other node is as deep. *)
Theorem leaves_on_one_level (ops : list op) :
  no_dup_insert [] ops = true →
  ∃ height, ∀ a l, (a, l) ∈ print_tree (run ops) →
    l ≤ height ∧ (is_leaf (node_at (run ops) a) = true ↔ l = height).
Proof.
  intros Hv. destruct (run_inv ops Hv) as (D & T & Hrep & _).
  pose proof (hrep_depth _ _ _ Hrep) as Hd.
  destruct Hrep as (Hroot & Hr & _).
  exists D. intros a l Hin. unfold print_tree in Hin. rewrite Hroot in Hin.
  destruct (print_tree_rep D (run ops) _ _ T (S (brk (run ops))) 0 a l Hr)
    as (_ & ? & ?); [lia|done|done].
Qed.

(** ** Parents *)

Lemma rep_root_parent d h m p T :
  rep d h m p T → ∃ nd, h !! addr T = Some nd ∧ parent nd = p.
Proof.
  destruct d, T as [x ks os|x ks cs]; try done; simpl.
  - intros (_ & nd & Hnd & _ & _ & Hp & _). eauto.
  - intros (_ & _ & (nd & Hnd & _ & _ & Hp & _) & _). eauto.
Qed.

Lemma rep_parents d : ∀ h m p T a,
  rep d h m p T → a ∈ addrs T →
  ∃ nd, h !! a = Some nd
        ∧ (is_leaf nd = false → ∀ i c, i ≤ num_keys nd →
             child_at nd i = Some c →
             ∃ cn, h !! c = Some cn ∧ parent cn = Some a).
Proof.
  induction d as [|d IH]; intros h m p T a HT Ha.
  - destruct T as [x ks os|]; [|done]. destruct HT as (Hm & nd & Hnd & Hn).
    apply list_elem_of_singleton in Ha as ->. exists nd. split; [done|].
    destruct Hn as (_ & Hl & Hp & _). by rewrite Hl.
  - destruct T as [|x ks cs]; [done|].
    apply rep_node_inv in HT as (Hm & H1 & Hlen & (nd & Hnd & Hnode) & Hcs).
    rewrite addrs_node in Ha. rewrite Forall_forall in Hcs.
    apply elem_of_cons in Ha as [->|Ha].
    + exists nd. split; [done|].
      pose proof Hnode as (_ & _ & Hp & Hnk & _).
      intros _ i c Hi Hc. rewrite Hnk in Hi.
      rewrite (node_is_child _ _ _ _ _ i Hnode) in Hc by lia.
      destruct (lookup_lt_is_Some_2 cs i ltac:(lia)) as [ch Hch].
      assert (caddrs cs !! i = Some (Some (addr ch))) as Hci
        by (unfold caddrs; by rewrite list_lookup_fmap, Hch).
      rewrite (list_lookup_total_correct _ _ _ Hci) in Hc. simplify_eq.
      pose proof (Hcs _ (list_elem_of_lookup_2 _ _ _ Hch)) as Hrc.
      by apply (rep_root_parent _ _ _ _ _ Hrc).
    + apply list_elem_of_bind in Ha as (c & Ha & Hc).
      by apply (IH _ _ _ _ _ (Hcs _ Hc) Ha).
Qed.

(** X3. On an index built by [insert_key] and [delete_key], the parent of the
    root is NULL, and the parent of each of the [k + 1] children of an
    internal node with [k] keys is that node. *)
Theorem parent_pointers (ops : list op) :
  no_dup_insert [] ops = true →
  let t := run ops in
  (∃ r, root t = Some r ∧ parent (node_at t r) = None)
  ∧ ∀ a i c, a ∈ tree_nodes t → is_leaf (node_at t a) = false →
      i ≤ num_keys (node_at t a) → child_at (node_at t a) i = Some c →
      parent (node_at t c) = Some a.
Proof.
  intros Hv t. destruct (run_inv ops Hv) as (D & T & Hrep & _). fold t in Hrep.
  pose proof (hrep_depth _ _ _ Hrep) as Hd.
  destruct Hrep as (Hroot & Hr & _). split.
  - exists (addr T). split; [done|].
    destruct (rep_root_parent _ _ _ _ _ Hr) as (nd & Hnd & Hp).
    by rewrite (node_at_lookup _ _ _ Hnd).
  - intros a i c Ha Hl Hi Hc. unfold tree_nodes in Ha. rewrite Hroot in Ha.
    rewrite (subtree_nodes_rep D t _ _ T) in Ha by (done || lia).
    destruct (rep_parents _ _ _ _ _ _ Hr Ha) as (nd & Hnd & Hch).
    rewrite (node_at_lookup _ _ _ Hnd) in Hl, Hi, Hc.
    destruct (Hch Hl i c Hi Hc) as (cn & Hcn & Hp).
    by rewrite (node_at_lookup _ _ _ Hcn).
Qed.

(** ** The nodes of the tree *)

(** X4. On an index built by [insert_key] and [delete_key], the nodes reached
    from the root through the children in use, [children[0..num_keys]] of
    an internal node, are cells of the pool below the allocation mark; no
    node is reached twice; and each child in use of such a node is a cell of
    the pool.  The slots of [children] past [children[num_keys]] are not
    reached and the statement leaves them out. *)
Theorem tree_nodes_allocated (ops : list op) :
  no_dup_insert [] ops = true →
  let t := run ops in
  NoDup (tree_nodes t)
  ∧ (∀ a, a ∈ tree_nodes t → is_Some (nodes t !! a) ∧ a < brk t)
  ∧ ∀ a i c, a ∈ tree_nodes t → is_leaf (node_at t a) = false →
      i ≤ num_keys (node_at t a) → child_at (node_at t a) i = Some c →
      is_Some (nodes t !! c).
Proof.
  intros Hv t. destruct (run_inv ops Hv) as (D & T & Hrep & _). fold t in Hrep.
  pose proof (hrep_depth _ _ _ Hrep) as Hd.
  destruct Hrep as (Hroot & Hr & Hnd & Hok & _).
  unfold tree_nodes. rewrite Hroot.
  rewrite (subtree_nodes_rep D t _ _ T) by (done || lia).
  split; [done|]. split.
  - intros a Ha.
    destruct (rep_addrs_dom _ _ _ _ _ _ Hr Ha) as [nd Hn].
    split; [by eauto|]. by eapply Hok.
  - intros a i c Ha Hl Hi Hc.
    destruct (rep_parents _ _ _ _ _ _ Hr Ha) as (nd & Hn & Hch).
    rewrite (node_at_lookup _ _ _ Hn) in Hl, Hi, Hc.
    destruct (Hch Hl i c Hi Hc) as (cn & Hcn & _). by eauto.
Qed.

(** ** The keys of the leaves *)

Lemma shape_items d : ∀ T, shape d T → Forall item_wf (trav T).
Proof.
  induction d as [|d IH]; intros [a ks os|a ks cs] HT; try done.
  - by repeat constructor.
  - destruct HT as [_ Hcs]. cbn [trav]. apply Forall_interleave.
    + apply Forall_map. eapply Forall_impl; [exact Hcs|]. apply IH.
    + apply Forall_map. by apply Forall_true.
Qed.

Lemma items_keys l :
  Forall item_wf l → (l ≫= item_conts).*1 = l ≫= item_keys.
Proof.
  induction 1 as [|it l Hit _ IH]; [done|].
  rewrite !bind_cons, fmap_app, IH. f_equal.
  destruct it as [a ks os|]; [|done]. simpl in *. apply fst_zip. lia.
Qed.

Lemma hrep_leaf_chain_keys t D T :
  hrep t D T → leaf_chain_keys t = lkeys T.
Proof.
  intros Hrep. pose proof (hrep_depth _ _ _ Hrep) as Hd.
  destruct Hrep as (Hroot & HT & Hnd & Hok & Hch).
  unfold leaf_chain_keys. rewrite Hroot.
  destruct (leftmost_from_rep D t _ _ T (S (brk t)) HT ltac:(lia))
    as (a & l & Hl & ->).
  replace (Some a) with (head (trav T ≫= item_leaf))
    by (by fold (laddrs T); rewrite Hl).
  apply chain_from_items; [by eapply rep_items_ok|done|].
  fold (laddrs T).
  pose proof (submseteq_length _ _ (laddrs_addrs T)).
  pose proof (NoDup_bounded_length _ (brk t) Hnd
                (rep_addrs_bound _ _ _ _ _ _ eq_refl Hok HT)). lia.
Qed.

(** X5. On an index built by [insert_key] and [delete_key], the leaf chain
    holds the keys that are in the index and no other: a key is met on the
    walk from the leftmost leaf exactly when it was inserted and not deleted
    since. *)
Theorem leaf_chain_keys_present (ops : list op) (k : Z) :
  no_dup_insert [] ops = true →
  k ∈ leaf_chain_keys (run ops) ↔ is_Some (latest (rev ops) k).
Proof.
  intros Hv. destruct (run_inv ops Hv) as (D & T & Hrep & Hs & HM).
  rewrite (hrep_leaf_chain_keys _ _ _ Hrep).
  rewrite <- entries_latest, <- HM. unfold lkeys.
  rewrite <- items_keys by (eapply shape_items, hrep_shape; exact Hrep).
  fold (conts T). rewrite <- not_eq_None_Some.
  pose proof (not_elem_of_list_to_map (M:=gmap Z) (conts T) k) as Hiff.
  destruct (decide (k ∈ (conts T).*1)); tauto.
Qed.

(** ** Separators *)

Lemma io_node_split a kl s kr cl c c' cr :
  length kl = length cl → length kr = length cr →
  io (BNode a (kl ++ s :: kr) (cl ++ c :: c' :: cr))
  = (tL (mkFrame a kl cl (s :: kr) (c' :: cr)) ≫= item_io)
    ++ io c ++ (2 * s)%Z :: io c'
    ++ (tR (mkFrame a kl cl kr cr) ≫= item_io).
Proof.
  intros Hl Hr.
  change (BNode a (kl ++ s :: kr) (cl ++ c :: c' :: cr))
    with (fill (mkFrame a kl cl (s :: kr) (c' :: cr)) c).
  unfold io. rewrite trav_fill by (simpl; lia).
  rewrite (tR_cons a kl cl s kr c' cr kl cl).
  rewrite !bind_app, bind_cons, !bind_app. done.
Qed.

Lemma ssorted_mid l1 m l2 : ssorted (l1 ++ m ++ l2) → ssorted m.
Proof.
  intros (_ & (Hm & _)%ssorted_app & _)%ssorted_app. done.
Qed.

Lemma rep_separators d : ∀ t m p T a F,
  rep d (nodes t) m p T → ssorted (io T) → d ≤ F → a ∈ addrs T →
  ∃ nd, nodes t !! a = Some nd
    ∧ (is_leaf nd = false → ∀ i c c', i < num_keys nd →
         child_at nd i = Some c → child_at nd (S i) = Some c' →
         (∀ k, k ∈ inorder_from F t c → (k < key_at nd i)%Z)
         ∧ (∀ k, k ∈ inorder_from F t c' → (key_at nd i ≤ k)%Z)).
Proof.
  induction d as [|d IH]; intros t m p T a F HT Hs HF Ha.
  - destruct T as [x ks os|]; [|done]. destruct HT as (Hm & nd & Hnd & Hn).
    apply list_elem_of_singleton in Ha as ->. exists nd. split; [done|].
    destruct Hn as (_ & Hl & _). by rewrite Hl.
  - destruct T as [|x ks cs]; [done|].
    pose proof HT as HT'.
    apply rep_node_inv in HT as (Hm & H1 & Hlen & (nd & Hnd & Hnode) & Hcs).
    rewrite addrs_node in Ha. rewrite Forall_forall in Hcs.
    apply elem_of_cons in Ha as [->|Ha].
    + exists nd. split; [done|].
      pose proof Hnode as (_ & _ & _ & Hnk & _).
      intros _ i c c' Hi Hc Hc'. rewrite Hnk in Hi.
      rewrite (node_is_child _ _ _ _ _ i Hnode) in Hc by lia.
      rewrite (node_is_child _ _ _ _ _ (S i) Hnode) in Hc' by lia.
      rewrite (node_is_key _ _ _ _ _ _ i Hnode) by lia.
      destruct (lookup_lt_is_Some_2 cs i ltac:(lia)) as [C HC].
      destruct (lookup_lt_is_Some_2 cs (S i) ltac:(lia)) as [C' HC'].
      destruct (lookup_lt_is_Some_2 ks i ltac:(lia)) as [s Hsi].
      assert (caddrs cs !! i = Some (Some (addr C))) as Hci
        by (unfold caddrs; by rewrite list_lookup_fmap, HC).
      assert (caddrs cs !! S i = Some (Some (addr C'))) as Hci'
        by (unfold caddrs; by rewrite list_lookup_fmap, HC').
      rewrite (list_lookup_total_correct _ _ _ Hci) in Hc.
      rewrite (list_lookup_total_correct _ _ _ Hci') in Hc'.
      rewrite (list_lookup_total_correct _ _ _ Hsi). simplify_eq.
      pose proof (take_drop_middle _ _ _ HC) as HcsE.
      pose proof (take_drop_middle _ _ _ Hsi) as HksE.
      assert (drop (S i) cs = C' :: drop (S (S i)) cs) as HdE.
      { by apply drop_S. }
      rewrite HdE in HcsE. rewrite <- HcsE, <- HksE in Hs.
      rewrite io_node_split in Hs; cycle 1.
      { rewrite !length_take. lia. }
      { rewrite !length_drop. lia. }
      apply ssorted_app in Hs as (_ & Hs & _).
      apply ssorted_app in Hs as (_ & Hs2 & Hlt).
      apply ssorted_cons in Hs2 as [Hgt _].
      pose proof (Hcs _ (list_elem_of_lookup_2 _ _ _ HC)) as HrC.
      pose proof (Hcs _ (list_elem_of_lookup_2 _ _ _ HC')) as HrC'.
      rewrite (inorder_from_rep d t _ _ C F HrC) by lia.
      rewrite (inorder_from_rep d t _ _ C' F HrC') by lia.
      split.
      * intros k Hk%keys_in_io. fold (io C) in Hk.
        specialize (Hlt _ (2 * s)%Z Hk ltac:(by left)). lia.
      * intros k Hk%keys_in_io. fold (io C') in Hk.
        specialize (Hgt (2 * k + 1)%Z). 
        assert (2 * s < 2 * k + 1)%Z; [|lia].
        apply Hgt, elem_of_app. by left.
    + apply list_elem_of_bind in Ha as (c & Ha & Hc).
      apply (IH t _ _ c a F (Hcs _ Hc)); [|lia|done].
      destruct (list_elem_of_lookup_1 _ _ Hc) as [j Hj].
      pose proof (take_drop_middle _ _ _ Hj) as HcsE.
      pose proof (lookup_lt_Some _ _ _ Hj) as Hjlt.
      rewrite <- HcsE in Hs. unfold io in Hs. cbn [trav] in Hs.
      rewrite map_app in Hs. cbn [map] in Hs.
      rewrite <- (take_drop j (map ISep ks)) in Hs.
      rewrite interleave_app in Hs; cycle 1.
      { rewrite !length_take, !length_map, length_take. lia. }
      rewrite interleave_zip in Hs; cycle 1.
      { rewrite length_drop, !length_map, length_drop. lia. }
      rewrite !bind_app in Hs. by apply ssorted_mid in Hs.
Qed.

(** X6. On an index built by [insert_key] and [delete_key], a key of an
    internal node separates the subtrees on its two sides: the keys under the
    child before it are below it, the keys under the child after it are not. *)
Theorem separators_bound (ops : list op) :
  no_dup_insert [] ops = true →
  let t := run ops in
  ∀ a i c c', a ∈ tree_nodes t → is_leaf (node_at t a) = false →
    i < num_keys (node_at t a) →
    child_at (node_at t a) i = Some c →
    child_at (node_at t a) (S i) = Some c' →
    (∀ k, k ∈ inorder_from (S (brk t)) t c → (k < key_at (node_at t a) i)%Z)
    ∧ (∀ k, k ∈ inorder_from (S (brk t)) t c'
            → (key_at (node_at t a) i ≤ k)%Z).
Proof.
  intros Hv t a i c c' Ha Hl Hi Hc Hc'.
  destruct (run_inv ops Hv) as (D & T & Hrep & Hs & _). fold t in Hrep.
  pose proof (hrep_depth _ _ _ Hrep) as Hd.
  destruct Hrep as (Hroot & Hr & _).
  unfold tree_nodes in Ha. rewrite Hroot in Ha.
  rewrite (subtree_nodes_rep D t _ _ T) in Ha by (done || lia).
  destruct (rep_separators D t _ _ T a (S (brk t)) Hr Hs ltac:(lia) Ha)
    as (nd & Hnd & Hsep).
  rewrite (node_at_lookup _ _ _ Hnd) in *. by apply Hsep.
Qed.

(** * Allocation *)

Lemma nn_refl t : no_new_cells t t.
Proof. by split. Qed.

Lemma nn_store t0 t a f : no_new_cells t0 t → no_new_cells t0 (store a f t).
Proof.
  intros [Hb Hc]. split; [done|]. intros x. simpl.
  destruct (decide (a = x)) as [->|Hne].
  - rewrite lookup_alter_eq, fmap_is_Some. apply Hc.
  - rewrite lookup_alter_ne by done. apply Hc.
Qed.

Lemma nn_store_opt t0 t p f :
  no_new_cells t0 t → no_new_cells t0 (store_opt p f t).
Proof. destruct p; [apply nn_store|done]. Qed.

Lemma nn_free t0 t a : no_new_cells t0 t → no_new_cells t0 (free a t).
Proof.
  intros [Hb Hc]. split; [done|]. intros x. simpl.
  intros [nd [_ Hx]%lookup_delete_Some]. apply Hc. eauto.
Qed.

Lemma nn_set_root t0 t r : no_new_cells t0 t → no_new_cells t0 (set_root r t).
Proof. by intros [Hb Hc]. Qed.

Lemma kc_refl t : keeps_cells t t.
Proof. by split. Qed.

Lemma kc_store t0 t a f : keeps_cells t0 t → keeps_cells t0 (store a f t).
Proof.
  intros [Hb Hc]. split; [done|]. intros x Hx. simpl.
  destruct (decide (a = x)) as [->|Hne].
  - rewrite lookup_alter_eq, fmap_is_Some. by apply Hc.
  - rewrite lookup_alter_ne by done. by apply Hc.
Qed.

Lemma kc_store_opt t0 t p f :
  keeps_cells t0 t → keeps_cells t0 (store_opt p f t).
Proof. destruct p; [apply kc_store|done]. Qed.

Lemma kc_set_root t0 t r : keeps_cells t0 t → keeps_cells t0 (set_root r t).
Proof. by intros [Hb Hc]. Qed.

Lemma kc_new t0 t leaf :
  keeps_cells t0 t → keeps_cells t0 (create_new_node leaf t).2.
Proof.
  intros [Hb Hc]. split; [simpl; lia|]. intros x Hx. simpl.
  destruct (decide (brk t = x)) as [->|Hne].
  - rewrite lookup_insert_eq. eauto.
  - rewrite lookup_insert_ne by done. by apply Hc.
Qed.

Local Opaque store store_opt free set_root node_at create_new_node.

Ltac cells :=
  repeat first
    [ assumption
    | apply nn_refl | apply kc_refl
    | apply nn_store | apply nn_store_opt | apply nn_free | apply nn_set_root
    | apply kc_store | apply kc_store_opt | apply kc_set_root | apply kc_new
    | match goal with
      | |- no_new_cells _ (if ?b then _ else _) => destruct b
      | |- keeps_cells _ (if ?b then _ else _) => destruct b
      | |- no_new_cells _ (match ?x with _ => _ end) => destruct x
      | |- keeps_cells _ (match ?x with _ => _ end) => destruct x
      end ].

(** ** [delete_key] *)

Lemma nn_merge_copy l r : ∀ fuel i t0 t,
  no_new_cells t0 t → no_new_cells t0 (merge_copy l r i fuel t).
Proof.
  induction fuel as [|fuel IH]; intros i t0 t H; [done|].
  cbn [merge_copy]. cbv zeta. apply IH. cells.
Qed.

Lemma nn_merge_nodes_body t0 t l r p i k :
  no_new_cells t0 t → no_new_cells t0 (merge_nodes_body t l r p i k).
Proof.
  intros H. unfold merge_nodes_body. cbv zeta.
  repeat first [apply nn_merge_copy | progress cells].
Qed.

Lemma nn_merge_nodes_with underflow t0 t l r i k :
  (∀ t' n, no_new_cells t0 t' → no_new_cells t0 (underflow t' n)) →
  no_new_cells t0 t → no_new_cells t0 (merge_nodes_with underflow t l r i k).
Proof.
  intros Hu H. unfold merge_nodes_with.
  destruct (parent (node_at t l)) as [p|]; [|done]. cbv zeta.
  pose proof (nn_merge_nodes_body t0 t l r p i k H) as Hb.
  destruct (_ && _); [by apply Hu|].
  destruct (_ && _); [|done].
  destruct (root _); [|done]. cells.
Qed.

Lemma nn_borrow_from_left t0 t n p ls i :
  no_new_cells t0 t → no_new_cells t0 (borrow_from_left t n p ls i).
Proof. intros H. unfold borrow_from_left. cbv zeta. cells. Qed.

Lemma nn_borrow_from_right t0 t n p rs i :
  no_new_cells t0 t → no_new_cells t0 (borrow_from_right t n p rs i).
Proof. intros H. unfold borrow_from_right. cbv zeta. cells. Qed.

Lemma nn_handle_underflow_from fuel : ∀ t0 t node,
  no_new_cells t0 t → no_new_cells t0 (handle_underflow_from fuel t node).
Proof.
  induction fuel as [|fuel IH]; intros t0 t node H.
  - destruct node as [n|]; [|done]. cbn [handle_underflow_from]. cbv zeta.
    repeat first
      [ assumption | apply nn_borrow_from_left | apply nn_borrow_from_right
      | match goal with
        | |- no_new_cells _ (if ?b then _ else _) => destruct b
        | |- no_new_cells _ (match ?x with _ => _ end) => destruct x
        end ].
  - destruct node as [n|]; [|done]. cbn [handle_underflow_from]. cbv zeta.
    repeat first
      [ assumption | apply nn_borrow_from_left | apply nn_borrow_from_right
      | apply nn_merge_nodes_with; [intros; by apply IH|]
      | match goal with
        | |- no_new_cells _ (if ?b then _ else _) => destruct b
        | |- no_new_cells _ (match ?x with _ => _ end) => destruct x
        end ].
Qed.

Lemma nn_delete_entry t0 t node key :
  no_new_cells t0 t → no_new_cells t0 (delete_entry t node key).
Proof.
  intros H. unfold delete_entry, handle_underflow. cbv zeta.
  destruct (_ || _); [done|].
  destruct (_ && _); [apply nn_handle_underflow_from; cells|].
  destruct (_ && _); [|cells].
  destruct (root _); cells.
Qed.

(** X7. [delete_key] takes no memory, whatever the tree: [malloc] is not
    called, and every cell of the pool after the call was one before. *)
Theorem delete_key_no_new_cells (t : BPlusTree) (key : Z) :
  brk (delete_key t key) = brk t
  ∧ ∀ a, is_Some (nodes (delete_key t key) !! a) → is_Some (nodes t !! a).
Proof.
  change (no_new_cells t (delete_key t key)). unfold delete_key.
  destruct (root t); [|apply nn_refl].
  destruct (find_leaf_node _ _ _); [|apply nn_refl]. cbv zeta.
  destruct (key_position _ _ _ _); [|apply nn_refl].
  apply nn_delete_entry, nn_refl.
Qed.

(** ** [insert_key] *)

Lemma kc_fill_new_internal tk tc base ni : ∀ fuel i t0 t,
  keeps_cells t0 t → keeps_cells t0 (fill_new_internal tk tc base ni i fuel t).
Proof.
  induction fuel as [|fuel IH]; intros i t0 t H; [done|].
  cbn [fill_new_internal]. cbv zeta. apply IH. cells.
Qed.

Lemma kc_split_internal_node t0 t p index key right :
  keeps_cells t0 t →
  keeps_cells t0 (split_internal_node t p index key right).2.
Proof.
  intros H. unfold split_internal_node. cbv zeta.
  destruct (split_internal_temp _ _ _ _) as [tk tc].
  pose proof (kc_new t0 t false H) as Hn.
  destruct (create_new_node false t) as [ni t1]. cbn [snd] in *.
  repeat first [apply kc_fill_new_internal | progress cells].
Qed.

Lemma kc_insert_into_node t0 t node index key rc :
  keeps_cells t0 t → keeps_cells t0 (insert_into_node node index key rc t).
Proof. intros H. unfold insert_into_node. cbv zeta. cells. Qed.

Lemma kc_insert_into_parent_from fuel : ∀ t0 t left key right,
  keeps_cells t0 t →
  keeps_cells t0 (insert_into_parent_from fuel t left key right).
Proof.
  induction fuel as [|fuel IH]; intros t0 t left key right H.
  - cbn [insert_into_parent_from].
    destruct (parent (node_at t left)) as [p|].
    + cbv zeta. destruct (bool_decide _); [by apply kc_insert_into_node|done].
    + pose proof (kc_new t0 t false H) as Hn.
      destruct (create_new_node false t) as [nr t1]. cbn [snd] in *. cells.
  - cbn [insert_into_parent_from].
    destruct (parent (node_at t left)) as [p|].
    + cbv zeta. destruct (bool_decide _); [by apply kc_insert_into_node|].
      pose proof (kc_split_internal_node t0 t p
                    (child_slot (node_at t p) left 0 (num_keys (node_at t p)))
                    key right H) as Hs.
      destruct (split_internal_node _ _ _ _ _) as [[kp ni] t9]. by apply IH.
    + pose proof (kc_new t0 t false H) as Hn.
      destruct (create_new_node false t) as [nr t1]. cbn [snd] in *. cells.
Qed.

Lemma kc_split_leaf_node t0 t leaf key off :
  keeps_cells t0 t → keeps_cells t0 (split_leaf_node t leaf key off).2.
Proof.
  intros H. unfold split_leaf_node. cbv zeta.
  destruct (split_leaf_temp _ _ _) as [tk tofs].
  pose proof (kc_new t0 t true H) as Hn.
  destruct (create_new_node true t) as [nl t1]. cbn [snd] in *. cells.
Qed.

(** X8. [insert_key] gives no memory back, whatever the tree: every cell of the
    pool before the call is one after it, and the addresses handed out so
    far stay handed out. *)
Theorem insert_key_keeps_cells (t : BPlusTree) (key file_offset : Z) :
  brk t ≤ brk (insert_key t key file_offset)
  ∧ ∀ a, is_Some (nodes t !! a) →
         is_Some (nodes (insert_key t key file_offset) !! a).
Proof.
  change (keeps_cells t (insert_key t key file_offset)). unfold insert_key.
  destruct (root t); [|apply kc_refl].
  destruct (_ && _); [unfold insert_into_leaf; cells|].
  destruct (find_leaf_node _ _ _) as [leaf|]; [|apply kc_refl].
  destruct (bool_decide _); [unfold insert_into_leaf; cells|].
  pose proof (kc_split_leaf_node t t leaf key file_offset (kc_refl t)) as Hs.
  destruct (split_leaf_node t leaf key file_offset) as [nl t8]. cbn [snd] in Hs.
  unfold insert_into_parent. by apply kc_insert_into_parent_from.
Qed.

Local Transparent store store_opt free set_root node_at create_new_node.

(** * More properties of the row store *)

(** ** A key that the index does not have *)

(** [delete_row] and [update_row] with a key that the index does not have
    fail and leave the table as it was: no call is made on the stream. *)
Lemma delete_update_absent (tb : Table) (primary_key : Z)
  (new_values : list (option cstring)) :
  search_key (primary_index tb) primary_key = (-1)%Z →
  delete_row tb primary_key = ((-1)%Z, tb)
  ∧ update_row tb primary_key new_values = ((-1)%Z, tb).
Proof.
  intros Hk. unfold delete_row, update_row.
  destruct (data_file tb); [|done]. cbv zeta. rewrite Hk.
  by rewrite bool_decide_eq_true_2.
Qed.

Lemma insert_row_present (tb : Table) (primary_key : Z)
  (values : list (option cstring)) :
  search_key (primary_index tb) primary_key ≠ (-1)%Z →
  insert_row tb primary_key values = ((-1)%Z, tb).
Proof.
  intros Hk. unfold insert_row. destruct (data_file tb); [|done].
  by rewrite bool_decide_eq_false_2.
Qed.

(** ** [read_row] reads *)

Lemma fseek_set_same f off ok f1 :
  fseek_set f off = (ok, f1) → path f1 = path f ∧ contents f1 = contents f.
Proof.
  unfold fseek_set. destruct (io_call f) as [o f0] eqn:Hio.
  apply io_call_same in Hio as (Hp & Hc & _).
  destruct (_ && _); by intros [= <- <-].
Qed.

Lemma fgets_same n f r f1 :
  fgets n f = (r, f1) → path f1 = path f ∧ contents f1 = contents f.
Proof.
  unfold fgets. destruct (io_call f) as [o f0] eqn:Hio.
  apply io_call_same in Hio as (Hp & Hc & _).
  destruct o; [|by intros [= <- <-]].
  destruct (read_line _ _); by intros [= <- <-].
Qed.

(** X9. [read_row] changes nothing of the table but the position and the state
    of its stream: the index, the columns and the bytes of the file are as
    they were. *)
Theorem read_row_reads (tb : Table) (primary_key : Z) :
  let tb' := (read_row tb primary_key).2 in
  primary_index tb' = primary_index tb
  ∧ name tb' = name tb ∧ columns tb' = columns tb
  ∧ column_count tb' = column_count tb
  ∧ (contents <$> data_file tb') = (contents <$> data_file tb)
  ∧ (path <$> data_file tb') = (path <$> data_file tb).
Proof.
  cbv zeta. unfold read_row. destruct (data_file tb) as [f|] eqn:Hf.
  2: { simpl. by rewrite Hf. }
  cbv zeta. case_bool_decide; [simpl; by rewrite Hf|].
  destruct (fseek_set f _) as [ok f1] eqn:Hs.
  apply fseek_set_same in Hs as [Hp1 Hc1].
  destruct ok; cbn [negb]; [|simpl; by rewrite Hp1, Hc1].
  destruct (fgets MAX_ROW_LEN f1) as [[buffer|] f2] eqn:Hg;
    apply fgets_same in Hg as [Hp2 Hc2].
  2: { simpl. by rewrite Hp2, Hc2, Hp1, Hc1. }
  repeat case_bool_decide; simpl; by rewrite Hp2, Hc2, Hp1, Hc1.
Qed.

(** ** What the column loop writes *)

Lemma sanitize_clean s :
  Forall (λ c, c ≠ "|"%char ∧ c ≠ LF ∧ c ≠ DELETED_MARKER) (sanitize s).
Proof.
  unfold sanitize. apply Forall_map, Forall_forall. intros c _. simpl.
  unfold sanitize_char. repeat case_bool_decide; simpl; done.
Qed.







(** ** Reading a line back *)

Lemma parse_encoded_gen cc values :
  parse_columns cc
    (strtok_r row_delims (concat (map (column_bytes cc values) (seq 0 cc))))
  = take cc (row_tokens cc values).
Proof.
  rewrite columns_pairs, parse_columns_tokens_gen.
  - by rewrite map_map.
  - apply Forall_map, Forall_forall. intros i _. simpl.
    split; [apply sanitize_no_delims|].
    unfold row_delims. case_bool_decide; set_solver.
Qed.

Lemma read_row_at tb f k off cc values pre post :
  data_file tb = Some f → script f = [] →
  search_key (primary_index tb) k = off → (0 ≤ off)%Z →
  column_count tb = cc → 0 < cc →
  contents f = pre ++ encode_row cc values ++ post →
  Z.to_nat off = length pre →
  length (encode_row cc values) < MAX_ROW_LEN →
  (read_row tb k).1
  = if bool_decide (length (take cc (row_tokens cc values)) = cc)
    then Some (take cc (row_tokens cc values)) else None.
Proof.
  intros Hf Hs Hk Hoff Hcc Hpos Hc Hpre Hfit.
  destruct (columns_last cc values Hpos) as (body & Hbody & Hnl).
  assert (encode_row cc values = (" "%char :: body) ++ [LF]) as Henc.
  { unfold encode_row. by rewrite Hbody. }
  unfold read_row. rewrite Hf, Hk. cbv zeta.
  rewrite bool_decide_eq_false_2 by lia.
  rewrite fseek_set_quiet by done. cbn [negb].
  match goal with |- context [fgets _ ?x] => set (g := x) end.
  pose proof (fgets_line g (" "%char :: body) post) as Hg.
  destruct (fgets MAX_ROW_LEN g) as [r f2]. cbn [fst] in Hg.
  rewrite Hg; cycle 1.
  { done. }
  { subst g. cbn [position contents]. rewrite Hpre, Hc, drop_app_length.
    rewrite Henc. by rewrite <- app_assoc. }
  { constructor; [done|exact Hnl]. }
  { rewrite Henc, length_app in Hfit. simpl in Hfit |- *. lia. }
  cbn [app hd tl]. rewrite bool_decide_eq_false_2 by done.
  rewrite bool_decide_eq_true_2 by done. cbn [negb].
  rewrite <- Hbody, Hcc. rewrite c_str_id by apply columns_no_NUL.
  rewrite parse_encoded_gen. by case_bool_decide.
Qed.

Lemma row_tokens_short cc values i :
  i < cc → written_values cc values !! i = Some [] →
  length (take cc (row_tokens cc values)) ≠ cc.
Proof.
  intros Hi Hw. rewrite length_take. unfold row_tokens.
  assert (length (filter (λ w, w ≠ []) (written_values cc values)) < cc);
    [|lia].
  assert (length (written_values cc values) = cc) as Hlen
    by (unfold written_values; by rewrite length_map, length_seq).
  rewrite <- Hlen at 2.
  apply list_elem_of_lookup_2 in Hw. clear -Hw.
  induction (written_values cc values) as [|w l IH]; [by apply elem_of_nil in Hw|].
  apply elem_of_cons in Hw as [<-|Hw].
  - rewrite filter_cons_False by (by intros ?). simpl.
    pose proof (length_filter (λ w, w ≠ []) l). lia.
  - specialize (IH Hw). destruct (decide (w ≠ [])).
    + rewrite filter_cons_True by done. simpl. lia.
    + rewrite filter_cons_False by done. simpl. lia.
Qed.

(** ** A row with an empty value *)

Lemma run_search ops k :
  no_dup_insert [] ops = true →
  search_key (run ops) k = default (-1)%Z (latest (rev ops) k).
Proof.
  intros Hv. rewrite (tree_inv_search _ _ k (run_inv ops Hv)).
  by rewrite entries_latest.
Qed.

Lemma run_insert_search ops k off k' :
  no_dup_insert [] ops = true → latest (rev ops) k = None →
  search_key (insert_key (run ops) k off) k'
  = if bool_decide (k' = k) then off else search_key (run ops) k'.
Proof.
  intros Hv Hk. pose proof (run_inv ops Hv) as Hinv.
  rewrite (tree_inv_search _ _ k' Hinv).
  apply (tree_inv_insert _ _ k off) in Hinv; [|by rewrite entries_latest].
  rewrite (tree_inv_search _ _ k' Hinv).
  case_bool_decide as Hkk; [subst; by rewrite lookup_insert_eq|].
  by rewrite lookup_insert_ne.
Qed.

Lemma run_delete_search ops k k' :
  no_dup_insert [] ops = true →
  search_key (delete_key (run ops) k) k'
  = if bool_decide (k' = k) then (-1)%Z else search_key (run ops) k'.
Proof.
  intros Hv. pose proof (run_inv ops Hv) as Hinv.
  rewrite (tree_inv_search _ _ k' Hinv).
  apply (tree_inv_delete _ _ k) in Hinv.
  rewrite (tree_inv_search _ _ k' Hinv).
  case_bool_decide as Hkk; [subst; by rewrite lookup_delete_eq|].
  by rewrite lookup_delete_ne.
Qed.

(** X11. [strtok_r] skips an empty column, so a row with a value that is written
    empty (the empty string, or NULL) cannot be read again: [insert_row]
    succeeds and the index has the key, but [read_row] finds fewer columns
    than the table has and gives no row. *)
Theorem insert_row_empty_value (tb : Table) (f : FILE) (ops : list op)
  (primary_key : Z) (values : list (option cstring)) (i : nat) :
  data_file tb = Some f → script f = [] →
  primary_index tb = run ops → no_dup_insert [] ops = true →
  latest (rev ops) primary_key = None →
  i < column_count tb →
  written_values (column_count tb) values !! i = Some [] →
  length (encode_row (column_count tb) values) < MAX_ROW_LEN →
  ∃ off tb',
    insert_row tb primary_key values = (off, tb')
    ∧ off = Z.of_nat (length (contents f))
    ∧ search_key (primary_index tb') primary_key = off
    ∧ (read_row tb' primary_key).1 = None.
Proof.
  intros Hf Hs Hix Hv Hk Hi Hw Hfit.
  unfold insert_row. rewrite Hf, Hix, (run_search ops _ Hv), Hk.
  cbn [default]. rewrite bool_decide_eq_true_2 by done. cbn [negb].
  destruct (append_row_quiet (column_count tb) values f Hs) as (f' & Ha & Hs').
  rewrite Ha. apply append_row_Some in Ha as (_ & Hc & _ & _).
  eexists _, _. split; [reflexivity|]. split; [done|].
  assert (search_key (insert_key (run ops) primary_key
                        (Z.of_nat (length (contents f)))) primary_key
          = Z.of_nat (length (contents f))) as Hsk.
  { rewrite run_insert_search by done. by rewrite bool_decide_eq_true_2. }
  split; [exact Hsk|].
  rewrite (read_row_at _ f' primary_key (Z.of_nat (length (contents f)))
             (column_count tb) values (contents f) []);
    try done; try lia.
  - rewrite bool_decide_eq_false_2; [done|]. by eapply row_tokens_short.
  - by rewrite app_nil_r.
Qed.

(** ** An update that fails half way *)





(** ** [delete_row] *)

(** X13. A [delete_row] that returns 0 on a table whose index was built by
    [insert_key] and [delete_key]: the index has lost the key and no other,
    [read_row] gives no row for the key, and of the file one byte is written,
    the delete marker at the offset the index had. *)
Theorem delete_row_done (tb tb' : Table) (f : FILE) (ops : list op)
  (primary_key : Z) :
  data_file tb = Some f →
  primary_index tb = run ops → no_dup_insert [] ops = true →
  delete_row tb primary_key = (0%Z, tb') →
  search_key (primary_index tb') primary_key = (-1)%Z
  ∧ (∀ k, k ≠ primary_key →
          search_key (primary_index tb') k = search_key (primary_index tb) k)
  ∧ (read_row tb' primary_key).1 = None
  ∧ ∃ f', data_file tb' = Some f'
          ∧ contents f'
            = write_at (Z.to_nat (search_key (primary_index tb) primary_key))
                [DELETED_MARKER] (contents f).
Proof.
  intros Hf Hix Hv. unfold delete_row. rewrite Hf. cbv zeta.
  case_bool_decide as Hk; [done|].
  destruct (fseek_set f _) as [ok1 f1] eqn:H1.
  assert (ok1 = true →
          position f1 = Z.to_nat (search_key (primary_index tb) primary_key)
          ∧ contents f1 = contents f) as Hpos.
  { unfold fseek_set in H1. destruct (io_call f) as [o f0] eqn:Hio.
    apply io_call_same in Hio as (_ & Hc & _).
    destruct (_ && _); injection H1 as <- <-; [done|by intros]. }
  destruct ok1; cbn [negb]; [|done]. destruct (Hpos eq_refl) as [Hp1 Hc1].
  destruct (fwrite f1 [DELETED_MARKER]) as [ok2 f2] eqn:H2.
  destruct ok2; cbn [negb]; [|done].
  assert (contents f2 = write_at (position f1) [DELETED_MARKER] (contents f1))
    as Hc2.
  { unfold fwrite in H2. destruct (io_call f1) as [o f0] eqn:Hio.
    apply io_call_same in Hio as (_ & Hc & Hp).
    destruct o; [|done]. injection H2 as <-. simpl. by rewrite Hc, Hp. }
  destruct (fflush f2) as [ok3 f3] eqn:H3.
  apply io_call_same in H3 as (_ & Hc3 & _).
  destruct ok3; cbn [negb]; [|done]. intros [= <-].
  cbn [primary_index with_index with_file data_file]. rewrite Hix.
  split_and!.
  - rewrite run_delete_search by done. by rewrite bool_decide_eq_true_2.
  - intros k Hne. rewrite run_delete_search by done.
    by rewrite bool_decide_eq_false_2.
  - unfold read_row. cbn [data_file primary_index with_index with_file].
    cbv zeta. rewrite run_delete_search by done.
    rewrite (bool_decide_eq_true_2 (primary_key = primary_key)) by done.
    by rewrite bool_decide_eq_true_2.
  - exists f3. split; [done|]. by rewrite Hc3, Hc2, Hp1, Hc1, Hix.
Qed.

(** * Sequences of row operations *)

(** ** Lines and offsets *)

Lemma concat_middle {A} (segs : list (list A)) i s :
  segs !! i = Some s →
  concat segs = concat (take i segs) ++ s ++ concat (drop (S i) segs).
Proof.
  intros Hi. rewrite <- (take_drop_middle _ _ _ Hi) at 1.
  by rewrite concat_app.
Qed.

Lemma length_concat_sum {A} (l : list (list A)) :
  length (concat l) = sum_list (length <$> l).
Proof.
  induction l as [|x l IH]; [done|].
  rewrite fmap_cons. cbn [concat sum_list]. by rewrite length_app, IH.
Qed.

Lemma seg_offset_insert segs i s x j :
  segs !! i = Some s → length x = length s →
  seg_offset (<[i := x]> segs) j = seg_offset segs j.
Proof.
  intros Hi Hl. unfold seg_offset. f_equal.
  rewrite !length_concat_sum, !fmap_take, list_fmap_insert.
  rewrite Hl. rewrite list_insert_id; [done|].
  by rewrite list_lookup_fmap, Hi.
Qed.

Lemma seg_offset_app segs e j :
  j ≤ length segs → seg_offset (segs ++ e) j = seg_offset segs j.
Proof. intros Hj. unfold seg_offset. by rewrite take_app_le. Qed.

Lemma seg_offset_end segs e :
  seg_offset (segs ++ e) (length segs) = Z.of_nat (length (concat segs)).
Proof. unfold seg_offset. by rewrite take_app_length. Qed.

Lemma write_at_concat segs i c s c' :
  segs !! i = Some (c :: s) →
  write_at (length (concat (take i segs))) [c'] (concat segs)
  = concat (<[i := c' :: s]> segs).
Proof.
  intros Hi. pose proof (lookup_lt_Some _ _ _ Hi) as Hlt.
  rewrite (insert_take_drop segs i (c' :: s) Hlt), concat_app.
  rewrite (concat_middle segs i _ Hi).
  set (A := concat (take i segs)). set (B := concat (drop (S i) segs)).
  unfold write_at. rewrite length_app.
  replace (length A - (length A + length ((c :: s) ++ B))) with 0 by lia.
  cbn [replicate]. rewrite app_nil_r, take_app_length. f_equal.
  cbn [concat app length]. f_equal.
  rewrite drop_app_ge by lia.
  replace (length A + 1 - length A) with 1 by lia. done.
Qed.

(** ** The table as a list of lines *)

Lemma encode_row_cons cc values :
  ∃ s, encode_row cc values = " "%char :: s.
Proof. unfold encode_row. eauto. Qed.

Lemma table_inv_search cc tb R k :
  table_inv cc tb R →
  search_key (primary_index tb) k = (-1)%Z ↔ R !! k = None.
Proof.
  intros (f & M & segs & pos & _ & _ & _ & Hinv & _ & HM & Hnone & Hsome & _).
  rewrite (tree_inv_search _ _ k Hinv), HM.
  destruct (R !! k) as [v|] eqn:HR.
  - destruct (Hsome _ _ HR) as (_ & i & -> & _). simpl. unfold seg_offset.
    split; [lia|done].
  - by rewrite (Hnone _ HR).
Qed.

Lemma table_inv_read cc tb R k :
  0 < cc → table_inv cc tb R →
  (read_row tb k).1 = written_values cc <$> R !! k.
Proof.
  intros Hcc Hinv. pose proof (table_inv_search cc tb R k Hinv) as Hsk.
  destruct Hinv
    as (f & M & segs & pos & Hf & Hs & Hc & Hinv & Hcont & HM & Hnone & Hsome & _).
  destruct (R !! k) as [v|] eqn:HR; simpl.
  2: { unfold read_row. rewrite Hf. cbv zeta.
       by rewrite bool_decide_eq_true_2 by tauto. }
  destruct (Hsome _ _ HR) as ((Hne & Hfit) & i & Hpos & Hseg).
  assert (search_key (primary_index tb) k = seg_offset segs i) as Hoff.
  { rewrite (tree_inv_search _ _ k Hinv), HM, Hpos. done. }
  rewrite (read_row_at tb f k (seg_offset segs i) cc v
             (concat (take i segs)) (concat (drop (S i) segs)));
    try done.
  - assert (row_tokens cc v = written_values cc v) as ->.
    { unfold row_tokens. clear -Hne.
      induction Hne as [|w l Hw _ IH]; [done|].
      rewrite filter_cons_True by done. by rewrite IH. }
    assert (length (written_values cc v) = cc) as Hlen
      by (unfold written_values; by rewrite length_map, length_seq).
    rewrite take_ge by lia. by rewrite bool_decide_eq_true_2.
  - unfold seg_offset. lia.
  - rewrite Hcont. by apply concat_middle.
  - unfold seg_offset. lia.
Qed.

Lemma table_rep_search cc tb R f M segs pos k :
  table_rep cc tb R f M segs pos →
  search_key (primary_index tb) k = (-1)%Z ↔ R !! k = None.
Proof. intros H. apply (table_inv_search cc). by exists f, M, segs, pos. Qed.

Lemma table_rep_insert cc tb R f M segs pos k values :
  table_rep cc tb R f M segs pos → good_values cc values → R !! k = None →
  ∃ f', table_rep cc (insert_row tb k values).2 (<[k := values]> R) f'
          (<[k := Z.of_nat (length (contents f))]> M)
          (segs ++ [encode_row cc values]) (<[k := length segs]> pos).
Proof.
  intros Hinv Hgood HR.
  pose proof (proj2 (table_rep_search cc tb R f M segs pos k Hinv) HR) as Hsk.
  destruct Hinv as (Hf & Hs & Hc & Hinv & Hcont & HM & Hnone & Hsome & Hinj).
  unfold insert_row. rewrite Hf, Hsk.
  rewrite bool_decide_eq_true_2 by done. cbn [negb].
  destruct (append_row_quiet (column_count tb) values f Hs) as (f' & Ha & Hs').
  rewrite Ha. apply append_row_Some in Ha as (_ & Hc' & _ & _).
  cbn [snd]. rewrite Hc in *.
  exists f'. unfold table_rep.
  assert (pos !! k = None) as Hpk by (by apply Hnone).
  assert (∀ k' i, pos !! k' = Some i → i < length segs) as Hbound.
  { intros k' i Hp. destruct (R !! k') as [v|] eqn:HR'.
    - destruct (Hsome _ _ HR') as (_ & j & Hj & Hseg). simplify_eq.
      by eapply lookup_lt_Some.
    - rewrite (Hnone _ HR') in Hp. done. }
  split_and!; try done.
  - apply tree_inv_insert; [done|]. by rewrite HM, Hpk.
  - rewrite Hc', Hcont, concat_app. simpl. by rewrite app_nil_r.
  - intros k'. destruct (decide (k' = k)) as [->|Hne].
    + rewrite !lookup_insert_eq. simpl. rewrite seg_offset_end.
      by rewrite Hcont.
    + rewrite !lookup_insert_ne by done. rewrite HM.
      destruct (pos !! k') as [i|] eqn:Hp; [|done]. simpl. f_equal.
      symmetry. apply seg_offset_app. specialize (Hbound _ _ Hp). lia.
  - intros k'. destruct (decide (k' = k)) as [->|Hne].
    + by rewrite lookup_insert_eq.
    + rewrite !lookup_insert_ne by done. apply Hnone.
  - intros k' v'. destruct (decide (k' = k)) as [->|Hne].
    + rewrite lookup_insert_eq. intros [= <-]. split; [done|].
      exists (length segs). rewrite lookup_insert_eq. split; [done|].
      by rewrite lookup_app_r, Nat.sub_diag by lia.
    + rewrite !lookup_insert_ne by done. intros HR'.
      destruct (Hsome _ _ HR') as (Hg & i & Hp & Hseg).
      split; [done|]. exists i. split; [done|].
      rewrite lookup_app_l; [done|]. by eapply lookup_lt_Some.
  - intros k1 k2 i.
    destruct (decide (k1 = k)) as [->|Hne1], (decide (k2 = k)) as [->|Hne2];
      rewrite ?lookup_insert_eq, ?lookup_insert_ne by done; try done.
    + intros [= <-] Hp. specialize (Hbound _ _ Hp). lia.
    + intros Hp [= <-]. specialize (Hbound _ _ Hp). lia.
    + apply Hinj.
Qed.

Lemma table_inv_insert cc tb R k values :
  table_inv cc tb R → good_values cc values → R !! k = None →
  table_inv cc (insert_row tb k values).2 (<[k := values]> R).
Proof.
  intros (f & M & segs & pos & Hrep) Hgood HR.
  destruct (table_rep_insert cc tb R f M segs pos k values Hrep Hgood HR)
    as [f' H].
  do 4 eexists. exact H.
Qed.

Lemma table_rep_mark cc tb R f M segs pos k values i :
  table_rep cc tb R f M segs pos → R !! k = Some values →
  pos !! k = Some i →
  let f3 := mkFile (path f)
              (write_at (Z.to_nat (search_key (primary_index tb) k))
                 [DELETED_MARKER] (contents f))
              (Z.to_nat (search_key (primary_index tb) k) + 1) [] in
  table_rep cc
    (with_index (with_file tb (Some f3)) (delete_key (primary_index tb) k))
    (delete k R) f3 (delete k M)
    (<[i := DELETED_MARKER :: tl (encode_row cc values)]> segs)
    (delete k pos).
Proof.
  intros Hinv HR Hp0 f3.
  destruct Hinv as (Hf & Hs & Hc & Hinv & Hcont & HM & Hnone & Hsome & Hinj).
  destruct (Hsome _ _ HR) as (Hg & i' & Hp & Hseg).
  assert (i' = i) as -> by congruence.
  destruct (encode_row_cons cc values) as [s Hs0]. rewrite Hs0 in Hseg |- *.
  cbn [tl].
  assert (search_key (primary_index tb) k = seg_offset segs i) as Hoff.
  { rewrite (tree_inv_search _ _ k Hinv), HM, Hp. done. }
  unfold table_rep. split_and!; try done.
  - by apply tree_inv_delete.
  - subst f3. cbn [contents]. rewrite Hoff. unfold seg_offset.
    rewrite Nat2Z.id, Hcont. by eapply write_at_concat.
  - intros k'. destruct (decide (k' = k)) as [->|Hne].
    + by rewrite !lookup_delete_eq.
    + rewrite !lookup_delete_ne by done. rewrite HM.
      destruct (pos !! k') as [j|]; [|done]. simpl. f_equal. symmetry.
      by apply (seg_offset_insert segs i (" "%char :: s)).
  - intros k'. destruct (decide (k' = k)) as [->|Hne].
    + by rewrite !lookup_delete_eq.
    + rewrite !lookup_delete_ne by done. apply Hnone.
  - intros k' v'. destruct (decide (k' = k)) as [->|Hne].
    + by rewrite lookup_delete_eq.
    + rewrite !lookup_delete_ne by done. intros HR'.
      destruct (Hsome _ _ HR') as (Hg' & j & Hp' & Hseg').
      split; [done|]. exists j. split; [done|].
      rewrite list_lookup_insert_ne; [done|].
      intros <-. apply Hne. by eapply Hinj.
  - intros k1 k2 j.
    destruct (decide (k1 = k)) as [->|Hne1]; [by rewrite lookup_delete_eq|].
    destruct (decide (k2 = k)) as [->|Hne2]; [by rewrite lookup_delete_eq|].
    rewrite !lookup_delete_ne by done. apply Hinj.
Qed.

Lemma table_inv_mark cc tb R k values f :
  table_inv cc tb R → R !! k = Some values → data_file tb = Some f →
  let f3 := mkFile (path f)
              (write_at (Z.to_nat (search_key (primary_index tb) k))
                 [DELETED_MARKER] (contents f))
              (Z.to_nat (search_key (primary_index tb) k) + 1) [] in
  table_inv cc
    (with_index (with_file tb (Some f3)) (delete_key (primary_index tb) k))
    (delete k R).
Proof.
  intros (f' & M & segs & pos & Hrep) HR Hf0 f3.
  pose proof Hrep as (Hf & _ & _ & _ & _ & _ & _ & Hsome & _).
  rewrite Hf in Hf0. injection Hf0 as ->.
  destruct (Hsome _ _ HR) as (_ & i & Hp & _).
  pose proof (table_rep_mark cc tb R f M segs pos k values i Hrep HR Hp) as H.
  do 4 eexists. exact H.
Qed.

Lemma table_inv_delete cc tb R k :
  table_inv cc tb R → table_inv cc (delete_row tb k).2 (delete k R).
Proof.
  intros Hinv. destruct (R !! k) as [values|] eqn:HR.
  2: { pose proof (proj2 (table_inv_search cc tb R k Hinv) HR) as Hsk.
       rewrite (proj1 (delete_update_absent tb k [] Hsk)).
       by rewrite delete_id. }
  pose proof (table_inv_search cc tb R k Hinv) as Hsk.
  pose proof Hinv as (f & M & segs & pos & Hf & Hs & _ & Hti & _ & HM & _ & Hsome & _).
  pose proof (table_inv_mark cc tb R k values f Hinv HR Hf) as Hmark.
  cbv zeta in Hmark.
  assert (0 ≤ search_key (primary_index tb) k)%Z as Hnn.
  { rewrite (tree_inv_search _ _ k Hti), HM.
    destruct (Hsome _ _ HR) as (_ & i & -> & _). simpl. unfold seg_offset. lia. }
  unfold delete_row. rewrite Hf. cbv zeta.
  rewrite bool_decide_eq_false_2 by (rewrite Hsk, HR; done).
  rewrite fseek_set_quiet by done. cbn [negb].
  rewrite fwrite_quiet by done. cbn [negb position contents path].
  unfold fflush. rewrite io_call_quiet by done. cbn [negb snd].
  exact Hmark.
Qed.

Lemma update_row_marked cc tb R k values v0 f :
  table_inv cc tb R → R !! k = Some v0 → data_file tb = Some f →
  let f3 := mkFile (path f)
              (write_at (Z.to_nat (search_key (primary_index tb) k))
                 [DELETED_MARKER] (contents f))
              (Z.to_nat (search_key (primary_index tb) k) + 1) [] in
  let tb3 := with_index (with_file tb (Some f3))
               (delete_key (primary_index tb) k) in
  table_inv cc tb3 (delete k R)
  ∧ update_row tb k values = insert_row tb3 k values.
Proof.
  intros Hinv HR Hf.
  pose proof (table_inv_search cc tb R k Hinv) as Hsk.
  pose proof Hinv as (f0 & M & segs & pos & Hf0 & Hs & Hc & Hti & _ & HM & _ & Hsome & _).
  assert (f0 = f) as -> by congruence.
  pose proof (table_inv_mark cc tb R k v0 f Hinv HR Hf) as Hmark.
  cbv zeta in Hmark |- *. split; [done|].
  assert (0 ≤ search_key (primary_index tb) k)%Z as Hnn.
  { rewrite (tree_inv_search _ _ k Hti), HM.
    destruct (Hsome _ _ HR) as (_ & i & -> & _). simpl. unfold seg_offset. lia. }
  match type of Hmark with table_inv _ ?t _ => set (tb3 := t) in * end.
  unfold update_row, insert_row. rewrite Hf. cbv zeta.
  rewrite bool_decide_eq_false_2 by (rewrite Hsk, HR; done).
  rewrite fseek_set_quiet by done. cbn [negb].
  rewrite fwrite_quiet by done. cbn [negb position contents path].
  unfold fflush at 1. rewrite io_call_quiet by done. cbn [negb].
  set (f3 := mkFile (path f)
               (write_at (Z.to_nat (search_key (primary_index tb) k))
                  [DELETED_MARKER] (contents f))
               (Z.to_nat (search_key (primary_index tb) k) + 1) []) in *.
  change (append_row (column_count tb) values _)
    with (append_row (column_count tb) values f3).
  subst tb3. cbn [data_file with_index with_file primary_index column_count].
  pose proof (proj2 (table_inv_search _ _ _ k Hmark)
                (lookup_delete_eq R k)) as Hsk3.
  cbn [primary_index with_index with_file] in Hsk3. rewrite Hsk3.
  rewrite bool_decide_eq_true_2 by done. cbn [negb].
  match goal with |- context [append_row ?c ?v ?g] =>
    destruct (append_row_quiet c v g eq_refl) as (f' & Ha & _);
    change (append_row (column_count tb) values f3) with (append_row c v g)
  end.
  rewrite Ha. done.
Qed.

Lemma table_inv_update cc tb R k values v0 :
  table_inv cc tb R → good_values cc values → R !! k = Some v0 →
  table_inv cc (update_row tb k values).2 (<[k := values]> R).
Proof.
  intros Hinv Hgood HR.
  pose proof Hinv as (f & _ & _ & _ & Hf & _).
  destruct (update_row_marked cc tb R k values v0 f Hinv HR Hf) as [Hmark ->].
  rewrite <- (insert_delete_eq R k values).
  apply table_inv_insert; [done|done|]. apply lookup_delete_eq.
Qed.

Lemma table_inv_step cc tb R o :
  table_inv cc tb R → good_op cc o →
  table_inv cc (apply_row_op tb o) (row_step R o).
Proof.
  intros Hinv Hgood. destruct o as [k v|k v|k]; simpl in *.
  - destruct (R !! k) as [v0|] eqn:HR; [|by apply table_inv_insert].
    rewrite insert_row_present; [done|].
    rewrite (table_inv_search cc tb R k Hinv), HR. done.
  - destruct (R !! k) as [v0|] eqn:HR; [by eapply table_inv_update|].
    pose proof (proj2 (table_inv_search cc tb R k Hinv) HR) as Hsk.
    by rewrite (proj2 (delete_update_absent tb k v Hsk)).
  - by apply table_inv_delete.
Qed.

Lemma table_inv_run cc ops : ∀ tb R,
  table_inv cc tb R → Forall (good_op cc) ops →
  table_inv cc (foldl apply_row_op tb ops) (foldl row_step R ops).
Proof.
  induction ops as [|o ops IH]; intros tb R Hinv Hgood; [done|].
  apply Forall_cons in Hgood as [Ho Hgood]. simpl.
  apply IH; [|done]. by apply table_inv_step.
Qed.

Lemma table_inv_new tb f :
  data_file tb = Some f → script f = [] →
  primary_index tb = initialize_tree →
  table_inv (column_count tb) tb ∅.
Proof.
  intros Hf Hs Hix. exists f, ∅, [contents f], ∅.
  split_and!; try done.
  - rewrite Hix. apply tree_inv_init.
  - simpl. by rewrite app_nil_r.
Qed.

(** X14. For a table with an empty index whose stream has no failing call, as
    [create_table] makes it, and calls of [insert_row], [update_row] and
    [delete_row] with values that can be read back: after the calls,
    [read_row] of a key gives the values, as they are written, of the last
    [insert_row] or [update_row] of the key that took effect, and no row when
    there is none or a [delete_row] of the key came after it.  An
    [insert_row] of a key that has a row and an [update_row] of a key that
    has none take no effect. *)
Theorem read_row_latest (tb : Table) (f : FILE) (ops : list row_op) (k : Z) :
  data_file tb = Some f → script f = [] →
  primary_index tb = initialize_tree →
  0 < column_count tb →
  Forall (good_op (column_count tb)) ops →
  (read_row (run_rows tb ops) k).1
  = written_values (column_count tb) <$> rows_of ops !! k.
Proof.
  intros Hf Hs Hix Hcc Hgood.
  apply table_inv_read; [done|].
  apply table_inv_run; [|done]. by eapply table_inv_new.
Qed.

(** * Tables *)

(** ** [create_table] *)

Lemma search_key_initialize_tree k : search_key initialize_tree k = (-1)%Z.
Proof.
  rewrite (tree_inv_search _ _ k tree_inv_init). by rewrite lookup_empty.
Qed.

Lemma read_row_new tb k :
  primary_index tb = initialize_tree → (read_row tb k).1 = None.
Proof.
  intros Hix. unfold read_row. destruct (data_file tb); [|done]. cbv zeta.
  rewrite Hix, search_key_initialize_tree. by rewrite bool_decide_eq_true_2.
Qed.

(** X15. [create_table] checks its arguments before it touches a file: when the
    database is full, the name is empty or that of a table of the database,
    the number of columns is not between 1 and [MAX_COLUMNS], or one of the
    column names is empty, it returns no table and leaves the database and
    the files as they were.  Whenever it returns a table, none of these is
    the case; the table is the last of the database, whose names stay
    different and whose tables stay within [MAX_TABLES]; it has the name and
    the first [column_count] columns given, and an open file; and its index
    is empty, so that [read_row] gives no row for any key, whatever the file
    holds. *)
Theorem create_table_database (cwd : string) (d : disk) (db : Database)
  (table_name : string) (cols : list string) (count : nat) :
  database_ok db →
  let r := create_table cwd d db table_name cols count in
  (MAX_TABLES ≤ length (tables db) ∨ table_name = ""
   ∨ count = 0 ∨ MAX_COLUMNS < count
   ∨ table_name ∈ name <$> tables db ∨ "" ∈ take count cols →
   r = (None, db, d))
  ∧ ∀ tb, r.1.1 = Some tb →
      database_ok r.1.2
      ∧ tables r.1.2 = tables db ++ [tb]
      ∧ name tb = table_name ∧ table_name ≠ ""
      ∧ (table_name ∉ name <$> tables db)
      ∧ columns tb = take count cols ∧ column_count tb = count
      ∧ 1 ≤ count ≤ MAX_COLUMNS
      ∧ Forall (λ c, c ≠ "") (columns tb)
      ∧ is_Some (data_file tb)
      ∧ primary_index tb = initialize_tree
      ∧ (∀ k, (read_row tb k).1 = None).
Proof.
  intros [Hnd Hlen]. cbv zeta. unfold create_table.
  case_bool_decide as H1; [by split|].
  case_bool_decide as H2; [by split|].
  destruct (bool_decide (count = 0) || bool_decide (MAX_COLUMNS < count))
    eqn:H3; [by split|].
  destruct (bool_decide (Exists _ (tables db))) eqn:H4; [by split|].
  destruct (bool_decide (Exists _ (take count cols))) eqn:H5; [by split|].
  apply bool_decide_eq_false in H4, H5.
  apply orb_false_iff in H3 as [H3a H3b].
  apply bool_decide_eq_false_1 in H3a, H3b.
  assert (table_name ∉ name <$> tables db) as Hnew.
  { intros Hx. apply H4. apply list_elem_of_fmap in Hx as (tb & Hn & Htb).
    apply Exists_exists. exists tb. split; [done|]. by symmetry. }
  set (filename := data_file_name cwd table_name).
  set (d1 := match d !! filename with
             | Some _ => d
             | None => <[filename := []]> d
             end).
  assert (∃ data, d1 !! filename = Some data) as (data & Hd1).
  { subst d1. destruct (d !! filename) as [x|] eqn:Hx.
    - exists x. done.
    - exists []. by rewrite lookup_insert_eq. }
  unfold fopen_update. rewrite Hd1. cbn [fst snd].
  split.
  - intros [?|[?|[?|[?|[?|Hc]]]]]; try done; try lia.
    exfalso. apply H5. apply Exists_exists. by exists "".
  - intros tb [= <-]. cbn. split_and!; try done; try lia.
    + split; cbn [tables].
      * rewrite fmap_app. apply NoDup_app. split_and!; [done| |].
        -- intros x Hx. rewrite list_fmap_singleton, list_elem_of_singleton.
           cbn [name]. by intros ->.
        -- apply NoDup_singleton.
      * rewrite length_app. simpl. lia.
    + by apply Forall_Exists_neg in H5.
Qed.

(** ** [rollback_transaction] *)

(** X16. [rollback_transaction] empties the table: the index is a new one, the
    file is cut to nothing when no call on the stream fails, and after
    that the table holds the rows of the calls that follow and none from
    before. *)
Theorem rollback_transaction_clears (tb : Table) (f : FILE)
  (ops : list row_op) (k : Z) :
  data_file tb = Some f → script f = [] →
  0 < column_count tb →
  Forall (good_op (column_count tb)) ops →
  primary_index (rollback_transaction tb) = initialize_tree
  ∧ (contents <$> data_file (rollback_transaction tb)) = Some []
  ∧ (read_row (rollback_transaction tb) k).1 = None
  ∧ (read_row (run_rows (rollback_transaction tb) ops) k).1
    = written_values (column_count tb) <$> rows_of ops !! k.
Proof.
  intros Hf Hs Hcc Hgood. unfold rollback_transaction. rewrite Hf.
  unfold ftruncate0. rewrite io_call_quiet by done. rewrite Hs.
  cbn [rewind path contents script position].
  split_and!; [done|done|by apply read_row_new|].
  match goal with |- (read_row (run_rows ?t _) _).1 = _ =>
    set (tb' := t) end.
  change (column_count tb) with (column_count tb') in *.
  apply table_inv_read; [done|].
  apply table_inv_run; [|done]. by eapply table_inv_new.
Qed.

(** * Compaction *)

Lemma length_read_line n data : length (read_line n data) ≤ length data.
Proof.
  revert data. induction n as [|n IH]; intros [|c data]; simpl; try lia.
  case_bool_decide; simpl; [lia|]. specialize (IH data). lia.
Qed.

Lemma length_c_str s : length (c_str s) ≤ length s.
Proof.
  induction s as [|c s IH]; simpl; [lia|]. case_bool_decide; simpl; lia.
Qed.

Lemma fgets_position n f r f1 :
  fgets n f = (r, f1) → position f ≤ length (contents f) →
  contents f1 = contents f ∧ path f1 = path f
  ∧ position f ≤ position f1 ≤ length (contents f1).
Proof.
  unfold fgets. destruct (io_call f) as [ok f0] eqn:Hio.
  apply io_call_same in Hio as (Hp & Hc & Hpos).
  destruct ok;
    [|intros [= <- <-] ?; rewrite Hpos, Hc in *; split_and!; done || lia].
  pose proof (length_read_line (n - 1) (drop (position f0) (contents f0)))
    as Hl.
  rewrite length_drop in Hl.
  destruct (read_line _ _) as [|c line].
  - intros [= <- <-] ?. rewrite Hpos, Hc in *. split_and!; done || lia.
  - intros [= <- <-] Hle. cbn [contents path position].
    simpl in Hl |- *. rewrite Hpos, Hc in *. split_and!; try done; lia.
Qed.

Lemma compact_rows_size fuel : ∀ f temp ix off f1 r,
  script temp = [] → position temp = length (contents temp) →
  position f ≤ length (contents f) →
  compact_rows fuel f temp ix off = (f1, r) →
  contents f1 = contents f ∧ path f1 = path f
  ∧ position f ≤ position f1 ≤ length (contents f1)
  ∧ ∀ temp1 ix1, r = Some (temp1, ix1) →
      path temp1 = path temp
      ∧ length (contents temp1) + position f
        ≤ length (contents temp) + position f1.
Proof.
  induction fuel as [|fuel IH]; intros f temp ix off f1 r Hs Hend Hpos.
  - cbn [compact_rows]. intros [= <- <-]. split_and!; try done; try lia.
    intros ?? [= <- <-]. split; [done|lia].
  - cbn [compact_rows].
    destruct (fgets MAX_ROW_LEN f) as [[buffer|] f0] eqn:Hg.
    2: { apply fgets_position in Hg as (Hc & Hp & Hle); [|done].
         intros [= <- <-]. split_and!; try done; try lia.
         intros ?? [= <- <-]. split; [done|lia]. }
    assert (position f0 = position f + length buffer
            ∧ contents f0 = contents f ∧ path f0 = path f
            ∧ position f0 ≤ length (contents f0)) as (Hp0 & Hc0 & Hpa0 & Hle0).
    { pose proof (fgets_position _ _ _ _ Hg Hpos) as (? & ? & ?).
      unfold fgets in Hg. destruct (io_call f) as [ok g] eqn:Hio.
      apply io_call_same in Hio as (Hpag & Hcg & Hpg).
      destruct ok; [|done]. destruct (read_line _ _) as [|c l]; [done|].
      injection Hg as <- <-. cbn [position contents path] in *.
      split_and!; try done; try congruence; simpl; lia. }
    assert (∀ tp i o,
              script tp = [] → position tp = length (contents tp) →
              path tp = path temp →
              length (contents tp) ≤ length (contents temp) + length buffer →
              compact_rows fuel f0 tp i o = (f1, r) →
              contents f1 = contents f ∧ path f1 = path f
              ∧ position f ≤ position f1 ≤ length (contents f1)
              ∧ ∀ temp1 ix1, r = Some (temp1, ix1) →
                  path temp1 = path temp
                  ∧ length (contents temp1) + position f
                    ≤ length (contents temp) + position f1) as Hrec.
    { intros tp i o Hs' Hend' Hpa' Hlen' Hcr.
      destruct (IH _ _ _ _ _ _ Hs' Hend' Hle0 Hcr) as (H1 & H2 & H3 & H4).
      split_and!; try congruence; try lia.
      intros t1 i1 Hr. destruct (H4 _ _ Hr) as [H5 H6].
      split; [congruence|]. lia. }
    case_bool_decide as Hm; [|apply Hrec; try done; lia].
    destruct (strtok_r _ _) as [[first_col rest]|];
      [|apply Hrec; try done; lia].
    rewrite fwrite_quiet by done. cbn [negb].
    rewrite ftell_quiet by done. cbn [position].
    rewrite bool_decide_eq_false_2 by lia.
    apply Hrec; try done.
    + cbn [position contents]. rewrite Hend, write_at_end, length_app. done.
    + cbn [contents]. rewrite Hend, write_at_end, length_app.
      pose proof (length_c_str buffer). lia.
Qed.

(** X17. [compact_table] never leaves the table with a longer file: when the
    table has an open file after the call, the file has no more bytes than
    the file it had before, whatever the files of the directory are and
    whichever call fails. *)
Theorem compact_table_no_longer (cwd : string) (d : disk) (tb : Table)
  (f f' : FILE) :
  data_file tb = Some f →
  data_file (compact_table cwd d tb).2 = Some f' →
  length (contents f') ≤ length (contents f).
Proof.
  intros Hf. unfold compact_table. rewrite Hf. cbv zeta.
  fold (temp_filename cwd tb). fold (old_filename cwd tb).
  set (f0 := mkFile (path f) (contents f) 0 (script f)).
  set (temp := mkFile (temp_filename cwd tb) [] 0 []).
  destruct (compact_rows _ f0 temp initialize_tree 0) as [f1 r] eqn:Hcr.
  destruct (compact_rows_size _ f0 temp _ _ _ _ eq_refl eq_refl
              ltac:(simpl; lia) Hcr) as (Hc1 & Hp1 & Hpos1 & Hsz).
  cbn [contents path position] in *.
  destruct r as [[temp1 ix1]|]; cbn [snd data_file with_file];
    [|intros [= <-]; by rewrite Hc1].
  destruct (Hsz _ _ eq_refl) as [Hpt Hlen]. cbn [length] in Hlen.
  destruct (fflush temp1) as [ok temp2] eqn:Hfl.
  apply io_call_same in Hfl as (Hpt2 & Hct2 & _).
  destruct ok; cbn [negb snd data_file with_file];
    [|intros [= <-]; by rewrite Hc1].
  unfold fclose.
  destruct (_ !! old_filename cwd tb) as [x|] eqn:Hold; cbn [snd]; [|done].
  destruct (_ !! temp_filename cwd tb) as [data|] eqn:Htmp; cbn [snd]; [|done].
  unfold fopen_update. rewrite lookup_insert_eq.
  cbn [snd data_file with_index with_file]. intros [= <-]. cbn [contents].
  apply lookup_delete_Some in Htmp as [Hne Htmp].
  destruct (decide (path f1 = temp_filename cwd tb)) as [Heq|Hnf].
  - rewrite Heq, lookup_insert_eq in Htmp. injection Htmp as <-.
    by rewrite Hc1.
  - rewrite lookup_insert_ne in Htmp by done.
    rewrite Hpt2, Hpt in Htmp. cbn [path] in Htmp.
    rewrite lookup_insert_eq in Htmp. injection Htmp as <-.
    rewrite Hct2. subst f0 temp. simpl in *. rewrite Hc1 in Hpos1. lia.
Qed.

(** * Models *)

(** ** What the row operations give back *)

Lemma read_row_index tb k : primary_index (read_row tb k).2 = primary_index tb.
Proof.
  unfold read_row. destruct (data_file tb) as [f|]; [|done].
  cbv zeta. case_bool_decide; [done|].
  destruct (fseek_set f _) as [ok f1].
  destruct ok; cbn [negb]; [|done].
  destruct (fgets MAX_ROW_LEN f1) as [[buffer|] f2]; [|done].
  by repeat case_bool_decide.
Qed.

Lemma insert_row_result cc tb R k values :
  table_inv cc tb R → R !! k = None →
  (insert_row tb k values).1 ≠ (-1)%Z
  ∧ search_key (primary_index (insert_row tb k values).2) k
    = (insert_row tb k values).1.
Proof.
  intros Hinv HR.
  pose proof (proj2 (table_inv_search cc tb R k Hinv) HR) as Hsk.
  destruct Hinv
    as (f & M & segs & pos & Hf & Hs & Hc & Hti & Hcont & HM & Hnone & _).
  unfold insert_row. rewrite Hf, Hsk.
  rewrite bool_decide_eq_true_2 by done. cbn [negb].
  destruct (append_row_quiet (column_count tb) values f Hs) as (f' & Ha & Hs').
  rewrite Ha. cbn [fst snd primary_index with_index]. split; [lia|].
  rewrite (tree_inv_search _ (<[k := Z.of_nat (length (contents f))]> M)).
  - by rewrite lookup_insert_eq.
  - apply tree_inv_insert; [done|]. by rewrite HM, (Hnone _ HR).
Qed.

Lemma update_row_result cc tb R k values v0 :
  table_inv cc tb R → R !! k = Some v0 →
  (update_row tb k values).1 ≠ (-1)%Z
  ∧ search_key (primary_index (update_row tb k values).2) k
    = (update_row tb k values).1.
Proof.
  intros Hinv HR. pose proof Hinv as (f & _ & _ & _ & Hf & _).
  destruct (update_row_marked cc tb R k values v0 f Hinv HR Hf) as [Hmark Heq].
  cbv zeta in Hmark, Heq. rewrite Heq.
  apply (insert_row_result cc _ (delete k R)); [done|apply lookup_delete_eq].
Qed.

Lemma delete_row_result cc tb R k v0 :
  table_inv cc tb R → R !! k = Some v0 → (delete_row tb k).1 = 0%Z.
Proof.
  intros Hinv HR.
  pose proof (table_inv_search cc tb R k Hinv) as Hsk.
  pose proof Hinv
    as (f & M & segs & pos & Hf & Hs & _ & Hti & _ & HM & _ & Hsome & _).
  assert (0 ≤ search_key (primary_index tb) k)%Z as Hnn.
  { rewrite (tree_inv_search _ _ k Hti), HM.
    destruct (Hsome _ _ HR) as (_ & i & -> & _). simpl. unfold seg_offset. lia. }
  unfold delete_row. rewrite Hf. cbv zeta.
  rewrite bool_decide_eq_false_2 by (rewrite Hsk, HR; done).
  rewrite fseek_set_quiet by done. cbn [negb].
  rewrite fwrite_quiet by done. cbn [negb position contents path].
  unfold fflush. by rewrite io_call_quiet.
Qed.

Lemma new_table_inv tb ops :
  new_table tb → Forall (good_op (column_count tb)) ops →
  table_inv (column_count tb) (run_rows tb ops) (rows_of ops).
Proof.
  intros (Hix & Hcc & f & Hf & Hs) Hgood.
  apply table_inv_run; [|done]. by eapply table_inv_new.
Qed.

(** ** [find_model_by_primary_key] *)

Lemma lookup_all {A} (g : A → A) (l : list A) n :
  n = length l → (λ i, g <$> l !! i) <$> seq 0 n = Some <$> (g <$> l).
Proof.
  intros ->. apply list_eq. intros i. rewrite !list_lookup_fmap.
  destruct (l !! i) as [x|] eqn:Hi.
  - rewrite (lookup_seq_lt _ _ _ (lookup_lt_Some _ _ _ Hi)). simpl.
    by rewrite Hi.
  - rewrite lookup_seq_ge; [done|]. by apply lookup_ge_None.
Qed.

Lemma strdup_written cc values :
  strdup <$> written_values cc values = written_values cc values.
Proof.
  unfold written_values. rewrite <- (list_fmap_id (map _ _)) at 2.
  apply list_fmap_ext. intros i w Hw.
  apply list_elem_of_lookup_2, list_elem_of_In, in_map_iff in Hw as (j & <- & _).
  apply c_str_id, written_no_NUL.
Qed.

Lemma find_model_by_primary_key_rows cc m tb R k :
  0 < cc → table_inv cc tb R → table_ref m = Some tb →
  field_count m = Z.of_nat cc →
  (find_model_by_primary_key (Some m) k).1
  = (λ v, mkInstance (Some (with_table m (read_row tb k).2))
            (Some (Some <$> written_values cc v))
            (search_key (primary_index tb) k)) <$> R !! k.
Proof.
  intros Hcc Hinv Hm Hfc. unfold find_model_by_primary_key. rewrite Hm.
  pose proof (table_inv_read cc tb R k Hcc Hinv) as Hr.
  pose proof (read_row_index tb k) as Hix.
  pose proof (table_inv_search cc tb R k Hinv) as Hsk.
  destruct (read_row tb k) as [row table1]. simpl in Hr, Hix |- *. subst row.
  destruct (R !! k) as [v|] eqn:HR; simpl; [|done].
  rewrite Hix. rewrite bool_decide_eq_false_2 by (rewrite Hsk; done).
  simpl. do 3 f_equal. rewrite Hfc, Nat2Z.id.
  rewrite lookup_all by (unfold written_values; by rewrite length_map, length_seq).
  by rewrite strdup_written.
Qed.

(** The fields of the instances that [find_model_by_primary_key] gives for
    the rows [R]. *)
Lemma find_model_data cc m tb R k :
  0 < cc → table_inv cc tb R → table_ref m = Some tb →
  field_count m = Z.of_nat cc →
  data <$> (find_model_by_primary_key (Some m) k).1
  = (λ v, Some (Some <$> written_values cc v)) <$> R !! k.
Proof.
  intros Hcc Hinv Hm Hfc.
  rewrite (find_model_by_primary_key_rows cc m tb R k) by done.
  by destruct (R !! k).
Qed.

Lemma find_model_offset cc m tb R k :
  0 < cc → table_inv cc tb R → table_ref m = Some tb →
  field_count m = Z.of_nat cc → is_Some (R !! k) →
  record_offset <$> (find_model_by_primary_key (Some m) k).1
  = Some (search_key (primary_index tb) k).
Proof.
  intros Hcc Hinv Hm Hfc [v Hv].
  rewrite (find_model_by_primary_key_rows cc m tb R k) by done.
  by rewrite Hv.
Qed.

Lemma with_table_same schema tb :
  table_ref schema = Some tb → with_table schema tb = schema.
Proof. destruct schema. simpl. by intros ->. Qed.

(** ** [save_model_instance] *)

(** X19. On a table that began as [create_table] makes it and went through row
    operations with values that can be read back, with one column for each
    field of the schema: [save_model_instance] of an instance that was not
    saved (its offset is -1) whose key has no row, or of a saved one whose
    key has a row, succeeds and gives the instance an offset; after it,
    [find_model_by_primary_key] gives for the key of the instance its
    values as they are written, at the offset of the instance, and for each
    other key what the table had for it. *)
Theorem save_model_instance_find (schema : Model) (tb : Table)
  (ops : list row_op) (values : list (option cstring)) (off : Z)
  (text : cstring) (k : Z) :
  new_table tb → Forall (good_op (column_count tb)) ops →
  table_ref schema = Some (run_rows tb ops) →
  field_count schema = Z.of_nat (column_count tb) →
  find_primary_key_index (Some schema) ≠ (-1)%Z →
  data_at values (find_primary_key_index (Some schema)) = Some text →
  bad_key_text text = false →
  good_values (column_count tb) values →
  (off = (-1)%Z ↔ rows_of ops !! atoi text = None) →
  ∃ inst,
    save_model_instance (Some (mkInstance (Some schema) (Some values) off))
    = (0%Z, Some inst)
    ∧ data inst = Some values
    ∧ record_offset inst ≠ (-1)%Z
    ∧ data <$> (find_model_by_primary_key (model_schema inst) k).1
      = (λ v, Some (Some <$> written_values (column_count tb) v))
          <$> <[atoi text := values]> (rows_of ops) !! k
    ∧ record_offset
        <$> (find_model_by_primary_key (model_schema inst) (atoi text)).1
      = Some (record_offset inst).
Proof.
  intros Hnew Hgood Htb Hfc Hpk Htext Hbad Hgv Hmode.
  pose proof (new_table_inv tb ops Hnew Hgood) as Hinv.
  destruct Hnew as (_ & Hcc & _).
  set (cc := column_count tb) in *. set (R := rows_of ops) in *.
  set (t := run_rows tb ops) in *. set (key := atoi text) in *.
  unfold save_model_instance. cbn [model_schema data record_offset].
  rewrite Htb. cbv zeta. rewrite bool_decide_eq_false_2 by done.
  rewrite Htext, Hbad. fold key.
  assert (∃ ro t1,
            (if bool_decide (off = (-1)%Z) then insert_row t key values
             else update_row t key values) = (ro, t1)
            ∧ ro ≠ (-1)%Z ∧ search_key (primary_index t1) key = ro
            ∧ table_inv cc t1 (<[key := values]> R))
    as (ro & t1 & -> & Hro & Hsk & Hinv1).
  { case_bool_decide as Hoff.
    - pose proof (proj1 Hmode Hoff) as HR.
      destruct (insert_row_result cc t R key values Hinv HR) as [H1 H2].
      pose proof (table_inv_insert cc t R key values Hinv Hgv HR) as H3.
      destruct (insert_row t key values) as [ro t1]. by exists ro, t1.
    - destruct (R !! key) as [v0|] eqn:HR; [|by destruct Hoff; apply Hmode].
      destruct (update_row_result cc t R key values v0 Hinv HR) as [H1 H2].
      pose proof (table_inv_update cc t R key values v0 Hinv Hgv HR) as H3.
      destruct (update_row t key values) as [ro t1]. by exists ro, t1. }
  rewrite bool_decide_eq_false_2 by done. cbn [negb].
  eexists. split; [done|]. cbn [data record_offset model_schema].
  split_and!; [done|done| |].
  - by apply (find_model_data cc _ t1).
  - rewrite (find_model_offset cc _ t1 (<[key := values]> R)); try done.
    + by rewrite Hsk.
    + by rewrite lookup_insert_eq.
Qed.

(** X20. [save_model_instance] chooses between [insert_row] and [update_row] by
    the offset of the instance, not by the table: for an instance that was
    not saved whose key has a row, and for a saved one whose key has no row
    (it was deleted since), it fails and leaves the instance and the table
    as they were. *)
Theorem save_model_instance_wrong_offset (schema : Model) (tb : Table)
  (ops : list row_op) (values : list (option cstring)) (off : Z)
  (text : cstring) :
  new_table tb → Forall (good_op (column_count tb)) ops →
  table_ref schema = Some (run_rows tb ops) →
  find_primary_key_index (Some schema) ≠ (-1)%Z →
  data_at values (find_primary_key_index (Some schema)) = Some text →
  (off = (-1)%Z ∧ is_Some (rows_of ops !! atoi text)
   ∨ off ≠ (-1)%Z ∧ rows_of ops !! atoi text = None) →
  save_model_instance (Some (mkInstance (Some schema) (Some values) off))
  = ((-1)%Z, Some (mkInstance (Some schema) (Some values) off)).
Proof.
  intros Hnew Hgood Htb Hpk Htext Hmode.
  pose proof (new_table_inv tb ops Hnew Hgood) as Hinv.
  pose proof (table_inv_search _ _ _ (atoi text) Hinv) as Hsk.
  unfold save_model_instance. cbn [model_schema data record_offset].
  rewrite Htb. cbv zeta. rewrite bool_decide_eq_false_2 by done.
  rewrite Htext. destruct (bad_key_text text); [done|].
  destruct Hmode as [[-> [v Hv]]|[Hoff HR]].
  - rewrite bool_decide_eq_true_2 by done.
    rewrite insert_row_present by (rewrite Hsk, Hv; done).
    rewrite bool_decide_eq_true_2 by done. cbn [negb].
    by rewrite with_table_same.
  - rewrite bool_decide_eq_false_2 by done.
    rewrite (proj2 (delete_update_absent _ _ values (proj2 Hsk HR))).
    rewrite bool_decide_eq_true_2 by done. cbn [negb].
    by rewrite with_table_same.
Qed.

(** ** [delete_model_instance] *)

(** X21. On a table that began as [create_table] makes it and went through row
    operations with values that can be read back, [delete_model_instance]
    of a saved instance whose key has a row succeeds and sets the offset of
    the instance to -1, so that a later [save_model_instance] inserts it;
    after it,
    [find_model_by_primary_key] finds nothing for the key, and for each
    other key what the table had for it. *)
Theorem delete_model_instance_find (schema : Model) (tb : Table)
  (ops : list row_op) (values : list (option cstring)) (off : Z)
  (text : cstring) (k : Z) :
  new_table tb → Forall (good_op (column_count tb)) ops →
  table_ref schema = Some (run_rows tb ops) →
  field_count schema = Z.of_nat (column_count tb) →
  find_primary_key_index (Some schema) ≠ (-1)%Z →
  data_at values (find_primary_key_index (Some schema)) = Some text →
  bad_key_text text = false →
  off ≠ (-1)%Z → is_Some (rows_of ops !! atoi text) →
  ∃ inst,
    delete_model_instance (Some (mkInstance (Some schema) (Some values) off))
    = (0%Z, Some inst)
    ∧ data inst = Some values
    ∧ record_offset inst = (-1)%Z
    ∧ data <$> (find_model_by_primary_key (model_schema inst) k).1
      = (λ v, Some (Some <$> written_values (column_count tb) v))
          <$> delete (atoi text) (rows_of ops) !! k.
Proof.
  intros Hnew Hgood Htb Hfc Hpk Htext Hbad Hoff [v0 HR].
  pose proof (new_table_inv tb ops Hnew Hgood) as Hinv.
  destruct Hnew as (_ & Hcc & _).
  set (cc := column_count tb) in *. set (R := rows_of ops) in *.
  set (t := run_rows tb ops) in *. set (key := atoi text) in *.
  unfold delete_model_instance. cbn [model_schema data record_offset].
  rewrite Htb. cbv zeta. rewrite bool_decide_eq_false_2 by done.
  rewrite bool_decide_eq_false_2 by done.
  rewrite Htext, Hbad. fold key.
  pose proof (delete_row_result cc t R key v0 Hinv HR) as Hr.
  pose proof (table_inv_delete cc t R key Hinv) as Hinv1.
  destruct (delete_row t key) as [r t1]. simpl in Hr, Hinv1. subst r.
  rewrite bool_decide_eq_true_2 by done.
  eexists. split; [done|]. cbn [data record_offset model_schema].
  split_and!; [done|done|].
  by apply (find_model_data cc _ t1).
Qed.

(** ** [define_model] *)

Lemma index_where_cases {A} (p : A → bool) (l : list A) : ∀ i0,
  (index_where p l i0 = (-1)%Z ∧ Forall (λ x, p x = false) l)
  ∨ ∃ j x, index_where p l i0 = (i0 + Z.of_nat j)%Z ∧ l !! j = Some x
           ∧ p x = true ∧ Forall (λ x, p x = false) (take j l).
Proof.
  induction l as [|y l IH]; intros i0; simpl.
  - left. by split.
  - destruct (p y) eqn:Hy.
    + right. exists 0, y. rewrite take_0. split_and!; try done. lia.
    + destruct (IH (i0 + 1)%Z) as [[H1 H2]|(j & x & H1 & H2 & H3 & H4)].
      * left. split; [done|]. by constructor.
      * right. exists (S j), x. simpl. split_and!; try done; [lia|].
        by constructor.
Qed.

Lemma index_where_found {A} (p : A → bool) (l : list A) :
  index_where p l 0 ≠ (-1)%Z →
  ∃ j x, index_where p l 0 = Z.of_nat j ∧ l !! j = Some x ∧ p x = true.
Proof.
  intros Hne. destruct (index_where_cases p l 0%Z)
    as [[H1 _]|(j & x & H1 & H2 & H3 & _)]; [done|].
  exists j, x. split_and!; try done; lia.
Qed.

Lemma index_where_exists {A} (p : A → bool) (l : list A) :
  existsb p l = true → index_where p l 0 ≠ (-1)%Z.
Proof.
  intros He. destruct (index_where_cases p l 0%Z)
    as [[_ H1]|(j & x & H1 & _)]; [|lia].
  apply existsb_exists in He as (x & Hx & Hp).
  rewrite Forall_forall in H1. apply list_elem_of_In in Hx.
  specialize (H1 _ Hx). congruence.
Qed.

(** X22. A schema that [define_model] gives has what [save_model_instance]
    and [find_model_by_primary_key] need: its table is the last of the
    database and is a new one, with one column
    for each field; a primary key field is found among the fields; and an
    instance of it has one value, NULL, for each field. *)
Theorem define_model_schema (cwd : string) (d d' : disk) (db : Database)
  (db' : option Database) (name : option string)
  (fs : option (list Field)) (n : Z)
  (assocs : option (list Association)) (assoc_count : Z)
  (m : Model) :
  define_model cwd d (Some db) name fs n assocs assoc_count
  = (Some m, db', d') →
  ∃ tb,
    table_ref m = Some tb ∧ new_table tb
    ∧ (tables <$> db') = Some (tables db ++ [tb])
    ∧ field_count m = Z.of_nat (column_count tb)
    ∧ (0 ≤ find_primary_key_index (Some m) < field_count m)%Z
    ∧ create_new_instance (Some m)
      = Some (mkInstance (Some m)
                (Some (replicate (column_count tb) None)) (-1)%Z).
Proof.
  unfold define_model. destruct name as [nm|]; [|done].
  destruct fs as [fs|]; [|done].
  case_bool_decide as Hfc; [done|].
  destruct (existsb _ (fields_of fs n)) eqn:Hpk; [|done].
  cbn [negb].
  destruct (existsb (λ fd, bool_decide (Field_name fd = None)) _); [done|].
  unfold create_table.
  case_bool_decide as H1; [done|].
  case_bool_decide as H2; [done|].
  destruct (bool_decide (Z.to_nat n = 0) || _) eqn:Hcount; [done|].
  destruct (bool_decide (Exists _ (tables db))); [done|].
  destruct (bool_decide (Exists _ (take _ _))); [done|].
  apply orb_false_iff in Hcount as [Hc0 _].
  apply bool_decide_eq_false_1 in Hc0.
  destruct (fopen_update _ _) as [f|] eqn:Hopen; [|done].
  intros [= <- <- <-]. eexists. split; [done|].
  unfold fopen_update in Hopen.
  destruct (_ !! data_file_name cwd nm) as [x|]; [|done].
  injection Hopen as <-.
  cbn [table_ref field_count column_count fmap option_fmap option_map
       tables].
  split_and!; try done.
  - split_and!; [done|simpl; lia|by eexists].
  - lia.
  - unfold find_primary_key_index. cbn [fields field_count].
    pose proof (index_where_exists _ _ Hpk) as Hne.
    destruct (index_where_found _ _ Hne) as (j & x' & -> & Hj & _).
    lia.
  - unfold find_primary_key_index. cbn [fields field_count].
    pose proof (index_where_exists _ _ Hpk) as Hne.
    destruct (index_where_found _ _ Hne) as (j & x' & -> & Hj & _).
    apply lookup_lt_Some in Hj. unfold fields_of in Hj.
    rewrite length_take in Hj. lia.
Qed.

(** ** [db_set_field] and [db_get_field] *)

Lemma find_field_index_named m fs n :
  fields m = Some fs →
  Some n ∈ Field_name <$> fields_of fs (field_count m) →
  ∃ j, find_field_index_by_name (Some m) (Some n) = Z.of_nat j
       ∧ j < Z.to_nat (field_count m).
Proof.
  intros Hfs Hin. unfold find_field_index_by_name. rewrite Hfs.
  destruct (index_where_cases (λ fd, bool_decide (Field_name fd = Some n))
              (fields_of fs (field_count m)) 0%Z)
    as [[_ H1]|(j & x & H1 & Hj & _)].
  - apply list_elem_of_fmap in Hin as (fd & Hn & Hfd).
    rewrite Forall_forall in H1. specialize (H1 _ Hfd). simpl in H1.
    by rewrite bool_decide_eq_true_2 in H1.
  - exists j. split; [lia|]. apply lookup_lt_Some in Hj.
    unfold fields_of in Hj. rewrite length_take in Hj. lia.
Qed.

Lemma find_field_index_differ m n n' :
  n ≠ n' →
  find_field_index_by_name (Some m) (Some n) ≠ (-1)%Z →
  find_field_index_by_name (Some m) (Some n')
  ≠ find_field_index_by_name (Some m) (Some n).
Proof.
  intros Hne. unfold find_field_index_by_name.
  destruct (fields m) as [fs|]; [|done]. intros H1 Heq.
  pose proof H1 as H1'. rewrite <- Heq in H1'.
  destruct (index_where_found _ _ H1) as (j & x & Hj & Hx & Hp).
  destruct (index_where_found _ _ H1') as (j' & x' & Hj' & Hx' & Hp').
  rewrite Hj, Hj' in Heq. assert (j' = j) as -> by lia. simplify_eq.
  apply bool_decide_eq_true_1 in Hp, Hp'. congruence.
Qed.

Lemma find_field_index_nat m n :
  find_field_index_by_name (Some m) n = (-1)%Z
  ∨ ∃ j, find_field_index_by_name (Some m) n = Z.of_nat j.
Proof.
  unfold find_field_index_by_name. destruct n as [n|]; [|by left].
  destruct (fields m) as [fs|]; [|by left].
  destruct (index_where_cases (λ fd, bool_decide (Field_name fd = Some n))
              (fields_of fs (field_count m)) 0%Z)
    as [[H1 _]|(j & x & H1 & _)]; [by left|].
  right. exists j. lia.
Qed.

(** X23. For an instance with one value for each field of its schema, as
    [create_new_instance] makes it, and the name of one of the fields:
    [db_set_field] succeeds, [db_get_field] with the name then gives the
    value set, and with every other name what it gave before; the schema
    and the offset of the instance are as they were.  With a name that no
    field has, [db_set_field] fails and the instance is as it was. *)
Theorem db_set_field_get (schema : Model) (fs : list Field)
  (values : list (option cstring)) (off : Z) (name : string)
  (value : option cstring) :
  fields schema = Some fs →
  length values = Z.to_nat (field_count schema) →
  let instance := Some (mkInstance (Some schema) (Some values) off) in
  (Some name ∉ Field_name <$> fields_of fs (field_count schema) →
     db_set_field true instance (Some name) value = ((-1)%Z, instance))
  ∧ (Some name ∈ Field_name <$> fields_of fs (field_count schema) →
     ∃ inst,
       db_set_field true instance (Some name) value = (0%Z, Some inst)
       ∧ model_schema inst = Some schema ∧ record_offset inst = off
       ∧ db_get_field true (Some inst) (Some name) = strdup <$> value
       ∧ ∀ name', name' ≠ name →
           db_get_field true (Some inst) (Some name')
           = db_get_field true instance (Some name')).
Proof.
  intros Hfs Hlen. cbv zeta. split.
  - intros Hnot. unfold db_set_field. cbn [negb model_schema].
    rewrite bool_decide_eq_true_2; [done|].
    unfold find_field_index_by_name. rewrite Hfs.
    destruct (index_where_cases (λ fd, bool_decide (Field_name fd = Some name))
                (fields_of fs (field_count schema)) 0%Z)
      as [[H1 _]|(j & x & _ & Hj & Hp & _)]; [done|].
    destruct Hnot. apply bool_decide_eq_true_1 in Hp. rewrite <- Hp.
    apply list_elem_of_fmap. exists x. split; [done|].
    by eapply list_elem_of_lookup_2.
  - intros Hin.
    destruct (find_field_index_named schema fs name Hfs Hin) as (j & Hj & Hlt).
    unfold db_set_field, db_get_field. cbn [negb model_schema].
    rewrite Hj. rewrite bool_decide_eq_false_2 by lia.
    unfold set_instance_field. cbn [model_schema data record_offset].
    rewrite bool_decide_eq_false_2 by lia.
    rewrite bool_decide_eq_false_2 by lia. cbn [orb].
    eexists. split; [done|]. cbn [model_schema data record_offset].
    split_and!; [done|done| |].
    + rewrite Hj. rewrite bool_decide_eq_false_2 by lia.
      unfold data_at. rewrite Nat2Z.id.
      rewrite list_lookup_insert_eq by lia. done.
    + intros name' Hne.
      pose proof (find_field_index_differ schema name name' ltac:(done)
                    ltac:(rewrite Hj; lia)) as Hd.
      rewrite Hj in Hd.
      destruct (find_field_index_nat schema (Some name')) as [->|[j' Hj']];
        [done|].
      rewrite Hj' in Hd |- *. case_bool_decide; [done|]. unfold data_at.
      rewrite Nat2Z.id, list_lookup_insert_ne; [done|]. lia.
Qed.

(** * Compaction keeps the rows *)

(** ** The file of a table, line by line *)

Lemma table_log_new cc tb f :
  data_file tb = Some f → script f = [] → contents f = [] →
  primary_index tb = initialize_tree → column_count tb = cc →
  table_log cc tb ∅ [].
Proof.
  intros Hf Hs Hc Hix Hcc. exists f, ∅, ∅. split.
  - unfold table_rep. split_and!; try done. rewrite Hix. apply tree_inv_init.
  - split_and!; [|constructor|constructor].
    intros i k v. rewrite lookup_nil, lookup_empty. split; [done|].
    by intros [? _].
Qed.

Lemma table_log_inv cc tb R ls : table_log cc tb R ls → table_inv cc tb R.
Proof. intros (f & M & pos & Hrep & _). do 4 eexists. exact Hrep. Qed.

Lemma table_log_insert cc tb R ls k values :
  table_log cc tb R ls → good_values cc values → key_text cc values = k →
  R !! k = None →
  table_log cc (insert_row tb k values).2 (<[k := values]> R)
    (ls ++ [Live k values]).
Proof.
  intros (f & M & pos & Hrep & Hlog & Hgood & Hkey) Hg Hk HR.
  destruct (table_rep_insert cc tb R f M _ pos k values Hrep Hg HR)
    as [f' Hrep'].
  exists f', (<[k := Z.of_nat (length (contents f))]> M),
    (<[k := length (render cc <$> ls)]> pos). split.
  { rewrite fmap_app. exact Hrep'. }
  rewrite length_fmap.
  destruct Hrep as (_ & _ & _ & _ & _ & _ & Hnone & _).
  split_and!.
  - intros i k' v'. split.
    + intros Hi. destruct (decide (i < length ls)) as [Hlt|Hge].
      * rewrite lookup_app_l in Hi by done.
        apply Hlog in Hi as [Hp Hr].
        assert (k' ≠ k) by (intros ->; congruence).
        by rewrite !lookup_insert_ne.
      * rewrite lookup_app_r in Hi by lia.
        destruct (i - length ls) as [|n] eqn:Hn; [|done].
        simpl in Hi. injection Hi as <- <-.
        rewrite !lookup_insert_eq. split; [f_equal; lia|done].
    + intros [Hp Hr]. destruct (decide (k' = k)) as [->|Hne].
      * rewrite lookup_insert_eq in Hp. rewrite lookup_insert_eq in Hr.
        simplify_eq.
        by rewrite lookup_app_r, Nat.sub_diag by lia.
      * rewrite lookup_insert_ne in Hp by done.
        rewrite lookup_insert_ne in Hr by done.
        pose proof (proj2 (Hlog _ _ _) (conj Hp Hr)) as Hi.
        rewrite lookup_app_l; [done|]. by eapply lookup_lt_Some.
  - apply Forall_app. split; [done|]. by apply Forall_singleton.
  - apply Forall_app. split; [done|]. by apply Forall_singleton.
Qed.

Lemma table_log_mark cc tb R ls k v0 f :
  table_log cc tb R ls → R !! k = Some v0 → data_file tb = Some f →
  let f3 := mkFile (path f)
              (write_at (Z.to_nat (search_key (primary_index tb) k))
                 [DELETED_MARKER] (contents f))
              (Z.to_nat (search_key (primary_index tb) k) + 1) [] in
  ∃ ls',
    table_log cc
      (with_index (with_file tb (Some f3)) (delete_key (primary_index tb) k))
      (delete k R) ls'.
Proof.
  intros (f' & M & pos & Hrep & Hlog & Hgood & Hkey) HR Hf0 f3.
  pose proof Hrep as (Hf & _ & _ & _ & _ & _ & _ & Hsome & Hinj).
  rewrite Hf in Hf0. injection Hf0 as ->.
  destruct (Hsome _ _ HR) as (_ & i & Hp & _).
  pose proof (table_rep_mark cc tb R f M _ pos k v0 i Hrep HR Hp) as Hrep'.
  cbv zeta in Hrep'. fold f3 in Hrep'.
  pose proof (proj2 (Hlog _ _ _) (conj Hp HR)) as Hi.
  exists (<[i := Dead v0]> ls), f3, (delete k M), (delete k pos). split.
  { rewrite list_fmap_insert. exact Hrep'. }
  split_and!.
  - intros j k' v'. split.
    + intros Hj. destruct (decide (j = i)) as [->|Hne].
      * rewrite list_lookup_insert_eq in Hj by (by eapply lookup_lt_Some).
        done.
      * rewrite list_lookup_insert_ne in Hj by done.
        apply Hlog in Hj as [Hp' Hr'].
        assert (k' ≠ k) by (intros ->; congruence).
        by rewrite !lookup_delete_ne.
    + intros [Hp' Hr']. destruct (decide (k' = k)) as [->|Hne].
      * by rewrite lookup_delete_eq in Hp'.
      * rewrite lookup_delete_ne in Hp' by done.
        rewrite lookup_delete_ne in Hr' by done.
        assert (j ≠ i).
        { intros ->. apply Hne. by eapply Hinj. }
        rewrite list_lookup_insert_ne by done. by apply Hlog.
  - apply Forall_insert; [done|]. simpl.
    rewrite Forall_forall in Hgood.
    apply (Hgood (Live k v0)). by eapply list_elem_of_lookup_2.
  - by apply Forall_insert.
Qed.

Lemma delete_row_marked cc tb R k v0 f :
  table_inv cc tb R → R !! k = Some v0 → data_file tb = Some f →
  let f3 := mkFile (path f)
              (write_at (Z.to_nat (search_key (primary_index tb) k))
                 [DELETED_MARKER] (contents f))
              (Z.to_nat (search_key (primary_index tb) k) + 1) [] in
  delete_row tb k
  = (0%Z, with_index (with_file tb (Some f3))
            (delete_key (primary_index tb) k)).
Proof.
  intros Hinv HR Hf0 f3.
  pose proof (table_inv_search cc tb R k Hinv) as Hsk.
  pose proof Hinv
    as (f' & M & segs & pos & Hf & Hs & _ & Hti & _ & HM & _ & Hsome & _).
  rewrite Hf in Hf0. injection Hf0 as ->.
  assert (0 ≤ search_key (primary_index tb) k)%Z as Hnn.
  { rewrite (tree_inv_search _ _ k Hti), HM.
    destruct (Hsome _ _ HR) as (_ & i & -> & _). simpl. unfold seg_offset. lia. }
  unfold delete_row. rewrite Hf. cbv zeta.
  rewrite bool_decide_eq_false_2 by (rewrite Hsk, HR; done).
  rewrite fseek_set_quiet by done. cbn [negb].
  rewrite fwrite_quiet by done. cbn [negb position contents path].
  unfold fflush. by rewrite io_call_quiet.
Qed.

Lemma table_log_step cc tb R ls o :
  table_log cc tb R ls → keyed_op cc o →
  ∃ ls', table_log cc (apply_row_op tb o) (row_step R o) ls'.
Proof.
  intros Hlog [Hgood Hkey].
  pose proof (table_log_inv _ _ _ _ Hlog) as Hinv.
  pose proof Hinv as (f & _ & _ & _ & Hf & _).
  destruct o as [k v|k v|k]; simpl in *.
  - destruct (R !! k) as [v0|] eqn:HR.
    + exists ls. rewrite insert_row_present; [done|].
      rewrite (table_inv_search cc tb R k Hinv), HR. done.
    + eexists. by apply table_log_insert.
  - destruct (R !! k) as [v0|] eqn:HR.
    + destruct (update_row_marked cc tb R k v v0 f Hinv HR Hf) as [_ ->].
      destruct (table_log_mark cc tb R ls k v0 f Hlog HR Hf) as [ls' Hlog'].
      eexists. rewrite <- (insert_delete_eq R k v).
      apply table_log_insert; [exact Hlog'|done|done|apply lookup_delete_eq].
    + exists ls.
      pose proof (proj2 (table_inv_search cc tb R k Hinv) HR) as Hsk.
      by rewrite (proj2 (delete_update_absent tb k v Hsk)).
  - destruct (R !! k) as [v0|] eqn:HR.
    + rewrite (delete_row_marked cc tb R k v0 f Hinv HR Hf).
      by apply (table_log_mark cc tb R ls k v0 f).
    + exists ls.
      pose proof (proj2 (table_inv_search cc tb R k Hinv) HR) as Hsk.
      rewrite (proj1 (delete_update_absent tb k [] Hsk)).
      by rewrite delete_id.
Qed.

Lemma table_log_run cc ops : ∀ tb R ls,
  table_log cc tb R ls → Forall (keyed_op cc) ops →
  ∃ ls', table_log cc (foldl apply_row_op tb ops) (foldl row_step R ops) ls'.
Proof.
  induction ops as [|o ops IH]; intros tb R ls Hlog Hk; [by exists ls|].
  apply Forall_cons in Hk as [Ho Hk]. simpl.
  destruct (table_log_step cc tb R ls o Hlog Ho) as [ls1 H1].
  by apply (IH _ _ ls1).
Qed.

(** ** Reading the file line by line *)

Lemma read_line_nil n : read_line n [] = [].
Proof. by destruct n. Qed.

Lemma fgets_eof f :
  script f = [] → length (contents f) ≤ position f →
  fgets MAX_ROW_LEN f = (None, f).
Proof.
  intros Hs Hle. unfold fgets. rewrite io_call_quiet by done.
  rewrite drop_ge by done. by rewrite read_line_nil.
Qed.

Lemma fgets_line_file f line rest :
  script f = [] → drop (position f) (contents f) = line ++ LF :: rest →
  Forall (λ c, c ≠ LF) line → length line < MAX_ROW_LEN - 1 →
  fgets MAX_ROW_LEN f
  = (Some (line ++ [LF]),
     mkFile (path f) (contents f) (position f + length (line ++ [LF])) []).
Proof.
  intros Hs Hd Hl Hlen. unfold fgets. rewrite io_call_quiet by done.
  rewrite Hd, read_line_full by done. rewrite Hs. by destruct line.
Qed.

Lemma render_line cc l :
  0 < cc →
  ∃ body,
    render cc l
    = (if is_live l then " "%char else DELETED_MARKER) :: body ++ [LF]
    ∧ Forall (λ c, c ≠ LF) body
    ∧ body ++ [LF]
      = concat (map (column_bytes cc (line_values l)) (seq 0 cc)).
Proof.
  intros Hcc.
  destruct (columns_last cc (line_values l) Hcc) as (body & Hb & Hn).
  exists body. destruct l as [k v|v]; simpl in *; unfold encode_row;
    simpl; by rewrite Hb.
Qed.

Lemma length_render cc l :
  length (render cc l) = length (encode_row cc (line_values l)).
Proof. by destruct l. Qed.

(** ** The key that [compact_table] takes from a line *)

Lemma token_of_prefix D w t :
  Forall (λ c, c ∉ D) w →
  token_of D (w ++ t) = (w ++ (token_of D t).1, (token_of D t).2).
Proof.
  induction 1 as [|c w Hc _ IH]; simpl; [by destruct (token_of D t)|].
  unfold is_delim. rewrite bool_decide_eq_false_2 by done.
  by rewrite IH.
Qed.

Lemma atoi_digits_LF s : ∀ acc, atoi_digits acc (s ++ [LF]) = atoi_digits acc s.
Proof.
  induction s as [|c s IH]; intros acc; simpl.
  - by replace (digit_of LF) with (@None Z) by (vm_compute; reflexivity).
  - destruct (digit_of c); [apply IH|done].
Qed.

Lemma number_of_LF s : number_of (s ++ [LF]) = number_of s.
Proof.
  induction s as [|c s IH]; [vm_compute; reflexivity|].
  change ((c :: s) ++ [LF]) with (c :: (s ++ [LF])).
  cbn [number_of]. destruct (is_space c); [done|].
  case_bool_decide; [by rewrite atoi_digits_LF|].
  case_bool_decide; [by rewrite atoi_digits_LF|].
  change (c :: (s ++ [LF])) with ((c :: s) ++ [LF]).
  by rewrite atoi_digits_LF.
Qed.

Lemma atoi_LF s : atoi (s ++ [LF]) = atoi s.
Proof. unfold atoi, strtol. by rewrite number_of_LF. Qed.

Lemma first_column cc values :
  0 < cc → good_values cc values →
  ∃ tok rest,
    strtok_r ["|"%char]
      (strncpy (concat (map (column_bytes cc values) (seq 0 cc)))
         (MAX_ROW_LEN - 1))
    = Some (tok, rest)
    ∧ atoi tok = key_text cc values.
Proof.
  intros Hcc [Hne Hfit].
  assert (strncpy (concat (map (column_bytes cc values) (seq 0 cc)))
            (MAX_ROW_LEN - 1)
          = concat (map (column_bytes cc values) (seq 0 cc))) as ->.
  { unfold strncpy. rewrite c_str_id by apply columns_no_NUL.
    apply take_ge. unfold encode_row in Hfit. simpl in Hfit. lia. }
  destruct cc as [|n]; [lia|].
  unfold key_text, written_values in *. cbn [seq map hd concat] in *.
  apply Forall_cons in Hne as [Hw0 _].
  unfold column_bytes at 1.
  pose proof (sanitize_clean (strncpy (value_at values 0) (MAX_ROW_LEN - 1)))
    as Hclean.
  destruct (sanitize (strncpy (value_at values 0) (MAX_ROW_LEN - 1)))
    as [|c w]; [done|].
  assert (Forall (λ c, c ∉ ["|"%char]) (c :: w)) as Hnd.
  { eapply Forall_impl; [exact Hclean|]. intros x (Hx & _).
    by rewrite list_elem_of_singleton. }
  rewrite <- app_assoc.
  unfold strtok_r.
  replace (skip_delims ["|"%char] ((c :: w) ++ _))
    with ((c :: w) ++
          [if bool_decide (0 = S n - 1) then LF else "|"%char] ++
          concat (map (column_bytes (S n) values) (seq 1 n))).
  2: { cbn [app skip_delims]. unfold is_delim.
       rewrite (bool_decide_eq_false_2 (c ∈ _)); [done|].
       by apply Forall_cons in Hnd as [? _]. }
  change ((c :: w) ++ ?x) with (c :: (w ++ x)) at 1. cbv iota beta.
  change (c :: w ++ ?x) with ((c :: w) ++ x).
  rewrite token_of_prefix by done.
  do 2 eexists. split; [done|]. cbn [fst].
  case_bool_decide as H0.
  - assert (n = 0) as -> by lia. cbn [seq map concat app token_of].
    unfold is_delim.
    rewrite (bool_decide_eq_false_2 (LF ∈ _)).
    2: { rewrite list_elem_of_singleton. discriminate. }
    cbn [fst]. apply (atoi_LF (c :: w)).
  - cbn [app token_of]. unfold is_delim.
    rewrite (bool_decide_eq_true_2 ("|"%char ∈ _)).
    2: { by apply list_elem_of_singleton. }
    cbn [fst]. by rewrite app_nil_r.
Qed.

(** ** The loop of [compact_table] writes the rows again *)

Lemma insert_row_line cc tt R temp k values :
  table_inv cc tt R → data_file tt = Some temp → R !! k = None →
  insert_row tt k values
  = (Z.of_nat (length (contents temp)),
     with_index
       (with_file tt
          (Some (mkFile (path temp) (contents temp ++ encode_row cc values)
                   (length (contents temp) + length (encode_row cc values))
                   [])))
       (insert_key (primary_index tt) k (Z.of_nat (length (contents temp))))).
Proof.
  intros Hinv Hf HR.
  pose proof (proj2 (table_inv_search cc tt R k Hinv) HR) as Hsk.
  destruct Hinv as (f0 & _ & _ & _ & Hf0 & Hs & Hc & _).
  assert (f0 = temp) as -> by congruence.
  unfold insert_row. rewrite Hf, Hsk.
  rewrite bool_decide_eq_true_2 by done. cbn [negb].
  destruct (append_row_quiet (column_count tt) values temp Hs)
    as (f' & Ha & Hs').
  rewrite Ha. apply append_row_Some in Ha as (_ & Hc' & Hp' & Hpa').
  rewrite Hc in *. destruct f' as [p c q s]. simpl in *. subst.
  by rewrite length_app.
Qed.

Lemma compact_rows_replay cc : ∀ rest fuel f tt R temp pre,
  0 < cc →
  script f = [] → contents f = pre ++ concat (render cc <$> rest) →
  position f = length pre →
  table_inv cc tt R → data_file tt = Some temp →
  position temp = length (contents temp) →
  Forall (λ l, good_values cc (line_values l)) rest →
  Forall (λ l, match l with
               | Live k values => key_text cc values = k
               | Dead _ => True
               end) rest →
  NoDup (live_rows rest).*1 →
  (∀ k, k ∈ (live_rows rest).*1 → R !! k = None) →
  length rest < fuel →
  ∃ f1 temp1,
    compact_rows fuel f temp (primary_index tt)
      (Z.of_nat (length (contents temp)))
    = (f1, Some (temp1, primary_index (run_rows tt (replay rest))))
    ∧ data_file (run_rows tt (replay rest)) = Some temp1
    ∧ path f1 = path f ∧ contents f1 = contents f
    ∧ path temp1 = path temp
    ∧ contents temp1
      = contents temp
        ++ concat ((λ p, encode_row cc p.2) <$> live_rows rest).
Proof.
  induction rest as [|l rest IH];
    intros fuel f tt R temp pre Hcc Hs Hc Hp Hinv Hft Hend Hgood Hkey Hnd
      Hfresh Hfuel;
    (destruct fuel as [|fuel]; [simpl in Hfuel; lia|]); cbn [compact_rows].
  - rewrite fgets_eof; [|done|].
    2: { rewrite Hc, Hp. simpl. rewrite app_nil_r. lia. }
    exists f, temp. simpl. by rewrite app_nil_r.
  - apply Forall_cons in Hgood as [[Hne Hfit] Hgood].
    apply Forall_cons in Hkey as [Hk Hkey].
    destruct (render_line cc l Hcc) as (body & Hr & Hbody & Hcols).
    pose proof (length_render cc l) as Hlen. rewrite Hr in Hlen.
    cbn [length] in Hlen. rewrite length_app in Hlen. cbn [length] in Hlen.
    set (c := if is_live l then " "%char else DELETED_MARKER) in *.
    assert (c ≠ LF) as HcLF by (subst c; destruct (is_live l); discriminate).
    rewrite (fgets_line_file f (c :: body) (concat (render cc <$> rest))).
    2: done.
    2: { rewrite Hc, Hp, drop_app_length. rewrite fmap_cons. cbn [concat].
         rewrite Hr. cbn [app]. by rewrite <- app_assoc. }
    2: by constructor.
    2: { cbn [length]. lia. }
    set (f' := mkFile (path f) (contents f)
                 (position f + length ((c :: body) ++ [LF])) []).
    assert (contents f' = (pre ++ render cc l) ++ concat (render cc <$> rest))
      as Hc'.
    { subst f'. cbn [contents]. rewrite Hc, fmap_cons. cbn [concat].
      by rewrite app_assoc. }
    assert (position f' = length (pre ++ render cc l)) as Hp'.
    { subst f'. cbn [position]. rewrite Hp, Hr, !length_app.
      cbn [length]. rewrite ?length_app. cbn [length]. lia. }
    simpl in Hfuel.
    destruct l as [k v|v]; subst c; cbn [is_live hd] in *.
    + (* a row *)
      rewrite bool_decide_eq_true_2 by done.
      cbn [app tl line_values] in *. rewrite Hcols.
      destruct (first_column cc v Hcc (conj Hne Hfit))
        as (tok & rest0 & -> & Htok).
      rewrite Htok, Hk. fold (encode_row cc v).
      cbn [live_rows omap fmap list_fmap] in Hnd, Hfresh.
      fold (live_rows rest) in Hnd, Hfresh.
      apply NoDup_cons in Hnd as [Hnk Hnd]. cbn [fst] in *.
      assert (R !! k = None) as HR by (apply Hfresh; left).
      assert (c_str (encode_row cc v) = encode_row cc v) as ->.
      { apply c_str_id. constructor; [discriminate|]. apply columns_no_NUL. }
      pose proof Hinv as (f0 & _ & _ & _ & Hf0 & Hst & _).
      assert (f0 = temp) as -> by congruence.
      rewrite fwrite_quiet by done. cbn [negb].
      rewrite ftell_quiet by done. cbn [position].
      rewrite bool_decide_eq_false_2 by lia.
      rewrite Hend, write_at_end.
      pose proof (insert_row_line cc tt R temp k v Hinv Hft HR) as Hins.
      pose proof (table_inv_insert cc tt R k v Hinv (conj Hne Hfit) HR)
        as Hinv'.
      set (temp2 := mkFile (path temp) (contents temp ++ encode_row cc v)
                      (length (contents temp) + length (encode_row cc v))
                      []) in *.
      rewrite Hins in Hinv'. cbn [snd] in Hinv'.
      set (tt' := with_index (with_file tt (Some temp2))
                    (insert_key (primary_index tt) k
                       (Z.of_nat (length (contents temp))))) in *.
      destruct (IH fuel f' tt' (<[k := v]> R) temp2 (pre ++ render cc (Live k v)))
        as (f1 & temp1 & Hcr & Hdf & Hpf & Hcf & Hpt & Hct); try done.
      * subst temp2. cbn [position contents]. by rewrite length_app.
      * intros k' Hk'. rewrite lookup_insert_ne; [apply Hfresh; by right|].
        by intros <-.
      * lia.
      * exists f1, temp1.
        assert (run_rows tt (replay (Live k v :: rest))
                = run_rows tt' (replay rest)) as ->.
        { unfold run_rows, replay. simpl. by rewrite Hins. }
        split_and!; try done.
        -- rewrite <- Hcr. f_equal. subst temp2. cbn [contents].
           rewrite length_app. lia.
        -- rewrite Hct. subst temp2. cbn [contents].
           simpl. by rewrite <- app_assoc.
    + (* a line marked deleted *)
      rewrite bool_decide_eq_false_2 by discriminate.
      destruct (IH fuel f' tt R temp (pre ++ render cc (Dead v)))
        as (f1 & temp1 & Hcr & Hdf & Hpf & Hcf & Hpt & Hct); try done.
      * lia.
      * by exists f1, temp1.
Qed.

(** ** The rows and the lines *)

Lemma live_rows_elem ls k v :
  (k, v) ∈ live_rows ls ↔ ∃ i, ls !! i = Some (Live k v).
Proof.
  unfold live_rows. rewrite list_elem_of_omap. split.
  - intros (l & Hl & Hk). destruct l as [k' v'|]; [|done].
    injection Hk as -> ->. by apply list_elem_of_lookup_1.
  - intros [i Hi]. exists (Live k v). split; [|done].
    by eapply list_elem_of_lookup_2.
Qed.

Lemma live_rows_NoDup ls :
  (∀ i j k v v', ls !! i = Some (Live k v) → ls !! j = Some (Live k v')
                 → i = j) →
  NoDup (live_rows ls).*1.
Proof.
  induction ls as [|l ls IH]; intros Hinj; [constructor|].
  assert (NoDup (live_rows ls).*1) as Hnd.
  { apply IH. intros i j k v v' Hi Hj.
    by injection (Hinj (S i) (S j) k v v' Hi Hj). }
  destruct l as [k v|v]; [|done].
  change (live_rows (Live k v :: ls)) with ((k, v) :: live_rows ls).
  rewrite fmap_cons. apply NoDup_cons. split; [|done].
  intros Hin. apply list_elem_of_fmap in Hin as ([k' v'] & Hk & Hin).
  simpl in Hk. subst k'. apply live_rows_elem in Hin as [j Hj].
  by specialize (Hinj 0 (S j) k v v' eq_refl Hj).
Qed.

Lemma table_log_rows cc tb R ls :
  table_log cc tb R ls →
  NoDup (live_rows ls).*1 ∧ R = list_to_map (live_rows ls).
Proof.
  intros (f & M & pos & Hrep & Hlog & _).
  destruct Hrep as (_ & _ & _ & _ & _ & _ & Hnone & Hsome & _).
  assert (NoDup (live_rows ls).*1) as Hnd.
  { apply live_rows_NoDup. intros i j k v v' Hi Hj.
    apply Hlog in Hi as [Hi _]. apply Hlog in Hj as [Hj _]. congruence. }
  split; [done|]. apply map_eq. intros k.
  destruct (R !! k) as [v|] eqn:HR.
  - symmetry. apply elem_of_list_to_map_1; [done|].
    apply live_rows_elem. destruct (Hsome _ _ HR) as (_ & i & Hp & _).
    exists i. by apply Hlog.
  - symmetry. apply not_elem_of_list_to_map_1. intros Hin.
    apply list_elem_of_fmap in Hin as ([k' v'] & Hk & Hin).
    simpl in Hk. subst k'. apply live_rows_elem in Hin as [i Hi].
    apply Hlog in Hi as [_ Hi]. congruence.
Qed.

Lemma rows_of_inserts (l : list (Z * list (option cstring))) : ∀ R0,
  NoDup l.*1 → (∀ k, k ∈ l.*1 → R0 !! k = None) →
  foldl row_step R0 ((λ p, RInsert p.1 p.2) <$> l) = list_to_map l ∪ R0.
Proof.
  induction l as [|[k v] l IH]; intros R0 Hnd Hfresh.
  - simpl. by rewrite (left_id ∅ (∪)).
  - rewrite fmap_cons in Hnd. apply NoDup_cons in Hnd as [Hk Hnd].
    simpl in Hk |- *. rewrite (Hfresh k) by (rewrite fmap_cons; left).
    rewrite IH; [|done|].
    + rewrite <- insert_union_l. symmetry. apply insert_union_r.
      by apply not_elem_of_list_to_map_1.
    + intros k' Hk'. rewrite lookup_insert_ne by (by intros <-).
      apply Hfresh. rewrite fmap_cons. by right.
Qed.

Lemma length_lines cc (ls : list line) :
  length ls ≤ length (concat (render cc <$> ls)).
Proof.
  induction ls as [|l ls IH]; [simpl; lia|].
  rewrite fmap_cons. cbn [concat length]. rewrite length_app.
  destruct l; cbn [render]; unfold encode_row; cbn [tl length]; lia.
Qed.

Lemma table_inv_same cc tb tb' R f f' :
  table_inv cc tb R → data_file tb = Some f → data_file tb' = Some f' →
  contents f' = contents f → script f' = [] →
  column_count tb' = column_count tb →
  primary_index tb' = primary_index tb →
  table_inv cc tb' R.
Proof.
  intros (f0 & M & segs & pos & Hf0 & Hs & Hc & Hti & Hcont & H1 & H2 & H3 & H4)
    Hf Hf' Hcf Hsf Hcc Hix.
  assert (f0 = f) as -> by congruence.
  exists f', M, segs, pos. rewrite <- Hix in Hti.
  split_and!; try done; congruence.
Qed.

(** ** Names and paths *)

Lemma apply_row_op_file cc tb R o f :
  table_inv cc tb R → good_op cc o → data_file tb = Some f →
  name (apply_row_op tb o) = name tb
  ∧ ∃ f', data_file (apply_row_op tb o) = Some f' ∧ path f' = path f.
Proof.
  intros Hinv Hgood Hf.
  pose proof (table_inv_search cc tb R) as Hsk.
  destruct o as [k v|k v|k]; simpl in *.
  - destruct (R !! k) as [v0|] eqn:HR.
    + rewrite insert_row_present by (rewrite Hsk, HR; done). eauto.
    + rewrite (insert_row_line cc tb R f k v) by done. simpl. eauto.
  - destruct (R !! k) as [v0|] eqn:HR.
    + destruct (update_row_marked cc tb R k v v0 f Hinv HR Hf) as [Hm ->].
      cbv zeta in Hm.
      erewrite (insert_row_line cc _ (delete k R) _ k v);
        [|exact Hm|done|apply lookup_delete_eq].
      simpl. eauto.
    + rewrite (proj2 (delete_update_absent tb k v (proj2 (Hsk k Hinv) HR))).
      eauto.
  - destruct (R !! k) as [v0|] eqn:HR.
    + rewrite (delete_row_marked cc tb R k v0 f Hinv HR Hf). simpl. eauto.
    + rewrite (proj1 (delete_update_absent tb k [] (proj2 (Hsk k Hinv) HR))).
      eauto.
Qed.

Lemma run_rows_file cc ops : ∀ tb R f,
  table_inv cc tb R → Forall (good_op cc) ops → data_file tb = Some f →
  name (foldl apply_row_op tb ops) = name tb
  ∧ ∃ f', data_file (foldl apply_row_op tb ops) = Some f' ∧ path f' = path f.
Proof.
  induction ops as [|o ops IH]; intros tb R f Hinv Hgood Hf; [by eauto|].
  apply Forall_cons in Hgood as [Ho Hgood]. simpl.
  destruct (apply_row_op_file cc tb R o f Hinv Ho Hf) as (Hn & f1 & Hf1 & Hp1).
  destruct (IH _ _ f1 (table_inv_step cc tb R o Hinv Ho) Hgood Hf1)
    as (Hn' & f' & Hf' & Hp').
  split; [congruence|]. exists f'. split; [done|congruence].
Qed.

Lemma replay_good cc ls :
  Forall (λ l, good_values cc (line_values l)) ls →
  Forall (good_op cc) (replay ls).
Proof.
  intros Hgood. unfold replay. apply Forall_fmap, Forall_forall.
  intros [k v] Hin. apply live_rows_elem in Hin as [i Hi]. simpl.
  rewrite Forall_forall in Hgood.
  apply (Hgood (Live k v)). by eapply list_elem_of_lookup_2.
Qed.

(** ** [compact_table] *)

(** X18. For a table that began with an empty file and an empty index and went
    through row operations whose values can be read back and whose first
    column is the key in decimal, when the working directory has a file
    [<name>.dat] (the file of the table or another), [compact_table]
    succeeds and keeps the rows: [read_row] gives for every key what it
    gave before, the table is left with the file [<name>.dat], which holds
    one line for each row of the table and no line marked deleted, and the
    temporary file is gone. *)
Theorem compact_table_keeps_rows (cwd : string) (d : disk) (tb : Table)
  (f : FILE) (ops : list row_op) :
  data_file tb = Some f → script f = [] → contents f = [] →
  primary_index tb = initialize_tree → 0 < column_count tb →
  Forall (keyed_op (column_count tb)) ops →
  temp_filename cwd tb ≠ old_filename cwd tb →
  path f ≠ temp_filename cwd tb →
  path f = old_filename cwd tb ∨ is_Some (d !! old_filename cwd tb) →
  let tb1 := run_rows tb ops in
  let r := compact_table cwd d tb1 in
  (∀ k, (read_row r.2 k).1 = (read_row tb1 k).1)
  ∧ ∃ f' rows,
      data_file r.2 = Some f' ∧ path f' = old_filename cwd tb
      ∧ r.1 !! old_filename cwd tb = Some (contents f')
      ∧ r.1 !! temp_filename cwd tb = None
      ∧ rows ≡ₚ (map_to_list (rows_of ops)).*2
      ∧ contents f' = concat (encode_row (column_count tb) <$> rows).
Proof.
  intros Hf Hs Hc Hix Hcc Hops Hto Hpt Hold tb1 r.
  set (cc := column_count tb) in *.
  assert (Forall (good_op cc) ops) as Hgood.
  { eapply Forall_impl; [exact Hops|]. by intros o [? _]. }
  destruct (table_log_run cc ops tb ∅ []
              (table_log_new cc tb f Hf Hs Hc Hix eq_refl) Hops) as [ls Hlog].
  fold (run_rows tb ops) in Hlog. fold (rows_of ops) in Hlog. fold tb1 in Hlog.
  set (R := rows_of ops) in *.
  pose proof (table_log_inv _ _ _ _ Hlog) as Hinv.
  destruct (table_log_rows _ _ _ _ Hlog) as [Hnd HR].
  destruct (run_rows_file cc ops tb ∅ f (table_inv_new tb f Hf Hs Hix) Hgood Hf)
    as (Hname & f1 & Hf1 & Hp1).
  fold (run_rows tb ops) in Hname, Hf1. fold tb1 in Hname, Hf1.
  pose proof Hlog as (f1' & M & pos & Hrep & Hlok & Hlgood & Hlkey).
  pose proof Hrep as (Hf1' & Hs1 & Hcc1 & _ & Hcont1 & _).
  assert (f1' = f1) as -> by congruence.
  assert (temp_filename cwd tb1 = temp_filename cwd tb) as Htn
    by (unfold temp_filename; by rewrite Hname).
  assert (old_filename cwd tb1 = old_filename cwd tb) as Hon
    by (unfold old_filename; by rewrite Hname).
  subst r. unfold compact_table. rewrite Hf1. cbv zeta.
  fold (temp_filename cwd tb1). fold (old_filename cwd tb1). rewrite Htn, Hon.
  set (f0 := mkFile (path f1) (contents f1) 0 (script f1)).
  set (temp := mkFile (temp_filename cwd tb) [] 0 []).
  set (tt := mkTable (name tb1) (columns tb1) cc initialize_tree (Some temp)).
  assert (table_inv cc tt ∅) as Htt by (by apply (table_inv_new tt temp)).
  destruct (compact_rows_replay cc ls (S (length (contents f0))) f0 tt ∅ temp [])
    as (f2 & temp1 & Hcr & Hdf & Hpf & Hcf & Hpt1 & Hct); try done.
  { subst f0. cbn [contents]. rewrite Hcont1.
    pose proof (length_lines cc ls). lia. }
  change (primary_index tt) with initialize_tree in Hcr.
  change (Z.of_nat (length (contents temp))) with 0%Z in Hcr.
  rewrite Hcr. clear Hcr.
  set (tt1 := run_rows tt (replay ls)) in *.
  assert (table_inv cc tt1 R) as Hinv1.
  { pose proof (table_inv_run cc (replay ls) tt ∅ Htt
                  (replay_good cc ls Hlgood)) as H.
    unfold replay in H at 2. rewrite rows_of_inserts in H; [|done|].
    - by rewrite (right_id ∅ (∪)), <- HR in H.
    - intros k _. apply lookup_empty. }
  pose proof Hinv1 as (t1 & _ & _ & _ & Hdt & Hst & Hcct & _).
  assert (t1 = temp1) as -> by congruence.
  unfold fflush. rewrite io_call_quiet by done. cbn [negb].
  unfold fclose. rewrite Hpt1, Hpf. subst f0 temp. cbn [path]. rewrite Hp1.
  set (old := old_filename cwd tb) in *. set (tmp := temp_filename cwd tb) in *.
  assert (is_Some (<[path f := contents f2]>
                     (<[tmp := contents temp1]> (<[tmp := []]> d)) !! old))
    as [x Hx].
  { destruct (decide (path f = old)) as [->|Hne].
    - rewrite lookup_insert_eq. by eexists.
    - rewrite !lookup_insert_ne by done. by destruct Hold. }
  rewrite Hx.
  rewrite lookup_delete_ne by done.
  rewrite lookup_insert_ne by done. rewrite lookup_insert_eq.
  unfold fopen_update. rewrite lookup_insert_eq. cbn [fst snd].
  set (f' := mkFile old (contents temp1) 0 []).
  assert (table_inv cc
            (with_index (with_file (with_file tb1 None) (Some f'))
               (primary_index tt1)) R) as Hinv'.
  { apply (table_inv_same cc tt1 _ R temp1 f'); try done.
    cbn [column_count with_index with_file]. congruence. }
  split.
  - intros k. rewrite (table_inv_read cc _ R k Hcc Hinv').
    by rewrite (table_inv_read cc _ R k Hcc Hinv).
  - exists f', (live_rows ls).*2. split_and!; try done.
    + by rewrite lookup_insert_eq.
    + rewrite lookup_insert_ne by done. apply lookup_delete_eq.
    + rewrite HR. apply fmap_Permutation. symmetry.
      by apply map_to_list_to_map.
    + subst f'. cbn [contents]. rewrite Hct. cbn [contents app].
      by rewrite <- list_fmap_compose.
Qed.

#[local] Transparent MAX_ROW_LEN.

(** * The theorems at sample inputs *)

Lemma search_key_latest_sample :
  no_dup_insert [] sample_ops = true
  ∧ search_key (run sample_ops) 3 = 33%Z
  ∧ search_key (run sample_ops) 8 = (-1)%Z.
Proof.
  split; [reflexivity|]. split.
  - apply (search_key_latest sample_ops 3). reflexivity.
  - apply (search_key_latest sample_ops 8). reflexivity.
Defined.

Lemma index_invariants_sample :
  no_dup_insert [] sample_ops = true
  ∧ leaf_chain_keys (run sample_ops) = inorder_keys (run sample_ops)
  ∧ StronglySorted Z.lt (leaf_chain_keys (run sample_ops)).
Proof.
  split; [reflexivity|].
  pose proof (index_invariants sample_ops eq_refl) as H. cbv zeta in H.
  split; apply H.
Defined.

Lemma insert_row_existing_key_sample :
  search_key (primary_index table1) 1 ≠ (-1)%Z
  ∧ insert_row table1 1 [Some ["b"%char]] = ((-1)%Z, table1).
Proof.
  assert (search_key (primary_index table1) 1 ≠ (-1)%Z) as H
    by (vm_compute; discriminate).
  split; [exact H|]. apply insert_row_existing_key. exact H.
Defined.


Lemma rows_truncate_values_sample :
  (∃ tb' f',
     insert_row table2 1 [None; Some long_value] = (0%Z, tb')
     ∧ data_file tb' = Some f'
     ∧ contents f'
       = " "%char :: "|"%char :: replicate 4095 "x"%char ++ [LF])
  ∧ (∃ tb' f',
       update_row table3 1 [None; Some long_value] = (5%Z, tb')
       ∧ data_file tb' = Some f'
       ∧ contents f'
         = ["#"; "a"; "|"; "b"; LF; " "; "|"]%char
           ++ replicate 4095 "x"%char ++ [LF]).
Proof.
  assert (c_strings [None; Some long_value]) as Hv.
  { apply Forall_cons. split; [apply not_elem_of_nil|].
    apply Forall_cons. split; [|apply Forall_nil; exact I].
    simpl. unfold long_value. intros [H _]%elem_of_replicate. discriminate. }
  split.
  - destruct (proj1 (rows_truncate_values table2 (mkFile "u.dat" [] 0 []) 1
                       [None; Some long_value] eq_refl eq_refl eq_refl
                       (Nat.lt_0_succ 1) Hv) eq_refl)
      as (tb' & f' & H1 & H2 & H3).
    exists tb', f'. split; [exact H1|]. split; [exact H2|].
    rewrite H3. vm_compute. reflexivity.
  - destruct (proj2 (rows_truncate_values table3
                       (mkFile "u.dat" [" "; "a"; "|"; "b"; LF]%char 5 []) 1
                       [None; Some long_value] eq_refl eq_refl eq_refl
                       (Nat.lt_0_succ 1) Hv))
      as (tb' & f' & H1 & H2 & H3).
    + vm_compute. split; [discriminate|reflexivity].
    + exists tb', f'. split; [exact H1|]. split; [exact H2|].
      rewrite H3. vm_compute. reflexivity.
Defined.

Lemma read_row_extra_columns_sample :
  column_count wide_line_table = 1
  ∧ (read_row wide_line_table 1).1 = Some [["a"%char]].
Proof.
  split; [reflexivity|].
  destruct (read_row_extra_columns wide_line_table
              (mkFile "t.dat" [" "; "a"; "|"; "b"; LF]%char 0 []) 1 eq_refl)
    as (_ & _ & H).
  rewrite (H [] [] " "%char [["a"%char]; ["b"%char]]).
  - vm_compute. reflexivity.
  - reflexivity.
  - vm_compute. reflexivity.
  - reflexivity.
  - discriminate.
  - apply Forall_cons. split.
    + split; [discriminate|].
      apply Forall_cons. split; [|apply Forall_nil; exact I].
      unfold plain_char. repeat split; discriminate.
    + apply Forall_cons. split; [|apply Forall_nil; exact I].
      split; [discriminate|].
      apply Forall_cons. split; [|apply Forall_nil; exact I].
      unfold plain_char. repeat split; discriminate.
  - apply Nat.ltb_lt. vm_compute. reflexivity.
Defined.

Lemma update_row_read_back_sample :
  (read_row (update_row table1 1 [Some ["b"%char]]).2 1).1 = Some [["b"%char]].
Proof.
  destruct (update_row_read_back table1 (mkFile "t.dat" [" "; "a"; LF]%char 3 [])
              [Ins 1 0] 1 [Some ["b"%char]])
    as (new & tb' & Hu & _ & _ & _ & HV).
  - vm_compute. reflexivity.
  - reflexivity.
  - vm_compute. reflexivity.
  - reflexivity.
  - vm_compute. discriminate.
  - vm_compute. lia.
  - replace (written_values (column_count table1) [Some ["b"%char]])
      with [["b"%char]] by (vm_compute; reflexivity).
    repeat constructor. discriminate.
  - apply Nat.ltb_lt. vm_compute. reflexivity.
  - rewrite Hu. cbn [snd]. apply (HV [["b"%char]]).
    + reflexivity.
    + vm_compute. reflexivity.
    + apply Forall_cons. split; [|apply Forall_nil; exact I].
      split; [|apply Nat.leb_le; vm_compute; reflexivity].
      apply Forall_cons. split; [|apply Forall_nil; exact I].
      unfold plain_char. repeat split; discriminate.
Defined.

Lemma split_leaf_node_halves_sample :
  let t := run [Ins 1 10; Ins 2 20; Ins 3 30; Ins 4 40] in
  let t8 := (split_leaf_node t 0 5 50).2 in
  take 2 (keys (node_at t8 0)) = [1; 2]%Z
  ∧ take 3 (keys (node_at t8 1)) = [3; 4; 5]%Z.
Proof.
  cbv zeta.
  pose proof (split_leaf_node_halves
                (run [Ins 1 10; Ins 2 20; Ins 3 30; Ins 4 40]) 0
                (node_at (run [Ins 1 10; Ins 2 20; Ins 3 30; Ins 4 40]) 0)
                None [1; 2; 3; 4]%Z [10; 20; 30; 40]%Z 5 50) as H.
  cbv zeta in H.
  destruct H as (_ & _ & _ & H1 & _ & H2 & _).
  - vm_compute. reflexivity.
  - unfold node_is, arrays_ok. vm_compute. repeat split; lia.
  - reflexivity.
  - vm_compute. lia.
  - split; [exact H1|]. exact H2.
Defined.

Lemma delete_key_absent_sample :
  delete_key (run sample_ops) 8 = run sample_ops.
Proof.
  apply delete_key_absent. right. exists sample_ops.
  split; [reflexivity|]. split; reflexivity.
Defined.

Lemma compact_table_closes_sample :
  let tb := (insert_row created_table 1 [Some ["a"%char]]).2 in
  (read_row tb 1).1 = Some [["a"%char]]
  ∧ (read_row (compact_table "/srv" created_disk tb).2 1).1 = None.
Proof.
  cbv zeta. split; [vm_compute; reflexivity|].
  eapply compact_table_closes.
  - vm_compute. reflexivity.
  - vm_compute. reflexivity.
  - vm_compute. discriminate.
  - vm_compute. discriminate.
Defined.

(** * More theorems at sample inputs *)

Ltac good_values_sample :=
  split;
  [ match goal with |- Forall _ ?l =>
      let l' := eval vm_compute in l in
      replace l with l' by (vm_compute; reflexivity)
    end;
    repeat (apply Forall_cons; split; [discriminate|]); apply Forall_nil; exact I
  | apply Nat.ltb_lt; vm_compute; reflexivity ].

Ltac good_ops_sample :=
  repeat (apply Forall_cons; split; [first [exact I | good_values_sample]|]);
  apply Forall_nil; exact I.

Lemma find_leaf_node_leaf_sample :
  no_dup_insert [] sample_ops = true
  ∧ ∃ leaf, find_leaf_node (run sample_ops) (root (run sample_ops)) 4
            = Some leaf
            ∧ is_leaf (node_at (run sample_ops) leaf) = true
            ∧ leaf ∈ tree_nodes (run sample_ops).
Proof.
  split; [reflexivity|]. exact (find_leaf_node_leaf sample_ops 4 eq_refl).
Defined.

Lemma leaves_on_one_level_sample :
  no_dup_insert [] sample_ops = true
  ∧ ∃ height, ∀ a l, (a, l) ∈ print_tree (run sample_ops) →
      l ≤ height ∧ (is_leaf (node_at (run sample_ops) a) = true ↔ l = height).
Proof.
  split; [reflexivity|]. exact (leaves_on_one_level sample_ops eq_refl).
Defined.

Lemma parent_pointers_sample :
  no_dup_insert [] sample_ops = true
  ∧ ∃ r, root (run sample_ops) = Some r
         ∧ parent (node_at (run sample_ops) r) = None.
Proof.
  split; [reflexivity|]. exact (proj1 (parent_pointers sample_ops eq_refl)).
Defined.

Lemma tree_nodes_allocated_sample :
  no_dup_insert [] sample_ops = true ∧ NoDup (tree_nodes (run sample_ops)).
Proof.
  split; [reflexivity|]. exact (proj1 (tree_nodes_allocated sample_ops eq_refl)).
Defined.

Lemma leaf_chain_keys_present_sample :
  no_dup_insert [] sample_ops = true
  ∧ (4%Z ∈ leaf_chain_keys (run sample_ops)
     ↔ is_Some (latest (rev sample_ops) 4)).
Proof.
  split; [reflexivity|]. exact (leaf_chain_keys_present sample_ops 4 eq_refl).
Defined.

Lemma separators_bound_sample :
  no_dup_insert [] sample_ops = true
  ∧ (∀ k, k ∈ inorder_from (S (brk (run sample_ops))) (run sample_ops) 0
          → (k < key_at (node_at (run sample_ops) 2) 0)%Z)
  ∧ (∀ k, k ∈ inorder_from (S (brk (run sample_ops))) (run sample_ops) 1
          → (key_at (node_at (run sample_ops) 2) 0 ≤ k)%Z).
Proof.
  split; [reflexivity|].
  apply (separators_bound sample_ops eq_refl 2 0 0 1).
  - vm_compute. apply list_elem_of_here.
  - vm_compute. reflexivity.
  - vm_compute. lia.
  - vm_compute. reflexivity.
  - vm_compute. reflexivity.
Defined.


Lemma insert_row_empty_value_sample :
  written_values (column_count (table0 [])) [None] !! 0 = Some []
  ∧ (insert_row (table0 []) 1 [None]).1 = 0%Z
  ∧ (read_row (insert_row (table0 []) 1 [None]).2 1).1 = None.
Proof.
  split; [vm_compute; reflexivity|].
  destruct (insert_row_empty_value (table0 []) (mkFile "t.dat" [] 0 []) []
              1 [None] 0) as (off & tb' & Heq & Hoff & _ & Hr).
  - reflexivity.
  - reflexivity.
  - vm_compute. reflexivity.
  - reflexivity.
  - reflexivity.
  - vm_compute. lia.
  - vm_compute. reflexivity.
  - apply Nat.ltb_lt. vm_compute. reflexivity.
  - rewrite Heq. cbn [fst snd]. split; [exact Hoff|exact Hr].
Defined.


Lemma delete_row_done_sample :
  (delete_row table1 1).1 = 0%Z
  ∧ search_key (primary_index (delete_row table1 1).2) 1 = (-1)%Z
  ∧ (read_row (delete_row table1 1).2 1).1 = None.
Proof.
  split; [vm_compute; reflexivity|].
  destruct (delete_row_done table1 (delete_row table1 1).2
              (mkFile "t.dat" [" "; "a"; LF]%char 3 []) [Ins 1 0] 1)
    as (H1 & _ & H2 & _).
  - vm_compute. reflexivity.
  - vm_compute. reflexivity.
  - reflexivity.
  - vm_compute. reflexivity.
  - split; [exact H1|exact H2].
Defined.

Lemma read_row_latest_sample :
  (read_row (run_rows (table0 []) sample_row_ops) 1).1 = Some [["c"%char]]
  ∧ (read_row (run_rows (table0 []) sample_row_ops) 2).1 = None.
Proof.
  assert (Forall (good_op (column_count (table0 []))) sample_row_ops) as Hg
    by (unfold sample_row_ops; good_ops_sample).
  split.
  - rewrite (read_row_latest (table0 []) (mkFile "t.dat" [] 0 [])
               sample_row_ops 1 eq_refl eq_refl eq_refl ltac:(simpl; lia) Hg).
    vm_compute. reflexivity.
  - rewrite (read_row_latest (table0 []) (mkFile "t.dat" [] 0 [])
               sample_row_ops 2 eq_refl eq_refl eq_refl ltac:(simpl; lia) Hg).
    vm_compute. reflexivity.
Defined.

Lemma create_table_database_sample :
  database_ok db0
  ∧ database_ok (create_table "/srv" ∅ db0 "t" ["c"%string] 1).1.2
  ∧ create_table "/srv" ∅ db0 "" ["c"%string] 1 = (None, db0, ∅).
Proof.
  assert (database_ok db0) as H.
  { split; [apply NoDup_nil; exact I|]. apply Nat.leb_le. reflexivity. }
  split; [exact H|]. split.
  - destruct (proj2 (create_table_database "/srv" ∅ db0 "t" ["c"%string] 1 H)
                created_table) as [H1 _].
    + vm_compute. reflexivity.
    + exact H1.
  - apply (proj1 (create_table_database "/srv" ∅ db0 "" ["c"%string] 1 H)).
    right. left. reflexivity.
Defined.

Lemma rollback_transaction_clears_sample :
  (read_row table1 1).1 = Some [["a"%char]]
  ∧ (read_row (rollback_transaction table1) 1).1 = None
  ∧ (contents <$> data_file (rollback_transaction table1)) = Some [].
Proof.
  split; [vm_compute; reflexivity|].
  destruct (rollback_transaction_clears table1
              (mkFile "t.dat" [" "; "a"; LF]%char 3 []) [] 1)
    as (_ & H1 & H2 & _).
  - vm_compute. reflexivity.
  - reflexivity.
  - vm_compute. lia.
  - apply Forall_nil. exact I.
  - split; [exact H2|exact H1].
Defined.

Lemma compact_table_no_longer_sample :
  ∃ f f',
    data_file sample_compact_table = Some f
    ∧ data_file (compact_table "/srv" sample_compact_disk
                   sample_compact_table).2 = Some f'
    ∧ length (contents f') ≤ length (contents f).
Proof.
  eexists _, _. split; [vm_compute; reflexivity|].
  split; [vm_compute; reflexivity|].
  eapply (compact_table_no_longer "/srv" sample_compact_disk
            sample_compact_table).
  - vm_compute. reflexivity.
  - vm_compute. reflexivity.
Defined.

Lemma sample_schema_new tb ops :
  tb = sample_table → ops = [] ∨ ops = [RInsert 7 sample_values] →
  new_table tb ∧ Forall (good_op (column_count tb)) ops.
Proof.
  intros -> Hops. split.
  - split; [reflexivity|]. split; [simpl; lia|]. eexists. split; reflexivity.
  - destruct Hops as [->| ->]; [apply Forall_nil; exact I|].
    unfold sample_values. good_ops_sample.
Defined.

Lemma save_model_instance_find_sample :
  ∃ inst,
    save_model_instance
      (Some (mkInstance (Some (sample_schema sample_table))
               (Some sample_values) (-1)%Z))
    = (0%Z, Some inst)
    ∧ data <$> (find_model_by_primary_key (model_schema inst) 7).1
      = Some (Some sample_values).
Proof.
  destruct (sample_schema_new sample_table [] eq_refl (or_introl eq_refl))
    as [Hnew Hgood].
  destruct (save_model_instance_find (sample_schema sample_table) sample_table
              [] sample_values (-1)%Z ["7"%char] 7 Hnew Hgood)
    as (inst & Hs & _ & _ & Hd & _).
  - reflexivity.
  - reflexivity.
  - vm_compute. discriminate.
  - vm_compute. reflexivity.
  - vm_compute. reflexivity.
  - unfold sample_values. good_values_sample.
  - split; intros _; vm_compute; reflexivity.
  - exists inst. split; [exact Hs|]. rewrite Hd. vm_compute. reflexivity.
Defined.

Lemma save_model_instance_wrong_offset_sample :
  save_model_instance
    (Some (mkInstance (Some (sample_schema sample_table))
             (Some sample_values) 5%Z))
  = ((-1)%Z,
     Some (mkInstance (Some (sample_schema sample_table))
             (Some sample_values) 5%Z)).
Proof.
  destruct (sample_schema_new sample_table [] eq_refl (or_introl eq_refl))
    as [Hnew Hgood].
  apply (save_model_instance_wrong_offset (sample_schema sample_table)
           sample_table [] sample_values 5%Z ["7"%char] Hnew Hgood).
  - reflexivity.
  - vm_compute. discriminate.
  - vm_compute. reflexivity.
  - right. split; [discriminate|vm_compute; reflexivity].
Defined.

Lemma delete_model_instance_find_sample :
  ∃ inst,
    delete_model_instance
      (Some (mkInstance
               (Some (sample_schema
                        (run_rows sample_table [RInsert 7 sample_values])))
               (Some sample_values) 0%Z))
    = (0%Z, Some inst)
    ∧ record_offset inst = (-1)%Z
    ∧ data <$> (find_model_by_primary_key (model_schema inst) 7).1 = None.
Proof.
  destruct (sample_schema_new sample_table [RInsert 7 sample_values] eq_refl
              (or_intror eq_refl)) as [Hnew Hgood].
  destruct (delete_model_instance_find
              (sample_schema (run_rows sample_table [RInsert 7 sample_values]))
              sample_table [RInsert 7 sample_values] sample_values 0%Z
              ["7"%char] 7 Hnew Hgood)
    as (inst & Hs & _ & Ho & Hd).
  - reflexivity.
  - reflexivity.
  - vm_compute. discriminate.
  - vm_compute. reflexivity.
  - vm_compute. reflexivity.
  - discriminate.
  - eexists. vm_compute. reflexivity.
  - exists inst. split; [exact Hs|]. split; [exact Ho|].
    rewrite Hd. vm_compute. reflexivity.
Defined.

Lemma define_model_schema_sample :
  sample_defined.1.1 = Some sample_model
  ∧ ∃ tb, table_ref sample_model = Some tb ∧ new_table tb
          ∧ field_count sample_model = Z.of_nat (column_count tb).
Proof.
  split; [vm_compute; reflexivity|].
  destruct (define_model_schema "/srv" ∅ sample_defined.2 db0
              sample_defined.1.2 (Some "t"%string) (Some sample_fields) 2
              None 0 sample_model)
    as (tb & H1 & H2 & _ & H3 & _).
  - vm_compute. reflexivity.
  - exists tb. split; [exact H1|]. split; [exact H2|exact H3].
Defined.

Lemma db_set_field_get_sample :
  ∃ inst,
    db_set_field true
      (Some (mkInstance (Some sample_model) (Some [None; None]) (-1)%Z))
      (Some "title"%string) (Some ["x"%char])
    = (0%Z, Some inst)
    ∧ db_get_field true (Some inst) (Some "title"%string) = Some ["x"%char].
Proof.
  destruct (db_set_field_get sample_model sample_fields [None; None] (-1)%Z
              "title" (Some ["x"%char])) as [_ H].
  - vm_compute. reflexivity.
  - vm_compute. reflexivity.
  - destruct H as (inst & H1 & _ & _ & H2 & _).
    + apply list_elem_of_fmap.
      exists (mkField (Some "title"%string) (Some "string"%string) 0 0
                None None).
      split; [reflexivity|]. vm_compute.
      apply list_elem_of_further, list_elem_of_here.
    + exists inst. split; [exact H1|]. rewrite H2. vm_compute. reflexivity.
Defined.

Lemma compact_table_keeps_rows_sample :
  (read_row (run_rows sample_keyed_table sample_keyed_ops) 8).1
  = Some [["8"%char]; ["z"%char]]
  ∧ (read_row
       (compact_table "/srv" ∅
          (run_rows sample_keyed_table sample_keyed_ops)).2 8).1
    = Some [["8"%char]; ["z"%char]].
Proof.
  assert ((read_row (run_rows sample_keyed_table sample_keyed_ops) 8).1
          = Some [["8"%char]; ["z"%char]]) as H by (vm_compute; reflexivity).
  split; [exact H|]. rewrite <- H.
  apply (compact_table_keeps_rows "/srv" ∅ sample_keyed_table
           (mkFile "/srv/t.dat" [] 0 []) sample_keyed_ops).
  - reflexivity.
  - reflexivity.
  - reflexivity.
  - reflexivity.
  - simpl. lia.
  - unfold sample_keyed_ops.
    repeat (apply Forall_cons; split;
            [split; [first [exact I | good_values_sample]
                    |first [exact I | vm_compute; reflexivity]]|]).
    apply Forall_nil. exact I.
  - vm_compute. discriminate.
  - vm_compute. discriminate.
  - left. vm_compute. reflexivity.
Defined.
